(** * TetODE: the deterministic reaction-diffusion engine of STEPS 2.0.0

    A shallow embedding of [steps::tetode::TetODE] (the solver source,
    [tetode.hpp] and its implementation file) together with the properties
    the specification states about it.

    Conventions of the embedding:
    - [uint] is a 32-bit unsigned integer, carried as [N] with the
      wrap-around of every arithmetic operation written out;
    - [double] is carried as an exact rational [Qc]: rounding, infinities
      and NaN are outside the model, the algebra of the formulas is inside;
    - a [std::vector] is a [list], indexed with stdpp's lookup; an access
      outside the vector (undefined behaviour in the source) and a failed
      [assert] both end the computation with [Abort];
    - a C++ exception is the outcome [Throw]. *)

From Stdlib Require Import ZArith NArith QArith Qcanon Qround Lia String.
From stdpp Require Import base option list numbers strings pretty.

Local Open Scope N_scope.

(** ** Machine integers *)

Module UInt.

Definition modulus : N := 2 ^ 32.

Definition wrap (n : N) : N := n mod modulus.

Definition add (a b : N) : N := wrap (a + b).
Definition mul (a b : N) : N := wrap (a * b).

(** [a - b] on [uint]: the result is taken modulo [2^32]. *)
Definition sub (a b : N) : N :=
  Z.to_N ((Z.of_N a - Z.of_N b) mod Z.of_N modulus).

(** [static_cast<int>(n)] for a [uint] value: the two's complement reading. *)
Definition to_int (n : N) : Z :=
  let w := wrap n in
  if w <? 2 ^ 31 then Z.of_N w else Z.of_N w - Z.of_N modulus.

(** Wrap-around of [int] arithmetic (two's complement, as compiled). *)
Definition wrap_int (z : Z) : Z :=
  ((z + 2 ^ 31) mod 2 ^ 32 - 2 ^ 31)%Z.

End UInt.

Infix "+u" := UInt.add (at level 50, left associativity) : N_scope.
Infix "*u" := UInt.mul (at level 40, left associativity) : N_scope.
Infix "-u" := UInt.sub (at level 50, left associativity) : N_scope.

(** ** Reals *)

Abbreviation real := Qc (only parsing).

(** [pow(x, e)] of [<cmath>] for an integral exponent [e]. *)
Definition pow (x : real) (e : Z) : real :=
  match e with
  | Z0 => 1%Qc
  | Zpos p => (x ^ Pos.to_nat p)%Qc
  | Zneg p => (/ (x ^ Pos.to_nat p))%Qc
  end.

(** [steps::math::AVOGADRO], from [math/constants.hpp]: 6.02214179e23. *)
Definition AVOGADRO : real := Q2Qc (602214179000000000000000 # 1).

(** ** Rate coefficient scaling: [TetODE::_ccst] and [TetODE::_ccst2D] *)

Definition _ccst (kcst vol : real) (order : N) : real :=
  let vscale := (Q2Qc 1000 * vol * AVOGADRO)%Qc in
  let o1 := UInt.wrap_int (UInt.to_int order - 1) in
  (kcst * pow vscale (UInt.wrap_int (- o1)))%Qc.

Definition _ccst2D (kcst area : real) (order : N) : real :=
  let vscale := (area * AVOGADRO)%Qc in
  let o1 := UInt.wrap_int (UInt.to_int order - 1) in
  (kcst * pow vscale (UInt.wrap_int (- o1)))%Qc.

(** The coefficient as the specification writes it, [k * v_scale^(-(n-1))],
    with the power written out: the product of [n-1] factors [v_scale]
    divides [k] for an order of at least 1, and one factor [v_scale]
    multiplies [k] for the order 0. The power is [Qcpower], a product over
    a natural number, and the inverse is that of the field. *)
Definition scaled_coefficient (k v_scale : real) (n : N) : real :=
  match n with
  | 0 => (k * v_scale)%Qc
  | _ => (k / v_scale ^ (N.to_nat n - 1))%Qc
  end.

(** ** Outcomes of a call

    [Ret] is a normal return, [Throw] a C++ exception, [Abort] a failed
    [assert] or an access outside a vector. *)

Inductive exn : Type :=
  | ArgErr (msg : string)
  | SysErr (msg : string)
  | NotImplErr (msg : string).

Inductive outcome (A : Type) : Type :=
  | Ret (a : A)
  | Throw (e : exn)
  | Abort.

Arguments Ret {A} a.
Arguments Throw {A} e.
Arguments Abort {A}.

#[global] Instance outcome_ret : MRet outcome := fun A a => Ret a.
#[global] Instance outcome_bind : MBind outcome := fun A B f m =>
  match m with
  | Ret a => f a
  | Throw e => Throw e
  | Abort => Abort
  end.

Definition assert (b : bool) : outcome unit :=
  if b then Ret tt else Abort.

(** A loop [for (x in l)] threading an accumulator through a fallible body. *)
Fixpoint foldM {A B : Type} (f : B -> A -> outcome B) (b : B) (l : list A)
  : outcome B :=
  match l with
  | [] => Ret b
  | a :: l' => b' ← f b a; foldM f b' l'
  end.

(** The indices [0 .. n-1] of a loop [for (uint i = 0; i < n; ++i)]. *)
Definition range (n : N) : list N := N.of_nat <$> seq 0 (N.to_nat n).

(** Element access [v[i]] and assignment [v[i] = x] on a vector. *)
Definition at_ {A : Type} (v : list A) (i : N) : outcome A :=
  match v !! N.to_nat i with
  | Some a => Ret a
  | None => Abort
  end.

Definition store {A : Type} (v : list A) (i : N) (x : A) : outcome (list A) :=
  if (N.to_nat i <? length v)%nat then Ret (<[N.to_nat i := x]> v) else Abort.

(** [size()] of a vector assigned to a [uint]. *)
Definition size {A : Type} (v : list A) : N := UInt.wrap (N.of_nat (length v)).

(** ** The process graph: [structC], [structB], [structA] *)

Record structC : Type := { order : N; spec_idx : N }.

Record structB : Type := { info : list structC }.

Record structA : Type := {
  ccst : real;
  r_idx : N;
  upd : Z;
  players : list structB
}.

Definition with_ccst (c : real) (a : structA) : structA :=
  {| ccst := c; r_idx := r_idx a; upd := upd a; players := players a |}.

(** [pSpec_matrixsub[i].push_back(a)]. *)
Definition push_back_at (G : list (list structA)) (i : N) (a : structA)
  : outcome (list (list structA)) :=
  row ← at_ G i; store G i (row ++ [a]).

(** ** The derivative evaluator [f_cvode]

    [NV_Ith_S(v, i)] reads and writes the [i]th component of a serial
    vector. The evaluator receives the global [pSpec_matrixsub], [y] and
    [ydot]; what it returns beside its [int] result is the memory it
    leaves. *)

Record rhs_memory : Type := {
  mem_matrixsub : list (list structA);
  mem_y : list real;
  mem_ydot : list real
}.

Definition f_cvode_q (y : list real) (dydt_r : real) (q : structC)
  : outcome real :=
  val ← at_ y (spec_idx q);
  if (order q =? 1)%N then Ret (dydt_r * val)%Qc
  else Ret (dydt_r * pow val (Z.of_N (order q)))%Qc.

Definition f_cvode_p (y : list real) (dydt_r : real) (p : structB)
  : outcome real :=
  foldM (f_cvode_q y) dydt_r (info p).

Definition f_cvode_r (y : list real) (dydt : real) (r : structA)
  : outcome real :=
  dydt_r ← foldM (f_cvode_p y) (Q2Qc (inject_Z (upd r)) * ccst r)%Qc (players r);
  Ret (dydt + dydt_r)%Qc.

Definition f_cvode_sp (y : list real) (st : list real * N)
    (sp : list structA) : outcome (list real * N) :=
  let '(ydot, i) := st in
  dydt ← foldM (f_cvode_r y) 0%Qc sp;
  ydot' ← store ydot i dydt;
  Ret (ydot', i +u 1).

Definition f_cvode (t : real) (m : rhs_memory) : outcome (Z * rhs_memory) :=
  st ← foldM (f_cvode_sp (mem_y m)) (mem_ydot m, 0) (mem_matrixsub m);
  Ret (0%Z, {| mem_matrixsub := mem_matrixsub m;
               mem_y := mem_y m;
               mem_ydot := fst st |}).

(** ** Model and geometry objects the solver reads

    The classes below ([solver::Compdef], [solver::Patchdef],
    [tetode::Tet], [tetode::Tri], [tetode::Comp], [tetode::Patch]) are
    used by the solver through their accessors only; each record holds what
    those accessors return. An array reached through a pointer
    ([reac_lhs_bgn(j)[l]]) is a function of its index. *)

(** [steps::solver::LIDX_UNDEFINED]. *)
Definition LIDX_UNDEFINED : N := 4294967295.

Module Reacdef.
Record t : Type := { order : N }.
End Reacdef.

Module Compdef.
Record t : Type := {
  gidx : N;
  countSpecs : N;
  countReacs : N;
  countDiffs : N;
  specG2L : N -> N;
  reacG2L : N -> N;
  kcst : N -> real;
  reacdef : N -> Reacdef.t;
  reac_lhs_bgn : N -> N -> N;
  reac_upd_bgn : N -> N -> Z;
  diff_dep : N -> N -> bool;
  dcst : N -> real
}.
End Compdef.

Module SReacdef.
Record t : Type := {
  surf_surf : bool;
  inside : bool;
  order : N;
  kcst : real;
  reqInside : bool;
  reqOutside : bool
}.
End SReacdef.

Module Patchdef.
Record t : Type := {
  gidx : N;
  countSpecs : N;
  countSpecs_I : N;
  countSpecs_O : N;
  countSReacs : N;
  countSurfDiffs : N;
  specG2L : N -> N;
  sreacG2L : N -> N;
  kcst : N -> real;
  sreacdef : N -> SReacdef.t;
  sreac_lhs_S_bgn : N -> N -> N;
  sreac_lhs_I_bgn : N -> N -> N;
  sreac_lhs_O_bgn : N -> N -> N;
  sreac_upd_S_bgn : N -> N -> Z;
  sreac_upd_I_bgn : N -> N -> Z;
  sreac_upd_O_bgn : N -> N -> Z;
  icompdef : option Compdef.t;
  ocompdef : option Compdef.t;
  surfdiff_dep : N -> N -> bool;
  dcst : N -> real
}.
End Patchdef.

(** A tetrahedron after the neighbours have been connected: [nextTet l]
    is the null pointer ([None]) or the tetrahedron behind face [l], held
    as the [idx()] of the object pointed to. *)
Module Tet.
Record t : Type := {
  idx : N;
  compdef : Compdef.t;
  vol : real;
  area : N -> real;
  dist : N -> real;
  nextTet : N -> option N
}.
End Tet.

(** A triangle after connection; [iTet] and [oTet] are the inner and outer
    tetrahedron pointers (tetrahedra do not change after setup, so the
    object pointed to is held by value). *)
Module Tri.
Record t : Type := {
  idx : N;
  patchdef : Patchdef.t;
  area : real;
  length : N -> real;
  dist : N -> real;
  nextTri : N -> option N;
  iTet : option Tet.t;
  oTet : option Tet.t
}.
End Tri.

Module Comp.
Record t : Type := {
  def : Compdef.t;
  pTets : list Tet.t;
  vol : real;
  getTet_GtoL : N -> N
}.

Definition countTets (c : t) : N := size (pTets c).
Definition getTet (c : t) (lidx : N) : outcome Tet.t := at_ (pTets c) lidx.
End Comp.

Module Patch.
Record t : Type := {
  def : Patchdef.t;
  pTris : list Tri.t;
  area : real;
  getTri_GtoL : N -> N
}.

Definition countTris (p : t) : N := size (pTris p).
Definition getTri (p : t) (lidx : N) : outcome Tri.t := at_ (pTris p) lidx.
End Patch.

(** What the solver reads of [solver::Statedef] beside the compartment and
    patch definitions: the clock and the global object counts. *)
Module Statedef.
Record t : Type := {
  time : real;
  countSpecs : N;
  countReacs : N;
  countSReacs : N
}.

Definition setTime (t' : real) (sd : t) : t :=
  {| time := t'; countSpecs := countSpecs sd;
     countReacs := countReacs sd; countSReacs := countSReacs sd |}.
End Statedef.

(** ** The integrator (CVODE), seen from the solver

    The solver owns an opaque block of integrator memory and talks to it
    through the calls below. The memory is modelled by the calls made on it
    so far, and an integrator by the reply it gives to the last call of a
    history. [CVode] evaluates the right-hand side [f_cvode], which reads
    the global process graph: the graph at the time of the call is part of
    the call. *)

Inductive cv_call : Type :=
  | CVodeCreate
  | CVodeInit (t0 : real) (y0 : list real)
  | CVodeSetMaxNumSteps (mxsteps : N)
  | CVodeSVtolerances (reltol : real) (abstol : list real)
  | CVodeReInit (t0 : real) (y0 : list real)
  | CVode (tout : real) (y : list real) (G : list (list structA)).

Record cv_reply : Type := {
  cv_flag : Z;
  cv_yout : list real;
  cv_tret : real
}.

Definition Integrator : Type := list cv_call -> cv_reply.

Definition CV_SUCCESS : Z := 0.

(** ** The solver object *)

Record TetODE : Type := {
  statedef : Statedef.t;
  pComps : list Comp.t;
  pPatches : list Patch.t;
  pTris : list (option Tri.t);
  pTets : list (option Tet.t);
  pSpecs_tot : N;
  pReacs_tot : N;
  pInitialised : bool;
  pTolsset : bool;
  pReinit : bool;
  pNmax_cvode : N;
  t_cvode : real;
  reltol_cvode : real;
  abstol_cvode : list real;
  y_cvode : list real;
  cvode_mem_cvode : list cv_call;
  pSpec_matrixsub : list (list structA)
}.

(** Assignment to one member, the others kept. *)

Definition set_statedef (x : Statedef.t) (s : TetODE) : TetODE :=
  {| statedef := x;
     pComps := pComps s;
     pPatches := pPatches s;
     pTris := pTris s;
     pTets := pTets s;
     pSpecs_tot := pSpecs_tot s;
     pReacs_tot := pReacs_tot s;
     pInitialised := pInitialised s;
     pTolsset := pTolsset s;
     pReinit := pReinit s;
     pNmax_cvode := pNmax_cvode s;
     t_cvode := t_cvode s;
     reltol_cvode := reltol_cvode s;
     abstol_cvode := abstol_cvode s;
     y_cvode := y_cvode s;
     cvode_mem_cvode := cvode_mem_cvode s;
     pSpec_matrixsub := pSpec_matrixsub s |}.

Definition set_pComps (x : list Comp.t) (s : TetODE) : TetODE :=
  {| statedef := statedef s;
     pComps := x;
     pPatches := pPatches s;
     pTris := pTris s;
     pTets := pTets s;
     pSpecs_tot := pSpecs_tot s;
     pReacs_tot := pReacs_tot s;
     pInitialised := pInitialised s;
     pTolsset := pTolsset s;
     pReinit := pReinit s;
     pNmax_cvode := pNmax_cvode s;
     t_cvode := t_cvode s;
     reltol_cvode := reltol_cvode s;
     abstol_cvode := abstol_cvode s;
     y_cvode := y_cvode s;
     cvode_mem_cvode := cvode_mem_cvode s;
     pSpec_matrixsub := pSpec_matrixsub s |}.

Definition set_pPatches (x : list Patch.t) (s : TetODE) : TetODE :=
  {| statedef := statedef s;
     pComps := pComps s;
     pPatches := x;
     pTris := pTris s;
     pTets := pTets s;
     pSpecs_tot := pSpecs_tot s;
     pReacs_tot := pReacs_tot s;
     pInitialised := pInitialised s;
     pTolsset := pTolsset s;
     pReinit := pReinit s;
     pNmax_cvode := pNmax_cvode s;
     t_cvode := t_cvode s;
     reltol_cvode := reltol_cvode s;
     abstol_cvode := abstol_cvode s;
     y_cvode := y_cvode s;
     cvode_mem_cvode := cvode_mem_cvode s;
     pSpec_matrixsub := pSpec_matrixsub s |}.

Definition set_pTets (x : list (option Tet.t)) (s : TetODE) : TetODE :=
  {| statedef := statedef s;
     pComps := pComps s;
     pPatches := pPatches s;
     pTris := pTris s;
     pTets := x;
     pSpecs_tot := pSpecs_tot s;
     pReacs_tot := pReacs_tot s;
     pInitialised := pInitialised s;
     pTolsset := pTolsset s;
     pReinit := pReinit s;
     pNmax_cvode := pNmax_cvode s;
     t_cvode := t_cvode s;
     reltol_cvode := reltol_cvode s;
     abstol_cvode := abstol_cvode s;
     y_cvode := y_cvode s;
     cvode_mem_cvode := cvode_mem_cvode s;
     pSpec_matrixsub := pSpec_matrixsub s |}.

Definition set_pInitialised (x : bool) (s : TetODE) : TetODE :=
  {| statedef := statedef s;
     pComps := pComps s;
     pPatches := pPatches s;
     pTris := pTris s;
     pTets := pTets s;
     pSpecs_tot := pSpecs_tot s;
     pReacs_tot := pReacs_tot s;
     pInitialised := x;
     pTolsset := pTolsset s;
     pReinit := pReinit s;
     pNmax_cvode := pNmax_cvode s;
     t_cvode := t_cvode s;
     reltol_cvode := reltol_cvode s;
     abstol_cvode := abstol_cvode s;
     y_cvode := y_cvode s;
     cvode_mem_cvode := cvode_mem_cvode s;
     pSpec_matrixsub := pSpec_matrixsub s |}.

Definition set_pTolsset (x : bool) (s : TetODE) : TetODE :=
  {| statedef := statedef s;
     pComps := pComps s;
     pPatches := pPatches s;
     pTris := pTris s;
     pTets := pTets s;
     pSpecs_tot := pSpecs_tot s;
     pReacs_tot := pReacs_tot s;
     pInitialised := pInitialised s;
     pTolsset := x;
     pReinit := pReinit s;
     pNmax_cvode := pNmax_cvode s;
     t_cvode := t_cvode s;
     reltol_cvode := reltol_cvode s;
     abstol_cvode := abstol_cvode s;
     y_cvode := y_cvode s;
     cvode_mem_cvode := cvode_mem_cvode s;
     pSpec_matrixsub := pSpec_matrixsub s |}.

Definition set_pReinit (x : bool) (s : TetODE) : TetODE :=
  {| statedef := statedef s;
     pComps := pComps s;
     pPatches := pPatches s;
     pTris := pTris s;
     pTets := pTets s;
     pSpecs_tot := pSpecs_tot s;
     pReacs_tot := pReacs_tot s;
     pInitialised := pInitialised s;
     pTolsset := pTolsset s;
     pReinit := x;
     pNmax_cvode := pNmax_cvode s;
     t_cvode := t_cvode s;
     reltol_cvode := reltol_cvode s;
     abstol_cvode := abstol_cvode s;
     y_cvode := y_cvode s;
     cvode_mem_cvode := cvode_mem_cvode s;
     pSpec_matrixsub := pSpec_matrixsub s |}.

Definition set_pNmax_cvode (x : N) (s : TetODE) : TetODE :=
  {| statedef := statedef s;
     pComps := pComps s;
     pPatches := pPatches s;
     pTris := pTris s;
     pTets := pTets s;
     pSpecs_tot := pSpecs_tot s;
     pReacs_tot := pReacs_tot s;
     pInitialised := pInitialised s;
     pTolsset := pTolsset s;
     pReinit := pReinit s;
     pNmax_cvode := x;
     t_cvode := t_cvode s;
     reltol_cvode := reltol_cvode s;
     abstol_cvode := abstol_cvode s;
     y_cvode := y_cvode s;
     cvode_mem_cvode := cvode_mem_cvode s;
     pSpec_matrixsub := pSpec_matrixsub s |}.

Definition set_t_cvode (x : real) (s : TetODE) : TetODE :=
  {| statedef := statedef s;
     pComps := pComps s;
     pPatches := pPatches s;
     pTris := pTris s;
     pTets := pTets s;
     pSpecs_tot := pSpecs_tot s;
     pReacs_tot := pReacs_tot s;
     pInitialised := pInitialised s;
     pTolsset := pTolsset s;
     pReinit := pReinit s;
     pNmax_cvode := pNmax_cvode s;
     t_cvode := x;
     reltol_cvode := reltol_cvode s;
     abstol_cvode := abstol_cvode s;
     y_cvode := y_cvode s;
     cvode_mem_cvode := cvode_mem_cvode s;
     pSpec_matrixsub := pSpec_matrixsub s |}.

Definition set_reltol_cvode (x : real) (s : TetODE) : TetODE :=
  {| statedef := statedef s;
     pComps := pComps s;
     pPatches := pPatches s;
     pTris := pTris s;
     pTets := pTets s;
     pSpecs_tot := pSpecs_tot s;
     pReacs_tot := pReacs_tot s;
     pInitialised := pInitialised s;
     pTolsset := pTolsset s;
     pReinit := pReinit s;
     pNmax_cvode := pNmax_cvode s;
     t_cvode := t_cvode s;
     reltol_cvode := x;
     abstol_cvode := abstol_cvode s;
     y_cvode := y_cvode s;
     cvode_mem_cvode := cvode_mem_cvode s;
     pSpec_matrixsub := pSpec_matrixsub s |}.

Definition set_abstol_cvode (x : list real) (s : TetODE) : TetODE :=
  {| statedef := statedef s;
     pComps := pComps s;
     pPatches := pPatches s;
     pTris := pTris s;
     pTets := pTets s;
     pSpecs_tot := pSpecs_tot s;
     pReacs_tot := pReacs_tot s;
     pInitialised := pInitialised s;
     pTolsset := pTolsset s;
     pReinit := pReinit s;
     pNmax_cvode := pNmax_cvode s;
     t_cvode := t_cvode s;
     reltol_cvode := reltol_cvode s;
     abstol_cvode := x;
     y_cvode := y_cvode s;
     cvode_mem_cvode := cvode_mem_cvode s;
     pSpec_matrixsub := pSpec_matrixsub s |}.

Definition set_y_cvode (x : list real) (s : TetODE) : TetODE :=
  {| statedef := statedef s;
     pComps := pComps s;
     pPatches := pPatches s;
     pTris := pTris s;
     pTets := pTets s;
     pSpecs_tot := pSpecs_tot s;
     pReacs_tot := pReacs_tot s;
     pInitialised := pInitialised s;
     pTolsset := pTolsset s;
     pReinit := pReinit s;
     pNmax_cvode := pNmax_cvode s;
     t_cvode := t_cvode s;
     reltol_cvode := reltol_cvode s;
     abstol_cvode := abstol_cvode s;
     y_cvode := x;
     cvode_mem_cvode := cvode_mem_cvode s;
     pSpec_matrixsub := pSpec_matrixsub s |}.

Definition set_cvode_mem_cvode (x : list cv_call) (s : TetODE) : TetODE :=
  {| statedef := statedef s;
     pComps := pComps s;
     pPatches := pPatches s;
     pTris := pTris s;
     pTets := pTets s;
     pSpecs_tot := pSpecs_tot s;
     pReacs_tot := pReacs_tot s;
     pInitialised := pInitialised s;
     pTolsset := pTolsset s;
     pReinit := pReinit s;
     pNmax_cvode := pNmax_cvode s;
     t_cvode := t_cvode s;
     reltol_cvode := reltol_cvode s;
     abstol_cvode := abstol_cvode s;
     y_cvode := y_cvode s;
     cvode_mem_cvode := x;
     pSpec_matrixsub := pSpec_matrixsub s |}.

Definition set_pSpec_matrixsub (x : list (list structA)) (s : TetODE) : TetODE :=
  {| statedef := statedef s;
     pComps := pComps s;
     pPatches := pPatches s;
     pTris := pTris s;
     pTets := pTets s;
     pSpecs_tot := pSpecs_tot s;
     pReacs_tot := pReacs_tot s;
     pInitialised := pInitialised s;
     pTolsset := pTolsset s;
     pReinit := pReinit s;
     pNmax_cvode := pNmax_cvode s;
     t_cvode := t_cvode s;
     reltol_cvode := reltol_cvode s;
     abstol_cvode := abstol_cvode s;
     y_cvode := y_cvode s;
     cvode_mem_cvode := cvode_mem_cvode s;
     pSpec_matrixsub := x |}.

(** ** Member functions that change the solver

    A call starts in a solver state and ends with [Done] (normal return),
    [Raise] (an exception, with the state reached when it was thrown) or
    [Crash] (a failed [assert] or an access outside a vector). *)

Inductive result (A : Type) : Type :=
  | Done (a : A) (s : TetODE)
  | Raise (e : exn) (s : TetODE)
  | Crash.

Arguments Done {A} a s.
Arguments Raise {A} e s.
Arguments Crash {A}.

Definition method (A : Type) : Type := TetODE -> result A.

#[global] Instance method_ret : MRet method := fun A a s => Done a s.
#[global] Instance method_bind : MBind method := fun A B f m s =>
  match m s with
  | Done a s' => f a s'
  | Raise e s' => Raise e s'
  | Crash => Crash
  end.

Definition get : method TetODE := fun s => Done s s.
Definition modify (f : TetODE -> TetODE) : method unit := fun s => Done tt (f s).
Definition throw {A : Type} (e : exn) : method A := fun s => Raise e s.

(** A [const] member function, or a pure computation, inside a method. *)
Definition lift {A : Type} (o : outcome A) : method A := fun s =>
  match o with
  | Ret a => Done a s
  | Throw e => Raise e s
  | Abort => Crash
  end.

Definition const_call {A : Type} (f : TetODE -> outcome A) : method A :=
  fun s => lift (f s) s.

(** Comparison of [double] values. *)
Definition ltb_real (x y : real) : bool :=
  match (x ?= y)%Qc with Lt => true | _ => false end.

Definition eqb_real (x y : real) : bool :=
  match (x ?= y)%Qc with Eq => true | _ => false end.

(** ** Index arithmetic shared by setup, queries and mutations *)

(** [statedef()->compdef(i)] is the definition object of [pComps[i]] and
    [statedef()->countComps()] is [pComps.size()]: [_setup] creates the
    local compartments from the definitions in order and asserts both.
    Patches alike. *)
Definition compdef (comps : list Comp.t) (i : N) : outcome Compdef.t :=
  c ← at_ comps i; Ret (Comp.def c).

Definition patchdef (patches : list Patch.t) (i : N) : outcome Patchdef.t :=
  p ← at_ patches i; Ret (Patch.def p).

(** The loop
    [for (i = 0; i < n; ++i) idx += compdef(i)->countSpecs() * pComps[i]->countTets();]
    started from [idx]. *)
Definition step_up_comp_specs (comps : list Comp.t) (idx n : N) : outcome N :=
  foldM (fun idx i =>
           cdef ← compdef comps i;
           c ← at_ comps i;
           Ret (idx +u (Compdef.countSpecs cdef *u Comp.countTets c)))
        idx (range n).

Definition step_up_patch_specs (patches : list Patch.t) (idx n : N)
  : outcome N :=
  foldM (fun idx i =>
           pdef ← patchdef patches i;
           p ← at_ patches i;
           Ret (idx +u (Patchdef.countSpecs pdef *u Patch.countTris p)))
        idx (range n).

(** The same loop for reaction indices: the reactions and then the
    diffusion rules of each compartment are counted. *)
Definition step_up_comp_reacs (comps : list Comp.t) (idx n : N) : outcome N :=
  foldM (fun idx i =>
           cdef ← compdef comps i;
           c ← at_ comps i;
           let idx := idx +u (Compdef.countReacs cdef *u Comp.countTets c) in
           Ret (idx +u (Compdef.countDiffs cdef *u Comp.countTets c)))
        idx (range n).

Definition step_up_patch_reacs (patches : list Patch.t) (idx n : N)
  : outcome N :=
  foldM (fun idx i =>
           pdef ← patchdef patches i;
           p ← at_ patches i;
           let idx := idx +u (Patchdef.countSReacs pdef *u Patch.countTris p) in
           Ret (idx +u (Patchdef.countSurfDiffs pdef *u Patch.countTris p)))
        idx (range n).

(** ** [TetODE::_setup]: sizes of the index space *)

Abbreviation matrix := (list (list structA)) (only parsing).

Definition setup_count_comp (acc : N * N) (comp : Comp.t) : N * N :=
  let '(specs_tot, reacs_tot) := acc in
  let comp_specs := Compdef.countSpecs (Comp.def comp) in
  let specs_tot := specs_tot +u (comp_specs *u Comp.countTets comp) in
  let comp_reacs := Compdef.countReacs (Comp.def comp) in
  let comp_diffs := Compdef.countDiffs (Comp.def comp) in
  (specs_tot, reacs_tot +u ((comp_reacs +u comp_diffs) *u Comp.countTets comp)).

Definition setup_count_patch (acc : N * N) (patch : Patch.t) : N * N :=
  let '(specs_tot, reacs_tot) := acc in
  let patch_specs := Patchdef.countSpecs (Patch.def patch) in
  let specs_tot := specs_tot +u (patch_specs *u Patch.countTris patch) in
  let patch_sreacs := Patchdef.countSReacs (Patch.def patch) in
  let patch_sdiffs := Patchdef.countSurfDiffs (Patch.def patch) in
  (specs_tot,
   reacs_tot +u ((patch_sreacs +u patch_sdiffs) *u Patch.countTris patch)).

(** [pSpecs_tot] and [pReacs_tot] as [_setup] accumulates them. *)
Definition setup_totals (comps : list Comp.t) (patches : list Patch.t)
  : N * N :=
  foldl setup_count_patch (foldl setup_count_comp (0, 0) comps) patches.

(** ** [TetODE::_setup]: reactions of a compartment *)

(** The reactant descriptors of a reaction whose left-hand side is [lhs],
    for the element whose species start at [base]. *)
Definition lhs_players (lhs : N -> N) (base nspecs : N) (init : list structC)
  : list structC :=
  foldl (fun info l =>
           let lhs_spec := lhs l in
           if lhs_spec =? 0 then info
           else info ++ [{| order := lhs_spec; spec_idx := base +u l |}])
        init (range nspecs).

Definition setup_reac_k (cdef : Compdef.t) (j reac_gidx spec_gidx : N)
    (ccst : real) (G : matrix) (k : N) : outcome matrix :=
  let lhs := Compdef.reac_lhs_bgn cdef j in
  let upd := Compdef.reac_upd_bgn cdef j k in
  if (upd =? 0)%Z then Ret G
  else
    let btmp := {| info := lhs_players lhs spec_gidx (Compdef.countSpecs cdef) [] |} in
    let atmp := {| ccst := ccst; r_idx := reac_gidx +u j; upd := upd;
                   players := [btmp] |} in
    push_back_at G (spec_gidx +u k) atmp.

Definition setup_reac_j (comp : Comp.t) (t reac_gidx spec_gidx : N)
    (G : matrix) (j : N) : outcome matrix :=
  let cdef := Comp.def comp in
  let reac_kcst := Compdef.kcst cdef j in
  tet ← Comp.getTet comp t;
  let tet_vol := Tet.vol tet in
  let reac_order := Reacdef.order (Compdef.reacdef cdef j) in
  let ccst := _ccst reac_kcst tet_vol reac_order in
  foldM (setup_reac_k cdef j reac_gidx spec_gidx ccst) G
        (range (Compdef.countSpecs cdef)).

Definition setup_reac_t (comp : Comp.t) (st : matrix * N * N) (t : N)
  : outcome (matrix * N * N) :=
  let '(G, reac_gidx, spec_gidx) := st in
  let cdef := Comp.def comp in
  G' ← foldM (setup_reac_j comp t reac_gidx spec_gidx) G
             (range (Compdef.countReacs cdef));
  Ret (G', reac_gidx +u Compdef.countReacs cdef,
       spec_gidx +u Compdef.countSpecs cdef).

(** ** [TetODE::_setup]: volume diffusion of a compartment *)

(** The two processes of one diffusion direction. *)
Definition diff_out (dccst : real) (r : N) (spec_base_idx : N) : structA :=
  {| ccst := dccst; r_idx := r; upd := (-1)%Z;
     players := [{| info := [{| order := 1; spec_idx := spec_base_idx |}] |}] |}.

Definition diff_in (dccst : real) (r : N) (spec_base_idx : N) : structA :=
  {| ccst := dccst; r_idx := r; upd := 1%Z;
     players := [{| info := [{| order := 1; spec_idx := spec_base_idx |}] |}] |}.

Definition setup_diff_l (comps : list Comp.t) (i : N) (comp : Comp.t)
    (t j k reac_gidx : N) (tet_base : Tet.t) (G : matrix) (l : N)
  : outcome matrix :=
  let cdef := Comp.def comp in
  let compSpecs_N := Compdef.countSpecs cdef in
  let dcst := Compdef.dcst cdef j in
  match Tet.nextTet tet_base l with
  | None => Ret G
  | Some tet_neighb_gidx =>
      let dist := Tet.dist tet_base l in
      let dccst :=
        ((Tet.area tet_base l * dcst) / (Tet.vol tet_base * dist))%Qc in
      spec_base_idx ← step_up_comp_specs comps 0 i;
      let tet_neighb_lidx := Comp.getTet_GtoL comp tet_neighb_gidx in
      let spec_neighb_idx :=
        spec_base_idx +u (compSpecs_N *u tet_neighb_lidx) +u k in
      let spec_base_idx := spec_base_idx +u ((compSpecs_N *u t) +u k) in
      let atmp_out := diff_out dccst (reac_gidx +u j) spec_base_idx in
      let atmp_in := diff_in dccst (reac_gidx +u j) spec_base_idx in
      G1 ← push_back_at G spec_base_idx atmp_out;
      push_back_at G1 spec_neighb_idx atmp_in
  end.

Definition setup_diff_k (comps : list Comp.t) (i : N) (comp : Comp.t)
    (t j reac_gidx : N) (G : matrix) (k : N) : outcome matrix :=
  if Compdef.diff_dep (Comp.def comp) j k then
    tet_base ← Comp.getTet comp t;
    foldM (setup_diff_l comps i comp t j k reac_gidx tet_base) G (range 4)
  else Ret G.

Definition setup_diff_j (comps : list Comp.t) (i : N) (comp : Comp.t)
    (t reac_gidx : N) (G : matrix) (j : N) : outcome matrix :=
  foldM (setup_diff_k comps i comp t j reac_gidx) G
        (range (Compdef.countSpecs (Comp.def comp))).

Definition setup_diff_t (comps : list Comp.t) (i : N) (comp : Comp.t)
    (st : matrix * N) (t : N) : outcome (matrix * N) :=
  let '(G, reac_gidx) := st in
  let compDiffs_N := Compdef.countDiffs (Comp.def comp) in
  G' ← foldM (setup_diff_j comps i comp t reac_gidx) G (range compDiffs_N);
  Ret (G', reac_gidx +u compDiffs_N).

(** The volume diffusion loop of compartment [i]. *)
Definition setup_comp_diffs (comps : list Comp.t) (i : N) (comp : Comp.t)
    (G : matrix) (reac_gidx : N) : outcome (matrix * N) :=
  foldM (setup_diff_t comps i comp) (G, reac_gidx) (range (Comp.countTets comp)).

(** One turn of the loop over compartments. *)
Definition setup_comp (comps : list Comp.t) (st : matrix * N * N) (i : N)
  : outcome (matrix * N * N) :=
  let '(G, reac_gidx, spec_gidx) := st in
  comp ← at_ comps i;
  let compTets_N := Comp.countTets comp in
  st1 ← foldM (setup_reac_t comp) (G, reac_gidx, spec_gidx) (range compTets_N);
  let '(G1, reac_gidx1, spec_gidx1) := st1 in
  st2 ← setup_comp_diffs comps i comp G1 reac_gidx1;
  Ret (fst st2, snd st2, spec_gidx1).

(** ** [TetODE::_setup]: surface reactions and surface diffusion of a patch *)

(** Dereference of a pointer that may be null. *)
Definition deref {A : Type} (p : option A) : outcome A :=
  match p with
  | Some a => Ret a
  | None => Abort
  end.

(** The position in the index space of the species of tetrahedron [tet]
    of the compartment defined by [cdef] (the marker [mtx_itetidx],
    [mtx_otetidx] of the source). *)
Definition mtx_tetidx (comps : list Comp.t) (cdef : Compdef.t) (tet : Tet.t)
  : outcome N :=
  let compidx := Compdef.gidx cdef in
  localcomp ← at_ comps compidx;
  mtx ← step_up_comp_specs comps 0 compidx;
  let tet_gidx := Tet.idx tet in
  let tet_lidx := Comp.getTet_GtoL localcomp tet_gidx in
  Ret (mtx +u (tet_lidx *u Compdef.countSpecs cdef)).

(** The scaled coefficient of surface reaction [sr] on triangle [tri]:
    [k_vol] is the constant used when the reaction involves a volume,
    [k_surf] the one used for a surface-surface reaction. *)
Definition sreac_ccst (pdef : Patchdef.t) (tri : Tri.t) (sr : SReacdef.t)
    (k_vol k_surf : real) : outcome real :=
  if negb (SReacdef.surf_surf sr) then
    vol ← (if SReacdef.inside sr then
             assert (bool_decide (is_Some (Patchdef.icompdef pdef)));;
             itet ← deref (Tri.iTet tri);
             Ret (Tet.vol itet)
           else
             assert (bool_decide (is_Some (Patchdef.ocompdef pdef)));;
             otet ← deref (Tri.oTet tri);
             Ret (Tet.vol otet));
    Ret (_ccst k_vol vol (SReacdef.order sr))
  else
    Ret (_ccst2D k_surf (Tri.area tri) (SReacdef.order sr)).

(** The left-hand side species of one volume side are added to [info]. *)
Definition setup_sreac_lhs_side (comps : list Comp.t)
    (cdef : option Compdef.t) (tet : option Tet.t) (lhs : N -> N)
    (nspecs : N) (info : list structC) : outcome (list structC) :=
  match cdef with
  | None => Ret info
  | Some cdef =>
      tet ← deref tet;
      assert (Compdef.gidx cdef =? Compdef.gidx (Tet.compdef tet));;
      mtx ← mtx_tetidx comps cdef tet;
      Ret (lhs_players lhs mtx nspecs info)
  end.

(** One process is appended for every species of a side that the surface
    reaction changes. *)
Definition setup_sreac_upd (upd : N -> Z) (base nspecs : N) (c : real)
    (r : N) (btmp : structB) (G : matrix) : outcome matrix :=
  foldM (fun G k =>
           let u := upd k in
           if (u =? 0)%Z then Ret G
           else push_back_at G (base +u k)
                  {| ccst := c; r_idx := r; upd := u; players := [btmp] |})
        G (range nspecs).

Definition setup_sreac_upd_side (comps : list Comp.t)
    (cdef : option Compdef.t) (tet : option Tet.t) (upd : N -> Z)
    (nspecs : N) (c : real) (r : N) (btmp : structB) (G : matrix)
  : outcome matrix :=
  match cdef with
  | None => Ret G
  | Some cdef =>
      tet ← deref tet;
      mtx ← mtx_tetidx comps cdef tet;
      setup_sreac_upd upd mtx nspecs c r btmp G
  end.

Definition setup_sreac_j (comps : list Comp.t) (patch : Patch.t) (tri : Tri.t)
    (reac_gidx spec_gidx : N) (G : matrix) (j : N) : outcome matrix :=
  let pdef := Patch.def patch in
  let sr := Patchdef.sreacdef pdef j in
  c ← sreac_ccst pdef tri sr (Patchdef.kcst pdef j) (SReacdef.kcst sr);
  let info_S :=
    lhs_players (Patchdef.sreac_lhs_S_bgn pdef j) spec_gidx
                (Patchdef.countSpecs pdef) [] in
  info_I ← setup_sreac_lhs_side comps (Patchdef.icompdef pdef) (Tri.iTet tri)
             (Patchdef.sreac_lhs_I_bgn pdef j) (Patchdef.countSpecs_I pdef)
             info_S;
  info_O ← setup_sreac_lhs_side comps (Patchdef.ocompdef pdef) (Tri.oTet tri)
             (Patchdef.sreac_lhs_O_bgn pdef j) (Patchdef.countSpecs_O pdef)
             info_I;
  let btmp := {| info := info_O |} in
  G1 ← setup_sreac_upd (Patchdef.sreac_upd_S_bgn pdef j) spec_gidx
         (Patchdef.countSpecs pdef) c (reac_gidx +u j) btmp G;
  G2 ← setup_sreac_upd_side comps (Patchdef.icompdef pdef) (Tri.iTet tri)
         (Patchdef.sreac_upd_I_bgn pdef j) (Patchdef.countSpecs_I pdef)
         c (reac_gidx +u j) btmp G1;
  setup_sreac_upd_side comps (Patchdef.ocompdef pdef) (Tri.oTet tri)
    (Patchdef.sreac_upd_O_bgn pdef j) (Patchdef.countSpecs_O pdef)
    c (reac_gidx +u j) btmp G2.

Definition setup_sreac_t (comps : list Comp.t) (patch : Patch.t)
    (st : matrix * N * N) (t : N) : outcome (matrix * N * N) :=
  let '(G, reac_gidx, spec_gidx) := st in
  let pdef := Patch.def patch in
  tri ← Patch.getTri patch t;
  G' ← foldM (setup_sreac_j comps patch tri reac_gidx spec_gidx) G
             (range (Patchdef.countSReacs pdef));
  Ret (G', reac_gidx +u Patchdef.countSReacs pdef,
       spec_gidx +u Patchdef.countSpecs pdef).

Definition setup_sdiff_l (patches : list Patch.t) (i : N) (patch : Patch.t)
    (t j k reac_gidx : N) (tri_base : Tri.t) (G : matrix) (l : N)
  : outcome matrix :=
  let pdef := Patch.def patch in
  let patchSpecs_N_S := Patchdef.countSpecs pdef in
  let dcst := Patchdef.dcst pdef j in
  match Tri.nextTri tri_base l with
  | None => Ret G
  | Some tri_neighb_gidx =>
      let dist := Tri.dist tri_base l in
      let dccst :=
        ((Tri.length tri_base l * dcst) / (Tri.area tri_base * dist))%Qc in
      spec_base_idx ← step_up_patch_specs patches 0 i;
      let tri_neighb_lidx := Patch.getTri_GtoL patch tri_neighb_gidx in
      let spec_neighb_idx :=
        spec_base_idx +u (patchSpecs_N_S *u tri_neighb_lidx) +u k in
      let spec_base_idx := spec_base_idx +u ((patchSpecs_N_S *u t) +u k) in
      let atmp_out := diff_out dccst (reac_gidx +u j) spec_base_idx in
      let atmp_in := diff_in dccst (reac_gidx +u j) spec_base_idx in
      G1 ← push_back_at G spec_base_idx atmp_out;
      push_back_at G1 spec_neighb_idx atmp_in
  end.

Definition setup_sdiff_k (patches : list Patch.t) (i : N) (patch : Patch.t)
    (t j reac_gidx : N) (G : matrix) (k : N) : outcome matrix :=
  if Patchdef.surfdiff_dep (Patch.def patch) j k then
    tri_base ← Patch.getTri patch t;
    foldM (setup_sdiff_l patches i patch t j k reac_gidx tri_base) G (range 3)
  else Ret G.

Definition setup_sdiff_t (patches : list Patch.t) (i : N) (patch : Patch.t)
    (st : matrix * N) (t : N) : outcome (matrix * N) :=
  let '(G, reac_gidx) := st in
  let pdef := Patch.def patch in
  let patchSDiffs_N := Patchdef.countSurfDiffs pdef in
  G' ← foldM (fun G j =>
                foldM (setup_sdiff_k patches i patch t j reac_gidx) G
                      (range (Patchdef.countSpecs pdef)))
             G (range patchSDiffs_N);
  Ret (G', reac_gidx +u patchSDiffs_N).

(** One turn of the loop over patches. *)
Definition setup_patch (comps : list Comp.t) (patches : list Patch.t)
    (st : matrix * N * N) (i : N) : outcome (matrix * N * N) :=
  let '(G, reac_gidx, spec_gidx) := st in
  patch ← at_ patches i;
  let patchTris_N := Patch.countTris patch in
  st1 ← foldM (setup_sreac_t comps patch) (G, reac_gidx, spec_gidx)
              (range patchTris_N);
  let '(G1, reac_gidx1, spec_gidx1) := st1 in
  st2 ← foldM (setup_sdiff_t patches i patch) (G1, reac_gidx1)
              (range patchTris_N);
  Ret (fst st2, snd st2, spec_gidx1).

(** ** [TetODE::_setup]: the whole

    The first part of [_setup] copies the mesh into local compartments,
    patches, tetrahedra and triangles and connects neighbours; it only
    calls classes of the mesh and element libraries. Its results, the four
    vectors [pComps], [pPatches], [pTris], [pTets], are the arguments here,
    together with the state definition and the integrator. The members
    start with the values of the constructor's initialiser list ([t_cvode]
    has none; it starts at 0 here). *)

Definition check_flag (flag : Z) : outcome unit :=
  if (flag <? 0)%Z
  then Throw (SysErr "SUNDIALS_ERROR: %s() failed with flag = %d")
  else Ret tt.

Definition _setup (cv : Integrator) (sd : Statedef.t) (comps : list Comp.t)
    (patches : list Patch.t) (tris : list (option Tri.t))
    (tets : list (option Tet.t)) : outcome TetODE :=
  let '(specs_tot, reacs_tot) := setup_totals comps patches in
  let G0 : matrix := replicate (N.to_nat specs_tot) [] in
  st1 ← foldM (setup_comp comps) (G0, 0, 0) (range (size comps));
  st2 ← foldM (setup_patch comps patches) st1 (range (size patches));
  let '(G, reac_gidx, spec_gidx) := st2 in
  assert (spec_gidx =? specs_tot);;
  assert (reac_gidx =? reacs_tot);;
  let abstol := replicate (N.to_nat specs_tot) (Q2Qc (1 # 1000)) in
  let y := replicate (N.to_nat specs_tot) 0%Qc in
  let mem := [CVodeCreate; CVodeInit 0%Qc y] in
  check_flag (cv_flag (cv mem));;
  Ret {| statedef := sd;
         pComps := comps;
         pPatches := patches;
         pTris := tris;
         pTets := tets;
         pSpecs_tot := specs_tot;
         pReacs_tot := reacs_tot;
         pInitialised := false;
         pTolsset := false;
         pReinit := true;
         pNmax_cvode := 10000;
         t_cvode := 0%Qc;
         reltol_cvode := Q2Qc (1 # 1000);
         abstol_cvode := abstol;
         y_cvode := y;
         cvode_mem_cvode := mem;
         pSpec_matrixsub := G |}.

(** ** Integrator controls *)

Section Driver.

Context (cv : Integrator).

(** A call on the integrator memory: the call is recorded and the
    integrator replies. *)
Definition cv_invoke (c : cv_call) : method cv_reply := fun s =>
  let mem := cvode_mem_cvode s ++ [c] in
  Done (cv mem) (set_cvode_mem_cvode mem s).

Definition setMaxNumSteps (maxn : N) : method unit :=
  r ← cv_invoke (CVodeSetMaxNumSteps maxn);
  lift (check_flag (cv_flag r));;
  modify (set_pNmax_cvode maxn).

Definition setTolerances (atol rtol : real) : method unit :=
  if ltb_real atol 0%Qc || ltb_real rtol 0%Qc then
    throw (ArgErr "Neither absolute tolerance nor relative tolerance should be negative.")
  else
    modify (set_reltol_cvode rtol);;
    s ← get;
    abstol ← lift (foldM (fun v i => store v i atol) (abstol_cvode s)
                         (range (pSpecs_tot s)));
    modify (set_abstol_cvode abstol);;
    modify (set_pTolsset true).

(** The first [run] hands the step budget and the tolerances to the
    integrator. *)
Definition run_initialise : method unit :=
  s ← get;
  if pInitialised s then mret tt
  else
    r ← cv_invoke (CVodeSetMaxNumSteps (pNmax_cvode s));
    lift (check_flag (cv_flag r));;
    r ← cv_invoke (CVodeSVtolerances (reltol_cvode s) (abstol_cvode s));
    lift (check_flag (cv_flag r));;
    modify (set_pInitialised true).

Definition run_reinit : method unit :=
  s ← get;
  if pReinit s then
    let starttime := Statedef.time (statedef s) in
    r ← cv_invoke (CVodeReInit starttime (y_cvode s));
    lift (check_flag (cv_flag r));;
    modify (set_pReinit false)
  else mret tt.

Definition run_step (endtime : real) : method unit :=
  s ← get;
  r ← cv_invoke (CVode endtime (y_cvode s) (pSpec_matrixsub s));
  modify (set_y_cvode (cv_yout r));;
  if negb (cv_flag r =? CV_SUCCESS)%Z then
    throw (SysErr "CVODE iteration failed")
  else
    modify (fun s => set_statedef (Statedef.setTime endtime (statedef s)) s).

Definition run (endtime : real) : method unit :=
  s ← get;
  if ltb_real endtime (Statedef.time (statedef s)) then
    throw (ArgErr "Endtime is before current simulation time")
  else if eqb_real endtime 0%Qc then mret tt
  else
    run_initialise;;
    run_reinit;;
    run_step endtime.

Definition advance (adv : real) : method unit :=
  if ltb_real adv 0%Qc then throw (ArgErr "Time to advance cannot be negative")
  else
    s ← get;
    run (Statedef.time (statedef s) + adv)%Qc.

End Driver.

Definition getTime (s : TetODE) : real := Statedef.time (statedef s).

(** ** Operations the solver does not support *)

Definition reset : method unit :=
  throw (NotImplErr "reset() not implemented for steps::solver::TetODE solver").

Definition _getCompClamped (cidx sidx : N) (s : TetODE) : outcome bool :=
  Throw (NotImplErr "").

Definition _setCompClamped (cidx sidx : N) (b : bool) : method unit :=
  throw (NotImplErr "").

Definition _getCompReacK (cidx ridx : N) (s : TetODE) : outcome real :=
  Throw (NotImplErr "").

Definition _getCompReacActive (cidx ridx : N) (s : TetODE) : outcome bool :=
  Ret true.

Definition _setCompReacActive (cidx ridx : N) (a : bool) : method unit :=
  throw (NotImplErr "").

Definition _getPatchClamped (pidx sidx : N) (s : TetODE) : outcome bool :=
  Throw (NotImplErr "").

Definition _setPatchClamped (pidx sidx : N) (buf : bool) : method unit :=
  throw (NotImplErr "").

Definition _getPatchSReacK (pidx ridx : N) (s : TetODE) : outcome real :=
  Throw (NotImplErr "").

Definition _getPatchSReacActive (pidx ridx : N) (s : TetODE) : outcome bool :=
  Throw (NotImplErr "").

Definition _setPatchSReacActive (pidx ridx : N) (a : bool) : method unit :=
  throw (NotImplErr "").

Definition _getTetReacK (tidx ridx : N) (s : TetODE) : outcome real :=
  Throw (NotImplErr "").

Definition _getTriSReacK (tidx ridx : N) (s : TetODE) : outcome real :=
  Throw (NotImplErr "").

(** ** Checkpoint and restore

    [checkpoint] first lets the state definition, the compartments, the
    patches, the triangles and the tetrahedra write themselves, then writes
    its own five items; [restore] reads in the same order.
    [tetode::Tri::checkpoint] and [restore] do nothing. What the other
    objects write and read back is decided by their own classes: a
    [Serializer] carries it. The part of the file behind the three scalars
    is a sequence of doubles. *)

Record objects : Type := {
  obj_statedef : Statedef.t;
  obj_comps : list Comp.t;
  obj_patches : list Patch.t;
  obj_tets : list (option Tet.t)
}.

Record Serializer : Type := {
  blob : Type;
  save_objects : objects -> blob;
  load_objects : blob -> objects -> objects
}.

Record cp_file (S : Serializer) : Type := {
  cp_objects : blob S;
  cp_t : real;
  cp_rtol : real;
  cp_nmax : N;
  cp_data : list real
}.

Arguments cp_objects {S} _.
Arguments cp_t {S} _.
Arguments cp_rtol {S} _.
Arguments cp_nmax {S} _.
Arguments cp_data {S} _.

Definition objects_of (s : TetODE) : objects :=
  {| obj_statedef := statedef s; obj_comps := pComps s;
     obj_patches := pPatches s; obj_tets := pTets s |}.

Definition set_objects (o : objects) (s : TetODE) : TetODE :=
  set_pTets (obj_tets o)
    (set_pPatches (obj_patches o)
       (set_pComps (obj_comps o) (set_statedef (obj_statedef o) s))).

(** [cp_file.write(data, sizeof(realtype) * n)] from a vector. *)
Definition write_doubles (n : N) (v : list real) : outcome (list real) :=
  assert (N.to_nat n <=? length v)%nat;;
  Ret (take (N.to_nat n) v).

(** [cp_file.read(data, sizeof(realtype) * n)] into a vector: the doubles
    present in the file, at most [n], overwrite the front of the vector. *)
Definition read_doubles (n : N) (data buf : list real)
  : outcome (list real * list real) :=
  assert (N.to_nat n <=? length buf)%nat;;
  let got := take (N.to_nat n) data in
  Ret (got ++ drop (length got) buf, drop (N.to_nat n) data).

Definition checkpoint (S : Serializer) (s : TetODE) : outcome (cp_file S) :=
  abstol ← write_doubles (pSpecs_tot s) (abstol_cvode s);
  y ← write_doubles (pSpecs_tot s) (y_cvode s);
  Ret {| cp_objects := save_objects S (objects_of s);
         cp_t := t_cvode s;
         cp_rtol := reltol_cvode s;
         cp_nmax := pNmax_cvode s;
         cp_data := abstol ++ y |}.

Definition restore (S : Serializer) (f : cp_file S) : method unit :=
  modify (fun s => set_objects (load_objects S (cp_objects f) (objects_of s)) s);;
  modify (set_t_cvode (cp_t f));;
  modify (set_reltol_cvode (cp_rtol f));;
  modify (set_pNmax_cvode (cp_nmax f));;
  s ← get;
  r1 ← lift (read_doubles (pSpecs_tot s) (cp_data f) (abstol_cvode s));
  modify (set_abstol_cvode (fst r1));;
  r2 ← lift (read_doubles (pSpecs_tot s) (snd r1) (y_cvode s));
  modify (set_y_cvode (fst r2));;
  modify (set_pTolsset true).

(** ** Species counts *)

(** The slots [idx + i * nspecs + slidx], [i < n], of one species in the
    elements of a compartment or patch: their sum, and their assignment by
    the fraction [frac i] of [n]. *)
Definition sum_slots (y : list real) (idx nspecs slidx n : N) : outcome real :=
  foldM (fun count i =>
           v ← at_ y (idx +u ((i *u nspecs) +u slidx));
           Ret (count + v)%Qc)
        0%Qc (range n).

Definition _getCompCount (cidx sidx : N) (s : TetODE) : outcome real :=
  assert (cidx <? size (pComps s));;
  assert (sidx <? Statedef.countSpecs (statedef s));;
  comp ← compdef (pComps s) cidx;
  let slidx := Compdef.specG2L comp sidx in
  if slidx =? LIDX_UNDEFINED then
    Throw (ArgErr "Species undefined in compartment.")
  else
    idx ← step_up_comp_specs (pComps s) 0 cidx;
    let comp_nspecs := Compdef.countSpecs comp in
    localcomp ← at_ (pComps s) cidx;
    let ntets := Comp.countTets localcomp in
    assert (idx +u (((ntets -u 1) *u comp_nspecs) +u slidx) <? pSpecs_tot s);;
    sum_slots (y_cvode s) idx comp_nspecs slidx ntets.

Definition _setCompCount (cidx sidx : N) (n : real) : method unit :=
  s ← get;
  lift (assert (cidx <? size (pComps s)));;
  lift (assert (sidx <? Statedef.countSpecs (statedef s)));;
  comp ← lift (compdef (pComps s) cidx);
  let slidx := Compdef.specG2L comp sidx in
  if slidx =? LIDX_UNDEFINED then
    throw (ArgErr "Species undefined in compartment.")
  else
    idx ← lift (step_up_comp_specs (pComps s) 0 cidx);
    localcomp ← lift (at_ (pComps s) cidx);
    let ntets := Comp.countTets localcomp in
    let comp_nspecs := Compdef.countSpecs comp in
    let comp_vol := Comp.vol localcomp in
    lift (assert (idx +u (((ntets -u 1) *u comp_nspecs) +u slidx) <? pSpecs_tot s));;
    y ← lift (foldM (fun y i =>
                       tet ← Comp.getTet localcomp i;
                       let tetvol := Tet.vol tet in
                       store y (idx +u ((i *u comp_nspecs) +u slidx))
                             (n * (tetvol / comp_vol))%Qc)
                    (y_cvode s) (range ntets));
    modify (set_y_cvode y);;
    modify (set_pReinit true).

Definition _getPatchCount (pidx sidx : N) (s : TetODE) : outcome real :=
  assert (pidx <? size (pPatches s));;
  assert (sidx <? Statedef.countSpecs (statedef s));;
  patch ← patchdef (pPatches s) pidx;
  let slidx := Patchdef.specG2L patch sidx in
  if slidx =? LIDX_UNDEFINED then
    Throw (ArgErr "Species undefined in patch.")
  else
    idx ← step_up_comp_specs (pComps s) 0 (size (pComps s));
    assert (idx <? pSpecs_tot s);;
    idx ← step_up_patch_specs (pPatches s) idx pidx;
    localpatch ← at_ (pPatches s) pidx;
    let patch_nspecs := Patchdef.countSpecs patch in
    let ntris := Patch.countTris localpatch in
    assert (idx +u ((ntris -u 1) *u patch_nspecs) +u slidx <? pSpecs_tot s);;
    sum_slots (y_cvode s) idx patch_nspecs slidx ntris.

Definition _setPatchCount (pidx sidx : N) (n : real) : method unit :=
  s ← get;
  lift (assert (pidx <? size (pPatches s)));;
  lift (assert (sidx <? Statedef.countSpecs (statedef s)));;
  patch ← lift (patchdef (pPatches s) pidx);
  let slidx := Patchdef.specG2L patch sidx in
  if slidx =? LIDX_UNDEFINED then
    throw (ArgErr "Species undefined in patch.")
  else
    idx ← lift (step_up_comp_specs (pComps s) 0 (size (pComps s)));
    lift (assert (idx <? pSpecs_tot s));;
    idx ← lift (step_up_patch_specs (pPatches s) idx pidx);
    localpatch ← lift (at_ (pPatches s) pidx);
    let patch_nspecs := Patchdef.countSpecs patch in
    let ntris := Patch.countTris localpatch in
    lift (assert (idx +u ((ntris -u 1) *u patch_nspecs +u slidx) <? pSpecs_tot s));;
    let patch_area := Patch.area localpatch in
    y ← lift (foldM (fun y i =>
                       tri ← Patch.getTri localpatch i;
                       let triarea := Tri.area tri in
                       store y (idx +u ((i *u patch_nspecs) +u slidx))
                             (n * (triarea / patch_area))%Qc)
                    (y_cvode s) (range ntris));
    modify (set_y_cvode y);;
    modify (set_pReinit true).

Definition _getTetCount (tidx sidx : N) (s : TetODE) : outcome real :=
  assert (sidx <? Statedef.countSpecs (statedef s));;
  assert (tidx <? N.of_nat (length (pTets s)));;
  slot ← at_ (pTets s) tidx;
  match slot with
  | None =>
      Throw (ArgErr ("Tetrahedron " +:+ pretty tidx +:+
                     " has not been assigned to a compartment."))
  | Some tet =>
      let comp := Tet.compdef tet in
      let cidx := Compdef.gidx comp in
      let lsidx := Compdef.specG2L comp sidx in
      if lsidx =? LIDX_UNDEFINED then
        Throw (ArgErr "Species undefined in tetrahedron.")
      else
        localcomp ← at_ (pComps s) cidx;
        let tet_lcidx := Comp.getTet_GtoL localcomp tidx in
        idx ← step_up_comp_specs (pComps s) 0 cidx;
        let slot := idx +u (Compdef.countSpecs comp *u tet_lcidx) +u lsidx in
        assert (slot <? pSpecs_tot s);;
        at_ (y_cvode s) slot
  end.

Definition _setTetCount (tidx sidx : N) (n : real) : method unit :=
  s ← get;
  lift (assert (sidx <? Statedef.countSpecs (statedef s)));;
  lift (assert (tidx <? N.of_nat (length (pTets s))));;
  slot ← lift (at_ (pTets s) tidx);
  match slot with
  | None =>
      throw (ArgErr ("Tetrahedron " +:+ pretty tidx +:+
                     " has not been assigned to a compartment."))
  | Some tet =>
      let comp := Tet.compdef tet in
      let cidx := Compdef.gidx comp in
      let lsidx := Compdef.specG2L comp sidx in
      if lsidx =? LIDX_UNDEFINED then
        throw (ArgErr "Species undefined in tetrahedron.")
      else
        localcomp ← lift (at_ (pComps s) cidx);
        let tet_lcidx := Comp.getTet_GtoL localcomp tidx in
        idx ← lift (step_up_comp_specs (pComps s) 0 cidx);
        let slot := idx +u (Compdef.countSpecs comp *u tet_lcidx) +u lsidx in
        lift (assert (slot <? pSpecs_tot s));;
        y ← lift (store (y_cvode s) slot n);
        modify (set_y_cvode y);;
        modify (set_pReinit true)
  end.

Definition _getTriCount (tidx sidx : N) (s : TetODE) : outcome real :=
  assert (sidx <? Statedef.countSpecs (statedef s));;
  assert (tidx <? N.of_nat (length (pTris s)));;
  slot ← at_ (pTris s) tidx;
  match slot with
  | None =>
      Throw (ArgErr ("Triangle " +:+ pretty tidx +:+
                     " has not been assigned to a patch."))
  | Some tri =>
      let patch := Tri.patchdef tri in
      let pidx := Patchdef.gidx patch in
      let lsidx := Patchdef.specG2L patch sidx in
      if lsidx =? LIDX_UNDEFINED then
        Throw (ArgErr "Species undefined in triangle.")
      else
        localpatch ← at_ (pPatches s) pidx;
        let tri_lpidx := Patch.getTri_GtoL localpatch tidx in
        idx ← step_up_comp_specs (pComps s) 0 (size (pComps s));
        idx ← step_up_patch_specs (pPatches s) idx pidx;
        let slot := idx +u (Patchdef.countSpecs patch *u tri_lpidx) +u lsidx in
        assert (slot <? pSpecs_tot s);;
        at_ (y_cvode s) slot
  end.

Definition _setTriCount (tidx sidx : N) (n : real) : method unit :=
  s ← get;
  lift (assert (sidx <? Statedef.countSpecs (statedef s)));;
  lift (assert (tidx <? N.of_nat (length (pTris s))));;
  slot ← lift (at_ (pTris s) tidx);
  match slot with
  | None =>
      throw (ArgErr ("Triangle " +:+ pretty tidx +:+
                     " has not been assigned to a patch."))
  | Some tri =>
      let patch := Tri.patchdef tri in
      let pidx := Patchdef.gidx patch in
      let lsidx := Patchdef.specG2L patch sidx in
      if lsidx =? LIDX_UNDEFINED then
        throw (ArgErr "Species undefined in triangle.")
      else
        localpatch ← lift (at_ (pPatches s) pidx);
        let tri_lpidx := Patch.getTri_GtoL localpatch tidx in
        idx ← lift (step_up_comp_specs (pComps s) 0 (size (pComps s)));
        idx ← lift (step_up_patch_specs (pPatches s) idx pidx);
        let slot := idx +u (Patchdef.countSpecs patch *u tri_lpidx) +u lsidx in
        lift (assert (slot <? pSpecs_tot s));;
        y ← lift (store (y_cvode s) slot n);
        modify (set_y_cvode y);;
        modify (set_pReinit true)
  end.

(** ** Rate constants *)

(** The loop over the processes of one slot: the coefficient of those with
    process index [reac_idx] becomes [c]. *)
Definition rebind_row (reac_idx : N) (c : real) (row : list structA)
  : list structA :=
  (fun r => if r_idx r =? reac_idx then with_ccst c r else r) <$> row.

(** The loop over the slots [spec_idx + k], [k < nspecs]. *)
Definition rebind_slots (reac_idx : N) (c : real) (spec_idx nspecs : N)
    (G : matrix) : outcome matrix :=
  foldM (fun G k =>
           row ← at_ G (spec_idx +u k);
           store G (spec_idx +u k) (rebind_row reac_idx c row))
        G (range nspecs).

Definition _setTetReacK (tidx ridx : N) (kf : real) : method unit :=
  s ← get;
  lift (assert (tidx <? N.of_nat (length (pTets s))));;
  lift (assert (ridx <? Statedef.countReacs (statedef s)));;
  slot ← lift (at_ (pTets s) tidx);
  match slot with
  | None =>
      throw (ArgErr ("Tetrahedron " +:+ pretty tidx +:+
                     " has not been assigned to a compartment."))
  | Some tet =>
      let comp := Tet.compdef tet in
      let lridx := Compdef.reacG2L comp ridx in
      if lridx =? LIDX_UNDEFINED then
        throw (ArgErr "Reaction undefined in tetrahedron.")
      else
        let cidx := Compdef.gidx (Tet.compdef tet) in
        spec_idx ← lift (step_up_comp_specs (pComps s) 0 cidx);
        reac_idx ← lift (step_up_comp_reacs (pComps s) 0 cidx);
        let compSpecs_N := Compdef.countSpecs comp in
        let compReacs_N := Compdef.countReacs comp in
        localcomp ← lift (at_ (pComps s) cidx);
        let tlidx := Comp.getTet_GtoL localcomp tidx in
        let spec_idx := spec_idx +u (compSpecs_N *u tlidx) in
        let reac_idx := reac_idx +u (compReacs_N *u tlidx) in
        let reac_idx := reac_idx +u lridx in
        let tet_vol := Tet.vol tet in
        let reac_order := Reacdef.order (Compdef.reacdef comp lridx) in
        let c := _ccst kf tet_vol reac_order in
        G ← lift (rebind_slots reac_idx c spec_idx compSpecs_N
                               (pSpec_matrixsub s));
        modify (set_pSpec_matrixsub G)
  end.

(** A loop calling a method for every element of a vector. *)
Fixpoint for_each {A : Type} (f : A -> method unit) (l : list A)
  : method unit :=
  match l with
  | [] => mret tt
  | a :: l' => f a;; for_each f l'
  end.

Definition _setCompReacK (cidx ridx : N) (kf : real) : method unit :=
  s ← get;
  lift (assert (cidx <? size (pComps s)));;
  comp ← lift (at_ (pComps s) cidx);
  for_each (fun tet => _setTetReacK (Tet.idx tet) ridx kf) (Comp.pTets comp).

(** The processes of surface reaction [reac_idx] in the slots of the
    tetrahedron [tet] next to the triangle. *)
Definition rebind_tet_side (tet : option Tet.t) (nspecs_side : N)
    (reac_idx : N) (c : real) : method unit :=
  s ← get;
  tet ← lift (deref tet);
  let cidx := Compdef.gidx (Tet.compdef tet) in
  comp ← lift (at_ (pComps s) cidx);
  spec_idx ← lift (step_up_comp_specs (pComps s) 0 cidx);
  cdef ← lift (compdef (pComps s) cidx);
  let compSpecs_N := Compdef.countSpecs cdef in
  lift (assert (compSpecs_N =? nspecs_side));;
  let tlidx := Comp.getTet_GtoL comp (Tet.idx tet) in
  let spec_idx := spec_idx +u (compSpecs_N *u tlidx) in
  G ← lift (rebind_slots reac_idx c spec_idx compSpecs_N (pSpec_matrixsub s));
  modify (set_pSpec_matrixsub G).

Definition _setTriSReacK (tidx ridx : N) (kf : real) : method unit :=
  s ← get;
  lift (assert (ridx <? Statedef.countSReacs (statedef s)));;
  lift (assert (tidx <? N.of_nat (length (pTris s))));;
  slot ← lift (at_ (pTris s) tidx);
  match slot with
  | None =>
      throw (ArgErr ("Triangle " +:+ pretty tidx +:+
                     " has not been assigned to a patch."))
  | Some tri =>
      let patch := Tri.patchdef tri in
      let pidx := Patchdef.gidx patch in
      let lsridx := Patchdef.sreacG2L patch ridx in
      if lsridx =? LIDX_UNDEFINED then
        throw (ArgErr "Surface Reaction undefined in triangle.")
      else
        let sr := Patchdef.sreacdef patch lsridx in
        c ← lift (sreac_ccst patch tri sr kf kf);
        let ncomps := size (pComps s) in
        spec_idx ← lift (step_up_comp_specs (pComps s) 0 ncomps);
        reac_idx ← lift (step_up_comp_reacs (pComps s) 0 ncomps);
        spec_idx ← lift (step_up_patch_specs (pPatches s) spec_idx pidx);
        reac_idx ← lift (step_up_patch_reacs (pPatches s) reac_idx pidx);
        let patchSpecs_N := Patchdef.countSpecs patch in
        let patchSReacs_N := Patchdef.countSReacs patch in
        localpatch ← lift (at_ (pPatches s) pidx);
        let tri_lpidx := Patch.getTri_GtoL localpatch tidx in
        let spec_idx := spec_idx +u (patchSpecs_N *u tri_lpidx) in
        let reac_idx := reac_idx +u (patchSReacs_N *u tri_lpidx) in
        let reac_idx := reac_idx +u lsridx in
        G ← lift (rebind_slots reac_idx c spec_idx patchSpecs_N
                               (pSpec_matrixsub s));
        modify (set_pSpec_matrixsub G);;
        (if SReacdef.reqInside sr then
           rebind_tet_side (Tri.iTet tri) (Patchdef.countSpecs_I patch)
                           reac_idx c
         else mret tt);;
        (if SReacdef.reqOutside sr then
           rebind_tet_side (Tri.oTet tri) (Patchdef.countSpecs_O patch)
                           reac_idx c
         else mret tt)
  end.

Definition _setPatchSReacK (pidx ridx : N) (kf : real) : method unit :=
  s ← get;
  lift (assert (pidx <? size (pPatches s)));;
  patch ← lift (at_ (pPatches s) pidx);
  for_each (fun tri => _setTriSReacK (Tri.idx tri) ridx kf) (Patch.pTris patch).

(** ** The calls a [run] makes on the integrator

    Written from the specification of the integration driver: the first
    run configures the integrator, a pending reinitialisation restarts it
    at the current time and state, then the integrator is stepped. *)

Definition init_calls (s : TetODE) : list cv_call :=
  if pInitialised s then []
  else [CVodeSetMaxNumSteps (pNmax_cvode s);
        CVodeSVtolerances (reltol_cvode s) (abstol_cvode s)].

Definition reinit_calls (s : TetODE) : list cv_call :=
  if pReinit s then [CVodeReInit (Statedef.time (statedef s)) (y_cvode s)]
  else [].

Definition step_call (endtime : real) (s : TetODE) : cv_call :=
  CVode endtime (y_cvode s) (pSpec_matrixsub s).

(** The integrator accepts each of [calls], made in turn on memory [mem]:
    none returns a negative flag. *)
Fixpoint accepted (cv : Integrator) (mem calls : list cv_call) : Prop :=
  match calls with
  | [] => True
  | c :: calls' =>
      (0 <= cv_flag (cv (mem ++ [c])))%Z /\ accepted cv (mem ++ [c]) calls'
  end.

(** The state a call ends in, however it ends. *)
Definition final_state {A : Type} (r : result A) : option TetODE :=
  match r with
  | Done _ s => Some s
  | Raise _ s => Some s
  | Crash => None
  end.


(** ** Frame and postcondition of a method *)

(** [frame R m]: however [m] ends, the state it ends in is related by [R]
    to the state it started in. *)
Definition frame {A : Type} (R : TetODE -> TetODE -> Prop) (m : method A)
  : Prop :=
  forall s s', final_state (m s) = Some s' -> R s s'.

(** [post Q m]: when [m] returns normally, [Q] holds of the state. *)
Definition post {A : Type} (Q : TetODE -> Prop) (m : method A) : Prop :=
  forall s a s', m s = Done a s' -> Q s'.

(** Nothing but the process graph differs between [s] and [s']. *)
Definition matrix_only (s s' : TetODE) : Prop :=
  s' = set_pSpec_matrixsub (pSpec_matrixsub s') s.

(** The calls of a whole [run], in order. *)
Definition calls_of_run (endtime : real) (s : TetODE) : list cv_call :=
  init_calls s ++ reinit_calls s ++ [step_call endtime s].

(** ** The derivative as the specification writes it

    A process contributes [u * c * prod y[j]^order] over its reactant
    descriptors [(order, j)]; the derivative of a slot is the sum over the
    processes stored for it. *)

Definition Qc_sum (l : list real) : real := foldr Qcplus 0%Qc l.

Definition Qc_prod (l : list real) : real := foldr Qcmult 1%Qc l.

Definition descriptors (r : structA) : list structC :=
  concat (info <$> players r).

Definition descriptor_factor (y : list real) (q : structC) : real :=
  (default 0%Qc (y !! N.to_nat (spec_idx q)) ^ N.to_nat (order q))%Qc.

Definition process_rate (y : list real) (r : structA) : real :=
  (Q2Qc (inject_Z (upd r)) * ccst r *
   Qc_prod (descriptor_factor y <$> descriptors r))%Qc.

Definition slot_derivative (y : list real) (sp : list structA) : real :=
  Qc_sum (process_rate y <$> sp).

(** Every reactant descriptor of the graph names a component of [y]. *)
Definition descriptors_in_range (G : list (list structA)) (y : list real)
  : Prop :=
  Forall (Forall (fun r =>
    Forall (fun q => (N.to_nat (spec_idx q) < length y)%nat) (descriptors r)))
    G.

(** ** The size of the index space as the specification writes it *)

Definition N_sum (l : list N) : N := foldr N.add 0 l.

Definition comp_block (c : Comp.t) : N :=
  Compdef.countSpecs (Comp.def c) * N.of_nat (length (Comp.pTets c)).

Definition patch_block (p : Patch.t) : N :=
  Patchdef.countSpecs (Patch.def p) * N.of_nat (length (Patch.pTris p)).

Definition layout_size (comps : list Comp.t) (patches : list Patch.t) : N :=
  N_sum (comp_block <$> comps) + N_sum (patch_block <$> patches).

(** ** The layout of the state vector as the specification writes it

    The block of compartment [cidx] starts after the blocks of the
    compartments before it; within a block the species of element [i]
    start at [i * nspecs]. *)

Definition comp_base (comps : list Comp.t) (cidx : nat) : N :=
  N_sum (comp_block <$> take cidx comps).

Definition slot_of (idx nspecs slidx : N) (i : nat) : nat :=
  N.to_nat (idx + N.of_nat i * nspecs + slidx).

(** ** Process indices as the builder assigns them

    The processes of compartment [cidx] are numbered after those of the
    compartments before it, the reactions of all its tetrahedra first:
    reaction [lridx] at local tetrahedron [tlidx] has the index below. *)

Definition comp_reac_block (c : Comp.t) : N :=
  (Compdef.countReacs (Comp.def c) + Compdef.countDiffs (Comp.def c)) *
  N.of_nat (length (Comp.pTets c)).

Definition comp_reac_base (comps : list Comp.t) (cidx : nat) : N :=
  N_sum (comp_reac_block <$> take cidx comps).

Definition reaction_process_id (comps : list Comp.t) (cdef : Compdef.t)
    (tlidx lridx : N) : N :=
  comp_reac_base comps (N.to_nat (Compdef.gidx cdef)) +
  Compdef.countReacs cdef * tlidx + lridx.

(** The slots of local tetrahedron [tlidx] of the compartment defined by
    [cdef]. *)
Definition tet_slots (comps : list Comp.t) (cdef : Compdef.t) (tlidx : N)
    (x : nat) : Prop :=
  let first := comp_base comps (N.to_nat (Compdef.gidx cdef)) +
               Compdef.countSpecs cdef * tlidx in
  (N.to_nat first <= x < N.to_nat (first + Compdef.countSpecs cdef))%nat.

(** ** The volume diffusion processes as the specification writes them

    For every tetrahedron [t] of the compartment, every diffusion rule [j],
    the species [k] it depends on and every face [l] behind which a
    neighbour [nb] is connected, two processes with the conductance
    [area(l) * D / (vol(t) * dist(l))] and the single reactant descriptor
    (1, donor slot): one with update -1 for the donor slot and one with
    update +1 for the slot of the species in the neighbour. An entry pairs
    a slot with the process appended to it; the two processes are written
    out field by field, apart from the records that the builder makes. *)

Definition diff_pair (comps : list Comp.t) (i : N) (comp : Comp.t)
    (reac_gidx t j k l : N) (tet_base : Tet.t) (nb : N)
  : list (nat * structA) :=
  let cdef := Comp.def comp in
  let dccst :=
    ((Tet.area tet_base l * Compdef.dcst cdef j) /
     (Tet.vol tet_base * Tet.dist tet_base l))%Qc in
  let base := comp_base comps (N.to_nat i) in
  let donor := base + Compdef.countSpecs cdef * t + k in
  let acceptor :=
    base + Compdef.countSpecs cdef * Comp.getTet_GtoL comp nb + k in
  [(N.to_nat donor,
    {| ccst := dccst; r_idx := reac_gidx + j; upd := (-1)%Z;
       players := [{| info := [{| order := 1; spec_idx := donor |}] |}] |});
   (N.to_nat acceptor,
    {| ccst := dccst; r_idx := reac_gidx + j; upd := 1%Z;
       players := [{| info := [{| order := 1; spec_idx := donor |}] |}] |})].

Definition diff_entries_l (comps : list Comp.t) (i : N) (comp : Comp.t)
    (reac_gidx t j k : N) (tet_base : Tet.t) (l : N) : list (nat * structA) :=
  match Tet.nextTet tet_base l with
  | Some nb => diff_pair comps i comp reac_gidx t j k l tet_base nb
  | None => []
  end.

Definition diff_entries_k (comps : list Comp.t) (i : N) (comp : Comp.t)
    (reac_gidx t j k : N) : list (nat * structA) :=
  if Compdef.diff_dep (Comp.def comp) j k then
    match Comp.pTets comp !! N.to_nat t with
    | Some tet_base =>
        flat_map (diff_entries_l comps i comp reac_gidx t j k tet_base)
                 (range 4)
    | None => []
    end
  else [].

Definition diff_entries_t (comps : list Comp.t) (i : N) (comp : Comp.t)
    (reac_gidx t : N) : list (nat * structA) :=
  flat_map (fun j =>
              flat_map (diff_entries_k comps i comp reac_gidx t j)
                       (range (Compdef.countSpecs (Comp.def comp))))
           (range (Compdef.countDiffs (Comp.def comp))).

(** The entries of the tetrahedra [a .. a+n-1]; the process index of the
    rules of tetrahedron [t] starts at [reac_gidx + countDiffs * t]. *)
Definition diff_entries_from (comps : list Comp.t) (i : N) (comp : Comp.t)
    (reac_gidx : N) (a n : nat) : list (nat * structA) :=
  flat_map (fun t : nat =>
              diff_entries_t comps i comp
                (reac_gidx + Compdef.countDiffs (Comp.def comp) * N.of_nat t)
                (N.of_nat t))
           (seq a n).

Definition diff_entries (comps : list Comp.t) (i : N) (comp : Comp.t)
    (reac_gidx : N) : list (nat * structA) :=
  diff_entries_from comps i comp reac_gidx 0 (length (Comp.pTets comp)).

(** A process appended to the slot it is paired with, and a list of them
    appended in order. *)
Definition push_at (e : nat * structA) (G : matrix) : matrix :=
  match G !! e.1 with
  | Some row => <[e.1 := row ++ [e.2]]> G
  | None => G
  end.

Definition push_all (es : list (nat * structA)) (G : matrix) : matrix :=
  foldl (fun G e => push_at e G) G es.

(** The processes that a list of entries appends to slot [x], in order. *)
Definition processes_at (x : nat) (es : list (nat * structA))
  : list structA :=
  snd <$> filter (fun e => e.1 = x) es.

(** ** What the integration driver leaves alone

    [run] and [advance] work on the integrator memory, the state vector,
    the two flags of the driver and the simulation time. *)

Definition driver_only (s s' : TetODE) : Prop :=
  pComps s' = pComps s /\ pPatches s' = pPatches s /\
  pTris s' = pTris s /\ pTets s' = pTets s /\
  pSpecs_tot s' = pSpecs_tot s /\ pReacs_tot s' = pReacs_tot s /\
  pTolsset s' = pTolsset s /\ pNmax_cvode s' = pNmax_cvode s /\
  t_cvode s' = t_cvode s /\ reltol_cvode s' = reltol_cvode s /\
  abstol_cvode s' = abstol_cvode s /\
  pSpec_matrixsub s' = pSpec_matrixsub s.

(** The calls that hand the step budget and the tolerances over. *)
Definition is_configuration (c : cv_call) : bool :=
  match c with
  | CVodeSetMaxNumSteps _ => true
  | CVodeSVtolerances _ _ => true
  | _ => false
  end.

(** ** Volumes, areas, amounts and concentrations

    The amount of a species is its count over Avogadro's number, its
    concentration the count over [1.0e3 * vol * AVOGADRO]. The setters
    convert and call the count setters. A division by a volume that is 0
    gives an infinity or a NaN in the source and 0 here; the properties
    proved about these functions assume the volume is not 0. *)

Definition _getCompVol (cidx : N) (s : TetODE) : outcome real :=
  assert (cidx <? size (pComps s));;
  comp ← at_ (pComps s) cidx;
  Ret (Comp.vol comp).

Definition _getCompAmount (cidx sidx : N) (s : TetODE) : outcome real :=
  count ← _getCompCount cidx sidx s;
  Ret (count / AVOGADRO)%Qc.

Definition _setCompAmount (cidx sidx : N) (a : real) : method unit :=
  let a2 := (a * AVOGADRO)%Qc in
  _setCompCount cidx sidx a2.

Definition _getCompConc (cidx sidx : N) (s : TetODE) : outcome real :=
  count ← _getCompCount cidx sidx s;
  vol ← _getCompVol cidx s;
  Ret (count / (Q2Qc 1000 * vol * AVOGADRO))%Qc.

Definition _setCompConc (cidx sidx : N) (c : real) : method unit :=
  vol ← const_call (_getCompVol cidx);
  let count := (c * (Q2Qc 1000 * vol * AVOGADRO))%Qc in
  _setCompCount cidx sidx count.

Definition _getPatchArea (pidx : N) (s : TetODE) : outcome real :=
  assert (pidx <? size (pPatches s));;
  patch ← at_ (pPatches s) pidx;
  Ret (Patch.area patch).

Definition _getPatchAmount (pidx sidx : N) (s : TetODE) : outcome real :=
  count ← _getPatchCount pidx sidx s;
  Ret (count / AVOGADRO)%Qc.

Definition _setPatchAmount (pidx sidx : N) (a : real) : method unit :=
  lift (assert (negb (ltb_real a 0%Qc)));;
  let a2 := (a * AVOGADRO)%Qc in
  _setPatchCount pidx sidx a2.

Definition _getTetVol (tidx : N) (s : TetODE) : outcome real :=
  assert (tidx <? N.of_nat (length (pTets s)));;
  slot ← at_ (pTets s) tidx;
  match slot with
  | None =>
      Throw (ArgErr ("Tetrahedron " +:+ pretty tidx +:+
                     " has not been assigned to a compartment."))
  | Some tet => Ret (Tet.vol tet)
  end.

Definition _getTetConc (tidx sidx : N) (s : TetODE) : outcome real :=
  count ← _getTetCount tidx sidx s;
  slot ← at_ (pTets s) tidx;
  tet ← deref slot;
  let vol := Tet.vol tet in
  Ret (count / (Q2Qc 1000 * vol * AVOGADRO))%Qc.

Definition _setTetConc (tidx sidx : N) (c : real) : method unit :=
  s ← get;
  lift (assert (tidx <? N.of_nat (length (pTets s))));;
  slot ← lift (at_ (pTets s) tidx);
  match slot with
  | None =>
      throw (ArgErr ("Tetrahedron " +:+ pretty tidx +:+
                     " has not been assigned to a compartment."))
  | Some tet =>
      let vol := Tet.vol tet in
      let count := (c * (Q2Qc 1000 * vol * AVOGADRO))%Qc in
      _setTetCount tidx sidx count
  end.

Definition _getTetAmount (tidx sidx : N) (s : TetODE) : outcome real :=
  count ← _getTetCount tidx sidx s;
  Ret (count / AVOGADRO)%Qc.

Definition _setTetAmount (tidx sidx : N) (a : real) : method unit :=
  let a2 := (a * AVOGADRO)%Qc in
  _setTetCount tidx sidx a2.

Definition _getTriArea (tidx : N) (s : TetODE) : outcome real :=
  assert (tidx <? N.of_nat (length (pTris s)));;
  slot ← at_ (pTris s) tidx;
  match slot with
  | None =>
      Throw (ArgErr ("Triangle " +:+ pretty tidx +:+
                     " has not been assigned to a patch."))
  | Some tri => Ret (Tri.area tri)
  end.

Definition _getTriAmount (tidx sidx : N) (s : TetODE) : outcome real :=
  count ← _getTriCount tidx sidx s;
  Ret (count / AVOGADRO)%Qc.

Definition _setTriAmount (tidx sidx : N) (a : real) : method unit :=
  lift (assert (negb (ltb_real a 0%Qc)));;
  let a2 := (a * AVOGADRO)%Qc in
  _setTriCount tidx sidx a2.

(** ** The slot of a species in a tetrahedron or a triangle, as the
    layout of the state vector gives it *)

Definition patch_base (comps : list Comp.t) (patches : list Patch.t)
    (pidx : nat) : N :=
  N_sum (comp_block <$> comps) + N_sum (patch_block <$> take pidx patches).

Definition tet_slot (comps : list Comp.t) (tet : Tet.t) (c : Comp.t)
    (tidx sidx : N) : N :=
  let cdef := Tet.compdef tet in
  comp_base comps (N.to_nat (Compdef.gidx cdef)) +
  Compdef.countSpecs cdef * Comp.getTet_GtoL c tidx +
  Compdef.specG2L cdef sidx.

Definition tri_slot (comps : list Comp.t) (patches : list Patch.t)
    (tri : Tri.t) (p : Patch.t) (tidx sidx : N) : N :=
  let pdef := Tri.patchdef tri in
  patch_base comps patches (N.to_nat (Patchdef.gidx pdef)) +
  Patchdef.countSpecs pdef * Patch.getTri_GtoL p tidx +
  Patchdef.specG2L pdef sidx.

(** ** The stoichiometry of the process graph

    What a process is apart from its coefficient: its process index, its
    update multiplier and its reactant descriptors. *)

Definition stoichiometry (G : matrix)
  : list (list (N * Z * list structB)%type) :=
  (fun row : list structA => (fun r => (r_idx r, upd r, players r)) <$> row)
    <$> G.

(** Only coefficients of the process graph differ between [s] and [s']. *)
Definition coefficients_only (s s' : TetODE) : Prop :=
  matrix_only s s' /\
  stoichiometry (pSpec_matrixsub s') = stoichiometry (pSpec_matrixsub s).

(** [frame_at R m s]: however [m] ends when started in [s], the state it
    ends in is related by [R] to [s]. *)
Definition frame_at {A : Type} (R : TetODE -> TetODE -> Prop) (m : method A)
    (s : TetODE) : Prop :=
  forall s', final_state (m s) = Some s' -> R s s'.

(** ** Postconditions of a fallible computation *)

(** [returns P o]: when [o] returns normally, [P] holds of the result. *)
Definition returns {A : Type} (P : A -> Prop) (o : outcome A) : Prop :=
  forall a, o = Ret a -> P a.

(** ** The volume reaction processes as the builder lays them out

    For every tetrahedron [t] of a compartment, every reaction [j] and
    every species [k] whose update by the reaction is not 0, one process
    at the slot of [k] in [t]: its coefficient is the rate constant scaled
    by the volume of [t], its reactant descriptors are (order, slot in
    [t]) for the species on the left-hand side. [r] and [s] are the
    process index and the slot at which the compartment starts. *)

Definition lhs_descriptors (lhs : N -> N) (base nspecs : N) : list structC :=
  flat_map (fun l => if lhs l =? 0 then []
                     else [{| order := lhs l; spec_idx := base + l |}])
           (range nspecs).

Definition reac_entries_j (cdef : Compdef.t) (vol : real) (r s j : N)
  : list (nat * structA) :=
  flat_map
    (fun k =>
       let u := Compdef.reac_upd_bgn cdef j k in
       if (u =? 0)%Z then []
       else [(N.to_nat (s + k),
              {| ccst := _ccst (Compdef.kcst cdef j) vol
                               (Reacdef.order (Compdef.reacdef cdef j));
                 r_idx := r + j;
                 upd := u;
                 players :=
                   [{| info := lhs_descriptors (Compdef.reac_lhs_bgn cdef j)
                                               s (Compdef.countSpecs cdef) |}]
              |})])
    (range (Compdef.countSpecs cdef)).

Definition reac_entries_t (comp : Comp.t) (r s : N) (t : nat)
  : list (nat * structA) :=
  let cdef := Comp.def comp in
  match Comp.pTets comp !! t with
  | Some tet =>
      flat_map (reac_entries_j cdef (Tet.vol tet)
                  (r + Compdef.countReacs cdef * N.of_nat t)
                  (s + Compdef.countSpecs cdef * N.of_nat t))
               (range (Compdef.countReacs cdef))
  | None => []
  end.

Definition reac_entries_from (comp : Comp.t) (r s : N) (a n : nat)
  : list (nat * structA) :=
  flat_map (reac_entries_t comp r s) (seq a n).

Definition reac_entries (comp : Comp.t) (r s : N) : list (nat * structA) :=
  reac_entries_from comp r s 0 (length (Comp.pTets comp)).

(** The processes of compartment [i]: its reactions, then its diffusion
    rules, whose process indices follow those of the reactions. *)
Definition comp_entries (comps : list Comp.t) (i : nat)
  : list (nat * structA) :=
  match comps !! i with
  | Some c =>
      let r := comp_reac_base comps i in
      reac_entries c r (comp_base comps i) ++
      diff_entries comps (N.of_nat i) c
        (r + Compdef.countReacs (Comp.def c) *
             N.of_nat (length (Comp.pTets c)))
  | None => []
  end.

Definition comps_entries_from (comps : list Comp.t) (a n : nat)
  : list (nat * structA) :=
  flat_map (comp_entries comps) (seq a n).

(** The compartments a builder can lay out without leaving the range of
    [uint]: each has fewer than 2^32 tetrahedra, and every connected
    neighbour of a tetrahedron is a tetrahedron of the same compartment. *)
Definition comp_connected (c : Comp.t) : Prop :=
  N.of_nat (length (Comp.pTets c)) < UInt.modulus /\
  forall (t : nat) (tet : Tet.t) (l nb : N),
    Comp.pTets c !! t = Some tet -> l < 4 ->
    Tet.nextTet tet l = Some nb ->
    Comp.getTet_GtoL c nb < N.of_nat (length (Comp.pTets c)).

(** An entry whose slot and whose reactant descriptors lie inside a
    vector of [n] components. *)
Definition entry_in_range (n : nat) (e : nat * structA) : Prop :=
  (e.1 < n)%nat /\
  Forall (fun q => (N.to_nat (spec_idx q) < n)%nat) (descriptors e.2).

(** ** The solver interface for triangles ([solver::API], api_tri.cpp)

    Every operation of the interface first asks whether the geometry is a
    tetrahedral mesh and whether the triangle index is inside it, checks a
    value where it has one to check, resolves a name through the state
    definition, and then calls a virtual method. The virtual methods of
    the base class raise [NotImplErr]; a solver overrides those it
    supports. The overloads [getTriOhmicI(tidx, oc)] and
    [getTriGHKI(tidx, ghk)] carry their extra argument in their name. *)

Module API.

(** What the interface reads of the geometry and of the state definition:
    [countTris] of the mesh when [geom()] is a [Tetmesh], and the name
    resolvers of [Statedef], which raise for a name that is not known. *)
Record env : Type := {
  mesh_countTris : option N;
  getSpecIdx : string -> outcome N;
  getSReacIdx : string -> outcome N;
  getOhmicCurrIdx : string -> outcome N;
  getGHKcurrIdx : string -> outcome N;
  getVDepSReacIdx : string -> outcome N
}.

Class Virtuals : Type := {
  _getTriArea : N -> TetODE -> outcome real;
  _setTriArea : N -> real -> method unit;
  _getTriCount : N -> N -> TetODE -> outcome real;
  _getTriSpecDefined : N -> N -> TetODE -> outcome bool;
  _setTriCount : N -> N -> real -> method unit;
  _getTriAmount : N -> N -> TetODE -> outcome real;
  _setTriAmount : N -> N -> real -> method unit;
  _getTriClamped : N -> N -> TetODE -> outcome bool;
  _setTriClamped : N -> N -> bool -> method unit;
  _getTriSReacK : N -> N -> TetODE -> outcome real;
  _setTriSReacK : N -> N -> real -> method unit;
  _getTriSReacActive : N -> N -> TetODE -> outcome bool;
  _setTriSReacActive : N -> N -> bool -> method unit;
  _getTriSReacH : N -> N -> TetODE -> outcome real;
  _getTriSReacC : N -> N -> TetODE -> outcome real;
  _getTriSReacA : N -> N -> TetODE -> outcome real;
  _getTriV : N -> TetODE -> outcome real;
  _setTriV : N -> real -> method unit;
  _getTriVClamped : N -> TetODE -> outcome bool;
  _setTriVClamped : N -> bool -> method unit;
  _getTriOhmicI : N -> TetODE -> outcome real;
  _getTriOhmicI_oc : N -> N -> TetODE -> outcome real;
  _getTriGHKI : N -> TetODE -> outcome real;
  _getTriGHKI_ghk : N -> N -> TetODE -> outcome real;
  _getTriI : N -> TetODE -> outcome real;
  _setTriIClamp : N -> real -> method unit;
  _getTriVDepSReacActive : N -> N -> TetODE -> outcome bool;
  _setTriVDepSReacActive : N -> N -> bool -> method unit
}.

(** The virtual methods as the base class defines them. *)
#[export] Instance base : Virtuals := {|
  _getTriArea := fun _ _ => Throw (NotImplErr "");
  _setTriArea := fun _ _ => throw (NotImplErr "");
  _getTriCount := fun _ _ _ => Throw (NotImplErr "");
  _getTriSpecDefined := fun _ _ _ => Throw (NotImplErr "");
  _setTriCount := fun _ _ _ => throw (NotImplErr "");
  _getTriAmount := fun _ _ _ => Throw (NotImplErr "");
  _setTriAmount := fun _ _ _ => throw (NotImplErr "");
  _getTriClamped := fun _ _ _ => Throw (NotImplErr "");
  _setTriClamped := fun _ _ _ => throw (NotImplErr "");
  _getTriSReacK := fun _ _ _ => Throw (NotImplErr "");
  _setTriSReacK := fun _ _ _ => throw (NotImplErr "");
  _getTriSReacActive := fun _ _ _ => Throw (NotImplErr "");
  _setTriSReacActive := fun _ _ _ => throw (NotImplErr "");
  _getTriSReacH := fun _ _ _ => Throw (NotImplErr "");
  _getTriSReacC := fun _ _ _ => Throw (NotImplErr "");
  _getTriSReacA := fun _ _ _ => Throw (NotImplErr "");
  _getTriV := fun _ _ => Throw (NotImplErr "");
  _setTriV := fun _ _ => throw (NotImplErr "");
  _getTriVClamped := fun _ _ => Throw (NotImplErr "");
  _setTriVClamped := fun _ _ => throw (NotImplErr "");
  _getTriOhmicI := fun _ _ => Throw (NotImplErr "");
  _getTriOhmicI_oc := fun _ _ _ => Throw (NotImplErr "");
  _getTriGHKI := fun _ _ => Throw (NotImplErr "");
  _getTriGHKI_ghk := fun _ _ _ => Throw (NotImplErr "");
  _getTriI := fun _ _ => Throw (NotImplErr "");
  _setTriIClamp := fun _ _ => throw (NotImplErr "");
  _getTriVDepSReacActive := fun _ _ _ => Throw (NotImplErr "");
  _setTriVDepSReacActive := fun _ _ _ => throw (NotImplErr "")
|}.

Section Interface.

Context (e : env) {V : Virtuals}.

Definition getTriArea (tidx : N) (st : TetODE) : outcome real :=
  match mesh_countTris e with
  | Some countTris =>
      if countTris <=? tidx then
        Throw (ArgErr "Triangle index out of range.")
      else
        _getTriArea tidx st
  | None => Throw (NotImplErr "")
  end.

Definition setTriArea (tidx : N) (area : real) : method unit :=
  match mesh_countTris e with
  | Some countTris =>
      if countTris <=? tidx then
        throw (ArgErr "Triangle index out of range.")
      else
        _setTriArea tidx area
  | None => throw (NotImplErr "")
  end.

Definition getTriCount (tidx : N) (s : string) (st : TetODE) : outcome real :=
  match mesh_countTris e with
  | Some countTris =>
      if countTris <=? tidx then
        Throw (ArgErr "Triangle index out of range.")
      else
        sidx ← getSpecIdx e s;
        _getTriCount tidx sidx st
  | None => Throw (NotImplErr "")
  end.

Definition getTriSpecDefined (tidx : N) (s : string) (st : TetODE) : outcome bool :=
  match mesh_countTris e with
  | Some countTris =>
      if countTris <=? tidx then
        Throw (ArgErr "Triangle index out of range.")
      else
        sidx ← getSpecIdx e s;
        _getTriSpecDefined tidx sidx st
  | None => Throw (NotImplErr "")
  end.


Definition getTriAmount (tidx : N) (s : string) (st : TetODE) : outcome real :=
  match mesh_countTris e with
  | Some countTris =>
      if countTris <=? tidx then
        Throw (ArgErr "Triangle index out of range.")
      else
        sidx ← getSpecIdx e s;
        _getTriAmount tidx sidx st
  | None => Throw (NotImplErr "")
  end.


Definition getTriClamped (tidx : N) (s : string) (st : TetODE) : outcome bool :=
  match mesh_countTris e with
  | Some countTris =>
      if countTris <=? tidx then
        Throw (ArgErr "Triangle index out of range.")
      else
        sidx ← getSpecIdx e s;
        _getTriClamped tidx sidx st
  | None => Throw (NotImplErr "")
  end.

Definition setTriClamped (tidx : N) (s : string) (buf : bool) : method unit :=
  match mesh_countTris e with
  | Some countTris =>
      if countTris <=? tidx then
        throw (ArgErr "Triangle index out of range.")
      else
        sidx ← lift (getSpecIdx e s);
        _setTriClamped tidx sidx buf
  | None => throw (NotImplErr "")
  end.

Definition getTriSReacK (tidx : N) (r : string) (st : TetODE) : outcome real :=
  match mesh_countTris e with
  | Some countTris =>
      if countTris <=? tidx then
        Throw (ArgErr "Triangle index out of range.")
      else
        sridx ← getSReacIdx e r;
        _getTriSReacK tidx sridx st
  | None => Throw (NotImplErr "")
  end.


Definition getTriSReacActive (tidx : N) (r : string) (st : TetODE) : outcome bool :=
  match mesh_countTris e with
  | Some countTris =>
      if countTris <=? tidx then
        Throw (ArgErr "Triangle index out of range.")
      else
        sridx ← getSReacIdx e r;
        _getTriSReacActive tidx sridx st
  | None => Throw (NotImplErr "")
  end.

Definition setTriSReacActive (tidx : N) (r : string) (act : bool) : method unit :=
  match mesh_countTris e with
  | Some countTris =>
      if countTris <=? tidx then
        throw (ArgErr "Triangle index out of range.")
      else
        sridx ← lift (getSReacIdx e r);
        _setTriSReacActive tidx sridx act
  | None => throw (NotImplErr "")
  end.

Definition getTriSReacH (tidx : N) (r : string) (st : TetODE) : outcome real :=
  match mesh_countTris e with
  | Some countTris =>
      if countTris <=? tidx then
        Throw (ArgErr "Triangle index out of range.")
      else
        sridx ← getSReacIdx e r;
        _getTriSReacH tidx sridx st
  | None => Throw (NotImplErr "")
  end.

Definition getTriSReacC (tidx : N) (r : string) (st : TetODE) : outcome real :=
  match mesh_countTris e with
  | Some countTris =>
      if countTris <=? tidx then
        Throw (ArgErr "Triangle index out of range.")
      else
        sridx ← getSReacIdx e r;
        _getTriSReacC tidx sridx st
  | None => Throw (NotImplErr "")
  end.

Definition getTriSReacA (tidx : N) (r : string) (st : TetODE) : outcome real :=
  match mesh_countTris e with
  | Some countTris =>
      if countTris <=? tidx then
        Throw (ArgErr "Triangle index out of range.")
      else
        sridx ← getSReacIdx e r;
        _getTriSReacA tidx sridx st
  | None => Throw (NotImplErr "")
  end.

Definition getTriV (tidx : N) (st : TetODE) : outcome real :=
  match mesh_countTris e with
  | Some countTris =>
      if countTris <=? tidx then
        Throw (ArgErr "Triangle index out of range.")
      else
        _getTriV tidx st
  | None => Throw (NotImplErr "")
  end.

Definition setTriV (tidx : N) (v : real) : method unit :=
  match mesh_countTris e with
  | Some countTris =>
      if countTris <=? tidx then
        throw (ArgErr "Triangle index out of range.")
      else
        _setTriV tidx v
  | None => throw (NotImplErr "")
  end.

Definition getTriVClamped (tidx : N) (st : TetODE) : outcome bool :=
  match mesh_countTris e with
  | Some countTris =>
      if countTris <=? tidx then
        Throw (ArgErr "Triangle index out of range.")
      else
        _getTriVClamped tidx st
  | None => Throw (NotImplErr "")
  end.

Definition setTriVClamped (tidx : N) (cl : bool) : method unit :=
  match mesh_countTris e with
  | Some countTris =>
      if countTris <=? tidx then
        throw (ArgErr "Triangle index out of range.")
      else
        _setTriVClamped tidx cl
  | None => throw (NotImplErr "")
  end.

Definition getTriOhmicI (tidx : N) (st : TetODE) : outcome real :=
  match mesh_countTris e with
  | Some countTris =>
      if countTris <=? tidx then
        Throw (ArgErr "Triangle index out of range.")
      else
        _getTriOhmicI tidx st
  | None => Throw (NotImplErr "")
  end.

Definition getTriOhmicI_oc (tidx : N) (oc : string) (st : TetODE) : outcome real :=
  match mesh_countTris e with
  | Some countTris =>
      if countTris <=? tidx then
        Throw (ArgErr "Triangle index out of range.")
      else
        ocidx ← getOhmicCurrIdx e oc;
        _getTriOhmicI_oc tidx ocidx st
  | None => Throw (NotImplErr "")
  end.

Definition getTriGHKI (tidx : N) (st : TetODE) : outcome real :=
  match mesh_countTris e with
  | Some countTris =>
      if countTris <=? tidx then
        Throw (ArgErr "Triangle index out of range.")
      else
        _getTriGHKI tidx st
  | None => Throw (NotImplErr "")
  end.

Definition getTriGHKI_ghk (tidx : N) (ghk : string) (st : TetODE) : outcome real :=
  match mesh_countTris e with
  | Some countTris =>
      if countTris <=? tidx then
        Throw (ArgErr "Triangle index out of range.")
      else
        ghkidx ← getGHKcurrIdx e ghk;
        _getTriGHKI_ghk tidx ghkidx st
  | None => Throw (NotImplErr "")
  end.

Definition getTriI (tidx : N) (st : TetODE) : outcome real :=
  match mesh_countTris e with
  | Some countTris =>
      if countTris <=? tidx then
        Throw (ArgErr "Triangle index out of range.")
      else
        _getTriI tidx st
  | None => Throw (NotImplErr "")
  end.

Definition setTriIClamp (tidx : N) (i : real) : method unit :=
  match mesh_countTris e with
  | Some countTris =>
      if countTris <=? tidx then
        throw (ArgErr "Triangle index out of range.")
      else
        _setTriIClamp tidx i
  | None => throw (NotImplErr "")
  end.

Definition getTriVDepSReacActive (tidx : N) (vsr : string) (st : TetODE) : outcome bool :=
  match mesh_countTris e with
  | Some countTris =>
      if countTris <=? tidx then
        Throw (ArgErr "Triangle index out of range.")
      else
        vsridx ← getVDepSReacIdx e vsr;
        _getTriVDepSReacActive tidx vsridx st
  | None => Throw (NotImplErr "")
  end.

Definition setTriVDepSReacActive (tidx : N) (vsr : string) (act : bool) : method unit :=
  match mesh_countTris e with
  | Some countTris =>
      if countTris <=? tidx then
        throw (ArgErr "Triangle index out of range.")
      else
        vsridx ← lift (getVDepSReacIdx e vsr);
        _setTriVDepSReacActive tidx vsridx act
  | None => throw (NotImplErr "")
  end.

End Interface.

End API.

(** The virtual methods of the interface as [TetODE] has them: it overrides
    seven of the methods for triangles. *)
#[export] Instance TetODE_virtuals : API.Virtuals := {|
  API._getTriArea := _getTriArea;
  API._setTriArea := API._setTriArea (Virtuals := API.base);
  API._getTriCount := _getTriCount;
  API._getTriSpecDefined := API._getTriSpecDefined (Virtuals := API.base);
  API._setTriCount := _setTriCount;
  API._getTriAmount := _getTriAmount;
  API._setTriAmount := _setTriAmount;
  API._getTriClamped := API._getTriClamped (Virtuals := API.base);
  API._setTriClamped := API._setTriClamped (Virtuals := API.base);
  API._getTriSReacK := _getTriSReacK;
  API._setTriSReacK := _setTriSReacK;
  API._getTriSReacActive := API._getTriSReacActive (Virtuals := API.base);
  API._setTriSReacActive := API._setTriSReacActive (Virtuals := API.base);
  API._getTriSReacH := API._getTriSReacH (Virtuals := API.base);
  API._getTriSReacC := API._getTriSReacC (Virtuals := API.base);
  API._getTriSReacA := API._getTriSReacA (Virtuals := API.base);
  API._getTriV := API._getTriV (Virtuals := API.base);
  API._setTriV := API._setTriV (Virtuals := API.base);
  API._getTriVClamped := API._getTriVClamped (Virtuals := API.base);
  API._setTriVClamped := API._setTriVClamped (Virtuals := API.base);
  API._getTriOhmicI := API._getTriOhmicI (Virtuals := API.base);
  API._getTriOhmicI_oc := API._getTriOhmicI_oc (Virtuals := API.base);
  API._getTriGHKI := API._getTriGHKI (Virtuals := API.base);
  API._getTriGHKI_ghk := API._getTriGHKI_ghk (Virtuals := API.base);
  API._getTriI := API._getTriI (Virtuals := API.base);
  API._setTriIClamp := API._setTriIClamp (Virtuals := API.base);
  API._getTriVDepSReacActive := API._getTriVDepSReacActive (Virtuals := API.base);
  API._setTriVDepSReacActive := API._setTriVDepSReacActive (Virtuals := API.base)
|}.

(** [refuses m s]: started in [s], the method does not return normally,
    and an exception it raises leaves the solver as it was. *)
Definition refuses {A : Type} (m : method A) (s : TetODE) : Prop :=
  match m s with
  | Done _ _ => False
  | Raise _ s' => s' = s
  | Crash => True
  end.

(** ** Voltage-dependent transitions ([solver::VDepTransdef])

    The rate of a voltage-dependent transition is tabulated on the grid
    [pVMin, pVMin + pDV, ...]; [getVDepRate] interpolates linearly between
    the two neighbouring entries. The model object [vdt] is read through
    its accessors only, which the record [VDepTrans] holds. The constants
    [DEP_NONE], [DEP_STOICH] and [GIDX_UNDEFINED] of [types.hpp] are
    parameters. An answer is a value, an exception of the solver, a
    [steps::ProgErr], or [Failed]: a failed [assert] or an access outside
    an array. *)

Module VDepTransdef.

Inductive answer (A : Type) : Type :=
| Value (a : A)
| Thrown (e : exn)
| ProgErr (msg : string)
| Failed.

Arguments Value {A} a.
Arguments Thrown {A} e.
Arguments ProgErr {A} msg.
Arguments Failed {A}.

Record VDepTrans : Type := {
  getID : string;
  getSrc_getID : string;
  getDst_getID : string;
  _getVMin : real;
  _getVMax : real;
  _getDV : real;
  _getTablesize : N;
  _getRate : list real
}.

Record t : Type := {
  pName : string;
  pSetupdone : bool;
  pVMin : real;
  pVMax : real;
  pDV : real;
  pSrc : string;
  pDst : string;
  pVRateTab : list real;
  pSpec_DEP : list Z;
  pSpec_SRCCHAN : N;
  pSpec_DSTCHAN : N
}.

(** [static_cast<uint>(x)] for a [double] that holds an integer [z]; it is
    undefined in the source for a value that is negative or not below
    2^32. *)
Definition to_uint (z : Z) : N := UInt.wrap (Z.to_N z).

(** The number of grid intervals, [floor((pVMax - pVMin) / pDV)]. *)
Definition intervals (vmin vmax dv : real) : Z :=
  Qfloor ((vmax - vmin) / dv)%Qc.

Section Constants.

Variables (DEP_NONE DEP_STOICH : Z) (GIDX_UNDEFINED : N).

(** The constructor; [countSpecs] is [pStatedef->countSpecs()]. *)
Definition new (countSpecs : N) (vdt : VDepTrans) : answer t :=
  let vmin := _getVMin vdt in
  let vmax := _getVMax vdt in
  let dv := _getDV vdt in
  let tablesize := _getTablesize vdt in
  if negb (tablesize =? to_uint (intervals vmin vmax dv) +u 1) then Failed
  else if negb (N.to_nat tablesize <=? length (_getRate vdt))%nat then Failed
  else
    Value {| pName := getID vdt;
             pSetupdone := false;
             pVMin := vmin; pVMax := vmax; pDV := dv;
             pSrc := getSrc_getID vdt;
             pDst := getDst_getID vdt;
             pVRateTab := take (N.to_nat tablesize) (_getRate vdt);
             pSpec_DEP := replicate (N.to_nat countSpecs) DEP_NONE;
             pSpec_SRCCHAN := GIDX_UNDEFINED;
             pSpec_DSTCHAN := GIDX_UNDEFINED |}.

(** [pSpec_DEP[i] |= DEP_STOICH]. *)
Definition mark (dep : list Z) (i : N) : answer (list Z) :=
  match dep !! N.to_nat i with
  | Some x => Value (<[N.to_nat i := Z.lor x DEP_STOICH]> dep)
  | None => Failed
  end.

Definition setup (getSpecIdx : string -> outcome N) (d : t) : answer t :=
  if pSetupdone d then Failed
  else
    match getSpecIdx (pSrc d) with
    | Throw e => Thrown e
    | Abort => Failed
    | Ret sidx =>
        match getSpecIdx (pDst d) with
        | Throw e => Thrown e
        | Abort => Failed
        | Ret didx =>
            match mark (pSpec_DEP d) sidx with
            | Value dep1 =>
                match mark dep1 didx with
                | Value dep2 =>
                    Value {| pName := pName d;
                             pSetupdone := true;
                             pVMin := pVMin d; pVMax := pVMax d;
                             pDV := pDV d;
                             pSrc := pSrc d; pDst := pDst d;
                             pVRateTab := pVRateTab d;
                             pSpec_DEP := dep2;
                             pSpec_SRCCHAN := sidx;
                             pSpec_DSTCHAN := didx |}
                | _ => Failed
                end
            | _ => Failed
            end
        end
    end.

Definition srcchanstate (d : t) : answer N :=
  if pSetupdone d then Value (pSpec_SRCCHAN d) else Failed.

Definition dstchanstate (d : t) : answer N :=
  if pSetupdone d then Value (pSpec_DSTCHAN d) else Failed.

Definition dep (countSpecs : N) (d : t) (gidx : N) : answer Z :=
  if negb (pSetupdone d) then Failed
  else if negb (gidx <? countSpecs) then Failed
  else match pSpec_DEP d !! N.to_nat gidx with
       | Some x => Value x
       | None => Failed
       end.

Definition req (countSpecs : N) (d : t) (gidx : N) : answer bool :=
  if negb (pSetupdone d) then Failed
  else if negb (gidx <? countSpecs) then Failed
  else match pSpec_DEP d !! N.to_nat gidx with
       | Some x => Value (negb (x =? DEP_NONE)%Z)
       | None => Failed
       end.

End Constants.

(** The text of a [ProgErr] ends, in the source, with the voltage and the
    bound it was compared with; they are left out. *)
Definition getVDepRate (d : t) (v : real) : answer real :=
  if negb (pSetupdone d) then Failed
  else if ltb_real (pVMax d) v then
    ProgErr ("Voltage is higher than maximum for VDepTrans, " +:+ pName d)
  else if ltb_real v (pVMin d) then
    ProgErr ("Voltage is lower than maximum for VDepTrans, " +:+ pName d)
  else
    let v2 := ((v - pVMin d) / pDV d)%Qc in
    let lv := Qfloor v2 in
    let lvidx := to_uint lv in
    let uvidx := to_uint (Qceiling v2) in
    let r := (v2 - Q2Qc (inject_Z lv))%Qc in
    match pVRateTab d !! N.to_nat lvidx, pVRateTab d !! N.to_nat uvidx with
    | Some lo, Some hi => Value ((1 - r) * lo + r * hi)%Qc
    | _, _ => Failed
    end.

(** [checkpoint] writes three doubles, [restore] reads three. *)
Definition checkpoint (d : t) : list real := [pVMin d; pVMax d; pDV d].

Definition restore (file : list real) (d : t) : t :=
  let get (i : nat) (old : real) := default old (file !! i) in
  {| pName := pName d;
     pSetupdone := pSetupdone d;
     pVMin := get 0%nat (pVMin d);
     pVMax := get 1%nat (pVMax d);
     pDV := get 2%nat (pDV d);
     pSrc := pSrc d; pDst := pDst d;
     pVRateTab := pVRateTab d;
     pSpec_DEP := pSpec_DEP d;
     pSpec_SRCCHAN := pSpec_SRCCHAN d;
     pSpec_DSTCHAN := pSpec_DSTCHAN d |}.

End VDepTransdef.


(** A transition between the channel states A and B of a model of two
    species, tabulated on the voltage grid 0, 1, 2; [early] has the same
    table with a range that ends between grid points. *)

Module VDepExample.

Definition DEP_NONE : Z := 0.
Definition DEP_STOICH : Z := 1.
Definition GIDX_UNDEFINED : N := 4294967295.

Definition vdt (vmax : real) : VDepTransdef.VDepTrans :=
  {| VDepTransdef.getID := "AB";
     VDepTransdef.getSrc_getID := "A";
     VDepTransdef.getDst_getID := "B";
     VDepTransdef._getVMin := Q2Qc 0;
     VDepTransdef._getVMax := vmax;
     VDepTransdef._getDV := Q2Qc 1;
     VDepTransdef._getTablesize := 3;
     VDepTransdef._getRate := [Q2Qc 1; Q2Qc 3; Q2Qc 5] |}.

Definition getSpecIdx (s : string) : outcome N :=
  if String.eqb s "A" then Ret 0
  else if String.eqb s "B" then Ret 1
  else Throw (ArgErr "The model has no such species.").

Definition made (vmax : real) : VDepTransdef.t :=
  {| VDepTransdef.pName := "AB";
     VDepTransdef.pSetupdone := false;
     VDepTransdef.pVMin := Q2Qc 0;
     VDepTransdef.pVMax := vmax;
     VDepTransdef.pDV := Q2Qc 1;
     VDepTransdef.pSrc := "A";
     VDepTransdef.pDst := "B";
     VDepTransdef.pVRateTab := [Q2Qc 1; Q2Qc 3; Q2Qc 5];
     VDepTransdef.pSpec_DEP := [0%Z; 0%Z];
     VDepTransdef.pSpec_SRCCHAN := GIDX_UNDEFINED;
     VDepTransdef.pSpec_DSTCHAN := GIDX_UNDEFINED |}.

Definition ready (vmax : real) : VDepTransdef.t :=
  {| VDepTransdef.pName := "AB";
     VDepTransdef.pSetupdone := true;
     VDepTransdef.pVMin := Q2Qc 0;
     VDepTransdef.pVMax := vmax;
     VDepTransdef.pDV := Q2Qc 1;
     VDepTransdef.pSrc := "A";
     VDepTransdef.pDst := "B";
     VDepTransdef.pVRateTab := [Q2Qc 1; Q2Qc 3; Q2Qc 5];
     VDepTransdef.pSpec_DEP := [1%Z; 1%Z];
     VDepTransdef.pSpec_SRCCHAN := 0;
     VDepTransdef.pSpec_DSTCHAN := 1 |}.

End VDepExample.


(** ** Kinetic processes of the exact solver ([tetexact::KProc])

    The base class holds the extent, the flags and the schedule index of a
    process (its dependency record [crData] takes no part in the methods
    below and is left out). [pFlags] is an unsigned word, [INACTIVATED],
    of [kproc.hpp], a parameter; [~INACTIVATED] is the complement of the
    promoted integer. The methods that a subclass must override fail
    their assertion on the base object. *)

Module KProc.

Record t : Type := {
  rExtent : N;
  pFlags : Z;
  pSchedIDX : N
}.

Definition new : t := {| rExtent := 0; pFlags := 0; pSchedIDX := 0 |}.

Section Flags.

Variable INACTIVATED : Z.

Definition setActive (active : bool) (k : t) : t :=
  {| rExtent := rExtent k;
     pFlags := if active then Z.land (pFlags k) (Z.lnot INACTIVATED)
               else Z.lor (pFlags k) INACTIVATED;
     pSchedIDX := pSchedIDX k |}.

End Flags.

Definition getExtent (k : t) : N := rExtent k.

Definition resetExtent (k : t) : t :=
  {| rExtent := 0; pFlags := pFlags k; pSchedIDX := pSchedIDX k |}.

Definition resetCcst (k : t) : outcome unit := Abort.

Definition c (k : t) : outcome real := Abort.

Definition h (k : t) : outcome real := Abort.

End KProc.


(** ** What the volume reactions do to the number of molecules

    One firing of reaction [j] changes the number of molecules by the sum
    of its updates; in a tetrahedron whose species start at slot [s] the
    reaction runs at the speed that mass action gives it. *)

Definition net_update (cdef : Compdef.t) (j : N) : Z :=
  foldr Z.add 0%Z
        (Compdef.reac_upd_bgn cdef j <$> range (Compdef.countSpecs cdef)).

Definition reaction_speed (y : list real) (cdef : Compdef.t) (vol : real)
    (s j : N) : real :=
  (_ccst (Compdef.kcst cdef j) vol (Reacdef.order (Compdef.reacdef cdef j)) *
   Qc_prod (descriptor_factor y <$>
            lhs_descriptors (Compdef.reac_lhs_bgn cdef j) s
                            (Compdef.countSpecs cdef)))%Qc.

Definition net_rates (y : list real) (comp : Comp.t) (s0 : N) : list real :=
  let cdef := Comp.def comp in
  flat_map
    (fun t =>
       match Comp.pTets comp !! t with
       | Some tet =>
           (fun j =>
              Q2Qc (inject_Z (net_update cdef j)) *
              reaction_speed y cdef (Tet.vol tet)
                (s0 + Compdef.countSpecs cdef * N.of_nat t) j)%Qc
           <$> range (Compdef.countReacs cdef)
       | None => []
       end)
    (seq 0 (length (Comp.pTets comp))).

(** ** A small configuration

    One compartment of two tetrahedra with species A, B, the reaction
    A -> B and a diffusion rule for A; the tetrahedra with mesh indices 0
    and 1 share a face, tetrahedron 2 of the mesh is in no compartment. One
    patch of one triangle on tetrahedron 0 with species R, RA and the
    surface reaction R + A(inner) -> RA. *)

Module Example.

Definition table {A : Type} (l : list A) (d : A) (i : N) : A :=
  default d (l !! N.to_nat i).

Definition cdef0 : Compdef.t :=
  {| Compdef.gidx := 0;
     Compdef.countSpecs := 2;
     Compdef.countReacs := 1;
     Compdef.countDiffs := 1;
     Compdef.specG2L := table [0; 1] LIDX_UNDEFINED;
     Compdef.reacG2L := table [0] LIDX_UNDEFINED;
     Compdef.kcst := fun _ => Q2Qc 2;
     Compdef.reacdef := fun _ => {| Reacdef.order := 1 |};
     Compdef.reac_lhs_bgn := fun _ => table [1; 0] 0;
     Compdef.reac_upd_bgn := fun _ => table [(-1)%Z; 1%Z] 0%Z;
     Compdef.diff_dep := fun _ k => k =? 0;
     Compdef.dcst := fun _ => Q2Qc 3 |}.

Definition tet0 : Tet.t :=
  {| Tet.idx := 0; Tet.compdef := cdef0; Tet.vol := Q2Qc 1;
     Tet.area := fun _ => Q2Qc 2; Tet.dist := fun _ => Q2Qc 4;
     Tet.nextTet := table [Some 1] None |}.

Definition tet1 : Tet.t :=
  {| Tet.idx := 1; Tet.compdef := cdef0; Tet.vol := Q2Qc 3;
     Tet.area := fun _ => Q2Qc 2; Tet.dist := fun _ => Q2Qc 4;
     Tet.nextTet := table [None; Some 0] None |}.

Definition comp0 : Comp.t :=
  {| Comp.def := cdef0; Comp.pTets := [tet0; tet1]; Comp.vol := Q2Qc 4;
     Comp.getTet_GtoL := fun gidx => gidx |}.

Definition sreac0 : SReacdef.t :=
  {| SReacdef.surf_surf := false; SReacdef.inside := true;
     SReacdef.order := 2; SReacdef.kcst := Q2Qc 5;
     SReacdef.reqInside := true; SReacdef.reqOutside := false |}.

Definition pdef0 : Patchdef.t :=
  {| Patchdef.gidx := 0;
     Patchdef.countSpecs := 2;
     Patchdef.countSpecs_I := 2;
     Patchdef.countSpecs_O := 0;
     Patchdef.countSReacs := 1;
     Patchdef.countSurfDiffs := 0;
     Patchdef.specG2L := table [LIDX_UNDEFINED; LIDX_UNDEFINED; 0; 1] LIDX_UNDEFINED;
     Patchdef.sreacG2L := table [0] LIDX_UNDEFINED;
     Patchdef.kcst := fun _ => Q2Qc 5;
     Patchdef.sreacdef := fun _ => sreac0;
     Patchdef.sreac_lhs_S_bgn := fun _ => table [1; 0] 0;
     Patchdef.sreac_lhs_I_bgn := fun _ => table [1; 0] 0;
     Patchdef.sreac_lhs_O_bgn := fun _ _ => 0;
     Patchdef.sreac_upd_S_bgn := fun _ => table [(-1)%Z; 1%Z] 0%Z;
     Patchdef.sreac_upd_I_bgn := fun _ => table [(-1)%Z; 0%Z] 0%Z;
     Patchdef.sreac_upd_O_bgn := fun _ _ => 0%Z;
     Patchdef.icompdef := Some cdef0;
     Patchdef.ocompdef := None;
     Patchdef.surfdiff_dep := fun _ _ => false;
     Patchdef.dcst := fun _ => 0%Qc |}.

Definition tri0 : Tri.t :=
  {| Tri.idx := 0; Tri.patchdef := pdef0; Tri.area := Q2Qc 2;
     Tri.length := fun _ => Q2Qc 1; Tri.dist := fun _ => Q2Qc 1;
     Tri.nextTri := fun _ => None;
     Tri.iTet := Some tet0; Tri.oTet := None |}.

Definition patch0 : Patch.t :=
  {| Patch.def := pdef0; Patch.pTris := [tri0]; Patch.area := Q2Qc 2;
     Patch.getTri_GtoL := fun gidx => gidx |}.

Definition sd0 : Statedef.t :=
  {| Statedef.time := 0%Qc; Statedef.countSpecs := 4;
     Statedef.countReacs := 1; Statedef.countSReacs := 1 |}.

(** An integrator that always succeeds and leaves [y] as it is, and one
    whose [CVode] call fails. *)
Definition reply_of (flag : Z) (c : cv_call) : cv_reply :=
  match c with
  | CVode tout y _ => {| cv_flag := flag; cv_yout := y; cv_tret := tout |}
  | _ => {| cv_flag := 0; cv_yout := []; cv_tret := 0%Qc |}
  end.

Definition cv_ok : Integrator := fun mem =>
  reply_of 0 (List.last mem CVodeCreate).

Definition cv_fail : Integrator := fun mem =>
  reply_of (-1) (List.last mem CVodeCreate).

Definition built : outcome TetODE :=
  _setup cv_ok sd0 [comp0] [patch0] [Some tri0] [Some tet0; Some tet1; None].

(** The solver as constructed, and after a first run to time 1. *)
Definition blank : TetODE :=
  {| statedef := sd0; pComps := []; pPatches := []; pTris := [];
     pTets := []; pSpecs_tot := 0; pReacs_tot := 0;
     pInitialised := false; pTolsset := false; pReinit := true;
     pNmax_cvode := 0; t_cvode := 0%Qc; reltol_cvode := 0%Qc;
     abstol_cvode := []; y_cvode := []; cvode_mem_cvode := [];
     pSpec_matrixsub := [] |}.

Definition state_of {A : Type} (r : result A) : TetODE :=
  default blank (final_state r).

Definition fresh : TetODE :=
  match built with
  | Ret s => s
  | _ => blank
  end.

Definition ran : TetODE := state_of (run cv_ok (Q2Qc 1) fresh).

(** A serializer whose objects write nothing, and a checkpoint file with
    tolerances 1/100 and the state vector 1 .. 6. *)
Definition ser : Serializer :=
  {| blob := unit;
     save_objects := fun _ => tt;
     load_objects := fun _ o => o |}.

Definition file : cp_file ser :=
  {| cp_objects := tt : blob ser;
     cp_t := Q2Qc 1;
     cp_rtol := Q2Qc (1 # 100);
     cp_nmax := 500;
     cp_data := replicate 6 (Q2Qc (1 # 100)) ++
                (Q2Qc <$> [1; 2; 3; 4; 5; 6])%Q |}.

End Example.

(** * Properties *)

(** ** Machine integers *)

Module UIntFacts.

Lemma wrap_small n : n < UInt.modulus -> UInt.wrap n = n.
Proof. apply N.mod_small. Qed.

Lemma wrap_lt n : UInt.wrap n < UInt.modulus.
Proof. apply N.mod_lt. discriminate. Qed.

Lemma add_small a b : a + b < UInt.modulus -> a +u b = a + b.
Proof. apply wrap_small. Qed.

Lemma mul_small a b : a * b < UInt.modulus -> a *u b = a * b.
Proof. apply wrap_small. Qed.

Lemma wrap_int_small z : (- 2 ^ 31 <= z < 2 ^ 31)%Z -> UInt.wrap_int z = z.
Proof.
  intros Hz. unfold UInt.wrap_int. rewrite Z.mod_small; lia.
Qed.

Lemma to_int_small n : n < 2 ^ 31 -> UInt.to_int n = Z.of_N n.
Proof.
  intros Hn. unfold UInt.to_int.
  assert (Hm : n < UInt.modulus) by (unfold UInt.modulus; lia).
  rewrite (wrap_small _ Hm).
  destruct (N.ltb_spec n (2 ^ 31)); [reflexivity | lia].
Qed.

(** The exponent [-(static_cast<int>(order) - 1)] for an order in the
    range of [int]. *)
Lemma exponent_small n :
  n < 2 ^ 31 ->
  UInt.wrap_int (- UInt.wrap_int (UInt.to_int n - 1)) = (- (Z.of_N n - 1))%Z.
Proof.
  intros Hn. rewrite (to_int_small _ Hn).
  rewrite (wrap_int_small (Z.of_N n - 1)) by lia.
  apply wrap_int_small. lia.
Qed.

End UIntFacts.

(** ** Rate coefficient scaling *)

Lemma pow_1 (x : real) : pow x 1 = x.
Proof.
  unfold pow. change (Pos.to_nat 1) with 1%nat.
  change (x ^ 1)%Qc with (x * 1)%Qc. ring.
Qed.

(** A negative exponent gives the inverse of the product of as many
    factors. *)
Lemma pow_neg_of_N (x : real) (m : N) :
  0 < m -> pow x (- Z.of_N m) = (/ x ^ N.to_nat m)%Qc.
Proof.
  intros Hm. destruct m as [| p]; [lia |].
  cbn [Z.of_N Z.opp pow]. now rewrite positive_N_nat.
Qed.

(** C3. For a reaction order [n] in the range of [int], [_ccst k V n] is
    [k * (1000 * V * N_A)^(-(n-1))] and [_ccst2D k A n] is
    [k * (A * N_A)^(-(n-1))]: for an order of at least 1, [k] divided by
    the product of [n-1] factors [1000 * V * N_A], respectively
    [A * N_A]; for a zero-order reaction the results are
    [k * (1000 * V * N_A)] and [k * (A * N_A)]. (For a volume or an area
    of 0 and an order above 1 the source divides by 0; the inverse of 0
    is 0 here, on both sides.) *)
Theorem ccst_scaling (k V A : real) (n : N) :
  n < 2 ^ 31 ->
  _ccst k V n = scaled_coefficient k (Q2Qc 1000 * V * AVOGADRO)%Qc n /\
  _ccst2D k A n = scaled_coefficient k (A * AVOGADRO)%Qc n /\
  (1 <= n ->
   _ccst k V n = (k / (Q2Qc 1000 * V * AVOGADRO) ^ (N.to_nat n - 1))%Qc /\
   _ccst2D k A n = (k / (A * AVOGADRO) ^ (N.to_nat n - 1))%Qc) /\
  _ccst k V 0 = (k * (Q2Qc 1000 * V * AVOGADRO))%Qc /\
  _ccst2D k A 0 = (k * (A * AVOGADRO))%Qc.
Proof.
  intros Hn.
  assert (Hgen : forall x : real,
            (k * pow x (UInt.wrap_int (- UInt.wrap_int (UInt.to_int n - 1))))%Qc
            = scaled_coefficient k x n).
  { intros x. rewrite (UIntFacts.exponent_small n Hn).
    unfold scaled_coefficient. destruct n as [| p] eqn:En.
    - change (- (Z.of_N 0 - 1))%Z with 1%Z. now rewrite pow_1.
    - rewrite <- En.
      destruct (N.eq_dec n 1) as [-> | Hne].
      + change (- (Z.of_N 1 - 1))%Z with 0%Z.
        change (N.to_nat 1 - 1)%nat with 0%nat.
        change (pow x 0) with 1%Qc. change (x ^ 0)%Qc with 1%Qc.
        field. discriminate.
      + replace (Z.of_N n - 1)%Z with (Z.of_N (n - 1)) by lia.
        rewrite pow_neg_of_N by lia.
        replace (N.to_nat (n - 1)) with (N.to_nat n - 1)%nat by lia.
        reflexivity. }
  assert (Hzero : forall x : real,
            (k * pow x (UInt.wrap_int (- UInt.wrap_int (UInt.to_int 0 - 1))))%Qc
            = (k * x)%Qc).
  { intros x.
    change (UInt.wrap_int (- UInt.wrap_int (UInt.to_int 0 - 1))) with 1%Z.
    now rewrite pow_1. }
  unfold _ccst, _ccst2D. cbv zeta.
  repeat apply conj.
  - apply Hgen.
  - apply Hgen.
  - intros H1. rewrite !Hgen. unfold scaled_coefficient.
    destruct n; [lia | now split].
  - apply Hzero.
  - apply Hzero.
Qed.

Lemma ccst_scaling_witness :
  2 < 2 ^ 31 /\
  _ccst (Q2Qc 3) (Q2Qc 1) 2 =
    (Q2Qc 3 / (Q2Qc 1000 * Q2Qc 1 * AVOGADRO) ^ 1)%Qc.
Proof.
  split; [reflexivity |].
  destruct (ccst_scaling (Q2Qc 3) (Q2Qc 1) (Q2Qc 1) 2) as (_ & _ & H & _);
    [reflexivity |].
  destruct H as [H _]; [lia |]. exact H.
Defined.

(** ** Unsupported operations *)

(** C9. Clamping and activation calls raise [NotImplErr], as does [reset];
    the one exception is [_getCompReacActive], which returns [true]. *)
Theorem unsupported_operations (i j : N) (b : bool) (s : TetODE) :
  _getCompClamped i j s = Throw (NotImplErr "") /\
  _setCompClamped i j b s = Raise (NotImplErr "") s /\
  _getPatchClamped i j s = Throw (NotImplErr "") /\
  _setPatchClamped i j b s = Raise (NotImplErr "") s /\
  _setCompReacActive i j b s = Raise (NotImplErr "") s /\
  _getPatchSReacActive i j s = Throw (NotImplErr "") /\
  _setPatchSReacActive i j b s = Raise (NotImplErr "") s /\
  (exists msg, reset s = Raise (NotImplErr msg) s) /\
  _getCompReacActive i j s = Ret true.
Proof.
  repeat split; try reflexivity. eexists. reflexivity.
Qed.

(** ** Comparison of reals *)

Lemma ltb_real_lt (x y : real) : ltb_real x y = true <-> (x < y)%Qc.
Proof.
  unfold ltb_real. rewrite Qclt_alt. destruct (x ?= y)%Qc; intuition congruence.
Qed.

Lemma eqb_real_eq (x y : real) : eqb_real x y = true <-> x = y.
Proof.
  unfold eqb_real. rewrite Qceq_alt. destruct (x ?= y)%Qc; intuition congruence.
Qed.

Lemma ltb_real_nlt (x y : real) : ltb_real x y = false <-> ~ (x < y)%Qc.
Proof.
  rewrite <- ltb_real_lt. destruct (ltb_real x y); intuition congruence.
Qed.

Lemma eqb_real_neq (x y : real) : eqb_real x y = false <-> x <> y.
Proof.
  rewrite <- eqb_real_eq. destruct (eqb_real x y); intuition congruence.
Qed.

(** ** Reasoning about methods *)

Section MethodLogic.

Variable R : TetODE -> TetODE -> Prop.
Hypothesis R_refl : forall s, R s s.
Hypothesis R_trans : forall s1 s2 s3, R s1 s2 -> R s2 s3 -> R s1 s3.

Lemma frame_ret {A : Type} (a : A) : frame R (mret a).
Proof. intros s s' [= <-]. apply R_refl. Qed.

Lemma frame_get : frame R get.
Proof. intros s s' [= <-]. apply R_refl. Qed.

Lemma frame_throw {A : Type} (e : exn) : frame R (@throw A e).
Proof. intros s s' [= <-]. apply R_refl. Qed.

Lemma frame_lift {A : Type} (o : outcome A) : frame R (lift o).
Proof. intros s s'. destruct o; intros [= <-]; apply R_refl. Qed.

Lemma frame_modify (f : TetODE -> TetODE) :
  (forall s, R s (f s)) -> frame R (modify f).
Proof. intros Hf s s' [= <-]. apply Hf. Qed.

Lemma frame_bind {A B : Type} (m : method A) (f : A -> method B) :
  frame R m -> (forall a, frame R (f a)) -> frame R (m ≫= f).
Proof.
  intros Hm Hf s s'. unfold mbind, method_bind.
  destruct (m s) as [a s1 | e s1 |] eqn:E; cbn.
  - intros H. apply (R_trans s s1 s'); [apply Hm; now rewrite E |].
    now apply (Hf a).
  - intros [= <-]. apply Hm. now rewrite E.
  - discriminate.
Qed.

Lemma frame_for_each {A : Type} (f : A -> method unit) (l : list A) :
  (forall a, frame R (f a)) -> frame R (for_each f l).
Proof.
  intros Hf. induction l as [| a l IH]; cbn [for_each].
  - apply frame_ret.
  - apply frame_bind; [apply Hf | intros _; apply IH].
Qed.

End MethodLogic.

Lemma post_throw {A : Type} Q (e : exn) : post Q (@throw A e).
Proof. intros s a s'. discriminate. Qed.

Lemma post_modify Q (f : TetODE -> TetODE) :
  (forall s, Q (f s)) -> post Q (modify f).
Proof. intros Hf s a s' [= _ <-]. apply Hf. Qed.

Lemma post_bind {A B : Type} Q (m : method A) (f : A -> method B) :
  (forall a, post Q (f a)) -> post Q (m ≫= f).
Proof.
  intros Hf s b s'. unfold mbind, method_bind.
  destruct (m s) as [a s1 | e s1 |]; [apply Hf | discriminate | discriminate].
Qed.

Lemma matrix_only_refl s : matrix_only s s.
Proof. destruct s. reflexivity. Qed.

Lemma matrix_only_trans s1 s2 s3 :
  matrix_only s1 s2 -> matrix_only s2 s3 -> matrix_only s1 s3.
Proof.
  unfold matrix_only. intros H12 H23. rewrite H23, H12. reflexivity.
Qed.

Ltac frame_steps :=
  repeat first
    [ apply (frame_bind _ matrix_only_trans); [| intros ?]
    | apply (frame_lift _ matrix_only_refl)
    | apply (frame_get _ matrix_only_refl)
    | apply (frame_throw _ matrix_only_refl)
    | apply (frame_ret _ matrix_only_refl)
    | match goal with
      | |- frame _ (if ?b then _ else _) => destruct b
      | |- frame _ (match ?x with _ => _ end) => destruct x
      end ].

Ltac post_steps :=
  repeat first
    [ apply post_bind; intros ?
    | apply post_throw
    | match goal with
      | |- post _ (if ?b then _ else _) => destruct b
      | |- post _ (match ?x with _ => _ end) => destruct x
      end ].

(** ** The pending-reinit flag *)

Lemma setCompCount_flag cidx sidx n :
  post (fun s => pReinit s = true) (_setCompCount cidx sidx n).
Proof. unfold _setCompCount. post_steps. now apply post_modify. Qed.

Lemma setPatchCount_flag pidx sidx n :
  post (fun s => pReinit s = true) (_setPatchCount pidx sidx n).
Proof. unfold _setPatchCount. post_steps. now apply post_modify. Qed.

Lemma setTetCount_flag tidx sidx n :
  post (fun s => pReinit s = true) (_setTetCount tidx sidx n).
Proof. unfold _setTetCount. post_steps. now apply post_modify. Qed.

Lemma setTriCount_flag tidx sidx n :
  post (fun s => pReinit s = true) (_setTriCount tidx sidx n).
Proof. unfold _setTriCount. post_steps. now apply post_modify. Qed.

Lemma setTetReacK_frame tidx ridx kf :
  frame matrix_only (_setTetReacK tidx ridx kf).
Proof.
  unfold _setTetReacK. frame_steps.
  apply frame_modify. intros []. reflexivity.
Qed.

Lemma setTriSReacK_frame tidx ridx kf :
  frame matrix_only (_setTriSReacK tidx ridx kf).
Proof.
  unfold _setTriSReacK, rebind_tet_side. frame_steps.
  all: apply frame_modify; intros []; reflexivity.
Qed.

Lemma setCompReacK_frame cidx ridx kf :
  frame matrix_only (_setCompReacK cidx ridx kf).
Proof.
  unfold _setCompReacK. frame_steps.
  apply (frame_for_each _ matrix_only_refl matrix_only_trans).
  intros tet. apply setTetReacK_frame.
Qed.

Lemma setPatchSReacK_frame pidx ridx kf :
  frame matrix_only (_setPatchSReacK pidx ridx kf).
Proof.
  unfold _setPatchSReacK. frame_steps.
  apply (frame_for_each _ matrix_only_refl matrix_only_trans).
  intros tri. apply setTriSReacK_frame.
Qed.

Lemma matrix_only_pReinit s s' : matrix_only s s' -> pReinit s' = pReinit s.
Proof. intros ->. reflexivity. Qed.

Lemma matrix_only_y s s' : matrix_only s s' -> y_cvode s' = y_cvode s.
Proof. intros ->. reflexivity. Qed.

Lemma reinit_calls_pending s :
  pReinit s = true ->
  reinit_calls s = [CVodeReInit (Statedef.time (statedef s)) (y_cvode s)].
Proof. unfold reinit_calls. now intros ->. Qed.

(** C5, as the code has it. A species count set through [_setCompCount],
    [_setPatchCount], [_setTetCount] or [_setTriCount] leaves the
    pending-reinit flag true, so that the next run reinitialises the
    integrator at the current time with the changed state vector. A rate
    constant set through [_setTetReacK], [_setTriSReacK], [_setCompReacK]
    or [_setPatchSReacK] leaves the flag as it was. *)
Theorem reinit_flag_after_mutation (i j : N) (x : real) (s s' : TetODE) :
  let pending s' :=
    pReinit s' = true /\
    reinit_calls s' =
      [CVodeReInit (Statedef.time (statedef s')) (y_cvode s')] in
  (_setCompCount i j x s = Done tt s' -> pending s') /\
  (_setPatchCount i j x s = Done tt s' -> pending s') /\
  (_setTetCount i j x s = Done tt s' -> pending s') /\
  (_setTriCount i j x s = Done tt s' -> pending s') /\
  (final_state (_setTetReacK i j x s) = Some s' -> pReinit s' = pReinit s) /\
  (final_state (_setTriSReacK i j x s) = Some s' -> pReinit s' = pReinit s) /\
  (final_state (_setCompReacK i j x s) = Some s' -> pReinit s' = pReinit s) /\
  (final_state (_setPatchSReacK i j x s) = Some s' -> pReinit s' = pReinit s).
Proof.
  intros pending.
  assert (Hp : forall s', pReinit s' = true -> pending s').
  { intros s1 H1. split; [exact H1 | now apply reinit_calls_pending]. }
  repeat apply conj; intros H.
  - apply Hp. exact (setCompCount_flag i j x s tt s' H).
  - apply Hp. exact (setPatchCount_flag i j x s tt s' H).
  - apply Hp. exact (setTetCount_flag i j x s tt s' H).
  - apply Hp. exact (setTriCount_flag i j x s tt s' H).
  - apply matrix_only_pReinit. exact (setTetReacK_frame i j x s s' H).
  - apply matrix_only_pReinit. exact (setTriSReacK_frame i j x s s' H).
  - apply matrix_only_pReinit. exact (setCompReacK_frame i j x s s' H).
  - apply matrix_only_pReinit. exact (setPatchSReacK_frame i j x s s' H).
Qed.

(** C5, where the claim fails. The solver of the small configuration has
    run to time 1, so no reinitialisation is pending; a rate constant set by
    [_setTetReacK] returns normally and the flag is still false. *)
Lemma reinit_flag_counterexample :
  pReinit Example.ran = false /\
  exists s', _setTetReacK 0 0 (Q2Qc 7) Example.ran = Done tt s' /\
             pReinit s' = false.
Proof.
  split; [vm_compute; reflexivity |].
  exists (Example.state_of (_setTetReacK 0 0 (Q2Qc 7) Example.ran)).
  split; vm_compute; reflexivity.
Qed.

Lemma reinit_flag_after_mutation_witness :
  exists s', _setTetCount 0 0 (Q2Qc 5) Example.ran = Done tt s' /\
             pReinit s' = true.
Proof.
  set (s' := Example.state_of (_setTetCount 0 0 (Q2Qc 5) Example.ran)).
  assert (H : _setTetCount 0 0 (Q2Qc 5) Example.ran = Done tt s')
    by (vm_compute; reflexivity).
  exists s'. split; [exact H |].
  destruct (reinit_flag_after_mutation 0 0 (Q2Qc 5) Example.ran s')
    as (_ & _ & Htet & _).
  apply (Htet H).
Defined.

(** ** The integration driver *)

Lemma example_built : Example.built = Ret Example.fresh.
Proof. vm_compute. reflexivity. Qed.

Lemma run_initialise_unfold cv s :
  run_initialise cv s =
  if pInitialised s then Done tt s
  else
    let m1 := cvode_mem_cvode s ++ [CVodeSetMaxNumSteps (pNmax_cvode s)] in
    if (cv_flag (cv m1) <? 0)%Z
    then Raise (SysErr "SUNDIALS_ERROR: %s() failed with flag = %d")
               (set_cvode_mem_cvode m1 s)
    else
      let m2 := m1 ++ [CVodeSVtolerances (reltol_cvode s) (abstol_cvode s)] in
      if (cv_flag (cv m2) <? 0)%Z
      then Raise (SysErr "SUNDIALS_ERROR: %s() failed with flag = %d")
                 (set_cvode_mem_cvode m2 (set_cvode_mem_cvode m1 s))
      else Done tt (set_pInitialised true
                      (set_cvode_mem_cvode m2 (set_cvode_mem_cvode m1 s))).
Proof.
  unfold run_initialise, mbind, method_bind, get.
  destruct (pInitialised s); [reflexivity |].
  cbn -[Z.ltb]. unfold check_flag.
  destruct (cv_flag (cv _) <? 0)%Z; [reflexivity |].
  cbn -[Z.ltb].
  destruct (cv_flag (cv _) <? 0)%Z; reflexivity.
Qed.

Lemma run_reinit_unfold cv s :
  run_reinit cv s =
  if pReinit s then
    let m := cvode_mem_cvode s ++
             [CVodeReInit (Statedef.time (statedef s)) (y_cvode s)] in
    if (cv_flag (cv m) <? 0)%Z
    then Raise (SysErr "SUNDIALS_ERROR: %s() failed with flag = %d")
               (set_cvode_mem_cvode m s)
    else Done tt (set_pReinit false (set_cvode_mem_cvode m s))
  else Done tt s.
Proof.
  unfold run_reinit, mbind, method_bind, get.
  destruct (pReinit s); [| reflexivity].
  cbn -[Z.ltb]. unfold check_flag.
  destruct (cv_flag (cv _) <? 0)%Z; reflexivity.
Qed.

Lemma run_step_unfold cv endtime s :
  run_step cv endtime s =
  let m := cvode_mem_cvode s ++ [step_call endtime s] in
  let s1 := set_y_cvode (cv_yout (cv m)) (set_cvode_mem_cvode m s) in
  if (cv_flag (cv m) =? CV_SUCCESS)%Z
  then Done tt (set_statedef (Statedef.setTime endtime (statedef s1)) s1)
  else Raise (SysErr "CVODE iteration failed") s1.
Proof.
  unfold run_step, mbind, method_bind, get, step_call.
  cbn -[Z.eqb].
  destruct (cv_flag (cv _) =? CV_SUCCESS)%Z; reflexivity.
Qed.

Lemma run_unfold cv endtime s :
  run cv endtime s =
  if ltb_real endtime (Statedef.time (statedef s)) then
    Raise (ArgErr "Endtime is before current simulation time") s
  else if eqb_real endtime 0%Qc then Done tt s
  else
    match run_initialise cv s with
    | Done _ s1 =>
        match run_reinit cv s1 with
        | Done _ s2 => run_step cv endtime s2
        | Raise e s2 => Raise e s2
        | Crash => Crash
        end
    | Raise e s1 => Raise e s1
    | Crash => Crash
    end.
Proof.
  unfold run, mbind, method_bind, get.
  destruct (ltb_real _ _); [reflexivity |].
  destruct (eqb_real _ _); reflexivity.
Qed.

Ltac flag_cases :=
  repeat match goal with
  | H : (0 <= ?f)%Z |- context [(?f <? 0)%Z] =>
      rewrite (proj2 (Z.ltb_ge f 0) H)
  end.

(** C6. [run] raises the time-regression [ArgErr] when [endtime] is
    before the current time; otherwise returns at once with the state
    unchanged when [endtime] is 0; otherwise, after the configuration calls
    of a first run, it reinitialises the integrator at the current time and
    state vector when reinitialisation is pending and clears the flag, then
    steps: a flag other than [CV_SUCCESS] raises [SysErr] and leaves the
    time, success sets the time to [endtime]. No exception other than
    [SysErr] leaves [run] past the first two checks, and it never aborts. *)
Theorem run_contract (cv : Integrator) (endtime : real) (s : TetODE) :
  let t_now := Statedef.time (statedef s) in
  ((endtime < t_now)%Qc ->
   run cv endtime s =
     Raise (ArgErr "Endtime is before current simulation time") s) /\
  (~ (endtime < t_now)%Qc -> endtime = 0%Qc -> run cv endtime s = Done tt s) /\
  (~ (endtime < t_now)%Qc -> endtime <> 0%Qc ->
   let before := init_calls s ++ reinit_calls s in
   let mem := cvode_mem_cvode s ++ before ++ [step_call endtime s] in
   (accepted cv (cvode_mem_cvode s) before ->
    exists s',
      cvode_mem_cvode s' = mem /\
      pReinit s' = false /\
      y_cvode s' = cv_yout (cv mem) /\
      if (cv_flag (cv mem) =? CV_SUCCESS)%Z
      then run cv endtime s = Done tt s' /\
           Statedef.time (statedef s') = endtime
      else run cv endtime s = Raise (SysErr "CVODE iteration failed") s' /\
           Statedef.time (statedef s') = t_now) /\
   match run cv endtime s with
   | Done _ _ => True
   | Raise e s' => (exists msg, e = SysErr msg) /\
                   Statedef.time (statedef s') = t_now
   | Crash => False
   end).
Proof.
  intros t_now. rewrite run_unfold. split; [| split].
  - intros Hlt. apply ltb_real_lt in Hlt. unfold t_now in Hlt. now rewrite Hlt.
  - intros Hnlt H0. apply ltb_real_nlt in Hnlt. apply eqb_real_eq in H0.
    unfold t_now in Hnlt. now rewrite Hnlt, H0.
  - intros Hnlt Hne before mem.
    apply ltb_real_nlt in Hnlt. apply eqb_real_neq in Hne.
    unfold t_now in Hnlt. rewrite Hnlt, Hne.
    rewrite run_initialise_unfold.
    subst before mem. unfold init_calls, reinit_calls.
    split.
    + destruct (pInitialised s) eqn:Hi, (pReinit s) eqn:Hr;
        cbn -[Z.ltb Z.eqb]; intros Hacc;
        repeat match type of Hacc with _ /\ _ =>
          let H := fresh "Hf" in destruct Hacc as [H Hacc] end;
        rewrite <- ?app_assoc in *; cbn -[Z.ltb Z.eqb] in *;
        flag_cases; cbn -[Z.ltb Z.eqb];
        rewrite run_reinit_unfold; cbn -[Z.ltb Z.eqb]; rewrite ?Hr;
        rewrite <- ?app_assoc; cbn -[Z.ltb Z.eqb];
        flag_cases; cbn -[Z.ltb Z.eqb];
        rewrite run_step_unfold; unfold step_call; cbn -[Z.ltb Z.eqb];
        rewrite <- ?app_assoc; cbn -[Z.ltb Z.eqb];
        match goal with |- context [(?f =? CV_SUCCESS)%Z] =>
          destruct (f =? CV_SUCCESS)%Z end;
        eexists; refine (conj _ (conj _ (conj _ (conj eq_refl _))));
        cbn; first [reflexivity | assumption].
    + destruct (pInitialised s) eqn:Hi; cbn -[Z.ltb Z.eqb].
      all: repeat match goal with
           | |- context [(?f <? 0)%Z] => destruct (f <? 0)%Z
           end; cbn -[Z.ltb Z.eqb]; eauto.
      all: rewrite run_reinit_unfold; cbn -[Z.ltb Z.eqb];
           destruct (pReinit s) eqn:Hr; cbn -[Z.ltb Z.eqb].
      all: repeat match goal with
           | |- context [(?f <? 0)%Z] => destruct (f <? 0)%Z
           end; cbn -[Z.ltb Z.eqb]; eauto.
      all: rewrite run_step_unfold; cbn -[Z.ltb Z.eqb].
      all: match goal with |- context [(?f =? CV_SUCCESS)%Z] =>
             destruct (f =? CV_SUCCESS)%Z end; cbn; eauto.
Qed.

Lemma run_contract_witness :
  exists s',
    run Example.cv_ok (Q2Qc 1) Example.fresh = Done tt s' /\
    Statedef.time (statedef s') = Q2Qc 1 /\
    pReinit s' = false /\
    cvode_mem_cvode s' =
      cvode_mem_cvode Example.fresh ++
      calls_of_run (Q2Qc 1) Example.fresh.
Proof.
  destruct (run_contract Example.cv_ok (Q2Qc 1) Example.fresh)
    as (_ & _ & Hstep).
  destruct Hstep as [Hok _].
  - vm_compute. discriminate.
  - vm_compute. discriminate.
  - destruct Hok as (s' & Hmem & Hflag & _ & Hrun).
    + vm_compute. repeat apply conj; try discriminate; exact I.
    + replace (cv_flag _ =? CV_SUCCESS)%Z with true in Hrun
        by (vm_compute; reflexivity).
      destruct Hrun as [Hrun Ht].
      exists s'. repeat split; assumption.
Defined.

Lemma run_time_regression_witness :
  run Example.cv_ok 0%Qc Example.ran =
    Raise (ArgErr "Endtime is before current simulation time") Example.ran.
Proof.
  destruct (run_contract Example.cv_ok 0%Qc Example.ran) as (Hlt & _).
  apply Hlt. vm_compute. reflexivity.
Qed.

(** The calls of a [run], complete or cut short by an exception, are an
    initial part of [calls_of_run]. *)
Lemma run_calls cv endtime s s' :
  final_state (run cv endtime s) = Some s' ->
  exists calls,
    cvode_mem_cvode s' = cvode_mem_cvode s ++ calls /\
    calls `prefix_of` calls_of_run endtime s.
Proof.
  rewrite run_unfold. unfold calls_of_run, init_calls, reinit_calls.
  destruct (ltb_real _ _).
  { intros [= <-]. exists []. rewrite app_nil_r. split; [done | apply prefix_nil]. }
  destruct (eqb_real _ _).
  { intros [= <-]. exists []. rewrite app_nil_r. split; [done | apply prefix_nil]. }
  rewrite run_initialise_unfold.
  destruct (pInitialised s) eqn:Hi; cbn -[Z.ltb Z.eqb].
  - rewrite run_reinit_unfold.
    destruct (pReinit s) eqn:Hr; cbn -[Z.ltb Z.eqb].
    + destruct (_ <? 0)%Z; cbn -[Z.ltb Z.eqb].
      { intros [= <-]. eexists. split; [reflexivity |]. now eexists. }
      rewrite run_step_unfold. unfold step_call. cbn -[Z.ltb Z.eqb].
      destruct (_ =? CV_SUCCESS)%Z; intros [= <-]; cbn;
        rewrite <- app_assoc; (eexists; split; [reflexivity | now exists []]).
    + rewrite run_step_unfold. unfold step_call. cbn -[Z.ltb Z.eqb].
      destruct (_ =? CV_SUCCESS)%Z; intros [= <-]; cbn;
        (eexists; split; [reflexivity | now exists []]).
  - destruct (_ <? 0)%Z; cbn -[Z.ltb Z.eqb].
    { intros [= <-]. eexists. split; [reflexivity |]. now eexists. }
    destruct (_ <? 0)%Z; cbn -[Z.ltb Z.eqb].
    { intros [= <-]. cbn. rewrite <- app_assoc.
      eexists. split; [reflexivity |]. cbn. now eexists. }
    rewrite run_reinit_unfold. cbn -[Z.ltb Z.eqb].
    destruct (pReinit s) eqn:Hr; cbn -[Z.ltb Z.eqb].
    + destruct (_ <? 0)%Z; cbn -[Z.ltb Z.eqb].
      { intros [= <-]. cbn. rewrite <- !app_assoc.
        eexists. split; [reflexivity |]. cbn. now eexists. }
      rewrite run_step_unfold. unfold step_call. cbn -[Z.ltb Z.eqb].
      destruct (_ =? CV_SUCCESS)%Z; intros [= <-]; cbn;
        rewrite <- !app_assoc; cbn;
        (eexists; split; [reflexivity | now exists []]).
    + rewrite run_step_unfold. unfold step_call. cbn -[Z.ltb Z.eqb].
      destruct (_ =? CV_SUCCESS)%Z; intros [= <-]; cbn;
        rewrite <- !app_assoc; cbn;
        (eexists; split; [reflexivity | now exists []]).
Qed.


(** ** Restore *)

Lemma read_doubles_full n data buf :
  length buf = N.to_nat n -> (N.to_nat n <= length data)%nat ->
  read_doubles n data buf = Ret (take (N.to_nat n) data, drop (N.to_nat n) data).
Proof.
  intros Hbuf Hdata. unfold read_doubles.
  rewrite Hbuf, Nat.leb_refl. cbn.
  rewrite length_take, Nat.min_l by exact Hdata.
  rewrite drop_ge by lia. now rewrite app_nil_r.
Qed.

(** Inversion of a normal return through the method combinators. *)
Lemma bind_Done {A B : Type} (m : method A) (f : A -> method B) s b s' :
  (m ≫= f) s = Done b s' ->
  exists a s1, m s = Done a s1 /\ f a s1 = Done b s'.
Proof.
  unfold mbind, method_bind.
  destruct (m s) as [a s1 | |]; [eauto | discriminate | discriminate].
Qed.

Lemma modify_Done (f : TetODE -> TetODE) s u s' :
  modify f s = Done u s' -> s' = f s.
Proof. now intros [= _ <-]. Qed.

Lemma get_Done s a s' : get s = Done a s' -> a = s /\ s' = s.
Proof. now intros [= <- <-]. Qed.

Lemma lift_Done {A : Type} (o : outcome A) s a s' :
  lift o s = Done a s' -> o = Ret a /\ s' = s.
Proof. destruct o; [now intros [= <- <-] | discriminate | discriminate]. Qed.

Ltac invert_Done H :=
  repeat first
    [ apply modify_Done in H
    | apply get_Done in H; destruct H as [-> ->]
    | apply lift_Done in H; destruct H as [H ->]
    | let a := fresh "a" in let s1 := fresh "s" in
      let H1 := fresh "H" in
      apply bind_Done in H; destruct H as (a & s1 & H1 & H);
      first [ apply modify_Done in H1; subst s1
            | apply get_Done in H1; destruct H1 as [-> ->]
            | apply lift_Done in H1; destruct H1 as [H1 ->] ] ].



(** ** The derivative evaluator *)

Lemma pow_of_N (x : real) (n : N) : pow x (Z.of_N n) = (x ^ N.to_nat n)%Qc.
Proof.
  destruct n as [| p]; [reflexivity |].
  cbn [Z.of_N pow N.to_nat]. reflexivity.
Qed.

Lemma at_lookup {A : Type} (v : list A) (i : N) (a : A) :
  v !! N.to_nat i = Some a -> at_ v i = Ret a.
Proof. unfold at_. now intros ->. Qed.

Lemma store_lt {A : Type} (v : list A) (i : N) (x : A) :
  (N.to_nat i < length v)%nat -> store v i x = Ret (<[N.to_nat i := x]> v).
Proof.
  intros H. unfold store.
  destruct (Nat.ltb_spec (N.to_nat i) (length v)); [reflexivity | lia].
Qed.

Lemma Qc_prod_cons (a : real) (l : list real) :
  Qc_prod (a :: l) = (a * Qc_prod l)%Qc.
Proof. reflexivity. Qed.

Lemma Qc_prod_app (l1 l2 : list real) :
  Qc_prod (l1 ++ l2) = (Qc_prod l1 * Qc_prod l2)%Qc.
Proof.
  induction l1 as [| a l1 IH].
  - change (Qc_prod ([] ++ l2)) with (Qc_prod l2).
    change (Qc_prod []) with 1%Qc. ring.
  - change (Qc_prod ((a :: l1) ++ l2)) with (a * Qc_prod (l1 ++ l2))%Qc.
    rewrite IH, Qc_prod_cons. ring.
Qed.

Lemma Qc_sum_cons (a : real) (l : list real) :
  Qc_sum (a :: l) = (a + Qc_sum l)%Qc.
Proof. reflexivity. Qed.

Lemma bind_Ret {A B : Type} (a : A) (f : A -> outcome B) :
  (Ret a ≫= f) = f a.
Proof. reflexivity. Qed.

Lemma foldM_cons {A B : Type} (f : B -> A -> outcome B) b a l :
  foldM f b (a :: l) = (f b a ≫= fun b' => foldM f b' l).
Proof. reflexivity. Qed.

Lemma foldM_nil {A B : Type} (f : B -> A -> outcome B) b :
  foldM f b [] = Ret b.
Proof. reflexivity. Qed.

Lemma f_cvode_q_ok (y : list real) (acc : real) (q : structC) :
  (N.to_nat (spec_idx q) < length y)%nat ->
  f_cvode_q y acc q = Ret (acc * descriptor_factor y q)%Qc.
Proof.
  intros Hq. unfold f_cvode_q, descriptor_factor.
  destruct (lookup_lt_is_Some_2 y _ Hq) as [v Hv].
  rewrite (at_lookup _ _ _ Hv), Hv, bind_Ret.
  change (default 0%Qc (Some v)) with v.
  destruct (N.eqb_spec (order q) 1) as [-> | Hne].
  - f_equal. change (N.to_nat 1) with 1%nat.
    change (v ^ 1)%Qc with (v * 1)%Qc. ring.
  - now rewrite pow_of_N.
Qed.

Lemma foldM_q_ok (y : list real) (qs : list structC) (acc : real) :
  Forall (fun q => (N.to_nat (spec_idx q) < length y)%nat) qs ->
  foldM (f_cvode_q y) acc qs =
    Ret (acc * Qc_prod (descriptor_factor y <$> qs))%Qc.
Proof.
  intros Hqs. revert acc.
  induction Hqs as [| q qs Hq _ IH]; intros acc.
  - rewrite foldM_nil. f_equal. change (Qc_prod _) with 1%Qc. ring.
  - rewrite foldM_cons, (f_cvode_q_ok _ _ _ Hq), bind_Ret, IH.
    rewrite fmap_cons, Qc_prod_cons. f_equal. ring.
Qed.

Lemma f_cvode_p_ok (y : list real) (p : structB) (acc : real) :
  Forall (fun q => (N.to_nat (spec_idx q) < length y)%nat) (info p) ->
  f_cvode_p y acc p = Ret (acc * Qc_prod (descriptor_factor y <$> info p))%Qc.
Proof. apply foldM_q_ok. Qed.

Lemma foldM_p_ok (y : list real) (ps : list structB) (acc : real) :
  Forall (fun q => (N.to_nat (spec_idx q) < length y)%nat)
         (concat (info <$> ps)) ->
  foldM (f_cvode_p y) acc ps =
    Ret (acc * Qc_prod (descriptor_factor y <$> concat (info <$> ps)))%Qc.
Proof.
  revert acc. induction ps as [| p ps IH]; intros acc Hps.
  - rewrite foldM_nil. f_equal. change (Qc_prod _) with 1%Qc. ring.
  - rewrite fmap_cons in Hps. change (concat (info p :: (info <$> ps)))
      with (info p ++ concat (info <$> ps)) in Hps.
    apply Forall_app in Hps. destruct Hps as [Hp Hps].
    rewrite foldM_cons, (f_cvode_p_ok _ _ _ Hp), bind_Ret, (IH _ Hps).
    rewrite fmap_cons. change (concat (info p :: (info <$> ps)))
      with (info p ++ concat (info <$> ps)).
    rewrite fmap_app, Qc_prod_app. f_equal. ring.
Qed.

Lemma f_cvode_r_ok (y : list real) (r : structA) (acc : real) :
  Forall (fun q => (N.to_nat (spec_idx q) < length y)%nat) (descriptors r) ->
  f_cvode_r y acc r = Ret (acc + process_rate y r)%Qc.
Proof.
  intros Hr. unfold f_cvode_r.
  rewrite (foldM_p_ok _ _ _ Hr), bind_Ret. reflexivity.
Qed.

Lemma foldM_r_ok (y : list real) (sp : list structA) (acc : real) :
  Forall (fun r =>
    Forall (fun q => (N.to_nat (spec_idx q) < length y)%nat) (descriptors r))
    sp ->
  foldM (f_cvode_r y) acc sp = Ret (acc + slot_derivative y sp)%Qc.
Proof.
  intros Hsp. revert acc.
  induction Hsp as [| r sp Hr _ IH]; intros acc.
  - rewrite foldM_nil. f_equal. change (slot_derivative y []) with 0%Qc. ring.
  - rewrite foldM_cons, (f_cvode_r_ok _ _ _ Hr), bind_Ret, IH.
    unfold slot_derivative. rewrite fmap_cons, Qc_sum_cons. f_equal. ring.
Qed.

Lemma foldM_sp_ok (y : list real) (G : list (list structA)) :
  descriptors_in_range G y ->
  forall (ydot : list real) (i : N),
    i + N.of_nat (length G) <= UInt.modulus ->
    (N.to_nat i + length G <= length ydot)%nat ->
    exists i',
      foldM (f_cvode_sp y) (ydot, i) G =
        Ret (take (N.to_nat i) ydot ++ (slot_derivative y <$> G) ++
             drop (N.to_nat i + length G) ydot, i').
Proof.
  intros HG. induction HG as [| sp G Hsp _ IH]; intros ydot i Hmod Hlen.
  - exists i. rewrite foldM_nil, fmap_nil. cbn [length app].
    now rewrite Nat.add_0_r, take_drop.
  - cbn [length] in Hmod, Hlen.
    rewrite foldM_cons.
    assert (Hsp1 : f_cvode_sp y (ydot, i) sp =
              Ret (<[N.to_nat i := slot_derivative y sp]> ydot, i +u 1)).
    { unfold f_cvode_sp. rewrite (foldM_r_ok _ _ _ Hsp), bind_Ret.
      rewrite store_lt by lia. rewrite bind_Ret.
      assert (Hd : (0 + slot_derivative y sp)%Qc = slot_derivative y sp)
        by ring.
      now rewrite Hd. }
    rewrite Hsp1, bind_Ret.
    set (ydot1 := <[N.to_nat i := slot_derivative y sp]> ydot).
    assert (Hstep : take (N.to_nat i) ydot ++
              (slot_derivative y <$> sp :: G) ++
              drop (N.to_nat i + length (sp :: G)) ydot =
            take (S (N.to_nat i)) ydot1 ++ (slot_derivative y <$> G) ++
              drop (S (N.to_nat i) + length G) ydot1).
    { subst ydot1.
      rewrite (take_S_r _ _ (slot_derivative y sp))
        by (apply list_lookup_insert_eq; lia).
      rewrite take_insert_ge by lia.
      rewrite drop_insert_lt by lia.
      rewrite <- app_assoc, fmap_cons. cbn [app length].
      now replace (N.to_nat i + S (length G))%nat
        with (S (N.to_nat i) + length G)%nat by lia. }
    rewrite Hstep.
    destruct G as [| sp' G'].
    + exists (i +u 1). rewrite foldM_nil, fmap_nil. cbn [length app].
      now rewrite Nat.add_0_r, take_drop.
    + assert (Hi : i +u 1 = i + 1).
      { apply UIntFacts.add_small. cbn [length] in Hmod. lia. }
      rewrite Hi.
      destruct (IH ydot1 (i + 1)) as [i' Hi'].
      * cbn [length] in *. lia.
      * subst ydot1. rewrite length_insert. cbn [length] in *. lia.
      * exists i'. rewrite Hi'.
        now replace (N.to_nat (i + 1)) with (S (N.to_nat i)) by lia.
Qed.

Lemma descriptor_factor_order_1 (y : list real) (q : structC) :
  order q = 1 ->
  descriptor_factor y q = default 0%Qc (y !! N.to_nat (spec_idx q)).
Proof.
  intros H. unfold descriptor_factor. rewrite H.
  change (N.to_nat 1) with 1%nat.
  generalize (default 0%Qc (y !! N.to_nat (spec_idx q))). intros v.
  change (v ^ 1)%Qc with (v * 1)%Qc. ring.
Qed.

(** C1. When every reactant descriptor names a component of [y] and
    [ydot] has a component for every slot, [f_cvode] returns 0, leaves the
    process graph and [y] as they are, and writes to every slot [i] of
    [ydot] the sum over the processes stored for [i] of
    [upd * ccst * prod y[j]^order]; a descriptor of order 1 contributes
    [y[j]] itself. Components of [ydot] past the slots are not written. *)
Theorem f_cvode_derivative (t : real) (m : rhs_memory) :
  descriptors_in_range (mem_matrixsub m) (mem_y m) ->
  (length (mem_matrixsub m) <= length (mem_ydot m))%nat ->
  N.of_nat (length (mem_matrixsub m)) <= UInt.modulus ->
  exists m',
    f_cvode t m = Ret (0%Z, m') /\
    mem_matrixsub m' = mem_matrixsub m /\
    mem_y m' = mem_y m /\
    length (mem_ydot m') = length (mem_ydot m) /\
    (forall i sp,
       mem_matrixsub m !! i = Some sp ->
       mem_ydot m' !! i = Some (slot_derivative (mem_y m) sp)) /\
    (forall i,
       (length (mem_matrixsub m) <= i)%nat ->
       mem_ydot m' !! i = mem_ydot m !! i) /\
    (forall q,
       order q = 1 ->
       descriptor_factor (mem_y m) q =
         default 0%Qc (mem_y m !! N.to_nat (spec_idx q))).
Proof.
  intros Hrange Hlen Hmod.
  destruct (foldM_sp_ok _ _ Hrange (mem_ydot m) 0) as [i' Hfold];
    [lia | cbn; lia |].
  unfold f_cvode. rewrite Hfold, bind_Ret.
  change (N.to_nat 0) with 0%nat. cbn [fst take app Nat.add].
  set (G := mem_matrixsub m) in *. set (y := mem_y m) in *.
  set (ydot := mem_ydot m) in *.
  eexists. split; [reflexivity |]. cbn [mem_matrixsub mem_y mem_ydot fst].
  rewrite take_0. cbn [app].
  split; [reflexivity |]. split; [reflexivity |].
  split.
  { rewrite length_app, length_fmap, length_drop. lia. }
  split.
  { intros i sp Hi. rewrite lookup_app_l.
    - now rewrite list_lookup_fmap, Hi.
    - rewrite length_fmap. now apply lookup_lt_Some in Hi. }
  split.
  { intros i Hi. rewrite lookup_app_r by (rewrite length_fmap; lia).
    rewrite lookup_drop, length_fmap. f_equal. lia. }
  intros q. apply descriptor_factor_order_1.
Qed.

Lemma f_cvode_derivative_witness :
  exists m',
    f_cvode 0%Qc
      {| mem_matrixsub := pSpec_matrixsub Example.fresh;
         mem_y := (Q2Qc <$> [1; 2; 3; 4; 5; 6])%Q;
         mem_ydot := replicate 6 0%Qc |} = Ret (0%Z, m') /\
    mem_ydot m' !! 1%nat = Some (Q2Qc 2).
Proof.
  set (m := {| mem_matrixsub := pSpec_matrixsub Example.fresh;
               mem_y := (Q2Qc <$> [1; 2; 3; 4; 5; 6])%Q;
               mem_ydot := replicate 6 0%Qc |}).
  destruct (f_cvode_derivative 0%Qc m) as (m' & Hrun & _ & _ & _ & Hd & _).
  - vm_compute. repeat constructor.
  - vm_compute. lia.
  - vm_compute. discriminate.
  - exists m'. split; [exact Hrun |].
    destruct (mem_matrixsub m !! 1%nat) as [sp |] eqn:Hsp;
      [| vm_compute in Hsp; discriminate].
    rewrite (Hd _ _ Hsp).
    vm_compute in Hsp. injection Hsp as <-.
    vm_compute. reflexivity.
Defined.

(** ** Size of the state vector *)

Lemma outcome_bind_Ret {A B : Type} (m : outcome A) (f : A -> outcome B) b :
  (m ≫= f) = Ret b -> exists a, m = Ret a /\ f a = Ret b.
Proof. destruct m; [eauto | discriminate | discriminate]. Qed.

Lemma assert_Ret (b : bool) (u : unit) : assert b = Ret u -> b = true.
Proof. destruct b; [reflexivity | discriminate]. Qed.

Lemma mul_size {A : Type} (a : N) (l : list A) :
  a * N.of_nat (length l) < UInt.modulus ->
  a *u size l = a * N.of_nat (length l).
Proof.
  intros H. unfold size, UInt.mul.
  destruct (N.eq_dec a 0) as [-> | Ha].
  - now rewrite !N.mul_0_l.
  - assert (Hl : N.of_nat (length l) < UInt.modulus) by nia.
    rewrite (UIntFacts.wrap_small _ Hl). now apply UIntFacts.wrap_small.
Qed.

Lemma count_comps_fst (comps : list Comp.t) (acc : N * N) :
  fst acc + N_sum (comp_block <$> comps) < UInt.modulus ->
  fst (foldl setup_count_comp acc comps) =
    fst acc + N_sum (comp_block <$> comps).
Proof.
  revert acc. induction comps as [| c comps IH]; intros [a b] H.
  - cbn. lia.
  - rewrite fmap_cons in H. cbn [N_sum foldr fst] in H.
    fold (N_sum (comp_block <$> comps)) in H.
    cbn [foldl]. unfold setup_count_comp at 2.
    rewrite IH; cbn [fst]; unfold Comp.countTets;
      rewrite mul_size by (unfold comp_block in H; lia);
      fold (comp_block c);
      rewrite UIntFacts.add_small by lia.
    + rewrite fmap_cons. cbn [N_sum foldr].
      fold (N_sum (comp_block <$> comps)). lia.
    + lia.
Qed.

Lemma count_patches_fst (patches : list Patch.t) (acc : N * N) :
  fst acc + N_sum (patch_block <$> patches) < UInt.modulus ->
  fst (foldl setup_count_patch acc patches) =
    fst acc + N_sum (patch_block <$> patches).
Proof.
  revert acc. induction patches as [| p patches IH]; intros [a b] H.
  - cbn. lia.
  - rewrite fmap_cons in H. cbn [N_sum foldr fst] in H.
    fold (N_sum (patch_block <$> patches)) in H.
    cbn [foldl]. unfold setup_count_patch at 2.
    rewrite IH; cbn [fst]; unfold Patch.countTris;
      rewrite mul_size by (unfold patch_block in H; lia);
      fold (patch_block p);
      rewrite UIntFacts.add_small by lia.
    + rewrite fmap_cons. cbn [N_sum foldr].
      fold (N_sum (patch_block <$> patches)). lia.
    + lia.
Qed.

Lemma setup_totals_fst (comps : list Comp.t) (patches : list Patch.t) :
  layout_size comps patches < UInt.modulus ->
  fst (setup_totals comps patches) = layout_size comps patches.
Proof.
  intros H. unfold setup_totals, layout_size in *.
  rewrite count_patches_fst; rewrite count_comps_fst; cbn [fst]; lia.
Qed.

(** C4. When the sum over the compartments of species times tetrahedra
    plus the sum over the patches of species times triangles fits a
    [uint], a solver that [_setup] has built has that sum as [pSpecs_tot],
    and it is the length of both the state vector and the vector of
    absolute tolerances. *)
Theorem setup_state_vector_length (cv : Integrator) (sd : Statedef.t)
    (comps : list Comp.t) (patches : list Patch.t)
    (tris : list (option Tri.t)) (tets : list (option Tet.t)) (s : TetODE) :
  _setup cv sd comps patches tris tets = Ret s ->
  layout_size comps patches < UInt.modulus ->
  pSpecs_tot s = layout_size comps patches /\
  N.of_nat (length (y_cvode s)) = layout_size comps patches /\
  N.of_nat (length (abstol_cvode s)) = layout_size comps patches.
Proof.
  unfold _setup. intros Hs Hfit.
  pose proof (setup_totals_fst _ _ Hfit) as Htot.
  destruct (setup_totals comps patches) as [specs_tot reacs_tot].
  cbn [fst] in Htot. subst specs_tot.
  apply outcome_bind_Ret in Hs. destruct Hs as (st1 & _ & Hs).
  apply outcome_bind_Ret in Hs. destruct Hs as (st2 & _ & Hs).
  destruct st2 as [[G reac_gidx] spec_gidx].
  apply outcome_bind_Ret in Hs. destruct Hs as (u1 & _ & Hs).
  apply outcome_bind_Ret in Hs. destruct Hs as (u2 & _ & Hs).
  apply outcome_bind_Ret in Hs. destruct Hs as (u3 & _ & Hs).
  injection Hs as <-. cbn [pSpecs_tot y_cvode abstol_cvode].
  rewrite !length_replicate, N2Nat.id. auto.
Qed.

Lemma setup_state_vector_length_witness :
  pSpecs_tot Example.fresh = 6 /\
  length (y_cvode Example.fresh) = 6%nat.
Proof.
  destruct (setup_state_vector_length Example.cv_ok Example.sd0
              [Example.comp0] [Example.patch0] [Some Example.tri0]
              [Some Example.tet0; Some Example.tet1; None] Example.fresh)
    as (Htot & Hy & _).
  - exact example_built.
  - vm_compute. reflexivity.
  - split; [rewrite Htot; vm_compute; reflexivity |].
    apply Nat2N.inj. rewrite Hy. vm_compute. reflexivity.
Defined.

(** ** Index arithmetic without overflow *)

Lemma N_sum_cons (a : N) (l : list N) : N_sum (a :: l) = a + N_sum l.
Proof. reflexivity. Qed.

Lemma N_sum_app (l1 l2 : list N) : N_sum (l1 ++ l2) = N_sum l1 + N_sum l2.
Proof.
  induction l1 as [| a l1 IH]; [reflexivity |].
  cbn [app]. rewrite !N_sum_cons, IH. lia.
Qed.

Lemma range_unfold (n : N) : range n = N.of_nat <$> seq 0 (N.to_nat n).
Proof. reflexivity. Qed.

(** The step-up loop over the elements [a .. a+k-1] adds their blocks. *)
Lemma step_up_comp_specs_seq (comps : list Comp.t) (k a : nat) (idx : N) :
  (a + k <= length comps)%nat ->
  idx + N_sum (comp_block <$> take k (drop a comps)) < UInt.modulus ->
  foldM (fun idx i =>
           cdef ← compdef comps i;
           c ← at_ comps i;
           Ret (idx +u (Compdef.countSpecs cdef *u Comp.countTets c)))
        idx (N.of_nat <$> seq a k) =
    Ret (idx + N_sum (comp_block <$> take k (drop a comps))).
Proof.
  revert a idx. induction k as [| k IH]; intros a idx Hlen Hfit.
  - rewrite take_0. cbn. f_equal. lia.
  - destruct (lookup_lt_is_Some_2 comps a) as [c Hc]; [lia |].
    rewrite (drop_S _ _ _ Hc) in *. rewrite firstn_cons in *.
    rewrite fmap_cons, N_sum_cons in *.
    cbn [seq fmap list_fmap]. rewrite foldM_cons.
    unfold compdef. rewrite (at_lookup comps (N.of_nat a) c)
      by (now rewrite Nat2N.id).
    rewrite !bind_Ret. unfold Comp.countTets.
    rewrite mul_size by (unfold comp_block in Hfit; lia).
    fold (comp_block c). rewrite UIntFacts.add_small by lia.
    rewrite IH by lia. f_equal. lia.
Qed.

Lemma step_up_comp_specs_ok (comps : list Comp.t) (n : nat) :
  (n <= length comps)%nat ->
  N_sum (comp_block <$> take n comps) < UInt.modulus ->
  step_up_comp_specs comps 0 (N.of_nat n) =
    Ret (N_sum (comp_block <$> take n comps)).
Proof.
  intros Hn Hfit. unfold step_up_comp_specs. rewrite range_unfold, Nat2N.id.
  rewrite (step_up_comp_specs_seq comps n 0 0) by (rewrite ?drop_0; lia).
  now rewrite drop_0.
Qed.

(** ** Evaluating a method step by step *)

Lemma run_bind_get {B : Type} (f : TetODE -> method B) s :
  (get ≫= f) s = f s s.
Proof. reflexivity. Qed.

Lemma run_bind_lift {A B : Type} (o : outcome A) (a : A) (f : A -> method B) s :
  o = Ret a -> (lift o ≫= f) s = f a s.
Proof. now intros ->. Qed.

Lemma run_bind_modify {B : Type} (g : TetODE -> TetODE) (f : unit -> method B) s :
  (modify g ≫= f) s = f tt (g s).
Proof. reflexivity. Qed.

Lemma assert_true (b : bool) : b = true -> assert b = Ret tt.
Proof. now intros ->. Qed.

Lemma size_small {A : Type} (l : list A) :
  N.of_nat (length l) < UInt.modulus -> size l = N.of_nat (length l).
Proof. apply UIntFacts.wrap_small. Qed.

Lemma sub_1_small (a : N) : 0 < a -> a < UInt.modulus -> a -u 1 = a - 1.
Proof.
  intros H0 Hm. unfold UInt.sub.
  rewrite Z.mod_small by (unfold UInt.modulus in *; lia). lia.
Qed.

(** The slot of local species [slidx] in element [i] of a block that
    starts at [idx]. *)
Lemma slot_small (idx i nspecs slidx : N) :
  idx + i * nspecs + slidx < UInt.modulus ->
  idx +u ((i *u nspecs) +u slidx) = idx + i * nspecs + slidx.
Proof.
  intros H.
  rewrite (UIntFacts.mul_small i nspecs) by lia.
  rewrite (UIntFacts.add_small (i * nspecs) slidx) by lia.
  rewrite UIntFacts.add_small by lia. lia.
Qed.

Section SlotLoops.

Variables (idx nspecs slidx : N).
Hypothesis nspecs_pos : 0 < nspecs.

Local Abbreviation slot_of := (slot_of idx nspecs slidx).

Lemma slot_of_lt (i j : nat) : (i < j)%nat -> (slot_of i < slot_of j)%nat.
Proof. unfold slot_of. intros H. nia. Qed.

Lemma slot_of_inj (i j : nat) : slot_of i = slot_of j -> i = j.
Proof.
  intros H. destruct (Nat.lt_trichotomy i j) as [Hlt | [-> | Hlt]];
    [| reflexivity |]; apply slot_of_lt in Hlt; lia.
Qed.

(** The assignment loop of [_setCompCount] and [_setPatchCount], over the
    elements [a .. a+k-1] of [elems]. *)
Lemma set_slots_loop {E : Type} (elems : list E) (val : E -> real)
    (k a : nat) (y : list real) :
  (a + k <= length elems)%nat ->
  (forall i, (i < a + k)%nat -> (slot_of i < length y)%nat) ->
  (forall i, (i < a + k)%nat ->
             idx + N.of_nat i * nspecs + slidx < UInt.modulus) ->
  exists y',
    foldM (fun y i =>
             e ← at_ elems i;
             store y (idx +u ((i *u nspecs) +u slidx)) (val e))
          y (N.of_nat <$> seq a k) = Ret y' /\
    length y' = length y /\
    (forall i e, (a <= i < a + k)%nat -> elems !! i = Some e ->
                 y' !! slot_of i = Some (val e)) /\
    (forall x, (forall i, (a <= i < a + k)%nat -> x <> slot_of i) ->
               y' !! x = y !! x).
Proof.
  revert a y. induction k as [| k IH]; intros a y Hlen Hy Hfit.
  - exists y. cbn. repeat apply conj; auto. intros i e Hi. lia.
  - destruct (lookup_lt_is_Some_2 elems a) as [e Ha]; [lia |].
    cbn [seq fmap list_fmap]. rewrite foldM_cons.
    rewrite (at_lookup elems (N.of_nat a) e) by (now rewrite Nat2N.id).
    rewrite bind_Ret, slot_small by (apply Hfit; lia).
    rewrite store_lt by (apply Hy; lia). rewrite bind_Ret.
    fold (slot_of a).
    destruct (IH (S a) (<[slot_of a := val e]> y)) as (y' & Hrun & Hl & Hset & Hrest).
    + lia.
    + intros i Hi. rewrite length_insert. apply Hy. lia.
    + intros i Hi. apply Hfit. lia.
    + exists y'. split; [exact Hrun |]. split.
      { now rewrite Hl, length_insert. }
      split.
      * intros i e' Hi He'. destruct (Nat.eq_dec i a) as [-> | Hne].
        -- rewrite Hrest.
           ++ rewrite list_lookup_insert_eq by (apply Hy; lia). congruence.
           ++ intros j Hj Heq. apply slot_of_inj in Heq. lia.
        -- apply Hset; [lia | exact He'].
      * intros x Hx. rewrite Hrest.
        -- apply list_lookup_insert_ne. intros Heq. apply (Hx a); [lia | auto].
        -- intros i Hi. apply Hx. lia.
Qed.

(** The summation loop of [_getCompCount] and [_getPatchCount]. *)
Lemma sum_slots_loop (v : nat -> real) (k a : nat) (y : list real)
    (acc : real) :
  (forall i, (a <= i < a + k)%nat -> y !! slot_of i = Some (v i)) ->
  (forall i, (i < a + k)%nat ->
             idx + N.of_nat i * nspecs + slidx < UInt.modulus) ->
  foldM (fun count i =>
           x ← at_ y (idx +u ((i *u nspecs) +u slidx));
           Ret (count + x)%Qc)
        acc (N.of_nat <$> seq a k) =
    Ret (acc + Qc_sum (v <$> seq a k))%Qc.
Proof.
  revert a acc. induction k as [| k IH]; intros a acc Hy Hfit.
  - cbn. f_equal. change (Qc_sum []) with 0%Qc. ring.
  - cbn [seq fmap list_fmap]. rewrite foldM_cons.
    rewrite slot_small by (apply Hfit; lia).
    rewrite (at_lookup y _ (v a)) by (apply Hy; lia).
    rewrite !bind_Ret, IH.
    + rewrite Qc_sum_cons. f_equal. ring.
    + intros i Hi. apply Hy. lia.
    + intros i Hi. apply Hfit. lia.
Qed.

End SlotLoops.

(** ** Species counts of a compartment *)

Lemma fmap_seq_lookup {A B : Type} (l : list A) (d : B) (g : A -> B) :
  (fun i => from_option g d (l !! i)) <$> seq 0 (length l) = g <$> l.
Proof.
  apply list_eq. intros i. rewrite !list_lookup_fmap.
  destruct (Nat.lt_ge_cases i (length l)) as [Hlt | Hge].
  - rewrite lookup_seq_lt by exact Hlt.
    destruct (lookup_lt_is_Some_2 l i Hlt) as [a Ha]. cbn. now rewrite Ha.
  - rewrite lookup_seq_ge by exact Hge.
    now rewrite (lookup_ge_None_2 l i Hge).
Qed.

Lemma Qc_sum_fraction {E : Type} (elems : list E) (w : E -> real) (n V : real) :
  V <> 0%Qc ->
  Qc_sum ((fun e => n * (w e / V))%Qc <$> elems) =
    (n * (Qc_sum (w <$> elems) / V))%Qc.
Proof.
  intros HV. induction elems as [| e elems IH].
  - change (Qc_sum _) with 0%Qc at 1. change (Qc_sum (w <$> [])) with 0%Qc.
    field. exact HV.
  - rewrite !fmap_cons, !Qc_sum_cons, IH. field. exact HV.
Qed.

(** C7. For a compartment [c] at index [cidx] whose block lies in the
    state vector, a species defined in it, and a compartment volume that
    is the sum of the volumes of its tetrahedra and not zero:
    [_setCompCount cidx sidx n] returns, the slot of the species in every
    tetrahedron of [c] holds [n * (vol(tet) / vol(c))], every other
    component of the state vector is as before, and [_getCompCount] then
    returns [n]. *)
Theorem comp_count_set_then_get (cidx sidx : N) (n : real) (s : TetODE)
    (c : Comp.t) :
  let nspecs := Compdef.countSpecs (Comp.def c) in
  let slidx := Compdef.specG2L (Comp.def c) sidx in
  let base := comp_base (pComps s) (N.to_nat cidx) in
  let slot := slot_of base nspecs slidx in
  pComps s !! N.to_nat cidx = Some c ->
  N.of_nat (length (pComps s)) < UInt.modulus ->
  sidx < Statedef.countSpecs (statedef s) ->
  slidx <> LIDX_UNDEFINED -> slidx < nspecs ->
  N.of_nat (length (y_cvode s)) = pSpecs_tot s ->
  pSpecs_tot s < UInt.modulus ->
  base + nspecs * N.of_nat (length (Comp.pTets c)) <= pSpecs_tot s ->
  Comp.vol c = Qc_sum (Tet.vol <$> Comp.pTets c) ->
  Comp.vol c <> 0%Qc ->
  exists s',
    _setCompCount cidx sidx n s = Done tt s' /\
    (forall i tet,
       Comp.pTets c !! i = Some tet ->
       y_cvode s' !! slot i = Some (n * (Tet.vol tet / Comp.vol c))%Qc) /\
    (forall x,
       (forall i, (i < length (Comp.pTets c))%nat -> x <> slot i) ->
       y_cvode s' !! x = y_cvode s !! x) /\
    _getCompCount cidx sidx s' = Ret n.
Proof.
  intros nspecs slidx base slot Hc Hcomps Hsidx Hdef Hslidx Hy Htot Hblock
         Hvol Hvol0.
  set (tets := Comp.pTets c) in *.
  assert (Hcidx : (N.to_nat cidx < length (pComps s))%nat)
    by (now apply lookup_lt_Some in Hc).
  assert (Hntets : (0 < length tets)%nat).
  { destruct tets; [| cbn; lia]. now rewrite Hvol in Hvol0. }
  assert (Hns : Compdef.countSpecs (Comp.def c) = nspecs) by reflexivity.
  assert (Hsl : Compdef.specG2L (Comp.def c) sidx = slidx) by reflexivity.
  clearbody nspecs slidx.
  assert (Hle : N.of_nat (length tets) <= nspecs * N.of_nat (length tets))
    by nia.
  assert (Hsize : Comp.countTets c = N.of_nat (length tets)).
  { apply size_small. fold tets. lia. }
  assert (Hbase : step_up_comp_specs (pComps s) 0 cidx = Ret base).
  { rewrite <- (N2Nat.id cidx). subst base.
    apply step_up_comp_specs_ok; [lia |].
    fold (comp_base (pComps s) (N.to_nat cidx)). lia. }
  clearbody base.
  assert (Hfit : forall i, (i < length tets)%nat ->
            base + N.of_nat i * nspecs + slidx < pSpecs_tot s) by (intros i Hi; nia).
  assert (Hassert :
    (base +u (((Comp.countTets c -u 1) *u nspecs) +u slidx) <? pSpecs_tot s) = true).
  { rewrite Hsize, sub_1_small by lia.
    replace (N.of_nat (length tets) - 1) with (N.of_nat (length tets - 1)) by lia.
    rewrite slot_small; [apply N.ltb_lt |];
      specialize (Hfit (length tets - 1)%nat); lia. }
  assert (Hcsize : (cidx <? size (pComps s)) = true).
  { rewrite size_small by exact Hcomps. apply N.ltb_lt. lia. }
  assert (Hcdef : compdef (pComps s) cidx = Ret (Comp.def c)).
  { unfold compdef. now rewrite (at_lookup _ _ _ Hc), bind_Ret. }
  destruct (set_slots_loop base nspecs slidx ltac:(lia) tets
              (fun tet => n * (Tet.vol tet / Comp.vol c))%Qc
              (length tets) 0 (y_cvode s))
    as (y' & Hloop & Hlen' & Hset & Hrest).
  { lia. }
  { intros i Hi. specialize (Hfit i Hi). unfold slot_of. lia. }
  { intros i Hi. specialize (Hfit i Hi). lia. }
  exists (set_pReinit true (set_y_cvode y' s)).
  split.
  { unfold _setCompCount. rewrite run_bind_get.
    rewrite (run_bind_lift _ tt) by (now apply assert_true).
    rewrite (run_bind_lift _ tt) by (apply assert_true; now apply N.ltb_lt).
    rewrite (run_bind_lift _ _ _ _ Hcdef). cbv zeta.
    rewrite Hsl, Hns. rewrite (proj2 (N.eqb_neq _ _) Hdef).
    rewrite (run_bind_lift _ _ _ _ Hbase).
    rewrite (run_bind_lift _ c) by (now apply at_lookup).
    rewrite (run_bind_lift _ tt) by (now apply assert_true).
    rewrite range_unfold, Hsize, Nat2N.id.
    rewrite (run_bind_lift _ y') by exact Hloop.
    reflexivity. }
  split.
  { intros i tet Hi. cbn [y_cvode set_pReinit set_y_cvode].
    apply Hset; [| exact Hi]. apply lookup_lt_Some in Hi. lia. }
  split.
  { intros x Hx. cbn [y_cvode set_pReinit set_y_cvode].
    apply Hrest. intros i Hi. apply Hx. lia. }
  unfold _getCompCount.
  cbn [pComps statedef pSpecs_tot y_cvode set_pReinit set_y_cvode].
  rewrite (assert_true _ Hcsize), bind_Ret.
  rewrite assert_true, bind_Ret by (now apply N.ltb_lt).
  rewrite Hcdef, bind_Ret. cbv zeta.
  rewrite Hsl, Hns. rewrite (proj2 (N.eqb_neq _ _) Hdef).
  rewrite Hbase, bind_Ret. rewrite (at_lookup _ _ _ Hc), bind_Ret.
  rewrite (assert_true _ Hassert), bind_Ret.
  unfold sum_slots. rewrite range_unfold, Hsize, Nat2N.id.
  rewrite (sum_slots_loop base nspecs slidx ltac:(lia)
             (fun i => from_option
                         (fun tet => n * (Tet.vol tet / Comp.vol c))%Qc 0%Qc
                         (tets !! i))).
  - f_equal. rewrite fmap_seq_lookup, (Qc_sum_fraction _ _ _ _ Hvol0).
    rewrite <- Hvol. field. exact Hvol0.
  - intros i Hi. destruct (lookup_lt_is_Some_2 tets i) as [tet Ht]; [lia |].
    rewrite Ht. apply Hset; [lia | exact Ht].
  - intros i Hi. specialize (Hfit i ltac:(lia)). lia.
Qed.

Lemma comp_count_set_then_get_witness :
  exists s',
    _setCompCount 0 0 (Q2Qc 8) Example.ran = Done tt s' /\
    y_cvode s' !! 2%nat = Some (Q2Qc 6) /\
    _getCompCount 0 0 s' = Ret (Q2Qc 8).
Proof.
  destruct (comp_count_set_then_get 0 0 (Q2Qc 8) Example.ran Example.comp0)
    as (s' & Hset & Hslots & _ & Hget).
  - vm_compute. reflexivity.
  - vm_compute. reflexivity.
  - vm_compute. reflexivity.
  - vm_compute. discriminate.
  - vm_compute. reflexivity.
  - vm_compute. reflexivity.
  - vm_compute. reflexivity.
  - vm_compute. discriminate.
  - apply Qc_is_canon. vm_compute. reflexivity.
  - vm_compute. discriminate.
  - exists s'. split; [exact Hset |]. split; [| exact Hget].
    specialize (Hslots 1%nat Example.tet1 eq_refl).
    transitivity (Some (Q2Qc 8 * (Tet.vol Example.tet1 /
                                  Comp.vol Example.comp0))%Qc);
      [exact Hslots | f_equal].
    apply Qc_is_canon. vm_compute. reflexivity.
Defined.

(** ** Rate constants of a tetrahedron *)

Lemma step_up_comp_reacs_seq (comps : list Comp.t) (k a : nat) (idx : N) :
  (a + k <= length comps)%nat ->
  idx + N_sum (comp_reac_block <$> take k (drop a comps)) < UInt.modulus ->
  foldM (fun idx i =>
           cdef ← compdef comps i;
           c ← at_ comps i;
           let idx := idx +u (Compdef.countReacs cdef *u Comp.countTets c) in
           Ret (idx +u (Compdef.countDiffs cdef *u Comp.countTets c)))
        idx (N.of_nat <$> seq a k) =
    Ret (idx + N_sum (comp_reac_block <$> take k (drop a comps))).
Proof.
  revert a idx. induction k as [| k IH]; intros a idx Hlen Hfit.
  - rewrite take_0. cbn. f_equal. lia.
  - destruct (lookup_lt_is_Some_2 comps a) as [c Hc]; [lia |].
    rewrite (drop_S _ _ _ Hc) in *. rewrite firstn_cons in *.
    rewrite fmap_cons, N_sum_cons in *.
    cbn [seq fmap list_fmap]. rewrite foldM_cons.
    unfold compdef. rewrite (at_lookup comps (N.of_nat a) c)
      by (now rewrite Nat2N.id).
    rewrite !bind_Ret. cbv zeta. unfold Comp.countTets.
    assert (Hblock : comp_reac_block c =
              Compdef.countReacs (Comp.def c) * N.of_nat (length (Comp.pTets c)) +
              Compdef.countDiffs (Comp.def c) * N.of_nat (length (Comp.pTets c)))
      by (unfold comp_reac_block; lia).
    rewrite Hblock in Hfit.
    rewrite (mul_size (Compdef.countReacs (Comp.def c)) (Comp.pTets c)) by lia.
    rewrite (mul_size (Compdef.countDiffs (Comp.def c)) (Comp.pTets c)) by lia.
    rewrite (UIntFacts.add_small idx) by lia.
    rewrite UIntFacts.add_small by lia.
    rewrite IH by lia.
    f_equal. rewrite Hblock. lia.
Qed.

Lemma step_up_comp_reacs_ok (comps : list Comp.t) (n : nat) :
  (n <= length comps)%nat ->
  comp_reac_base comps n < UInt.modulus ->
  step_up_comp_reacs comps 0 (N.of_nat n) = Ret (comp_reac_base comps n).
Proof.
  intros Hn Hfit. unfold step_up_comp_reacs, comp_reac_base in *.
  rewrite range_unfold, Nat2N.id.
  pose proof (step_up_comp_reacs_seq comps n 0 0) as H.
  rewrite drop_0, !N.add_0_l in H. apply H; lia.
Qed.

(** The loop of [rebind_slots] over the slots [first + a .. first + a+k-1]. *)
Lemma rebind_slots_seq (reac_idx : N) (c : real) (first : N) (k a : nat)
    (G : matrix) :
  (N.to_nat first + a + k <= length G)%nat ->
  first + N.of_nat (a + k) <= UInt.modulus ->
  exists G',
    foldM (fun G k =>
             row ← at_ G (first +u k);
             store G (first +u k) (rebind_row reac_idx c row))
          G (N.of_nat <$> seq a k) = Ret G' /\
    length G' = length G /\
    (forall x row,
       G !! x = Some row ->
       G' !! x =
         Some (if bool_decide (N.to_nat first + a <= x < N.to_nat first + a + k)%nat
               then rebind_row reac_idx c row else row)).
Proof.
  revert a G. induction k as [| k IH]; intros a G Hlen Hfit.
  - exists G. cbn. repeat apply conj; auto.
    intros x row Hx. rewrite bool_decide_eq_false_2 by lia. exact Hx.
  - cbn [seq fmap list_fmap]. rewrite foldM_cons.
    rewrite UIntFacts.add_small by lia.
    destruct (lookup_lt_is_Some_2 G (N.to_nat first + a)) as [row0 Hrow0];
      [lia |].
    rewrite (at_lookup G _ row0)
      by (now replace (N.to_nat (first + N.of_nat a))
            with (N.to_nat first + a)%nat by lia).
    rewrite bind_Ret, store_lt by lia. rewrite bind_Ret.
    replace (N.to_nat (first + N.of_nat a)) with (N.to_nat first + a)%nat
      by lia.
    destruct (IH (S a) (<[(N.to_nat first + a)%nat :=
                          rebind_row reac_idx c row0]> G))
      as (G' & Hrun & Hl & Hrows).
    + rewrite length_insert. lia.
    + lia.
    + exists G'. split; [exact Hrun |]. split.
      { now rewrite Hl, length_insert. }
      intros x row Hx.
      destruct (Nat.eq_dec x (N.to_nat first + a)%nat) as [-> | Hne].
      * rewrite (Hrows _ (rebind_row reac_idx c row0))
          by (apply list_lookup_insert_eq; lia).
        rewrite bool_decide_eq_false_2 by lia.
        rewrite bool_decide_eq_true_2 by lia. congruence.
      * rewrite (Hrows _ row) by (now rewrite list_lookup_insert_ne).
        f_equal. destruct (decide (N.to_nat first + a <= x < N.to_nat first + a + S k)%nat).
        -- rewrite !bool_decide_eq_true_2 by lia. reflexivity.
        -- rewrite !bool_decide_eq_false_2 by lia. reflexivity.
Qed.

Lemma rebind_row_lookup (id : N) (c : real) (row : list structA) j r :
  row !! j = Some r ->
  rebind_row id c row !! j =
    Some (if r_idx r =? id then with_ccst c r else r).
Proof.
  intros H. unfold rebind_row. now rewrite list_lookup_fmap, H.
Qed.

Lemma rebind_row_length (id : N) (c : real) (row : list structA) :
  length (rebind_row id c row) = length row.
Proof. unfold rebind_row. apply length_fmap. Qed.

(** C8. For a tetrahedron [tidx] assigned to a compartment and a reaction
    defined in it (with a process index that fits a [uint] and the slots of
    the tetrahedron inside the graph), [_setTetReacK tidx ridx kf] returns
    and changes nothing but the process graph. In the graph every process
    keeps its index, update and reactants; in the slots of the tetrahedron
    the processes whose index is that of the reaction at this tetrahedron
    get the coefficient [_ccst kf vol(tet) order]; a process with another
    index is as before, and so is every slot of another element. *)
Theorem tet_reac_k_rebinds (tidx ridx : N) (kf : real) (s : TetODE)
    (tet : Tet.t) (c : Comp.t) :
  let cdef := Tet.compdef tet in
  let lridx := Compdef.reacG2L cdef ridx in
  let tlidx := Comp.getTet_GtoL c tidx in
  let id := reaction_process_id (pComps s) cdef tlidx lridx in
  let new :=
    _ccst kf (Tet.vol tet) (Reacdef.order (Compdef.reacdef cdef lridx)) in
  let G := pSpec_matrixsub s in
  pTets s !! N.to_nat tidx = Some (Some tet) ->
  pComps s !! N.to_nat (Compdef.gidx cdef) = Some c ->
  ridx < Statedef.countReacs (statedef s) ->
  lridx <> LIDX_UNDEFINED ->
  id < UInt.modulus ->
  N.of_nat (length G) < UInt.modulus ->
  comp_base (pComps s) (N.to_nat (Compdef.gidx cdef)) +
    Compdef.countSpecs cdef * tlidx + Compdef.countSpecs cdef
    <= N.of_nat (length G) ->
  exists s',
    _setTetReacK tidx ridx kf s = Done tt s' /\
    matrix_only s s' /\
    y_cvode s' = y_cvode s /\
    length (pSpec_matrixsub s') = length G /\
    (forall x row j r,
       G !! x = Some row -> row !! j = Some r ->
       exists row' r',
         pSpec_matrixsub s' !! x = Some row' /\
         length row' = length row /\
         row' !! j = Some r' /\
         r_idx r' = r_idx r /\ upd r' = upd r /\ players r' = players r /\
         (tet_slots (pComps s) cdef tlidx x -> r_idx r = id ->
          ccst r' = new) /\
         (r_idx r <> id -> r' = r) /\
         (~ tet_slots (pComps s) cdef tlidx x -> row' = row)).
Proof.
  intros cdef lridx tlidx id new G Htet Hc Hridx Hdef Hid HG Hfit.
  set (nspecs := Compdef.countSpecs cdef) in *.
  set (base := comp_base (pComps s) (N.to_nat (Compdef.gidx cdef))) in *.
  set (rbase := comp_reac_base (pComps s) (N.to_nat (Compdef.gidx cdef))).
  assert (Hidx : id = rbase + Compdef.countReacs cdef * tlidx + lridx)
    by reflexivity.
  assert (Hcidx : (N.to_nat (Compdef.gidx cdef) <= length (pComps s))%nat).
  { apply lookup_lt_Some in Hc. lia. }
  assert (Hbase : step_up_comp_specs (pComps s) 0 (Compdef.gidx cdef) = Ret base).
  { rewrite <- (N2Nat.id (Compdef.gidx cdef)) at 1.
    apply step_up_comp_specs_ok; [exact Hcidx |].
    fold (comp_base (pComps s) (N.to_nat (Compdef.gidx cdef))). fold base. lia. }
  assert (Hrbase : step_up_comp_reacs (pComps s) 0 (Compdef.gidx cdef) = Ret rbase).
  { rewrite <- (N2Nat.id (Compdef.gidx cdef)) at 1.
    apply step_up_comp_reacs_ok; [exact Hcidx | fold rbase; lia]. }
  set (first := base + nspecs * tlidx) in *.
  destruct (rebind_slots_seq id new first (N.to_nat nspecs) 0 G)
    as (G' & Hloop & HlenG & Hrows); [lia | lia |].
  exists (set_pSpec_matrixsub G' s).
  split.
  { unfold _setTetReacK. rewrite run_bind_get.
    rewrite (run_bind_lift _ tt)
      by (apply assert_true, N.ltb_lt; apply lookup_lt_Some in Htet; lia).
    rewrite (run_bind_lift _ tt) by (apply assert_true; now apply N.ltb_lt).
    rewrite (run_bind_lift _ (Some tet)) by (now apply at_lookup).
    cbv zeta. fold cdef. fold lridx.
    rewrite (proj2 (N.eqb_neq _ _) Hdef).
    rewrite (run_bind_lift _ _ _ _ Hbase), (run_bind_lift _ _ _ _ Hrbase).
    rewrite (run_bind_lift _ c) by (now apply at_lookup).
    fold tlidx. fold nspecs.
    rewrite (UIntFacts.mul_small nspecs tlidx) by lia.
    rewrite (UIntFacts.add_small base) by lia. fold first.
    rewrite (UIntFacts.mul_small (Compdef.countReacs cdef) tlidx) by lia.
    rewrite (UIntFacts.add_small rbase) by lia.
    rewrite UIntFacts.add_small by lia. rewrite <- Hidx. fold new.
    unfold rebind_slots. rewrite range_unfold.
    rewrite (run_bind_lift _ G') by exact Hloop.
    reflexivity. }
  split; [destruct s; reflexivity |].
  split; [reflexivity |].
  split; [exact HlenG |].
  intros x row j r Hx Hj. cbn [pSpec_matrixsub set_pSpec_matrixsub].
  rewrite (Hrows _ _ Hx).
  assert (Hslots : tet_slots (pComps s) cdef tlidx x <->
                   (N.to_nat first + 0 <= x < N.to_nat first + 0 + N.to_nat nspecs)%nat).
  { unfold tet_slots. cbv zeta. fold nspecs base first. lia. }
  destruct (decide (N.to_nat first + 0 <= x < N.to_nat first + 0 + N.to_nat nspecs)%nat)
    as [Hin | Hout].
  - rewrite bool_decide_eq_true_2 by exact Hin.
    exists (rebind_row id new row), (if r_idx r =? id then with_ccst new r else r).
    split; [reflexivity |]. split; [apply rebind_row_length |].
    split; [now apply rebind_row_lookup |].
    destruct (N.eqb_spec (r_idx r) id) as [Heq | Hne]; cbn.
    + repeat apply conj; try exact eq_refl; tauto.
    + repeat apply conj; try exact eq_refl; tauto.
  - rewrite bool_decide_eq_false_2 by exact Hout.
    exists row, r. repeat apply conj; try exact eq_refl; try exact Hj; tauto.
Qed.

Lemma tet_reac_k_rebinds_witness :
  exists s' row',
    _setTetReacK 0 0 (Q2Qc 7) Example.ran = Done tt s' /\
    y_cvode s' = y_cvode Example.ran /\
    pSpec_matrixsub s' !! 0%nat = Some row' /\
    ccst <$> row' !! 0%nat = Some (Q2Qc 7).
Proof.
  destruct (tet_reac_k_rebinds 0 0 (Q2Qc 7) Example.ran Example.tet0
              Example.comp0) as (s' & Hrun & _ & Hy & _ & Hrows).
  - vm_compute. reflexivity.
  - vm_compute. reflexivity.
  - vm_compute. reflexivity.
  - vm_compute. discriminate.
  - vm_compute. reflexivity.
  - vm_compute. reflexivity.
  - vm_compute. discriminate.
  - destruct (pSpec_matrixsub Example.ran !! 0%nat) as [row |] eqn:Hrow;
      [| vm_compute in Hrow; discriminate].
    destruct (row !! 0%nat) as [r |] eqn:Hr.
    2: { vm_compute in Hrow. injection Hrow as <-. discriminate Hr. }
    destruct (Hrows 0%nat row 0%nat r Hrow Hr)
      as (row' & r' & Hrow' & _ & Hr' & _ & _ & _ & Hnew & _).
    exists s', row'. repeat apply conj; try assumption.
    rewrite Hr'. cbn. f_equal. rewrite Hnew.
    + apply Qc_is_canon. vm_compute. reflexivity.
    + vm_compute. split; [lia | lia].
    + vm_compute in Hrow. injection Hrow as <-.
      cbn in Hr. injection Hr as <-. vm_compute. reflexivity.
Defined.

(** ** Volume diffusion: what the builder appends to the process graph *)

Lemma push_back_at_ok (G : matrix) (x : N) (a : structA) :
  (N.to_nat x < length G)%nat ->
  push_back_at G x a = Ret (push_at (N.to_nat x, a) G).
Proof.
  intros Hx. destruct (lookup_lt_is_Some_2 G (N.to_nat x) Hx) as [row Hrow].
  unfold push_back_at, push_at. cbn [fst snd].
  rewrite (at_lookup G x row Hrow), bind_Ret, Hrow.
  now apply store_lt.
Qed.

Lemma length_push_at (e : nat * structA) (G : matrix) :
  length (push_at e G) = length G.
Proof.
  unfold push_at. destruct (G !! e.1); [apply length_insert | reflexivity].
Qed.

Lemma length_push_all (es : list (nat * structA)) (G : matrix) :
  length (push_all es G) = length G.
Proof.
  revert G. induction es as [| e es IH]; intros G; [reflexivity |].
  cbn. unfold push_all in IH. now rewrite IH, length_push_at.
Qed.

Lemma push_all_app (es1 es2 : list (nat * structA)) (G : matrix) :
  push_all (es1 ++ es2) G = push_all es2 (push_all es1 G).
Proof. apply foldl_app. Qed.

Lemma push_at_lookup (e : nat * structA) (G : matrix) (x : nat) :
  push_at e G !! x =
    if decide (e.1 = x) then (fun row => row ++ [e.2]) <$> G !! x
    else G !! x.
Proof.
  unfold push_at. destruct (G !! e.1) as [row |] eqn:Hrow.
  - destruct (decide (e.1 = x)) as [<- | Hne].
    + rewrite list_lookup_insert_eq by (now apply lookup_lt_Some with row).
      now rewrite Hrow.
    + now rewrite list_lookup_insert_ne.
  - destruct (decide (e.1 = x)) as [<- | Hne]; [now rewrite Hrow | reflexivity].
Qed.

Lemma processes_at_cons (x : nat) (e : nat * structA) es :
  processes_at x (e :: es) =
    if decide (e.1 = x) then e.2 :: processes_at x es else processes_at x es.
Proof.
  unfold processes_at. rewrite filter_cons.
  now destruct (decide (e.1 = x)).
Qed.

(** After a list of entries has been appended, every slot holds what it
    held before followed by its own entries, in order. *)
Lemma push_all_lookup (es : list (nat * structA)) (G : matrix) (x : nat) :
  push_all es G !! x = (fun row => row ++ processes_at x es) <$> G !! x.
Proof.
  revert G. induction es as [| e es IH]; intros G.
  - cbn. destruct (G !! x) as [row |]; cbn; [now rewrite app_nil_r | reflexivity].
  - change (push_all (e :: es) G) with (push_all es (push_at e G)).
    rewrite IH, push_at_lookup, processes_at_cons.
    destruct (decide (e.1 = x)); [| reflexivity].
    destruct (G !! x) as [row |]; cbn; [| reflexivity].
    now rewrite <- app_assoc.
Qed.

(** A loop whose body appends the entries [g a] appends them all. *)
Lemma foldM_push {A : Type} (f : matrix -> A -> outcome matrix)
    (g : A -> list (nat * structA)) (l : list A) (n : nat) :
  (forall G a, a ∈ l -> length G = n -> f G a = Ret (push_all (g a) G)) ->
  forall G, length G = n -> foldM f G l = Ret (push_all (flat_map g l) G).
Proof.
  induction l as [| a l IH]; intros Hf G HG; [reflexivity |].
  rewrite foldM_cons, (Hf G a) by (auto; constructor).
  rewrite bind_Ret.
  rewrite IH.
  - cbn [flat_map]. now rewrite push_all_app.
  - intros G' a' Ha'. apply Hf. now constructor.
  - now rewrite length_push_all.
Qed.

Lemma elem_of_range (n a : N) : a ∈ range n -> a < n.
Proof.
  unfold range. intros Ha. apply list_elem_of_fmap in Ha as (m & -> & Hm).
  apply elem_of_seq in Hm. lia.
Qed.

Section VolumeDiffusion.

Variables (comps : list Comp.t) (i : N) (comp : Comp.t) (n : nat).

Let cdef := Comp.def comp.
Let nspecs := Compdef.countSpecs cdef.
Let ndiffs := Compdef.countDiffs cdef.
Let ntets := N.of_nat (length (Comp.pTets comp)).
Let base := comp_base comps (N.to_nat i).

Hypothesis i_le : (N.to_nat i <= length comps)%nat.
Hypothesis block_fits : base + nspecs * ntets <= N.of_nat n.
Hypothesis n_small : N.of_nat n < UInt.modulus.
Hypothesis neighbours_local :
  forall (t : nat) (tet : Tet.t) (l nb : N),
    Comp.pTets comp !! t = Some tet -> l < 4 ->
    Tet.nextTet tet l = Some nb -> Comp.getTet_GtoL comp nb < ntets.

Lemma setup_diff_l_ok (t j k r : N) (tet : Tet.t) (G : matrix) (l : N) :
  Comp.pTets comp !! N.to_nat t = Some tet ->
  k < nspecs -> r + j < UInt.modulus -> l < 4 -> length G = n ->
  setup_diff_l comps i comp t j k r tet G l =
    Ret (push_all (diff_entries_l comps i comp r t j k tet l) G).
Proof.
  intros Htet Hk Hr Hl HG.
  assert (Ht : t < ntets).
  { apply lookup_lt_Some in Htet. unfold ntets. lia. }
  unfold setup_diff_l, diff_entries_l.
  destruct (Tet.nextTet tet l) as [nb |] eqn:Hnb; [| reflexivity].
  pose proof (neighbours_local _ _ _ _ Htet Hl Hnb) as Hloc.
  fold cdef nspecs.
  replace i with (N.of_nat (N.to_nat i)) at 1 by apply N2Nat.id.
  rewrite step_up_comp_specs_ok; [| exact i_le | fold (comp_base comps (N.to_nat i)); fold base; nia].
  fold (comp_base comps (N.to_nat i)). fold base.
  rewrite bind_Ret.
  assert (Hd : base + nspecs * t + k < N.of_nat n) by nia.
  assert (Ha : base + nspecs * Comp.getTet_GtoL comp nb + k < N.of_nat n) by nia.
  rewrite (UIntFacts.mul_small nspecs t) by nia.
  rewrite (UIntFacts.add_small (nspecs * t) k) by nia.
  rewrite (UIntFacts.add_small base (nspecs * t + k)) by nia.
  rewrite (UIntFacts.mul_small nspecs (Comp.getTet_GtoL comp nb)) by nia.
  rewrite (UIntFacts.add_small base (nspecs * Comp.getTet_GtoL comp nb)) by nia.
  rewrite (UIntFacts.add_small (base + nspecs * Comp.getTet_GtoL comp nb) k) by nia.
  rewrite (UIntFacts.add_small r j) by exact Hr.
  rewrite N.add_assoc.
  rewrite push_back_at_ok by lia. rewrite bind_Ret.
  rewrite push_back_at_ok by (rewrite length_push_at; lia).
  reflexivity.
Qed.

Lemma setup_diff_k_ok (t j r : N) (G : matrix) (k : N) :
  t < ntets -> k < nspecs -> r + j < UInt.modulus -> length G = n ->
  setup_diff_k comps i comp t j r G k =
    Ret (push_all (diff_entries_k comps i comp r t j k) G).
Proof.
  intros Ht Hk Hr HG. unfold setup_diff_k, diff_entries_k.
  destruct (Compdef.diff_dep (Comp.def comp) j k); [| reflexivity].
  destruct (lookup_lt_is_Some_2 (Comp.pTets comp) (N.to_nat t)) as [tet Htet];
    [unfold ntets in Ht; lia |].
  unfold Comp.getTet. rewrite (at_lookup _ _ _ Htet), bind_Ret, Htet.
  apply foldM_push with (n := n); [| exact HG].
  intros G' l Hl HG'. apply setup_diff_l_ok; auto using elem_of_range.
Qed.

Lemma setup_diff_j_ok (t r : N) (G : matrix) (j : N) :
  t < ntets -> r + j < UInt.modulus -> length G = n ->
  setup_diff_j comps i comp t r G j =
    Ret (push_all
           (flat_map (diff_entries_k comps i comp r t j) (range nspecs)) G).
Proof.
  intros Ht Hr HG. unfold setup_diff_j.
  apply foldM_push with (n := n); [| exact HG].
  intros G' k Hk HG'. apply setup_diff_k_ok; auto using elem_of_range.
Qed.

Lemma setup_diff_t_ok (t r : N) (G : matrix) :
  t < ntets -> r + ndiffs < UInt.modulus -> length G = n ->
  setup_diff_t comps i comp (G, r) t =
    Ret (push_all (diff_entries_t comps i comp r t) G, r + ndiffs).
Proof.
  intros Ht Hr HG. unfold setup_diff_t, diff_entries_t.
  fold cdef ndiffs nspecs.
  rewrite (foldM_push _
             (fun j => flat_map (diff_entries_k comps i comp r t j)
                                (range nspecs)) _ n); [| | exact HG].
  - rewrite bind_Ret. now rewrite UIntFacts.add_small.
  - intros G' j Hj HG'. apply elem_of_range in Hj.
    apply setup_diff_j_ok; auto. lia.
Qed.

Lemma setup_diff_ts_ok (r0 : N) (k a : nat) (G : matrix) :
  (a + k <= length (Comp.pTets comp))%nat ->
  r0 + ndiffs * ntets < UInt.modulus -> length G = n ->
  foldM (setup_diff_t comps i comp) (G, r0 + ndiffs * N.of_nat a)
        (N.of_nat <$> seq a k) =
    Ret (push_all (diff_entries_from comps i comp r0 a k) G,
         r0 + ndiffs * N.of_nat (a + k)).
Proof.
  revert a G. induction k as [| k IH]; intros a G Hak Hr HG.
  - cbn. now rewrite Nat.add_0_r.
  - cbn [seq fmap list_fmap]. rewrite foldM_cons.
    rewrite setup_diff_t_ok; [| unfold ntets; lia | unfold ntets in Hr; nia | exact HG].
    rewrite bind_Ret.
    replace (r0 + ndiffs * N.of_nat a + ndiffs)
      with (r0 + ndiffs * N.of_nat (S a)) by lia.
    rewrite IH; [| lia | exact Hr | now rewrite length_push_all].
    unfold diff_entries_from. cbn [seq flat_map].
    rewrite push_all_app. fold cdef ndiffs.
    do 2 f_equal. lia.
Qed.

End VolumeDiffusion.

(** On the small configuration: tetrahedron 0 sees tetrahedron 1 behind
    its face 0 and tetrahedron 1 sees tetrahedron 0 behind its face 1, so
    the rule for species 0 gives two pairs, with conductances
    2 * 3 / (1 * 4) and 2 * 3 / (3 * 4). Each line reads: slot,
    conductance, process index, update, reactant descriptors. *)
Lemma diff_entries_example :
  (fun e : nat * structA =>
     (e.1, this (ccst e.2), r_idx e.2, upd e.2, players e.2)) <$>
    diff_entries [Example.comp0] 0 Example.comp0 2 =
    [(0%nat, (3 # 2)%Q, 2, (-1)%Z, [{| info := [{| order := 1; spec_idx := 0 |}] |}]);
     (2%nat, (3 # 2)%Q, 2, 1%Z, [{| info := [{| order := 1; spec_idx := 0 |}] |}]);
     (2%nat, (1 # 2)%Q, 3, (-1)%Z, [{| info := [{| order := 1; spec_idx := 2 |}] |}]);
     (0%nat, (1 # 2)%Q, 3, 1%Z, [{| info := [{| order := 1; spec_idx := 2 |}] |}])].
Proof. vm_compute. reflexivity. Qed.

(** C2. The volume diffusion loop of a compartment appends, for every
    tetrahedron T of the compartment, every diffusion rule with constant D,
    the species s the rule depends on and every face of T behind which a
    neighbour T' is connected, exactly the two processes of [diff_pair]:
    both with the conductance area_face * D / (vol(T) * dist) and the single
    reactant descriptor (order 1, slot of s in T), the one with update -1
    at the slot of s in T and the one with update +1 at the slot of s in T'.
    Nothing else is appended: when the block of the compartment lies inside
    the graph, the neighbours are tetrahedra of the compartment and the
    counters stay below 2^32, the loop returns, the graph keeps its length,
    every slot holds what it held before followed by its own entries of
    [diff_entries] in order, and the process counter has advanced by the
    number of rules for every tetrahedron. *)
Theorem volume_diffusion_processes (comps : list Comp.t) (i : N)
    (comp : Comp.t) (G : matrix) (r0 : N) :
  let nspecs := Compdef.countSpecs (Comp.def comp) in
  let ndiffs := Compdef.countDiffs (Comp.def comp) in
  let ntets := N.of_nat (length (Comp.pTets comp)) in
  (N.to_nat i <= length comps)%nat ->
  comp_base comps (N.to_nat i) + nspecs * ntets <= N.of_nat (length G) ->
  N.of_nat (length G) < UInt.modulus ->
  ntets < UInt.modulus ->
  r0 + ndiffs * ntets < UInt.modulus ->
  (forall (t : nat) (tet : Tet.t) (l nb : N),
     Comp.pTets comp !! t = Some tet -> l < 4 ->
     Tet.nextTet tet l = Some nb -> Comp.getTet_GtoL comp nb < ntets) ->
  exists G' : matrix,
    setup_comp_diffs comps i comp G r0 = Ret (G', r0 + ndiffs * ntets) /\
    length G' = length G /\
    forall (x : nat) (row : list structA),
      G !! x = Some row ->
      G' !! x = Some (row ++ processes_at x (diff_entries comps i comp r0)).
Proof.
  intros nspecs ndiffs ntets Hi Hfit Hn Hntets Hr Hnb.
  exists (push_all (diff_entries comps i comp r0) G).
  split; [| split].
  - unfold setup_comp_diffs, Comp.countTets.
    rewrite size_small by exact Hntets.
    rewrite range_unfold, Nat2N.id.
    pose proof (setup_diff_ts_ok comps i comp (length G) Hi Hfit Hn Hnb
                  r0 (length (Comp.pTets comp)) 0 G) as H.
    rewrite N.mul_0_r, N.add_0_r in H.
    apply H; [lia | exact Hr | reflexivity].
  - apply length_push_all.
  - intros x row Hrow. now rewrite push_all_lookup, Hrow.
Qed.

Lemma volume_diffusion_processes_witness :
  exists G' : matrix,
    setup_comp_diffs [Example.comp0] 0 Example.comp0 (replicate 4 []) 2 =
      Ret (G', 2 + 1 * 2) /\
    length G' = 4%nat /\
    forall (x : nat) (row : list structA),
      replicate 4 [] !! x = Some row ->
      G' !! x =
        Some (row ++
              processes_at x (diff_entries [Example.comp0] 0 Example.comp0 2)).
Proof.
  apply (volume_diffusion_processes
           [Example.comp0] 0 Example.comp0 (replicate 4 []) 2).
  - cbn. lia.
  - vm_compute. discriminate.
  - vm_compute. reflexivity.
  - vm_compute. reflexivity.
  - vm_compute. reflexivity.
  - intros t tet l nb Ht Hl Hnb.
    assert (Hcases : l = 0 \/ l = 1 \/ l = 2 \/ l = 3) by lia.
    destruct t as [| [| t]]; cbn in Ht; [| | discriminate];
      injection Ht as <-;
      destruct Hcases as [-> | [-> | [-> | ->]]];
      vm_compute in Hnb; try discriminate;
      injection Hnb as <-; vm_compute; reflexivity.
Defined.

(** * Further properties of the solver *)

(** ** The integration driver *)

Lemma Qc_le_add_nonneg (t adv : real) :
  ~ (adv < 0)%Qc -> ~ (t + adv < t)%Qc.
Proof.
  intros Hadv Hlt. apply Hadv.
  apply Qcnot_le_lt. intros Hle. apply Qclt_not_le in Hlt. apply Hlt.
  rewrite <- (Qcplus_0_r t) at 1.
  rewrite !(Qcplus_comm t). now apply Qcplus_le_compat; [| apply Qcle_refl].
Qed.

(** However a [run] ends, the mesh objects, the totals, the tolerances,
    the step budget, the time scalar [t_cvode] and the process graph are
    as before, and the simulation time has not decreased. *)
Theorem run_frame (cv : Integrator) (endtime : real) (s s' : TetODE) :
  final_state (run cv endtime s) = Some s' ->
  driver_only s s' /\
  (Statedef.time (statedef s) <= Statedef.time (statedef s'))%Qc.
Proof.
  rewrite run_unfold. unfold driver_only.
  destruct (ltb_real _ _) eqn:Hlt.
  { intros [= <-]. repeat apply conj; try exact eq_refl. apply Qcle_refl. }
  destruct (eqb_real _ _).
  { intros [= <-]. repeat apply conj; try exact eq_refl. apply Qcle_refl. }
  apply ltb_real_nlt, Qcnot_lt_le in Hlt.
  rewrite run_initialise_unfold.
  destruct (pInitialised s); cbn -[Z.ltb Z.eqb];
    repeat match goal with
    | |- context [(?f <? 0)%Z] => destruct (f <? 0)%Z; cbn -[Z.ltb Z.eqb]
    | |- context [run_reinit _ _] =>
        rewrite run_reinit_unfold; cbn -[Z.ltb Z.eqb];
        destruct (pReinit s); cbn -[Z.ltb Z.eqb]
    | |- context [run_step _ _ _] =>
        rewrite run_step_unfold; cbn -[Z.ltb Z.eqb];
        destruct (_ =? CV_SUCCESS)%Z; cbn -[Z.ltb Z.eqb]
    end;
    intros [= <-]; cbn; repeat apply conj;
      first [exact eq_refl | apply Qcle_refl | exact Hlt].
Qed.

Lemma run_frame_witness :
  driver_only Example.fresh Example.ran /\
  (Statedef.time (statedef Example.fresh) <=
   Statedef.time (statedef Example.ran))%Qc.
Proof.
  apply (run_frame Example.cv_ok (Q2Qc 1) Example.fresh Example.ran).
  vm_compute. reflexivity.
Defined.

(** [advance] refuses a negative step. For a step that is not negative it
    is the [run] to the current time plus the step, the time-regression
    check of [run] cannot fire, only [SysErr] can leave it, and a normal
    return has moved the time to the sum, or has returned at once because
    the sum is 0. *)
Theorem advance_contract (cv : Integrator) (adv : real) (s : TetODE) :
  let t_now := Statedef.time (statedef s) in
  ((adv < 0)%Qc ->
   advance cv adv s = Raise (ArgErr "Time to advance cannot be negative") s) /\
  (~ (adv < 0)%Qc ->
   advance cv adv s = run cv (t_now + adv)%Qc s /\
   (forall e s', advance cv adv s = Raise e s' -> exists msg, e = SysErr msg) /\
   (forall s', advance cv adv s = Done tt s' ->
      Statedef.time (statedef s') = (t_now + adv)%Qc \/
      ((t_now + adv)%Qc = 0%Qc /\ s' = s))).
Proof.
  intros t_now. subst t_now. set (t_now := Statedef.time (statedef s)). split.
  - intros Hadv. unfold advance. now rewrite (proj2 (ltb_real_lt _ _) Hadv).
  - intros Hadv.
    assert (Hrun : advance cv adv s = run cv (t_now + adv)%Qc s).
    { unfold advance. now rewrite (proj2 (ltb_real_nlt _ _) Hadv). }
    rewrite Hrun. split; [reflexivity |].
    rewrite run_unfold. fold t_now.
    rewrite (proj2 (ltb_real_nlt _ _) (Qc_le_add_nonneg t_now adv Hadv)).
    destruct (eqb_real _ _) eqn:H0.
    { apply eqb_real_eq in H0. split; [discriminate |].
      intros s' [= <-]. right. now split. }
    rewrite run_initialise_unfold.
    destruct (pInitialised s); cbn -[Z.ltb Z.eqb];
      repeat match goal with
      | |- context [(?f <? 0)%Z] => destruct (f <? 0)%Z; cbn -[Z.ltb Z.eqb]
      | |- context [run_reinit _ _] =>
          rewrite run_reinit_unfold; cbn -[Z.ltb Z.eqb];
          destruct (pReinit s); cbn -[Z.ltb Z.eqb]
      | |- context [run_step _ _ _] =>
          rewrite run_step_unfold; cbn -[Z.ltb Z.eqb];
          destruct (_ =? CV_SUCCESS)%Z; cbn -[Z.ltb Z.eqb]
      end;
      (split;
       [ intros e s' H; first [discriminate H | injection H as <- _; eauto]
       | intros s' H; first [discriminate H | injection H as <-; now left] ]).
Qed.

Lemma advance_contract_witness :
  advance Example.cv_ok (Q2Qc 1) Example.fresh =
    run Example.cv_ok (Statedef.time (statedef Example.fresh) + Q2Qc 1)%Qc
        Example.fresh.
Proof.
  apply (advance_contract Example.cv_ok (Q2Qc 1) Example.fresh).
  vm_compute. discriminate.
Defined.

(** ** Tolerances *)

Lemma store_all_seq (a : real) (k first : nat) (v : list real) :
  (first + k <= length v)%nat ->
  foldM (fun v i => store v i a) v (N.of_nat <$> seq first k) =
    Ret (take first v ++ replicate k a ++ drop (first + k) v).
Proof.
  revert first v. induction k as [| k IH]; intros first v Hlen.
  - cbn. rewrite Nat.add_0_r. now rewrite take_drop.
  - cbn [seq fmap list_fmap]. rewrite foldM_cons.
    rewrite store_lt by (rewrite Nat2N.id; lia).
    rewrite bind_Ret, Nat2N.id.
    rewrite IH by (rewrite length_insert; lia).
    f_equal.
    rewrite (take_S_r _ first a)
      by (apply list_lookup_insert_eq; lia).
    rewrite take_insert_ge by lia.
    rewrite drop_insert_lt by lia.
    replace (first + S k)%nat with (S first + k)%nat by lia.
    rewrite <- app_assoc. reflexivity.
Qed.

(** [setTolerances] refuses a negative tolerance and leaves the solver as
    it was. Otherwise every component of the absolute-tolerance vector
    becomes [atol], the relative tolerance becomes [rtol] and the
    tolerances-set flag is raised; nothing else changes: in particular the
    integrator is not called. *)
Theorem setTolerances_contract (atol rtol : real) (s : TetODE) :
  ((atol < 0)%Qc \/ (rtol < 0)%Qc ->
   exists msg, setTolerances atol rtol s = Raise (ArgErr msg) s) /\
  (~ (atol < 0)%Qc -> ~ (rtol < 0)%Qc ->
   length (abstol_cvode s) = N.to_nat (pSpecs_tot s) ->
   setTolerances atol rtol s =
     Done tt (set_pTolsset true
                (set_abstol_cvode (replicate (N.to_nat (pSpecs_tot s)) atol)
                   (set_reltol_cvode rtol s)))).
Proof.
  split.
  - intros Hneg. eexists. unfold setTolerances.
    destruct Hneg as [H | H]; apply ltb_real_lt in H; rewrite H;
      [| rewrite orb_true_r]; reflexivity.
  - intros Ha Hr Hlen. unfold setTolerances.
    rewrite (proj2 (ltb_real_nlt _ _) Ha), (proj2 (ltb_real_nlt _ _) Hr).
    cbn [orb]. unfold mbind at 1, method_bind at 1. cbn [modify].
    rewrite run_bind_get.
    change (abstol_cvode (set_reltol_cvode rtol s)) with (abstol_cvode s).
    change (pSpecs_tot (set_reltol_cvode rtol s)) with (pSpecs_tot s).
    rewrite (run_bind_lift _ (replicate (N.to_nat (pSpecs_tot s)) atol)).
    + reflexivity.
    + rewrite range_unfold, store_all_seq by lia.
      rewrite take_0, drop_ge by lia. now rewrite app_nil_r.
Qed.

Lemma setTolerances_contract_witness :
  setTolerances (Q2Qc (1 # 100)) (Q2Qc (1 # 10)) Example.fresh =
    Done tt (set_pTolsset true
               (set_abstol_cvode
                  (replicate (N.to_nat (pSpecs_tot Example.fresh))
                             (Q2Qc (1 # 100)))
                  (set_reltol_cvode (Q2Qc (1 # 10)) Example.fresh))).
Proof.
  apply (setTolerances_contract (Q2Qc (1 # 100)) (Q2Qc (1 # 10)) Example.fresh).
  - vm_compute. discriminate.
  - vm_compute. discriminate.
  - vm_compute. reflexivity.
Defined.

(** After a first run that stepped the integrator, the tolerances are not
    handed over again: whatever [setTolerances] stores afterwards, the
    calls of a later [run] contain neither [CVodeSVtolerances] nor
    [CVodeSetMaxNumSteps]. *)
Theorem tolerances_after_first_run (cv : Integrator) (e1 e2 atol rtol : real)
    (s s1 s2 s3 : TetODE) (calls : list cv_call) :
  run cv e1 s = Done tt s1 -> e1 <> 0%Qc ->
  setTolerances atol rtol s1 = Done tt s2 ->
  final_state (run cv e2 s2) = Some s3 ->
  cvode_mem_cvode s3 = cvode_mem_cvode s2 ++ calls ->
  pInitialised s2 = true /\
  cvode_mem_cvode s2 = cvode_mem_cvode s1 /\
  forall c, c ∈ calls -> is_configuration c = false.
Proof.
  intros Hrun1 He1 Htol Hrun2 Hmem.
  assert (Hinit1 : pInitialised s1 = true).
  { revert Hrun1. rewrite run_unfold.
    destruct (ltb_real _ _); [discriminate |].
    rewrite (proj2 (eqb_real_neq _ _) He1).
    rewrite run_initialise_unfold.
    destruct (pInitialised s) eqn:Hi; cbn -[Z.ltb Z.eqb];
      repeat match goal with
      | |- context [(?f <? 0)%Z] => destruct (f <? 0)%Z; cbn -[Z.ltb Z.eqb]
      | |- context [run_reinit _ _] =>
          rewrite run_reinit_unfold; cbn -[Z.ltb Z.eqb];
          destruct (pReinit s); cbn -[Z.ltb Z.eqb]
      | |- context [run_step _ _ _] =>
          rewrite run_step_unfold; cbn -[Z.ltb Z.eqb];
          destruct (_ =? CV_SUCCESS)%Z; cbn -[Z.ltb Z.eqb]
      end;
      intros H; first [discriminate H | injection H as <-; cbn; congruence]. }
  assert (Hsame : pInitialised s2 = pInitialised s1 /\
                  cvode_mem_cvode s2 = cvode_mem_cvode s1).
  { revert Htol. unfold setTolerances.
    destruct (_ || _); [discriminate |].
    intros Htol. invert_Done Htol. subst s2. now split. }
  destruct Hsame as [Hinit2 Hmem2]. rewrite Hinit1 in Hinit2.
  split; [exact Hinit2 |]. split; [exact Hmem2 |].
  intros c Hc.
  destruct (run_calls _ _ _ _ Hrun2) as (calls' & Hmem' & [rest Hrest]).
  rewrite Hmem in Hmem'. apply app_inv_head in Hmem'. subst calls'.
  assert (Hin : c ∈ calls_of_run e2 s2).
  { rewrite Hrest. apply elem_of_app. now left. }
  unfold calls_of_run, init_calls, reinit_calls, step_call in Hin.
  rewrite Hinit2 in Hin.
  destruct (pReinit s2); cbn in Hin;
    repeat match goal with
    | H : _ ∈ _ :: _ |- _ => apply elem_of_cons in H; destruct H as [-> | H]
    | H : _ ∈ [] |- _ => now apply elem_of_nil in H
    end; reflexivity.
Qed.

Lemma tolerances_after_first_run_witness :
  let s1 := Example.ran in
  let s2 := Example.state_of
              (setTolerances (Q2Qc (1 # 100)) (Q2Qc (1 # 10)) s1) in
  let s3 := Example.state_of (run Example.cv_ok (Q2Qc 2) s2) in
  pInitialised s2 = true /\
  cvode_mem_cvode s2 = cvode_mem_cvode s1 /\
  forall c, c ∈ [step_call (Q2Qc 2) s2] -> is_configuration c = false.
Proof.
  intros s1 s2 s3.
  apply (tolerances_after_first_run Example.cv_ok (Q2Qc 1) (Q2Qc 2)
           (Q2Qc (1 # 100)) (Q2Qc (1 # 10)) Example.fresh s1 s2 s3).
  - vm_compute. reflexivity.
  - vm_compute. discriminate.
  - vm_compute. reflexivity.
  - vm_compute. reflexivity.
  - vm_compute. reflexivity.
Defined.

(** ** Checkpoint and restore, there and back *)

Lemma write_doubles_full (n : N) (v : list real) :
  length v = N.to_nat n -> write_doubles n v = Ret v.
Proof.
  intros Hlen. unfold write_doubles.
  rewrite <- Hlen, Nat.leb_refl. cbn. now rewrite firstn_all.
Qed.

(** A checkpoint of a solver whose two vectors have [pSpecs_tot]
    components succeeds, and restoring it into a solver of the same size
    brings back the state vector, the absolute tolerances, the relative
    tolerance, the step budget and the time scalar; the mesh objects are
    what their own classes read back. The pending-reinit flag and the
    integrator memory of the restoring solver stay as they were. *)
Theorem checkpoint_restore_round_trip (S : Serializer) (s s2 : TetODE) :
  let n := N.to_nat (pSpecs_tot s) in
  length (abstol_cvode s) = n -> length (y_cvode s) = n ->
  pSpecs_tot s2 = pSpecs_tot s ->
  length (abstol_cvode s2) = n -> length (y_cvode s2) = n ->
  exists f s3,
    checkpoint S s = Ret f /\
    restore S f s2 = Done tt s3 /\
    y_cvode s3 = y_cvode s /\ abstol_cvode s3 = abstol_cvode s /\
    reltol_cvode s3 = reltol_cvode s /\ pNmax_cvode s3 = pNmax_cvode s /\
    t_cvode s3 = t_cvode s /\ pTolsset s3 = true /\
    objects_of s3 =
      load_objects S (save_objects S (objects_of s)) (objects_of s2) /\
    pReinit s3 = pReinit s2 /\ pInitialised s3 = pInitialised s2 /\
    cvode_mem_cvode s3 = cvode_mem_cvode s2 /\
    pSpec_matrixsub s3 = pSpec_matrixsub s2.
Proof.
  intros n Ha Hy Htot Ha2 Hy2.
  eexists. eexists.
  split.
  { unfold checkpoint.
    rewrite (write_doubles_full _ _ Ha), bind_Ret.
    rewrite (write_doubles_full _ _ Hy), bind_Ret. reflexivity. }
  split.
  { unfold restore.
    do 4 (rewrite run_bind_modify; cbv beta).
    rewrite run_bind_get; cbv beta.
    erewrite run_bind_lift.
    2:{ cbn [cp_data pSpecs_tot abstol_cvode set_pNmax_cvode
             set_reltol_cvode set_t_cvode set_objects set_pTets set_pPatches
             set_pComps set_statedef].
        rewrite Htot. apply read_doubles_full; [exact Ha2 |].
        rewrite length_app. fold n. lia. }
    rewrite run_bind_modify; cbv beta.
    erewrite run_bind_lift.
    2:{ cbn [fst snd cp_data pSpecs_tot y_cvode set_abstol_cvode
             set_pNmax_cvode
             set_reltol_cvode set_t_cvode set_objects set_pTets set_pPatches
             set_pComps set_statedef].
        rewrite Htot. apply read_doubles_full; [exact Hy2 |].
        rewrite length_drop, length_app. fold n. lia. }
    rewrite run_bind_modify; cbv beta.
    reflexivity. }
  cbn. fold n.
  rewrite drop_app_length' by (symmetry; exact Ha).
  rewrite take_app_length' by (symmetry; exact Ha).
  rewrite firstn_all2 by lia.
  repeat apply conj; try reflexivity.
  now destruct (load_objects S _ _).
Qed.

Lemma checkpoint_restore_round_trip_witness :
  exists f s3,
    checkpoint Example.ser Example.ran = Ret f /\
    restore Example.ser f Example.fresh = Done tt s3 /\
    y_cvode s3 = y_cvode Example.ran /\
    abstol_cvode s3 = abstol_cvode Example.ran /\
    reltol_cvode s3 = reltol_cvode Example.ran /\
    pNmax_cvode s3 = pNmax_cvode Example.ran /\
    t_cvode s3 = t_cvode Example.ran /\ pTolsset s3 = true /\
    objects_of s3 =
      load_objects Example.ser
        (save_objects Example.ser (objects_of Example.ran))
        (objects_of Example.fresh) /\
    pReinit s3 = pReinit Example.fresh /\
    pInitialised s3 = pInitialised Example.fresh /\
    cvode_mem_cvode s3 = cvode_mem_cvode Example.fresh /\
    pSpec_matrixsub s3 = pSpec_matrixsub Example.fresh.
Proof.
  apply (checkpoint_restore_round_trip Example.ser Example.ran Example.fresh);
    vm_compute; reflexivity.
Defined.

(** ** Counts of a species in one tetrahedron or one triangle *)

Section TetCount.

Variables (tidx sidx : N) (s : TetODE) (tet : Tet.t) (c : Comp.t).

Let cdef := Tet.compdef tet.
Let slot := tet_slot (pComps s) tet c tidx sidx.

Hypothesis tet_assigned : pTets s !! N.to_nat tidx = Some (Some tet).
Hypothesis comp_found : pComps s !! N.to_nat (Compdef.gidx cdef) = Some c.
Hypothesis spec_known : sidx < Statedef.countSpecs (statedef s).
Hypothesis spec_defined : Compdef.specG2L cdef sidx <> LIDX_UNDEFINED.
Hypothesis slot_fits : slot < pSpecs_tot s.
Hypothesis tot_small : pSpecs_tot s < UInt.modulus.

Lemma tet_slot_steps :
  (tidx <? N.of_nat (length (pTets s))) = true /\
  step_up_comp_specs (pComps s) 0 (Compdef.gidx cdef) =
    Ret (comp_base (pComps s) (N.to_nat (Compdef.gidx cdef))) /\
  comp_base (pComps s) (N.to_nat (Compdef.gidx cdef)) +u
    (Compdef.countSpecs cdef *u Comp.getTet_GtoL c tidx) +u
    Compdef.specG2L cdef sidx = slot.
Proof.
  unfold slot, tet_slot in *. fold cdef in slot_fits |- *.
  set (base := comp_base (pComps s) (N.to_nat (Compdef.gidx cdef))) in *.
  split; [| split].
  - apply N.ltb_lt. apply lookup_lt_Some in tet_assigned. lia.
  - rewrite <- (N2Nat.id (Compdef.gidx cdef)) at 1.
    apply step_up_comp_specs_ok.
    + apply lookup_lt_Some in comp_found. lia.
    + fold (comp_base (pComps s) (N.to_nat (Compdef.gidx cdef))).
      fold base. lia.
  - rewrite (UIntFacts.mul_small (Compdef.countSpecs cdef)) by lia.
    rewrite (UIntFacts.add_small base) by lia.
    apply UIntFacts.add_small. lia.
Qed.

Lemma getTetCount_slot (f : TetODE -> TetODE) :
  pTets (f s) = pTets s -> pComps (f s) = pComps s ->
  statedef (f s) = statedef s -> pSpecs_tot (f s) = pSpecs_tot s ->
  _getTetCount tidx sidx (f s) = at_ (y_cvode (f s)) slot.
Proof.
  intros HT HC HS HP.
  destruct tet_slot_steps as (Hlt & Hbase & Hslot).
  unfold _getTetCount. rewrite HT, HC, HS, HP.
  rewrite (assert_true _ (proj2 (N.ltb_lt _ _) spec_known)), bind_Ret.
  rewrite (assert_true _ Hlt), bind_Ret.
  rewrite (at_lookup _ _ _ tet_assigned), bind_Ret. cbv zeta. fold cdef.
  rewrite (proj2 (N.eqb_neq _ _) spec_defined).
  rewrite (at_lookup _ _ _ comp_found), bind_Ret.
  rewrite Hbase, bind_Ret, Hslot.
  rewrite (assert_true _ (proj2 (N.ltb_lt _ _) slot_fits)), bind_Ret.
  reflexivity.
Qed.

Lemma setTetCount_slot (n : real) :
  (N.to_nat slot < length (y_cvode s))%nat ->
  _setTetCount tidx sidx n s =
    Done tt (set_pReinit true
               (set_y_cvode (<[N.to_nat slot := n]> (y_cvode s)) s)).
Proof.
  intros Hy.
  destruct tet_slot_steps as (Hlt & Hbase & Hslot).
  unfold _setTetCount. rewrite run_bind_get.
  rewrite (run_bind_lift _ tt) by (apply assert_true; now apply N.ltb_lt).
  rewrite (run_bind_lift _ tt) by (now apply assert_true).
  rewrite (run_bind_lift _ _ _ _ (at_lookup _ _ _ tet_assigned)).
  cbv zeta. fold cdef.
  rewrite (proj2 (N.eqb_neq _ _) spec_defined).
  rewrite (run_bind_lift _ _ _ _ (at_lookup _ _ _ comp_found)).
  rewrite (run_bind_lift _ _ _ _ Hbase). rewrite Hslot.
  rewrite (run_bind_lift _ tt) by (apply assert_true; now apply N.ltb_lt).
  rewrite (run_bind_lift _ _ _ _ (store_lt _ _ n Hy)).
  reflexivity.
Qed.

End TetCount.

(** For a tetrahedron assigned to a compartment and a species defined
    there, whose slot lies inside the state vector, [_setTetCount] writes
    [n] into that one slot, raises the pending-reinit flag and changes
    nothing else; [_getTetCount] then returns [n], and before the write
    it returns what the slot holds. *)
Theorem tet_count_set_then_get (tidx sidx : N) (n : real) (s : TetODE)
    (tet : Tet.t) (c : Comp.t) :
  let cdef := Tet.compdef tet in
  let slot := N.to_nat (tet_slot (pComps s) tet c tidx sidx) in
  pTets s !! N.to_nat tidx = Some (Some tet) ->
  pComps s !! N.to_nat (Compdef.gidx cdef) = Some c ->
  sidx < Statedef.countSpecs (statedef s) ->
  Compdef.specG2L cdef sidx <> LIDX_UNDEFINED ->
  tet_slot (pComps s) tet c tidx sidx < pSpecs_tot s ->
  pSpecs_tot s < UInt.modulus ->
  N.of_nat (length (y_cvode s)) = pSpecs_tot s ->
  exists s',
    _setTetCount tidx sidx n s = Done tt s' /\
    s' = set_pReinit true (set_y_cvode (<[slot := n]> (y_cvode s)) s) /\
    _getTetCount tidx sidx s' = Ret n /\
    _getTetCount tidx sidx s = at_ (y_cvode s) (N.of_nat slot).
Proof.
  intros cdef slot Ht Hc Hs Hdef Hfit Hsmall Hlen.
  assert (Hy : (slot < length (y_cvode s))%nat) by (unfold slot; lia).
  eexists. split; [| split; [reflexivity | split]].
  - now apply (setTetCount_slot tidx sidx s tet c).
  - rewrite (getTetCount_slot tidx sidx s tet c Ht Hc Hs Hdef Hfit Hsmall
               (fun s => set_pReinit true
                           (set_y_cvode (<[slot := n]> (y_cvode s)) s)))
      by reflexivity.
    apply at_lookup. cbn [y_cvode set_pReinit set_y_cvode].
    now apply list_lookup_insert_eq.
  - unfold slot. rewrite N2Nat.id.
    now apply (getTetCount_slot tidx sidx s tet c Ht Hc Hs Hdef Hfit Hsmall
                 (fun s => s)).
Qed.

Lemma tet_count_set_then_get_witness :
  exists s',
    _setTetCount 1 0 (Q2Qc 7) Example.ran = Done tt s' /\
    _getTetCount 1 0 s' = Ret (Q2Qc 7).
Proof.
  destruct (tet_count_set_then_get 1 0 (Q2Qc 7) Example.ran
              Example.tet1 Example.comp0)
    as (s' & Hset & _ & Hget & _).
  - vm_compute. reflexivity.
  - vm_compute. reflexivity.
  - vm_compute. reflexivity.
  - vm_compute. discriminate.
  - vm_compute. reflexivity.
  - vm_compute. reflexivity.
  - vm_compute. reflexivity.
  - exists s'. now split.
Defined.

(** A tetrahedron that was never assigned to a compartment, or a species
    that is not defined in the tetrahedron's compartment, makes the count
    getter and the count setter raise [ArgErr]; the solver is left as it
    was. *)
Theorem tet_count_errors (tidx sidx : N) (n : real) (s : TetODE) :
  sidx < Statedef.countSpecs (statedef s) ->
  (pTets s !! N.to_nat tidx = Some None ->
   (exists msg, _getTetCount tidx sidx s = Throw (ArgErr msg)) /\
   (exists msg, _setTetCount tidx sidx n s = Raise (ArgErr msg) s)) /\
  (forall tet,
     pTets s !! N.to_nat tidx = Some (Some tet) ->
     Compdef.specG2L (Tet.compdef tet) sidx = LIDX_UNDEFINED ->
     _getTetCount tidx sidx s =
       Throw (ArgErr "Species undefined in tetrahedron.") /\
     _setTetCount tidx sidx n s =
       Raise (ArgErr "Species undefined in tetrahedron.") s).
Proof.
  intros Hs.
  assert (Hlt : forall o, pTets s !! N.to_nat tidx = Some o ->
            (tidx <? N.of_nat (length (pTets s))) = true).
  { intros o Ho. apply N.ltb_lt. apply lookup_lt_Some in Ho. lia. }
  split.
  - intros Ht. split; eexists.
    + unfold _getTetCount.
      rewrite (assert_true _ (proj2 (N.ltb_lt _ _) Hs)), bind_Ret.
      rewrite (assert_true _ (Hlt _ Ht)), bind_Ret.
      rewrite (at_lookup _ _ _ Ht), bind_Ret. reflexivity.
    + unfold _setTetCount. rewrite run_bind_get.
      rewrite (run_bind_lift _ tt) by (apply assert_true; now apply N.ltb_lt).
      rewrite (run_bind_lift _ tt) by (apply assert_true; eauto).
      rewrite (run_bind_lift _ _ _ _ (at_lookup _ _ _ Ht)). reflexivity.
  - intros tet Ht Hundef. split.
    + unfold _getTetCount.
      rewrite (assert_true _ (proj2 (N.ltb_lt _ _) Hs)), bind_Ret.
      rewrite (assert_true _ (Hlt _ Ht)), bind_Ret.
      rewrite (at_lookup _ _ _ Ht), bind_Ret. cbv zeta.
      now rewrite Hundef.
    + unfold _setTetCount. rewrite run_bind_get.
      rewrite (run_bind_lift _ tt) by (apply assert_true; now apply N.ltb_lt).
      rewrite (run_bind_lift _ tt) by (apply assert_true; eauto).
      rewrite (run_bind_lift _ _ _ _ (at_lookup _ _ _ Ht)). cbv zeta.
      now rewrite Hundef.
Qed.

Lemma tet_count_errors_witness :
  exists msg, _getTetCount 2 0 Example.fresh = Throw (ArgErr msg).
Proof.
  destruct (tet_count_errors 2 0 0%Qc Example.fresh) as [Hnull _].
  - vm_compute. reflexivity.
  - apply Hnull. vm_compute. reflexivity.
Defined.

(** The step-up loop over the patches [a .. a+k-1] adds their blocks. *)
Lemma step_up_patch_specs_seq (patches : list Patch.t) (k a : nat) (idx : N) :
  (a + k <= length patches)%nat ->
  idx + N_sum (patch_block <$> take k (drop a patches)) < UInt.modulus ->
  foldM (fun idx i =>
           pdef ← patchdef patches i;
           p ← at_ patches i;
           Ret (idx +u (Patchdef.countSpecs pdef *u Patch.countTris p)))
        idx (N.of_nat <$> seq a k) =
    Ret (idx + N_sum (patch_block <$> take k (drop a patches))).
Proof.
  revert a idx. induction k as [| k IH]; intros a idx Hlen Hfit.
  - rewrite take_0. cbn. f_equal. lia.
  - destruct (lookup_lt_is_Some_2 patches a) as [p Hp]; [lia |].
    rewrite (drop_S _ _ _ Hp) in *. rewrite firstn_cons in *.
    rewrite fmap_cons, N_sum_cons in *.
    cbn [seq fmap list_fmap]. rewrite foldM_cons.
    unfold patchdef. rewrite (at_lookup patches (N.of_nat a) p)
      by (now rewrite Nat2N.id).
    rewrite !bind_Ret. unfold Patch.countTris.
    rewrite mul_size by (unfold patch_block in Hfit; lia).
    fold (patch_block p). rewrite UIntFacts.add_small by lia.
    rewrite IH by lia. f_equal. lia.
Qed.

(** The two step-up loops of the patch and triangle operations end at
    [patch_base]. *)
Lemma step_up_patch_base (comps : list Comp.t) (patches : list Patch.t)
    (pidx : nat) :
  N.of_nat (length comps) < UInt.modulus ->
  (pidx <= length patches)%nat ->
  patch_base comps patches pidx < UInt.modulus ->
  step_up_comp_specs comps 0 (size comps) =
    Ret (N_sum (comp_block <$> comps)) /\
  step_up_patch_specs patches (N_sum (comp_block <$> comps)) (N.of_nat pidx) =
    Ret (patch_base comps patches pidx).
Proof.
  intros Hcomps Hp Hfit. unfold patch_base in *. split.
  - rewrite size_small by exact Hcomps.
    rewrite step_up_comp_specs_ok by (rewrite ?firstn_all; lia).
    now rewrite firstn_all.
  - unfold step_up_patch_specs. rewrite range_unfold, Nat2N.id.
    rewrite (step_up_patch_specs_seq patches pidx 0)
      by (rewrite ?drop_0; lia).
    now rewrite drop_0.
Qed.

Section TriCount.

Variables (tidx sidx : N) (s : TetODE) (tri : Tri.t) (p : Patch.t).

Let pdef := Tri.patchdef tri.
Let slot := tri_slot (pComps s) (pPatches s) tri p tidx sidx.

Hypothesis tri_assigned : pTris s !! N.to_nat tidx = Some (Some tri).
Hypothesis patch_found : pPatches s !! N.to_nat (Patchdef.gidx pdef) = Some p.
Hypothesis spec_known : sidx < Statedef.countSpecs (statedef s).
Hypothesis spec_defined : Patchdef.specG2L pdef sidx <> LIDX_UNDEFINED.
Hypothesis slot_fits : slot < pSpecs_tot s.
Hypothesis tot_small : pSpecs_tot s < UInt.modulus.
Hypothesis comps_small : N.of_nat (length (pComps s)) < UInt.modulus.

Lemma tri_slot_steps :
  (tidx <? N.of_nat (length (pTris s))) = true /\
  step_up_comp_specs (pComps s) 0 (size (pComps s)) =
    Ret (N_sum (comp_block <$> pComps s)) /\
  step_up_patch_specs (pPatches s) (N_sum (comp_block <$> pComps s))
                      (Patchdef.gidx pdef) =
    Ret (patch_base (pComps s) (pPatches s) (N.to_nat (Patchdef.gidx pdef))) /\
  patch_base (pComps s) (pPatches s) (N.to_nat (Patchdef.gidx pdef)) +u
    (Patchdef.countSpecs pdef *u Patch.getTri_GtoL p tidx) +u
    Patchdef.specG2L pdef sidx = slot.
Proof.
  unfold slot, tri_slot in *. fold pdef in slot_fits |- *.
  set (base := patch_base (pComps s) (pPatches s)
                          (N.to_nat (Patchdef.gidx pdef))) in *.
  destruct (step_up_patch_base (pComps s) (pPatches s)
              (N.to_nat (Patchdef.gidx pdef))) as [Hc Hp].
  { exact comps_small. }
  { apply lookup_lt_Some in patch_found. lia. }
  { fold base. lia. }
  rewrite N2Nat.id in Hp. fold base in Hp.
  repeat apply conj; [| exact Hc | exact Hp |].
  - apply N.ltb_lt. apply lookup_lt_Some in tri_assigned. lia.
  - rewrite (UIntFacts.mul_small (Patchdef.countSpecs pdef)) by lia.
    rewrite (UIntFacts.add_small base) by lia.
    apply UIntFacts.add_small. lia.
Qed.

Lemma getTriCount_slot (f : TetODE -> TetODE) :
  pTris (f s) = pTris s -> pComps (f s) = pComps s ->
  pPatches (f s) = pPatches s ->
  statedef (f s) = statedef s -> pSpecs_tot (f s) = pSpecs_tot s ->
  _getTriCount tidx sidx (f s) = at_ (y_cvode (f s)) slot.
Proof.
  intros HT HC HPa HS HP.
  destruct tri_slot_steps as (Hlt & Hcomps & Hbase & Hslot).
  unfold _getTriCount. rewrite HT, HC, HPa, HS, HP.
  rewrite (assert_true _ (proj2 (N.ltb_lt _ _) spec_known)), bind_Ret.
  rewrite (assert_true _ Hlt), bind_Ret.
  rewrite (at_lookup _ _ _ tri_assigned), bind_Ret. cbv zeta. fold pdef.
  rewrite (proj2 (N.eqb_neq _ _) spec_defined).
  rewrite (at_lookup _ _ _ patch_found), bind_Ret.
  rewrite Hcomps, bind_Ret, Hbase, bind_Ret, Hslot.
  rewrite (assert_true _ (proj2 (N.ltb_lt _ _) slot_fits)), bind_Ret.
  reflexivity.
Qed.

Lemma setTriCount_slot (n : real) :
  (N.to_nat slot < length (y_cvode s))%nat ->
  _setTriCount tidx sidx n s =
    Done tt (set_pReinit true
               (set_y_cvode (<[N.to_nat slot := n]> (y_cvode s)) s)).
Proof.
  intros Hy.
  destruct tri_slot_steps as (Hlt & Hcomps & Hbase & Hslot).
  unfold _setTriCount. rewrite run_bind_get.
  rewrite (run_bind_lift _ tt) by (apply assert_true; now apply N.ltb_lt).
  rewrite (run_bind_lift _ tt) by (now apply assert_true).
  rewrite (run_bind_lift _ _ _ _ (at_lookup _ _ _ tri_assigned)).
  cbv zeta. fold pdef.
  rewrite (proj2 (N.eqb_neq _ _) spec_defined).
  rewrite (run_bind_lift _ _ _ _ (at_lookup _ _ _ patch_found)).
  rewrite (run_bind_lift _ _ _ _ Hcomps).
  rewrite (run_bind_lift _ _ _ _ Hbase). rewrite Hslot.
  rewrite (run_bind_lift _ tt) by (apply assert_true; now apply N.ltb_lt).
  rewrite (run_bind_lift _ _ _ _ (store_lt _ _ n Hy)).
  reflexivity.
Qed.

End TriCount.

(** For a triangle assigned to a patch and a species defined there, whose
    slot (behind the blocks of all compartments and of the patches before
    its own) lies inside the state vector, [_setTriCount] writes [n] into
    that one slot, raises the pending-reinit flag and changes nothing
    else; [_getTriCount] then returns [n], and before the write it returns
    what the slot holds. *)
Theorem tri_count_set_then_get (tidx sidx : N) (n : real) (s : TetODE)
    (tri : Tri.t) (p : Patch.t) :
  let pdef := Tri.patchdef tri in
  let slot :=
    N.to_nat (tri_slot (pComps s) (pPatches s) tri p tidx sidx) in
  pTris s !! N.to_nat tidx = Some (Some tri) ->
  pPatches s !! N.to_nat (Patchdef.gidx pdef) = Some p ->
  sidx < Statedef.countSpecs (statedef s) ->
  Patchdef.specG2L pdef sidx <> LIDX_UNDEFINED ->
  tri_slot (pComps s) (pPatches s) tri p tidx sidx < pSpecs_tot s ->
  pSpecs_tot s < UInt.modulus ->
  N.of_nat (length (pComps s)) < UInt.modulus ->
  N.of_nat (length (y_cvode s)) = pSpecs_tot s ->
  exists s',
    _setTriCount tidx sidx n s = Done tt s' /\
    s' = set_pReinit true (set_y_cvode (<[slot := n]> (y_cvode s)) s) /\
    _getTriCount tidx sidx s' = Ret n /\
    _getTriCount tidx sidx s = at_ (y_cvode s) (N.of_nat slot).
Proof.
  intros pdef slot Ht Hp Hs Hdef Hfit Hsmall Hcomps Hlen.
  assert (Hy : (slot < length (y_cvode s))%nat) by (unfold slot; lia).
  eexists. split; [| split; [reflexivity | split]].
  - now apply (setTriCount_slot tidx sidx s tri p).
  - rewrite (getTriCount_slot tidx sidx s tri p Ht Hp Hs Hdef Hfit Hsmall
               Hcomps
               (fun s => set_pReinit true
                           (set_y_cvode (<[slot := n]> (y_cvode s)) s)))
      by reflexivity.
    apply at_lookup. cbn [y_cvode set_pReinit set_y_cvode].
    now apply list_lookup_insert_eq.
  - unfold slot. rewrite N2Nat.id.
    now apply (getTriCount_slot tidx sidx s tri p Ht Hp Hs Hdef Hfit Hsmall
                 Hcomps (fun s => s)).
Qed.

Lemma tri_count_set_then_get_witness :
  exists s',
    _setTriCount 0 3 (Q2Qc 7) Example.ran = Done tt s' /\
    _getTriCount 0 3 s' = Ret (Q2Qc 7) /\
    y_cvode s' !! 5%nat = Some (Q2Qc 7).
Proof.
  destruct (tri_count_set_then_get 0 3 (Q2Qc 7) Example.ran
              Example.tri0 Example.patch0)
    as (s' & Hset & Hs' & Hget & _).
  - vm_compute. reflexivity.
  - vm_compute. reflexivity.
  - vm_compute. reflexivity.
  - vm_compute. discriminate.
  - vm_compute. reflexivity.
  - vm_compute. reflexivity.
  - vm_compute. reflexivity.
  - vm_compute. reflexivity.
  - exists s'. split; [exact Hset |]. split; [exact Hget |].
    rewrite Hs'. vm_compute. reflexivity.
Defined.

(** ** Concentrations and amounts *)

Lemma AVOGADRO_nonzero : AVOGADRO <> 0%Qc.
Proof. intros H. apply (f_equal this) in H. vm_compute in H. discriminate. Qed.

Lemma Qc_mul_div (c k : real) : k <> 0%Qc -> (c * k / k)%Qc = c.
Proof. intros Hk. field. exact Hk. Qed.

Lemma volume_scale_nonzero (vol : real) :
  vol <> 0%Qc -> (Q2Qc 1000 * vol * AVOGADRO)%Qc <> 0%Qc.
Proof.
  intros Hvol H.
  apply Qcmult_integral in H as [H | H]; [| now apply AVOGADRO_nonzero].
  apply Qcmult_integral in H as [H | H]; [| now apply Hvol].
  apply (f_equal this) in H. vm_compute in H. discriminate.
Qed.

(** In exact arithmetic, for a tetrahedron of volume other than 0 that is
    assigned to a compartment, a species defined there and a slot inside
    the state vector: [_setTetConc] stores the count
    [c * (1000 * vol * AVOGADRO)] in the slot of the species and
    [_getTetConc] then returns [c]; [_setTetAmount] stores
    [a * AVOGADRO] and [_getTetAmount] then returns [a]. Both setters
    raise the pending-reinit flag. *)
Theorem tet_conc_amount_round_trip (tidx sidx : N) (x : real) (s : TetODE)
    (tet : Tet.t) (c : Comp.t) :
  let cdef := Tet.compdef tet in
  let slot := N.to_nat (tet_slot (pComps s) tet c tidx sidx) in
  let scale := (Q2Qc 1000 * Tet.vol tet * AVOGADRO)%Qc in
  pTets s !! N.to_nat tidx = Some (Some tet) ->
  pComps s !! N.to_nat (Compdef.gidx cdef) = Some c ->
  sidx < Statedef.countSpecs (statedef s) ->
  Compdef.specG2L cdef sidx <> LIDX_UNDEFINED ->
  tet_slot (pComps s) tet c tidx sidx < pSpecs_tot s ->
  pSpecs_tot s < UInt.modulus ->
  N.of_nat (length (y_cvode s)) = pSpecs_tot s ->
  Tet.vol tet <> 0%Qc ->
  (exists s',
     _setTetConc tidx sidx x s = Done tt s' /\
     y_cvode s' = <[slot := (x * scale)%Qc]> (y_cvode s) /\
     pReinit s' = true /\
     _getTetCount tidx sidx s' = Ret (x * scale)%Qc /\
     _getTetConc tidx sidx s' = Ret x) /\
  (exists s',
     _setTetAmount tidx sidx x s = Done tt s' /\
     y_cvode s' = <[slot := (x * AVOGADRO)%Qc]> (y_cvode s) /\
     pReinit s' = true /\
     _getTetCount tidx sidx s' = Ret (x * AVOGADRO)%Qc /\
     _getTetAmount tidx sidx s' = Ret x).
Proof.
  intros cdef slot scale Ht Hc Hs Hdef Hfit Hsmall Hlen Hvol.
  assert (Hy : (slot < length (y_cvode s))%nat) by (unfold slot; lia).
  assert (Hlt : (tidx <? N.of_nat (length (pTets s))) = true).
  { apply N.ltb_lt. apply lookup_lt_Some in Ht. lia. }
  assert (Hget : forall n,
    _getTetCount tidx sidx
      (set_pReinit true (set_y_cvode (<[slot := n]> (y_cvode s)) s)) = Ret n).
  { intros n.
    rewrite (getTetCount_slot tidx sidx s tet c Ht Hc Hs Hdef Hfit Hsmall
               (fun s => set_pReinit true
                           (set_y_cvode (<[slot := n]> (y_cvode s)) s)))
      by reflexivity.
    apply at_lookup. cbn [y_cvode set_pReinit set_y_cvode].
    now apply list_lookup_insert_eq. }
  split.
  - eexists. split.
    { unfold _setTetConc. rewrite run_bind_get.
      rewrite (run_bind_lift _ tt) by (now apply assert_true).
      rewrite (run_bind_lift _ _ _ _ (at_lookup _ _ _ Ht)). cbv zeta.
      now apply (setTetCount_slot tidx sidx s tet c). }
    split; [reflexivity |]. split; [reflexivity |].
    split; [apply Hget |].
    unfold _getTetConc. rewrite Hget, bind_Ret.
    cbn [pTets set_pReinit set_y_cvode].
    rewrite (at_lookup _ _ _ Ht), bind_Ret. cbn [deref].
    rewrite bind_Ret. cbv zeta. f_equal.
    apply Qc_mul_div. now apply volume_scale_nonzero.
  - eexists. split.
    { unfold _setTetAmount. cbv zeta.
      now apply (setTetCount_slot tidx sidx s tet c). }
    split; [reflexivity |]. split; [reflexivity |].
    split; [apply Hget |].
    unfold _getTetAmount. rewrite Hget, bind_Ret. f_equal.
    apply Qc_mul_div, AVOGADRO_nonzero.
Qed.

Lemma tet_conc_amount_round_trip_witness :
  exists s',
    _setTetConc 1 0 (Q2Qc 7) Example.ran = Done tt s' /\
    _getTetConc 1 0 s' = Ret (Q2Qc 7).
Proof.
  destruct (tet_conc_amount_round_trip 1 0 (Q2Qc 7) Example.ran
              Example.tet1 Example.comp0)
    as [(s' & Hset & _ & _ & _ & Hget) _].
  - vm_compute. reflexivity.
  - vm_compute. reflexivity.
  - vm_compute. reflexivity.
  - vm_compute. discriminate.
  - vm_compute. reflexivity.
  - vm_compute. reflexivity.
  - vm_compute. reflexivity.
  - intros H. apply (f_equal this) in H. vm_compute in H. discriminate.
  - exists s'. now split.
Defined.

(** The volume of a tetrahedron and the area of a triangle are those of
    the element stored at the index; an index inside the mesh whose
    element was never assigned raises [ArgErr], and so does
    [_setTetConc], which leaves the solver as it was. *)
Theorem element_measure_lookup (tidx sidx : N) (x : real) (s : TetODE) :
  (forall tet, pTets s !! N.to_nat tidx = Some (Some tet) ->
     _getTetVol tidx s = Ret (Tet.vol tet)) /\
  (forall tri, pTris s !! N.to_nat tidx = Some (Some tri) ->
     _getTriArea tidx s = Ret (Tri.area tri)) /\
  (pTets s !! N.to_nat tidx = Some None ->
     (exists msg, _getTetVol tidx s = Throw (ArgErr msg)) /\
     (exists msg, _setTetConc tidx sidx x s = Raise (ArgErr msg) s)) /\
  (pTris s !! N.to_nat tidx = Some None ->
     exists msg, _getTriArea tidx s = Throw (ArgErr msg)).
Proof.
  assert (Hlt : forall {A} (l : list A) (o : A),
            l !! N.to_nat tidx = Some o ->
            (tidx <? N.of_nat (length l)) = true).
  { intros A l o Ho. apply N.ltb_lt. apply lookup_lt_Some in Ho. lia. }
  repeat apply conj.
  - intros tet Ht. unfold _getTetVol.
    rewrite (assert_true _ (Hlt _ _ _ Ht)), bind_Ret.
    now rewrite (at_lookup _ _ _ Ht), bind_Ret.
  - intros tri Ht. unfold _getTriArea.
    rewrite (assert_true _ (Hlt _ _ _ Ht)), bind_Ret.
    now rewrite (at_lookup _ _ _ Ht), bind_Ret.
  - intros Ht. split.
    + eexists. unfold _getTetVol.
      rewrite (assert_true _ (Hlt _ _ _ Ht)), bind_Ret.
      rewrite (at_lookup _ _ _ Ht), bind_Ret. exact eq_refl.
    + eexists. unfold _setTetConc. rewrite run_bind_get.
      rewrite (run_bind_lift _ tt) by (apply assert_true; eauto).
      rewrite (run_bind_lift _ _ _ _ (at_lookup _ _ _ Ht)). exact eq_refl.
  - intros Ht. eexists. unfold _getTriArea.
    rewrite (assert_true _ (Hlt _ _ _ Ht)), bind_Ret.
    rewrite (at_lookup _ _ _ Ht), bind_Ret. exact eq_refl.
Qed.

(** ** Rate constants: only coefficients change *)

Section FrameAt.

Variable R : TetODE -> TetODE -> Prop.
Hypothesis R_refl : forall s, R s s.
Hypothesis R_trans : forall s1 s2 s3, R s1 s2 -> R s2 s3 -> R s1 s3.

Lemma frame_at_all {A : Type} (m : method A) :
  (forall s, frame_at R m s) -> frame R m.
Proof. intros H s s'. apply H. Qed.

Lemma frame_at_frame {A : Type} (m : method A) s : frame R m -> frame_at R m s.
Proof. intros H s'. apply H. Qed.

Lemma frame_at_ret {A : Type} (a : A) s : frame_at R (mret a) s.
Proof. intros s' [= <-]. apply R_refl. Qed.

Lemma frame_at_throw {A : Type} (e : exn) s : frame_at R (@throw A e) s.
Proof. intros s' [= <-]. apply R_refl. Qed.

Lemma frame_at_get {B : Type} (f : TetODE -> method B) s :
  frame_at R (f s) s -> frame_at R (get ≫= f) s.
Proof. intros H s'. rewrite run_bind_get. apply H. Qed.

Lemma frame_at_lift {A B : Type} (o : outcome A) (f : A -> method B) s :
  (forall a, o = Ret a -> frame_at R (f a) s) -> frame_at R (lift o ≫= f) s.
Proof.
  intros H s'. destruct o as [a | e |].
  - rewrite (run_bind_lift _ a) by reflexivity. now apply H.
  - intros [= <-]. apply R_refl.
  - discriminate.
Qed.

Lemma frame_at_modify {B : Type} (g : TetODE -> TetODE) (f : unit -> method B) s :
  R s (g s) -> frame_at R (f tt) (g s) -> frame_at R (modify g ≫= f) s.
Proof.
  intros Hg Hf s'. rewrite run_bind_modify. intros H.
  apply (R_trans _ (g s)); [exact Hg | now apply Hf].
Qed.

Lemma frame_at_modify_end (g : TetODE -> TetODE) s :
  R s (g s) -> frame_at R (modify g) s.
Proof. intros Hg s' [= <-]. exact Hg. Qed.

Lemma frame_at_bind {A B : Type} (m : method A) (f : A -> method B) s :
  frame_at R m s ->
  (forall a s1, m s = Done a s1 -> frame_at R (f a) s1) ->
  frame_at R (m ≫= f) s.
Proof.
  intros Hm Hf s'. unfold mbind, method_bind.
  destruct (m s) as [a s1 | e s1 |] eqn:E.
  - intros H. apply (R_trans _ s1); [apply Hm; now rewrite E |].
    now apply (Hf a s1).
  - intros [= <-]. apply Hm. now rewrite E.
  - discriminate.
Qed.

End FrameAt.

Lemma coefficients_only_refl s : coefficients_only s s.
Proof. split; [apply matrix_only_refl | reflexivity]. Qed.

Lemma coefficients_only_trans s1 s2 s3 :
  coefficients_only s1 s2 -> coefficients_only s2 s3 ->
  coefficients_only s1 s3.
Proof.
  intros [M12 S12] [M23 S23]. split.
  - now apply (matrix_only_trans s1 s2 s3).
  - now rewrite S23.
Qed.

Lemma stoichiometry_rebind_row (reac_idx : N) (c : real) (row : list structA) :
  (fun r => (r_idx r, upd r, players r)) <$> rebind_row reac_idx c row =
  (fun r => (r_idx r, upd r, players r)) <$> row.
Proof.
  unfold rebind_row. rewrite <- list_fmap_compose.
  apply list_fmap_ext. intros i r _. cbn.
  now destruct (r_idx r =? reac_idx).
Qed.

Lemma stoichiometry_rebind_slots (reac_idx : N) (c : real)
    (spec_idx nspecs : N) (G G' : matrix) :
  rebind_slots reac_idx c spec_idx nspecs G = Ret G' ->
  stoichiometry G' = stoichiometry G.
Proof.
  unfold rebind_slots. generalize (range nspecs) as l.
  intros l. revert G. induction l as [| k l IH]; intros G.
  - now intros [= <-].
  - rewrite foldM_cons.
    destruct (at_ G (spec_idx +u k)) as [row | e |] eqn:Hat;
      [| intros H; discriminate H | intros H; discriminate H].
    assert (Hrow : G !! N.to_nat (spec_idx +u k) = Some row).
    { revert Hat. unfold at_.
      destruct (G !! N.to_nat (spec_idx +u k)); [| discriminate].
      now intros [= ->]. }
    rewrite bind_Ret, store_lt by (now apply lookup_lt_Some in Hrow).
    rewrite bind_Ret. intros H. rewrite (IH _ H).
    unfold stoichiometry. rewrite list_fmap_insert.
    rewrite stoichiometry_rebind_row.
    apply list_insert_id. now rewrite list_lookup_fmap, Hrow.
Qed.

Lemma coefficients_only_rebind (reac_idx : N) (c : real)
    (spec_idx nspecs : N) (s : TetODE) (G' : matrix) :
  rebind_slots reac_idx c spec_idx nspecs (pSpec_matrixsub s) = Ret G' ->
  coefficients_only s (set_pSpec_matrixsub G' s).
Proof.
  intros H. split.
  - now destruct s.
  - destruct s. now apply stoichiometry_rebind_slots in H.
Qed.

Ltac coeff_steps :=
  repeat first
    [ progress cbv zeta
    | match goal with
      | |- frame_at _ (get ≫= _) _ => apply (frame_at_get _)
      | |- frame_at _ (lift _ ≫= _) _ =>
          apply (frame_at_lift _ coefficients_only_refl); intros ? ?
      | |- frame_at _ (modify _ ≫= _) _ =>
          apply (frame_at_modify _ coefficients_only_trans);
            [eapply coefficients_only_rebind; eassumption |]
      | |- frame_at _ (modify _) _ =>
          apply (frame_at_modify_end _);
            eapply coefficients_only_rebind; eassumption
      | |- frame_at _ (throw _) _ =>
          apply (frame_at_throw _ coefficients_only_refl)
      | |- frame_at _ (mret _) _ =>
          apply (frame_at_ret _ coefficients_only_refl)
      | |- frame_at _ (if ?b then _ else _) _ => destruct b
      | |- frame_at _ (match ?x with _ => _ end) _ => destruct x
      end ].

Lemma setTetReacK_coefficients tidx ridx kf :
  frame coefficients_only (_setTetReacK tidx ridx kf).
Proof.
  apply frame_at_all. intros s. unfold _setTetReacK. coeff_steps.
Qed.

Lemma rebind_tet_side_coefficients tet n reac_idx c :
  frame coefficients_only (rebind_tet_side tet n reac_idx c).
Proof.
  apply frame_at_all. intros s. unfold rebind_tet_side. coeff_steps.
Qed.

Lemma setTriSReacK_coefficients tidx ridx kf :
  frame coefficients_only (_setTriSReacK tidx ridx kf).
Proof.
  apply frame_at_all. intros s. unfold _setTriSReacK. coeff_steps.
  apply (frame_at_frame _).
  apply (frame_bind _ coefficients_only_trans).
  - destruct (SReacdef.reqInside _);
      [apply rebind_tet_side_coefficients
      | apply (frame_ret _ coefficients_only_refl)].
  - intros _. destruct (SReacdef.reqOutside _);
      [apply rebind_tet_side_coefficients
      | apply (frame_ret _ coefficients_only_refl)].
Qed.

(** However a rate-constant setter ends, after every triangle or
    tetrahedron it has worked through or at the exception that stopped
    it, the process graph has the rows and processes it had, each with
    its process index, update multiplier and reactant descriptors: only
    coefficients can differ, and nothing outside the graph has changed. *)
Theorem rate_setters_keep_stoichiometry (i j : N) (kf : real)
    (s s' : TetODE) :
  (final_state (_setTetReacK i j kf s) = Some s' -> coefficients_only s s') /\
  (final_state (_setTriSReacK i j kf s) = Some s' -> coefficients_only s s') /\
  (final_state (_setCompReacK i j kf s) = Some s' -> coefficients_only s s') /\
  (final_state (_setPatchSReacK i j kf s) = Some s' -> coefficients_only s s').
Proof.
  repeat apply conj.
  - apply setTetReacK_coefficients.
  - apply setTriSReacK_coefficients.
  - revert s s'. change (frame coefficients_only (_setCompReacK i j kf)).
    unfold _setCompReacK.
    repeat first
      [ apply (frame_bind _ coefficients_only_trans); [| intros ?]
      | apply (frame_lift _ coefficients_only_refl)
      | apply (frame_get _ coefficients_only_refl) ].
    apply (frame_for_each _ coefficients_only_refl coefficients_only_trans).
    intros tet. apply setTetReacK_coefficients.
  - revert s s'. change (frame coefficients_only (_setPatchSReacK i j kf)).
    unfold _setPatchSReacK.
    repeat first
      [ apply (frame_bind _ coefficients_only_trans); [| intros ?]
      | apply (frame_lift _ coefficients_only_refl)
      | apply (frame_get _ coefficients_only_refl) ].
    apply (frame_for_each _ coefficients_only_refl coefficients_only_trans).
    intros tri. apply setTriSReacK_coefficients.
Qed.

Lemma rate_setters_keep_stoichiometry_witness :
  coefficients_only Example.ran
    (Example.state_of (_setTriSReacK 0 0 (Q2Qc 5) Example.ran)).
Proof.
  apply (rate_setters_keep_stoichiometry 0 0 (Q2Qc 5) Example.ran
           (Example.state_of (_setTriSReacK 0 0 (Q2Qc 5) Example.ran))).
  vm_compute. reflexivity.
Defined.

(** ** The solver that [_setup] leaves *)

Lemma returns_ret {A : Type} (P : A -> Prop) (a : A) : P a -> returns P (Ret a).
Proof. now intros H b [= <-]. Qed.

Lemma returns_bind {A B : Type} (P : B -> Prop) (m : outcome A)
    (f : A -> outcome B) :
  (forall a, m = Ret a -> returns P (f a)) -> returns P (m ≫= f).
Proof.
  intros H b Hb. apply outcome_bind_Ret in Hb as (a & Ha & Hf).
  now apply (H a Ha).
Qed.

Lemma returns_foldM {A B : Type} (P : B -> Prop) (f : B -> A -> outcome B)
    (l : list A) :
  (forall b a, P b -> returns P (f b a)) ->
  forall b, P b -> returns P (foldM f b l).
Proof.
  intros Hf. induction l as [| a l IH]; intros b Hb.
  - now apply returns_ret.
  - rewrite foldM_cons. apply returns_bind. intros b' Hb'.
    apply IH. now apply (Hf b a).
Qed.

Lemma returns_push_back_at (n : nat) (G : matrix) (i : N) (a : structA) :
  length G = n -> returns (fun G' : matrix => length G' = n) (push_back_at G i a).
Proof.
  intros HG. unfold push_back_at. apply returns_bind. intros row _.
  unfold store. destruct (_ <? _)%nat; [| discriminate].
  apply returns_ret. now rewrite length_insert.
Qed.

Lemma returns_seq {A B : Type} (Q : A -> Prop) (P : B -> Prop)
    (m : outcome A) (f : A -> outcome B) :
  returns Q m -> (forall a, Q a -> returns P (f a)) -> returns P (m ≫= f).
Proof.
  intros Hm Hf. apply returns_bind. intros a Ha. apply Hf. now apply Hm.
Qed.

Section GraphLength.

Variable n : nat.

Local Abbreviation sized := (fun G : matrix => length G = n).
Local Abbreviation sized2 := (fun st : matrix * N => length (fst st) = n).
Local Abbreviation sized3 :=
  (fun st : matrix * N * N => length (fst (fst st)) = n).

Ltac length_steps :=
  repeat first
    [ progress cbv zeta
    | match goal with
      | |- returns _ (Ret _) => apply returns_ret; cbn [fst snd]; assumption
      | |- returns _ (push_back_at _ _ _) => now apply returns_push_back_at
      | |- returns _ (push_back_at _ _ _ ≫= _) =>
          apply (returns_seq sized);
            [now apply returns_push_back_at | intros ? ?]
      | |- returns _ (foldM _ _ _ ≫= _) =>
          apply (returns_seq sized);
            [apply (returns_foldM sized); [intros ? ? ? | assumption]
            | intros ? ?]
      | |- returns _ (foldM _ _ _) =>
          apply (returns_foldM sized); [intros ? ? ? | assumption]
      | |- returns _ (_ ≫= _) => apply returns_bind; intros ? ?
      | |- returns _ (if ?b then _ else _) => destruct b
      | |- returns _ (match ?x with _ => _ end) => destruct x
      end ].

Lemma setup_reac_t_length comp st t :
  sized3 st -> returns sized3 (setup_reac_t comp st t).
Proof.
  destruct st as [[G r] sp]. cbn [fst]. intros HG.
  unfold setup_reac_t, setup_reac_j, setup_reac_k. length_steps.
Qed.

Lemma setup_comp_diffs_length comps i comp G r :
  sized G -> returns sized2 (setup_comp_diffs comps i comp G r).
Proof.
  intros HG.
  unfold setup_comp_diffs. apply (returns_foldM sized2); [| exact HG].
  intros [G1 r1] t HG1. cbn [fst] in HG1.
  unfold setup_diff_t, setup_diff_j, setup_diff_k, setup_diff_l.
  length_steps.
Qed.

Lemma setup_comp_length comps st i :
  sized3 st -> returns sized3 (setup_comp comps st i).
Proof.
  destruct st as [[G r] sp]. cbn [fst]. intros HG.
  unfold setup_comp. apply returns_bind. intros comp _. cbv zeta.
  apply returns_bind. intros [[G1 r1] sp1] H1.
  assert (HG1 : length G1 = n).
  { revert H1. apply (returns_foldM sized3); [| exact HG].
    intros st t. apply setup_reac_t_length. }
  apply returns_bind. intros [G2 r2] H2. apply returns_ret. cbn [fst].
  revert H2. now apply setup_comp_diffs_length.
Qed.

Lemma setup_sreac_upd_length upd base nspecs c r btmp G :
  sized G -> returns sized (setup_sreac_upd upd base nspecs c r btmp G).
Proof.
  intros HG. unfold setup_sreac_upd. length_steps.
Qed.

Lemma setup_sreac_upd_side_length comps cdef tet upd nspecs c r btmp G :
  sized G ->
  returns sized (setup_sreac_upd_side comps cdef tet upd nspecs c r btmp G).
Proof.
  intros HG. unfold setup_sreac_upd_side.
  destruct cdef; [| now apply returns_ret].
  apply returns_bind. intros ? _. apply returns_bind. intros ? _.
  now apply setup_sreac_upd_length.
Qed.

Lemma setup_sreac_t_length comps patch st t :
  sized3 st -> returns sized3 (setup_sreac_t comps patch st t).
Proof.
  destruct st as [[G r] sp]. cbn [fst]. intros HG.
  unfold setup_sreac_t. cbv zeta.
  apply returns_bind. intros tri _.
  apply returns_bind. intros G' HG'. apply returns_ret. cbn [fst].
  revert HG'. apply (returns_foldM sized); [| exact HG].
  intros G1 j HG1. unfold setup_sreac_j. cbv zeta.
  apply returns_bind. intros c _.
  apply returns_bind. intros info_I _.
  apply returns_bind. intros info_O _.
  apply returns_bind. intros G2 HG2.
  apply (setup_sreac_upd_length _ _ _ _ _ _ _ HG1) in HG2.
  apply returns_bind. intros G3 HG3.
  apply (setup_sreac_upd_side_length _ _ _ _ _ _ _ _ _ HG2) in HG3.
  now apply setup_sreac_upd_side_length.
Qed.

Lemma setup_sdiff_t_length patches i patch st t :
  sized2 st -> returns sized2 (setup_sdiff_t patches i patch st t).
Proof.
  destruct st as [G r]. cbn [fst]. intros HG.
  unfold setup_sdiff_t, setup_sdiff_k, setup_sdiff_l.
  length_steps.
Qed.

Lemma setup_patch_length comps patches st i :
  sized3 st -> returns sized3 (setup_patch comps patches st i).
Proof.
  destruct st as [[G r] sp]. cbn [fst]. intros HG.
  unfold setup_patch. apply returns_bind. intros patch _. cbv zeta.
  apply returns_bind. intros [[G1 r1] sp1] H1.
  assert (HG1 : length G1 = n).
  { revert H1. apply (returns_foldM sized3); [| exact HG].
    intros st t. apply setup_sreac_t_length. }
  apply returns_bind. intros [G2 r2] H2. apply returns_ret. cbn [fst].
  revert H2. apply (returns_foldM sized2); [| exact HG1].
  intros st t. apply setup_sdiff_t_length.
Qed.

End GraphLength.

Lemma setup_leaves (cv : Integrator) (sd : Statedef.t)
    (comps : list Comp.t) (patches : list Patch.t)
    (tris : list (option Tri.t)) (tets : list (option Tet.t)) (s : TetODE) :
  _setup cv sd comps patches tris tets = Ret s ->
  let n := N.to_nat (pSpecs_tot s) in
  length (pSpec_matrixsub s) = n /\
  y_cvode s = replicate n 0%Qc /\
  abstol_cvode s = replicate n (Q2Qc (1 # 1000)) /\
  reltol_cvode s = Q2Qc (1 # 1000) /\ pNmax_cvode s = 10000 /\
  pReinit s = true /\ pInitialised s = false /\ pTolsset s = false /\
  cvode_mem_cvode s = [CVodeCreate; CVodeInit 0%Qc (y_cvode s)] /\
  (0 <= cv_flag (cv (cvode_mem_cvode s)))%Z /\
  (pSpecs_tot s, pReacs_tot s) = setup_totals comps patches.
Proof.
  unfold _setup.
  destruct (setup_totals comps patches) as [specs_tot reacs_tot].
  intros H.
  apply outcome_bind_Ret in H as ([[G1 r1] sp1] & H1 & H).
  apply outcome_bind_Ret in H as ([[G2 r2] sp2] & H2 & H).
  apply outcome_bind_Ret in H as (u1 & _ & H).
  apply outcome_bind_Ret in H as (u2 & _ & H).
  apply outcome_bind_Ret in H as (u3 & Hflag & H).
  injection H as <-. cbn.
  assert (HG1 : length G1 = N.to_nat specs_tot).
  { revert H1.
    apply (returns_foldM
             (fun st : matrix * N * N =>
                length (fst (fst st)) = N.to_nat specs_tot));
      [| cbn; apply length_replicate].
    intros st i. apply setup_comp_length. }
  assert (HG2 : length G2 = N.to_nat specs_tot).
  { revert H2.
    apply (returns_foldM
             (fun st : matrix * N * N =>
                length (fst (fst st)) = N.to_nat specs_tot));
      [| exact HG1].
    intros st i. apply setup_patch_length. }
  repeat apply conj; try reflexivity; try assumption.
  revert Hflag. unfold check_flag.
  destruct (Z.ltb_spec (cv_flag (cv [CVodeCreate;
              CVodeInit 0%Qc (replicate (N.to_nat specs_tot) 0%Qc)])) 0);
    [discriminate | intros _; assumption].
Qed.

(** Whenever [_setup] returns, the process graph has one row for each of
    the [pSpecs_tot] slots, the state vector is all 0, every absolute
    tolerance is 1/1000 and so is the relative tolerance, the step budget
    is 10000, a reinitialisation is pending, the integrator has been
    created and initialised at time 0 with that state vector and has
    accepted it, and it has not been configured yet. *)
Theorem setup_initial_state (cv : Integrator) (sd : Statedef.t)
    (comps : list Comp.t) (patches : list Patch.t)
    (tris : list (option Tri.t)) (tets : list (option Tet.t)) (s : TetODE) :
  _setup cv sd comps patches tris tets = Ret s ->
  let n := N.to_nat (pSpecs_tot s) in
  length (pSpec_matrixsub s) = n /\
  y_cvode s = replicate n 0%Qc /\
  abstol_cvode s = replicate n (Q2Qc (1 # 1000)) /\
  reltol_cvode s = Q2Qc (1 # 1000) /\ pNmax_cvode s = 10000 /\
  pReinit s = true /\ pInitialised s = false /\ pTolsset s = false /\
  cvode_mem_cvode s = [CVodeCreate; CVodeInit 0%Qc (y_cvode s)] /\
  (0 <= cv_flag (cv (cvode_mem_cvode s)))%Z /\
  (pSpecs_tot s, pReacs_tot s) = setup_totals comps patches.
Proof. apply setup_leaves. Qed.

Lemma setup_initial_state_witness :
  length (pSpec_matrixsub Example.fresh) = 6%nat /\
  y_cvode Example.fresh = replicate 6 0%Qc.
Proof.
  destruct (setup_initial_state Example.cv_ok Example.sd0 [Example.comp0]
              [Example.patch0] [Some Example.tri0]
              [Some Example.tet0; Some Example.tet1; None] Example.fresh)
    as (HG & Hy & _).
  - vm_compute. reflexivity.
  - split; [exact HG | exact Hy].
Defined.

(** ** A fresh solver holds no molecules *)

Lemma returns_at_replicate (n : nat) (i : N) :
  returns (fun v => v = 0%Qc) (at_ (replicate n 0%Qc) i).
Proof.
  intros v. unfold at_.
  destruct (replicate n 0%Qc !! N.to_nat i) as [x |] eqn:Hx; [| discriminate].
  apply lookup_replicate in Hx as [-> _]. now intros [= <-].
Qed.

Lemma returns_sum_slots_zero (n : nat) (idx nspecs slidx k : N) :
  returns (fun v => v = 0%Qc)
          (sum_slots (replicate n 0%Qc) idx nspecs slidx k).
Proof.
  unfold sum_slots. apply returns_foldM; [| reflexivity].
  intros count i ->. apply returns_bind. intros v Hv.
  apply returns_at_replicate in Hv as ->. apply returns_ret.
  apply Qcplus_0_l.
Qed.

Ltac zero_steps :=
  repeat first
    [ progress cbv zeta
    | match goal with
      | |- returns _ (at_ (replicate _ _) _) => apply returns_at_replicate
      | |- returns _ (sum_slots (replicate _ _) _ _ _ _) =>
          apply returns_sum_slots_zero
      | |- returns _ (Throw _) => intros ? ?; discriminate
      | |- returns _ (_ ≫= _) => apply returns_bind; intros ? ?
      | |- returns _ (if ?b then _ else _) => destruct b
      | |- returns _ (match ?x with _ => _ end) => destruct x
      end ].

(** On the solver that [_setup] leaves, whatever a count getter returns
    is 0: for a compartment, a patch, a tetrahedron and a triangle. *)
Theorem fresh_solver_counts_zero (cv : Integrator) (sd : Statedef.t)
    (comps : list Comp.t) (patches : list Patch.t)
    (tris : list (option Tri.t)) (tets : list (option Tet.t)) (s : TetODE)
    (i j : N) (v : real) :
  _setup cv sd comps patches tris tets = Ret s ->
  (_getCompCount i j s = Ret v -> v = 0%Qc) /\
  (_getPatchCount i j s = Ret v -> v = 0%Qc) /\
  (_getTetCount i j s = Ret v -> v = 0%Qc) /\
  (_getTriCount i j s = Ret v -> v = 0%Qc).
Proof.
  intros Hs.
  destruct (setup_leaves _ _ _ _ _ _ _ Hs) as (_ & Hy & _).
  repeat apply conj; revert v.
  - change (returns (fun v => v = 0%Qc) (_getCompCount i j s)).
    unfold _getCompCount. rewrite Hy. zero_steps.
  - change (returns (fun v => v = 0%Qc) (_getPatchCount i j s)).
    unfold _getPatchCount. rewrite Hy. zero_steps.
  - change (returns (fun v => v = 0%Qc) (_getTetCount i j s)).
    unfold _getTetCount. rewrite Hy. zero_steps.
  - change (returns (fun v => v = 0%Qc) (_getTriCount i j s)).
    unfold _getTriCount. rewrite Hy. zero_steps.
Qed.

Lemma fresh_solver_counts_zero_witness :
  exists v, _getCompCount 0 0 Example.fresh = Ret v /\ v = 0%Qc.
Proof.
  destruct (_getCompCount 0 0 Example.fresh) as [v | e |] eqn:E.
  - exists v. split; [reflexivity |].
    destruct (fresh_solver_counts_zero Example.cv_ok Example.sd0
                [Example.comp0] [Example.patch0] [Some Example.tri0]
                [Some Example.tet0; Some Example.tet1; None] Example.fresh
                0 0 v) as (Hc & _).
    + vm_compute. reflexivity.
    + apply Hc. exact E.
  - vm_compute in E. discriminate E.
  - vm_compute in E. discriminate E.
Defined.

(** ** The processes of the compartments *)

Lemma lhs_players_descriptors (lhs : N -> N) (base nspecs : N)
    (init : list structC) :
  base + nspecs <= UInt.modulus ->
  lhs_players lhs base nspecs init =
    init ++ lhs_descriptors lhs base nspecs.
Proof.
  intros Hfit. unfold lhs_players, lhs_descriptors.
  assert (Hin : forall l, l ∈ range nspecs -> l < nspecs)
    by apply elem_of_range.
  revert init Hin. generalize (range nspecs) as ls.
  induction ls as [| l ls IH]; intros init Hin.
  - cbn. now rewrite app_nil_r.
  - cbn [foldl flat_map].
    assert (Hl : l < nspecs) by (apply Hin; constructor).
    rewrite IH by (intros x Hx; apply Hin; now constructor).
    rewrite UIntFacts.add_small by lia.
    destruct (lhs l =? 0); [reflexivity |].
    now rewrite <- app_assoc.
Qed.

Section VolumeReactions.

Variables (comp : Comp.t) (n : nat).

Let cdef := Comp.def comp.
Let nspecs := Compdef.countSpecs cdef.
Let nreacs := Compdef.countReacs cdef.
Let ntets := N.of_nat (length (Comp.pTets comp)).

Hypothesis n_small : N.of_nat n < UInt.modulus.

Lemma setup_reac_k_ok (j r s : N) (vol : real) (G : matrix) (k : N) :
  k < nspecs -> s + nspecs <= N.of_nat n -> r + j < UInt.modulus ->
  length G = n ->
  setup_reac_k cdef j r s
    (_ccst (Compdef.kcst cdef j) vol (Reacdef.order (Compdef.reacdef cdef j)))
    G k =
    Ret (push_all
           ((fun k =>
               let u := Compdef.reac_upd_bgn cdef j k in
               if (u =? 0)%Z then []
               else [(N.to_nat (s + k),
                      {| ccst := _ccst (Compdef.kcst cdef j) vol
                                   (Reacdef.order (Compdef.reacdef cdef j));
                         r_idx := r + j;
                         upd := u;
                         players :=
                           [{| info :=
                                 lhs_descriptors (Compdef.reac_lhs_bgn cdef j)
                                                 s nspecs |}] |})]) k)
           G).
Proof.
  intros Hk Hs Hr HG. unfold setup_reac_k. cbv beta zeta.
  destruct (Compdef.reac_upd_bgn cdef j k =? 0)%Z; [reflexivity |].
  fold nspecs.
  rewrite lhs_players_descriptors by lia.
  rewrite (UIntFacts.add_small r j) by exact Hr.
  rewrite (UIntFacts.add_small s k) by lia.
  rewrite push_back_at_ok by lia.
  reflexivity.
Qed.

Lemma setup_reac_j_ok (t r s : N) (tet : Tet.t) (G : matrix) (j : N) :
  Comp.pTets comp !! N.to_nat t = Some tet ->
  s + nspecs <= N.of_nat n -> r + j < UInt.modulus -> length G = n ->
  setup_reac_j comp t r s G j =
    Ret (push_all (reac_entries_j cdef (Tet.vol tet) r s j) G).
Proof.
  intros Htet Hs Hr HG. unfold setup_reac_j. cbv zeta.
  unfold Comp.getTet. rewrite (at_lookup _ _ _ Htet), bind_Ret.
  fold cdef nspecs. unfold reac_entries_j. fold nspecs.
  apply foldM_push with (n := n); [| exact HG].
  intros G' k Hk HG'. apply elem_of_range in Hk.
  now apply setup_reac_k_ok.
Qed.

Lemma setup_reac_t_ok (t : nat) (r s : N) (tet : Tet.t) (G : matrix) :
  Comp.pTets comp !! t = Some tet ->
  s + nspecs <= N.of_nat n -> r + nreacs < UInt.modulus -> length G = n ->
  setup_reac_t comp (G, r, s) (N.of_nat t) =
    Ret (push_all
           (flat_map (reac_entries_j cdef (Tet.vol tet) r s) (range nreacs)) G,
         r + nreacs, s + nspecs).
Proof.
  intros Htet Hs Hr HG. unfold setup_reac_t. cbv zeta. fold cdef nreacs nspecs.
  rewrite (foldM_push _ (reac_entries_j cdef (Tet.vol tet) r s) _ n);
    [| | exact HG].
  - rewrite bind_Ret.
    rewrite (UIntFacts.add_small r) by lia.
    rewrite (UIntFacts.add_small s) by lia. reflexivity.
  - intros G' j Hj HG'. apply elem_of_range in Hj.
    apply setup_reac_j_ok; auto; [now rewrite Nat2N.id | lia].
Qed.

Lemma reac_entries_t_lookup (r s : N) (t : nat) (tet : Tet.t) :
  Comp.pTets comp !! t = Some tet ->
  reac_entries_t comp r s t =
    flat_map (reac_entries_j cdef (Tet.vol tet)
                (r + nreacs * N.of_nat t) (s + nspecs * N.of_nat t))
             (range nreacs).
Proof. intros Htet. unfold reac_entries_t. now rewrite Htet. Qed.

Lemma setup_reac_ts_ok (r0 s0 : N) (k a : nat) (G : matrix) :
  (a + k <= length (Comp.pTets comp))%nat ->
  s0 + nspecs * ntets <= N.of_nat n ->
  r0 + nreacs * ntets < UInt.modulus -> length G = n ->
  foldM (setup_reac_t comp)
        (G, r0 + nreacs * N.of_nat a, s0 + nspecs * N.of_nat a)
        (N.of_nat <$> seq a k) =
    Ret (push_all (reac_entries_from comp r0 s0 a k) G,
         r0 + nreacs * N.of_nat (a + k), s0 + nspecs * N.of_nat (a + k)).
Proof.
  revert a G. induction k as [| k IH]; intros a G Hak Hs Hr HG.
  - cbn. now rewrite Nat.add_0_r.
  - cbn [seq fmap list_fmap]. rewrite foldM_cons.
    destruct (lookup_lt_is_Some_2 (Comp.pTets comp) a) as [tet Htet]; [lia |].
    rewrite (setup_reac_t_ok a _ _ tet);
      [| exact Htet | unfold ntets in Hs; nia | unfold ntets in Hr; nia
       | exact HG].
    rewrite bind_Ret.
    replace (r0 + nreacs * N.of_nat a + nreacs)
      with (r0 + nreacs * N.of_nat (S a)) by lia.
    replace (s0 + nspecs * N.of_nat a + nspecs)
      with (s0 + nspecs * N.of_nat (S a)) by lia.
    rewrite IH; [| lia | exact Hs | exact Hr | now rewrite length_push_all].
    unfold reac_entries_from. cbn [seq flat_map].
    rewrite push_all_app, (reac_entries_t_lookup r0 s0 a tet Htet).
    do 3 f_equal; lia.
Qed.

End VolumeReactions.

Lemma comp_base_S (comps : list Comp.t) (a : nat) (c : Comp.t) :
  comps !! a = Some c ->
  comp_base comps (S a) = comp_base comps a + comp_block c /\
  comp_reac_base comps (S a) = comp_reac_base comps a + comp_reac_block c.
Proof.
  intros Hc. unfold comp_base, comp_reac_base.
  rewrite (take_S_r _ _ _ Hc), !fmap_app, !N_sum_app. cbn. lia.
Qed.

Lemma comp_base_le (comps : list Comp.t) (a b : nat) :
  (a <= b)%nat ->
  comp_base comps a <= comp_base comps b /\
  comp_reac_base comps a <= comp_reac_base comps b.
Proof.
  intros Hab. unfold comp_base, comp_reac_base.
  replace b with (a + (b - a))%nat by lia.
  rewrite <- take_take_drop, !fmap_app, !N_sum_app. lia.
Qed.

(** One turn of the loop over compartments. *)
Lemma setup_comp_ok (comps : list Comp.t) (i : nat) (c : Comp.t)
    (G : matrix) (r0 : N) :
  let cdef := Comp.def c in
  let ntets := N.of_nat (length (Comp.pTets c)) in
  comps !! i = Some c -> comp_connected c ->
  N.of_nat (length G) < UInt.modulus ->
  comp_base comps i + comp_block c <= N.of_nat (length G) ->
  r0 + comp_reac_block c < UInt.modulus ->
  setup_comp comps (G, r0, comp_base comps i) (N.of_nat i) =
    Ret (push_all
           (reac_entries c r0 (comp_base comps i) ++
            diff_entries comps (N.of_nat i) c
              (r0 + Compdef.countReacs cdef * ntets)) G,
         r0 + comp_reac_block c, comp_base comps i + comp_block c).
Proof.
  intros cdef ntets Hc [Hsmall Hnb] Hn Hfit Hr. subst cdef ntets.
  unfold comp_block, comp_reac_block in *.
  unfold setup_comp.
  rewrite (at_lookup comps (N.of_nat i) c) by (now rewrite Nat2N.id).
  rewrite bind_Ret. cbv zeta.
  unfold Comp.countTets. rewrite size_small by exact Hsmall.
  rewrite range_unfold, Nat2N.id.
  pose proof (setup_reac_ts_ok c (length G) Hn r0 (comp_base comps i)
                (length (Comp.pTets c)) 0 G) as Hreac.
  rewrite !N.mul_0_r, !N.add_0_r in Hreac.
  rewrite Hreac; [| lia | exact Hfit | nia | reflexivity].
  rewrite bind_Ret. cbn [Nat.add]. cbv beta iota zeta.
  unfold setup_comp_diffs, Comp.countTets.
  rewrite size_small by exact Hsmall.
  rewrite range_unfold, Nat2N.id.
  pose proof (setup_diff_ts_ok comps (N.of_nat i) c (length G)) as Hdiff.
  rewrite Nat2N.id in Hdiff.
  assert (Hi : (i <= length comps)%nat)
    by (apply lookup_lt_Some in Hc; lia).
  specialize (Hdiff Hi Hfit Hn Hnb
                (r0 + Compdef.countReacs (Comp.def c) *
                      N.of_nat (length (Comp.pTets c)))
                (length (Comp.pTets c)) 0%nat
                (push_all (reac_entries_from c r0 (comp_base comps i) 0
                             (length (Comp.pTets c))) G)).
  rewrite N.mul_0_r, N.add_0_r in Hdiff.
  rewrite Hdiff;
    [| lia | nia | now rewrite length_push_all].
  rewrite bind_Ret. cbn [fst snd Nat.add].
  rewrite push_all_app.
  unfold reac_entries, diff_entries.
  do 3 f_equal. rewrite N.mul_add_distr_r. lia.
Qed.

Lemma comp_entries_lookup (comps : list Comp.t) (i : nat) (c : Comp.t) :
  comps !! i = Some c ->
  comp_entries comps i =
    reac_entries c (comp_reac_base comps i) (comp_base comps i) ++
    diff_entries comps (N.of_nat i) c
      (comp_reac_base comps i +
       Compdef.countReacs (Comp.def c) * N.of_nat (length (Comp.pTets c))).
Proof. intros Hc. unfold comp_entries. now rewrite Hc. Qed.

(** The loop over the compartments [a .. a+k-1]. *)
Lemma setup_comps_ok (comps : list Comp.t) (k a : nat) (G : matrix) :
  (a + k <= length comps)%nat ->
  Forall comp_connected comps ->
  N.of_nat (length G) < UInt.modulus ->
  comp_base comps (length comps) <= N.of_nat (length G) ->
  comp_reac_base comps (length comps) < UInt.modulus ->
  foldM (setup_comp comps) (G, comp_reac_base comps a, comp_base comps a)
        (N.of_nat <$> seq a k) =
    Ret (push_all (comps_entries_from comps a k) G,
         comp_reac_base comps (a + k), comp_base comps (a + k)).
Proof.
  revert a G. induction k as [| k IH]; intros a G Hak Hconn Hn Hfit Hr.
  - cbn. now rewrite Nat.add_0_r.
  - cbn [seq fmap list_fmap]. rewrite foldM_cons.
    destruct (lookup_lt_is_Some_2 comps a) as [c Hc]; [lia |].
    destruct (comp_base_S comps a c Hc) as [HbS HrS].
    destruct (comp_base_le comps (S a) (length comps)) as [Hb Hrb]; [lia |].
    rewrite (setup_comp_ok comps a c G);
      [| exact Hc
       | now apply (Forall_lookup_1 _ _ _ _ Hconn Hc)
       | exact Hn | lia | lia].
    rewrite bind_Ret, <- HbS, <- HrS.
    rewrite IH;
      [| lia | exact Hconn | now rewrite length_push_all
       | now rewrite length_push_all | exact Hr].
    unfold comps_entries_from. cbn [seq flat_map].
    rewrite (comp_entries_lookup comps a c Hc), !push_all_app.
    now replace (a + S k)%nat with (S a + k)%nat by lia.
Qed.

Lemma reac_block_wrap (c : Comp.t) :
  N.of_nat (length (Comp.pTets c)) < UInt.modulus ->
  comp_reac_block c < UInt.modulus ->
  (Compdef.countReacs (Comp.def c) +u Compdef.countDiffs (Comp.def c)) *u
    Comp.countTets c = comp_reac_block c.
Proof.
  intros Hsmall Hfit. unfold comp_reac_block in *. unfold Comp.countTets.
  rewrite size_small by exact Hsmall.
  destruct (N.eq_dec (N.of_nat (length (Comp.pTets c))) 0) as [-> | Hpos].
  - unfold UInt.mul. rewrite !N.mul_0_r. reflexivity.
  - rewrite (UIntFacts.add_small (Compdef.countReacs (Comp.def c))) by nia.
    now apply UIntFacts.mul_small.
Qed.

Lemma count_comps_both (comps : list Comp.t) (acc : N * N) :
  Forall comp_connected comps ->
  fst acc + N_sum (comp_block <$> comps) < UInt.modulus ->
  snd acc + N_sum (comp_reac_block <$> comps) < UInt.modulus ->
  foldl setup_count_comp acc comps =
    (fst acc + N_sum (comp_block <$> comps),
     snd acc + N_sum (comp_reac_block <$> comps)).
Proof.
  revert acc. induction comps as [| c comps IH]; intros [a b] Hconn Ha Hb.
  - cbn. f_equal; lia.
  - apply Forall_cons in Hconn as [[Hsmall _] Hconn].
    rewrite !fmap_cons, !N_sum_cons in *. cbn [fst snd] in *.
    cbn [foldl]. unfold setup_count_comp at 2.
    rewrite reac_block_wrap by (exact Hsmall || lia).
    unfold Comp.countTets.
    rewrite mul_size by (unfold comp_block in Ha; lia).
    fold (comp_block c).
    rewrite (UIntFacts.add_small a), (UIntFacts.add_small b) by lia.
    rewrite IH by (cbn [fst snd]; (exact Hconn || lia)).
    cbn [fst snd]. f_equal; lia.
Qed.

(** The loop over the compartments appends [comps_entries_from]. *)
Lemma setup_comps_rows (comps : list Comp.t) (G : matrix) :
  Forall comp_connected comps ->
  N.of_nat (length comps) < UInt.modulus ->
  N.of_nat (length G) < UInt.modulus ->
  comp_base comps (length comps) <= N.of_nat (length G) ->
  comp_reac_base comps (length comps) < UInt.modulus ->
  exists G' : matrix,
    foldM (setup_comp comps) (G, 0, 0) (range (size comps)) =
      Ret (G', comp_reac_base comps (length comps),
           comp_base comps (length comps)) /\
    length G' = length G /\
    forall (x : nat) (row : list structA),
      G !! x = Some row ->
      G' !! x =
        Some (row ++
              processes_at x (comps_entries_from comps 0 (length comps))).
Proof.
  intros Hconn Hcomps Hn Hfit Hr.
  exists (push_all (comps_entries_from comps 0 (length comps)) G).
  split; [| split].
  - rewrite size_small by exact Hcomps.
    rewrite range_unfold, Nat2N.id.
    apply (setup_comps_ok comps (length comps) 0 G); auto.
  - apply length_push_all.
  - intros x row Hrow. now rewrite push_all_lookup, Hrow.
Qed.

(** The loop of [_setup] over the compartments, started on a graph that
    has room for their blocks: when every connected neighbour belongs to
    the compartment of its tetrahedron and the counters stay below 2^32,
    the loop returns, every slot holds what it held followed by its own
    processes of [comps_entries_from] in order, and the two counters end
    at the number of processes and of slots of all compartments. The
    processes of compartment [i] are those of its reactions, tetrahedron
    after tetrahedron, then those of its diffusion rules. *)
Theorem compartment_processes (comps : list Comp.t) (G : matrix) :
  Forall comp_connected comps ->
  N.of_nat (length comps) < UInt.modulus ->
  N.of_nat (length G) < UInt.modulus ->
  comp_base comps (length comps) <= N.of_nat (length G) ->
  comp_reac_base comps (length comps) < UInt.modulus ->
  exists G' : matrix,
    foldM (setup_comp comps) (G, 0, 0) (range (size comps)) =
      Ret (G', comp_reac_base comps (length comps),
           comp_base comps (length comps)) /\
    length G' = length G /\
    forall (x : nat) (row : list structA),
      G !! x = Some row ->
      G' !! x =
        Some (row ++
              processes_at x (comps_entries_from comps 0 (length comps))).
Proof. exact (setup_comps_rows comps G). Qed.

Lemma example_comp_connected : comp_connected Example.comp0.
Proof.
  split; [vm_compute; reflexivity |].
  intros t tet l nb Ht Hl Hnb.
  assert (Hcases : l = 0 \/ l = 1 \/ l = 2 \/ l = 3) by lia.
  destruct t as [| [| t]]; cbn in Ht; [| | discriminate];
    injection Ht as <-;
    destruct Hcases as [-> | [-> | [-> | ->]]];
    vm_compute in Hnb; try discriminate;
    injection Hnb as <-; vm_compute; reflexivity.
Qed.

Lemma compartment_processes_witness :
  exists G' : matrix,
    foldM (setup_comp [Example.comp0]) (replicate 6 [], 0, 0)
          (range (size [Example.comp0])) =
      Ret (G', comp_reac_base [Example.comp0] 1,
           comp_base [Example.comp0] 1) /\
    length G' = 6%nat /\
    forall (x : nat) (row : list structA),
      replicate 6 [] !! x = Some row ->
      G' !! x =
        Some (row ++
              processes_at x (comps_entries_from [Example.comp0] 0 1)).
Proof.
  apply (compartment_processes [Example.comp0] (replicate 6 [])).
  - constructor; [apply example_comp_connected | constructor].
  - vm_compute. reflexivity.
  - vm_compute. reflexivity.
  - vm_compute. discriminate.
  - vm_compute. reflexivity.
Defined.

(** For a model without patches whose compartments are laid out within
    the range of [uint], [_setup] returns as soon as the integrator
    accepts its initialisation: the final checks on the two counters
    hold, the totals are the numbers of slots and of processes of the
    compartments, and the row of every slot holds exactly the slot's
    processes of [comps_entries_from], in order. *)
Theorem setup_compartments_only (cv : Integrator) (sd : Statedef.t)
    (comps : list Comp.t) (tris : list (option Tri.t))
    (tets : list (option Tet.t)) :
  let n := comp_base comps (length comps) in
  Forall comp_connected comps ->
  N.of_nat (length comps) < UInt.modulus ->
  n < UInt.modulus ->
  comp_reac_base comps (length comps) < UInt.modulus ->
  (0 <= cv_flag (cv [CVodeCreate;
                     CVodeInit 0%Qc (replicate (N.to_nat n) 0%Qc)]))%Z ->
  exists s,
    _setup cv sd comps [] tris tets = Ret s /\
    pSpecs_tot s = n /\
    pReacs_tot s = comp_reac_base comps (length comps) /\
    length (pSpec_matrixsub s) = N.to_nat n /\
    forall x : nat,
      (x < N.to_nat n)%nat ->
      pSpec_matrixsub s !! x =
        Some (processes_at x (comps_entries_from comps 0 (length comps))).
Proof.
  intros n Hconn Hcomps Hn Hr Hcv. subst n.
  assert (Hbase : comp_base comps (length comps) =
                  N_sum (comp_block <$> comps))
    by (unfold comp_base; now rewrite firstn_all).
  assert (Hrbase : comp_reac_base comps (length comps) =
                   N_sum (comp_reac_block <$> comps))
    by (unfold comp_reac_base; now rewrite firstn_all).
  set (n := comp_base comps (length comps)) in *.
  set (r := comp_reac_base comps (length comps)) in *.
  assert (Htot : setup_totals comps [] = (n, r)).
  { unfold setup_totals. cbn [foldl].
    rewrite count_comps_both; cbn [fst snd]; auto; [f_equal |..]; lia. }
  destruct (setup_comps_rows comps (replicate (N.to_nat n) []))
    as (G' & Hloop & Hlen & Hrows); auto.
  { rewrite length_replicate. lia. }
  { rewrite length_replicate. fold n. lia. }
  eexists. split.
  { unfold _setup. rewrite Htot. cbv beta iota zeta.
    rewrite Hloop, bind_Ret. fold n r.
    change (range (size (@nil Patch.t))) with (@nil N).
    rewrite foldM_nil, bind_Ret. cbv beta iota zeta.
    rewrite (assert_true _ (N.eqb_refl n)), bind_Ret.
    rewrite (assert_true _ (N.eqb_refl r)), bind_Ret.
    unfold check_flag. rewrite (proj2 (Z.ltb_ge _ _) Hcv), bind_Ret.
    reflexivity. }
  cbn [pSpecs_tot pReacs_tot pSpec_matrixsub].
  repeat apply conj; try reflexivity.
  - now rewrite Hlen, length_replicate.
  - intros x Hx. rewrite (Hrows x []); [reflexivity |].
    now apply lookup_replicate_2.
Qed.

Lemma setup_compartments_only_witness :
  exists s,
    _setup Example.cv_ok Example.sd0 [Example.comp0] [] []
           [Some Example.tet0; Some Example.tet1; None] = Ret s /\
    pSpecs_tot s = 4 /\ pReacs_tot s = 4.
Proof.
  destruct (setup_compartments_only Example.cv_ok Example.sd0
              [Example.comp0] []
              [Some Example.tet0; Some Example.tet1; None])
    as (s & Hs & Hn & Hr & _).
  - constructor; [apply example_comp_connected | constructor].
  - vm_compute. reflexivity.
  - vm_compute. reflexivity.
  - vm_compute. reflexivity.
  - vm_compute. discriminate.
  - exists s. split; [exact Hs |]. split; [exact Hn | exact Hr].
Defined.

(** ** Diffusion moves molecules, it does not make or lose them *)

Lemma Qc_sum_app (l1 l2 : list real) :
  Qc_sum (l1 ++ l2) = (Qc_sum l1 + Qc_sum l2)%Qc.
Proof.
  induction l1 as [| a l1 IH].
  - change (Qc_sum ([] ++ l2)) with (Qc_sum l2).
    change (Qc_sum []) with 0%Qc. ring.
  - change (Qc_sum ((a :: l1) ++ l2)) with (a + Qc_sum (l1 ++ l2))%Qc.
    rewrite IH, Qc_sum_cons. ring.
Qed.

Lemma Qc_sum_flat_map_zero {A B : Type} (f : B -> real) (g : A -> list B)
    (l : list A) :
  (forall a, a ∈ l -> Qc_sum (f <$> g a) = 0%Qc) ->
  Qc_sum (f <$> flat_map g l) = 0%Qc.
Proof.
  induction l as [| a l IH]; intros H; [reflexivity |].
  cbn [flat_map]. rewrite fmap_app, Qc_sum_app.
  rewrite H by constructor.
  rewrite IH by (intros b Hb; apply H; now constructor).
  ring.
Qed.

Lemma slot_derivative_snoc (y : list real) (row : list structA) (r : structA) :
  slot_derivative y (row ++ [r]) =
    (slot_derivative y row + process_rate y r)%Qc.
Proof.
  unfold slot_derivative. rewrite fmap_app, Qc_sum_app.
  cbn [fmap list_fmap]. rewrite Qc_sum_cons.
  change (Qc_sum []) with 0%Qc. ring.
Qed.

(** Appending entries adds their rates to the sum of the derivatives. *)
Lemma derivative_sum_push_all (y : list real) (es : list (nat * structA))
    (G : matrix) :
  Forall (fun e => (e.1 < length G)%nat) es ->
  Qc_sum (slot_derivative y <$> push_all es G) =
    (Qc_sum (slot_derivative y <$> G) +
     Qc_sum ((fun e => process_rate y e.2) <$> es))%Qc.
Proof.
  revert G. induction es as [| e es IH]; intros G Hes.
  - change (push_all [] G) with G. cbn [fmap list_fmap].
    change (Qc_sum []) with 0%Qc. ring.
  - apply Forall_cons in Hes as [He Hes].
    change (push_all (e :: es) G) with (push_all es (push_at e G)).
    rewrite IH by (now rewrite length_push_at).
    rewrite fmap_cons, Qc_sum_cons.
    destruct (lookup_lt_is_Some_2 G e.1 He) as [row Hrow].
    unfold push_at. rewrite Hrow.
    rewrite insert_take_drop by exact He.
    rewrite <- (take_drop_middle G e.1 row Hrow) at 3.
    rewrite !fmap_app, !fmap_cons, !Qc_sum_app, !Qc_sum_cons.
    rewrite slot_derivative_snoc. ring.
Qed.

Lemma descriptors_push_all (y : list real) (es : list (nat * structA))
    (G : matrix) :
  Forall (entry_in_range (length y)) es ->
  descriptors_in_range G y -> descriptors_in_range (push_all es G) y.
Proof.
  revert G. induction es as [| e es IH]; intros G Hes HG; [exact HG |].
  apply Forall_cons in Hes as [[_ He] Hes].
  change (push_all (e :: es) G) with (push_all es (push_at e G)).
  apply IH; [exact Hes |]. unfold push_at.
  destruct (G !! e.1) as [row |] eqn:Hrow; [| exact HG].
  apply Forall_insert; [exact HG |].
  apply Forall_app. split.
  - exact (proj1 (Forall_lookup _ _) HG _ _ Hrow).
  - now constructor.
Qed.

Lemma diff_pair_rates (y : list real) (c : real) (r d : N) :
  (process_rate y (diff_out c r d) + process_rate y (diff_in c r d))%Qc = 0%Qc.
Proof.
  unfold process_rate, diff_out, diff_in, descriptors. cbn.
  assert (Hm : Q2Qc (inject_Z (-1)) = (- (1))%Qc)
    by (apply Qc_is_canon; reflexivity).
  assert (Hp : Q2Qc (inject_Z 1) = 1%Qc) by (apply Qc_is_canon; reflexivity).
  rewrite Hm, Hp. ring.
Qed.

Section DiffusionTotals.

Variables (comps : list Comp.t) (i : N) (comp : Comp.t) (n : nat).

Let cdef := Comp.def comp.
Let nspecs := Compdef.countSpecs cdef.
Let ntets := N.of_nat (length (Comp.pTets comp)).
Let base := comp_base comps (N.to_nat i).

Hypothesis block_fits : base + nspecs * ntets <= N.of_nat n.
Hypothesis neighbours_local :
  forall (t : nat) (tet : Tet.t) (l nb : N),
    Comp.pTets comp !! t = Some tet -> l < 4 ->
    Tet.nextTet tet l = Some nb -> Comp.getTet_GtoL comp nb < ntets.

Lemma diff_entries_rates (y : list real) (r0 : N) (a k : nat) :
  Qc_sum ((fun e => process_rate y e.2) <$>
          diff_entries_from comps i comp r0 a k) = 0%Qc.
Proof.
  unfold diff_entries_from, diff_entries_t, diff_entries_k, diff_entries_l.
  apply Qc_sum_flat_map_zero. intros t _.
  apply Qc_sum_flat_map_zero. intros j _.
  apply Qc_sum_flat_map_zero. intros kk _.
  destruct (Compdef.diff_dep _ _ _); [| reflexivity].
  destruct (Comp.pTets comp !! _) as [tet |]; [| reflexivity].
  apply Qc_sum_flat_map_zero. intros l _.
  destruct (Tet.nextTet tet l) as [nb |]; [| reflexivity].
  unfold diff_pair. cbn [fmap list_fmap snd].
  rewrite !Qc_sum_cons. change (Qc_sum []) with 0%Qc.
  rewrite Qcplus_0_r. apply diff_pair_rates.
Qed.

Lemma diff_entries_in_range (r0 : N) (a k : nat) :
  (a + k <= length (Comp.pTets comp))%nat ->
  Forall (entry_in_range n) (diff_entries_from comps i comp r0 a k).
Proof.
  intros Hak.
  unfold diff_entries_from, diff_entries_t, diff_entries_k, diff_entries_l.
  apply Forall_flat_map, Forall_forall. intros t Ht.
  apply elem_of_seq in Ht.
  apply Forall_flat_map, Forall_forall. intros j _.
  apply Forall_flat_map, Forall_forall. intros kk Hkk.
  apply elem_of_range in Hkk.
  destruct (Compdef.diff_dep _ _ _); [| constructor].
  rewrite Nat2N.id.
  destruct (Comp.pTets comp !! t) as [tet |] eqn:Htet; [| constructor].
  apply Forall_flat_map, Forall_forall. intros l Hl.
  apply elem_of_range in Hl.
  destruct (Tet.nextTet tet l) as [nb |] eqn:Hnb; [| constructor].
  pose proof (neighbours_local _ _ _ _ Htet Hl Hnb) as Hloc.
  fold cdef nspecs in Hkk.
  assert (Hd : base + nspecs * N.of_nat t + kk < N.of_nat n)
    by (unfold ntets in *; nia).
  assert (Ha : base + nspecs * Comp.getTet_GtoL comp nb + kk < N.of_nat n)
    by (unfold ntets in *; nia).
  unfold diff_pair. fold cdef nspecs base.
  repeat constructor; cbn; lia.
Qed.

End DiffusionTotals.

(** On a process graph that holds only the volume diffusion processes of
    a compartment, as the builder lays them out, the derivatives that
    [f_cvode] writes add up to 0 whatever the state vector is: the two
    processes of every connection cancel. *)
Theorem diffusion_conserves_total (comps : list Comp.t) (i : N)
    (comp : Comp.t) (r0 : N) (t : real) (y ydot : list real) :
  let nspecs := Compdef.countSpecs (Comp.def comp) in
  let ndiffs := Compdef.countDiffs (Comp.def comp) in
  let ntets := N.of_nat (length (Comp.pTets comp)) in
  let n := length y in
  (N.to_nat i <= length comps)%nat ->
  comp_base comps (N.to_nat i) + nspecs * ntets <= N.of_nat n ->
  N.of_nat n < UInt.modulus ->
  ntets < UInt.modulus ->
  r0 + ndiffs * ntets < UInt.modulus ->
  (forall (t : nat) (tet : Tet.t) (l nb : N),
     Comp.pTets comp !! t = Some tet -> l < 4 ->
     Tet.nextTet tet l = Some nb -> Comp.getTet_GtoL comp nb < ntets) ->
  length ydot = n ->
  exists (G' : matrix) (r' : N) (m' : rhs_memory),
    setup_comp_diffs comps i comp (replicate n []) r0 = Ret (G', r') /\
    f_cvode t {| mem_matrixsub := G'; mem_y := y; mem_ydot := ydot |} =
      Ret (0%Z, m') /\
    length (mem_ydot m') = n /\
    Qc_sum (mem_ydot m') = 0%Qc.
Proof.
  intros nspecs ndiffs ntets n Hi Hfit Hn Hntets Hr Hnb Hydot.
  set (es := diff_entries_from comps i comp r0 0 (length (Comp.pTets comp))).
  set (G' := push_all es (replicate n [])).
  assert (Hrange : Forall (entry_in_range n) es).
  { apply (diff_entries_in_range comps i comp n Hfit Hnb). lia. }
  assert (HlenG : length G' = n).
  { unfold G'. now rewrite length_push_all, length_replicate. }
  assert (Hdesc : descriptors_in_range G' y).
  { apply descriptors_push_all; [exact Hrange |].
    apply Forall_replicate. constructor. }
  exists G', (r0 + ndiffs * ntets).
  destruct (foldM_sp_ok y G' Hdesc ydot 0) as [i' Hfold];
    [lia | cbn; lia |].
  eexists. split; [| split; [| split]].
  - unfold setup_comp_diffs, Comp.countTets.
    rewrite size_small by exact Hntets.
    rewrite range_unfold, Nat2N.id.
    pose proof (setup_diff_ts_ok comps i comp n Hi Hfit Hn Hnb
                  r0 (length (Comp.pTets comp)) 0%nat (replicate n [])) as H.
    rewrite N.mul_0_r, N.add_0_r in H.
    apply H; [lia | exact Hr | apply length_replicate].
  - unfold f_cvode. cbn [mem_matrixsub mem_y mem_ydot].
    rewrite Hfold, bind_Ret. reflexivity.
  - cbn [mem_ydot fst]. change (N.to_nat 0) with 0%nat.
    rewrite take_0, drop_ge by lia.
    now rewrite app_nil_r, length_app, length_fmap.
  - cbn [mem_ydot fst]. change (N.to_nat 0) with 0%nat.
    rewrite take_0, drop_ge by lia.
    rewrite app_nil_r. cbn [app]. unfold G'.
    rewrite derivative_sum_push_all.
    + unfold es. rewrite (diff_entries_rates comps i comp y).
      rewrite Qcplus_0_r.
      clear. induction n as [| k IH]; [reflexivity |].
      cbn [replicate fmap list_fmap]. rewrite Qc_sum_cons, IH.
      apply Qcplus_0_l.
    + rewrite length_replicate.
      eapply Forall_impl; [exact Hrange |]. now intros e [He _].
Qed.

Lemma diffusion_conserves_total_witness :
  exists (G' : matrix) (r' : N) (m' : rhs_memory),
    setup_comp_diffs [Example.comp0] 0 Example.comp0 (replicate 4 []) 2 =
      Ret (G', r') /\
    f_cvode 0%Qc {| mem_matrixsub := G';
                    mem_y := Q2Qc <$> [5; 0; 1; 7]%Q;
                    mem_ydot := replicate 4 0%Qc |} = Ret (0%Z, m') /\
    length (mem_ydot m') = 4%nat /\
    Qc_sum (mem_ydot m') = 0%Qc.
Proof.
  destruct (diffusion_conserves_total [Example.comp0] 0 Example.comp0 2 0%Qc
              (Q2Qc <$> [5; 0; 1; 7]%Q) (replicate 4 0%Qc))
    as (G' & r' & m' & Hsetup & Hf & Hlen & Hsum).
  - cbn. lia.
  - vm_compute. discriminate.
  - vm_compute. reflexivity.
  - vm_compute. reflexivity.
  - vm_compute. reflexivity.
  - apply example_comp_connected.
  - reflexivity.
  - exists G', r', m'. repeat apply conj; assumption.
Defined.

(** ** The count of a species in a patch *)

(** [_setPatchCount] followed by [_getPatchCount]. *)
Lemma setPatchCount_shares (pidx sidx : N) (n : real) (s : TetODE)
    (p : Patch.t) :
  let nspecs := Patchdef.countSpecs (Patch.def p) in
  let slidx := Patchdef.specG2L (Patch.def p) sidx in
  let base := patch_base (pComps s) (pPatches s) (N.to_nat pidx) in
  let slot := slot_of base nspecs slidx in
  pPatches s !! N.to_nat pidx = Some p ->
  N.of_nat (length (pComps s)) < UInt.modulus ->
  N.of_nat (length (pPatches s)) < UInt.modulus ->
  sidx < Statedef.countSpecs (statedef s) ->
  slidx <> LIDX_UNDEFINED -> slidx < nspecs ->
  N.of_nat (length (y_cvode s)) = pSpecs_tot s ->
  pSpecs_tot s < UInt.modulus ->
  base + nspecs * N.of_nat (length (Patch.pTris p)) <= pSpecs_tot s ->
  Patch.area p = Qc_sum (Tri.area <$> Patch.pTris p) ->
  Patch.area p <> 0%Qc ->
  exists s',
    _setPatchCount pidx sidx n s = Done tt s' /\
    pReinit s' = true /\
    (forall i tri,
       Patch.pTris p !! i = Some tri ->
       y_cvode s' !! slot i = Some (n * (Tri.area tri / Patch.area p))%Qc) /\
    (forall x,
       (forall i, (i < length (Patch.pTris p))%nat -> x <> slot i) ->
       y_cvode s' !! x = y_cvode s !! x) /\
    _getPatchCount pidx sidx s' = Ret n.
Proof.
  intros nspecs slidx base slot Hp Hcomps Hpatches Hsidx Hdef Hsl Hlen Htot
         Hblock Harea Harea0.
  set (tris := Patch.pTris p) in *.
  assert (Hpidx : (N.to_nat pidx < length (pPatches s))%nat)
    by (now apply lookup_lt_Some in Hp).
  assert (Hntris : (0 < length tris)%nat).
  { destruct tris; [| cbn; lia]. now rewrite Harea in Harea0. }
  assert (Hns : Patchdef.countSpecs (Patch.def p) = nspecs) by reflexivity.
  assert (Hsl' : Patchdef.specG2L (Patch.def p) sidx = slidx) by reflexivity.
  clearbody nspecs slidx.
  assert (Hsmall : N.of_nat (length tris) < UInt.modulus) by nia.
  assert (Hsize : Patch.countTris p = N.of_nat (length tris)).
  { apply size_small. fold tris. exact Hsmall. }
  destruct (step_up_patch_base (pComps s) (pPatches s) (N.to_nat pidx))
    as [Hcbase Hpbase]; [exact Hcomps | lia | fold base; lia |].
  rewrite N2Nat.id in Hpbase. fold base in Hpbase.
  assert (Hcle : N_sum (comp_block <$> pComps s) <= base)
    by (unfold base, patch_base; lia).
  clearbody base.
  assert (Hfit : forall i, (i < length tris)%nat ->
            base + N.of_nat i * nspecs + slidx < pSpecs_tot s)
    by (intros i Hi; nia).
  assert (Hlast : base + (N.of_nat (length tris) - 1) * nspecs + slidx
                  < pSpecs_tot s).
  { specialize (Hfit (length tris - 1)%nat ltac:(lia)).
    replace (N.of_nat (length tris) - 1)
      with (N.of_nat (length tris - 1)) by lia. exact Hfit. }
  assert (Hassert_get :
    (base +u ((Patch.countTris p -u 1) *u nspecs) +u slidx
       <? pSpecs_tot s) = true).
  { rewrite Hsize, sub_1_small by lia.
    rewrite (UIntFacts.mul_small (N.of_nat (length tris) - 1)) by lia.
    rewrite (UIntFacts.add_small base) by lia.
    rewrite UIntFacts.add_small by lia. apply N.ltb_lt. lia. }
  assert (Hassert_set :
    (base +u ((Patch.countTris p -u 1) *u nspecs +u slidx)
       <? pSpecs_tot s) = true).
  { rewrite Hsize, sub_1_small by lia.
    rewrite slot_small by lia. apply N.ltb_lt. lia. }
  assert (Hpsize : (pidx <? size (pPatches s)) = true).
  { rewrite size_small by exact Hpatches. apply N.ltb_lt. lia. }
  assert (Hcfirst : (N_sum (comp_block <$> pComps s) <? pSpecs_tot s) = true).
  { apply N.ltb_lt. specialize (Hfit 0%nat Hntris). lia. }
  assert (Hpdef : patchdef (pPatches s) pidx = Ret (Patch.def p)).
  { unfold patchdef. now rewrite (at_lookup _ _ _ Hp), bind_Ret. }
  destruct (set_slots_loop base nspecs slidx ltac:(lia) tris
              (fun tri => n * (Tri.area tri / Patch.area p))%Qc
              (length tris) 0 (y_cvode s))
    as (y' & Hloop & Hlen' & Hset & Hrest).
  { lia. }
  { intros i Hi. specialize (Hfit i Hi). unfold slot_of. lia. }
  { intros i Hi. specialize (Hfit i Hi). lia. }
  exists (set_pReinit true (set_y_cvode y' s)).
  split.
  { unfold _setPatchCount. rewrite run_bind_get.
    rewrite (run_bind_lift _ tt) by (now apply assert_true).
    rewrite (run_bind_lift _ tt) by (apply assert_true; now apply N.ltb_lt).
    rewrite (run_bind_lift _ _ _ _ Hpdef). cbv zeta.
    rewrite Hsl', Hns. rewrite (proj2 (N.eqb_neq _ _) Hdef).
    rewrite (run_bind_lift _ _ _ _ Hcbase).
    rewrite (run_bind_lift _ tt) by (now apply assert_true).
    rewrite (run_bind_lift _ _ _ _ Hpbase).
    rewrite (run_bind_lift _ p) by (now apply at_lookup).
    rewrite (run_bind_lift _ tt) by (now apply assert_true).
    unfold Patch.getTri. fold tris.
    rewrite range_unfold, Hsize, Nat2N.id.
    rewrite (run_bind_lift _ y') by exact Hloop.
    reflexivity. }
  split; [reflexivity |].
  split.
  { intros i tri Hi. cbn [y_cvode set_pReinit set_y_cvode].
    apply Hset; [| exact Hi]. apply lookup_lt_Some in Hi. lia. }
  split.
  { intros x Hx. cbn [y_cvode set_pReinit set_y_cvode].
    apply Hrest. intros i Hi. apply Hx. lia. }
  unfold _getPatchCount.
  cbn [pComps pPatches statedef pSpecs_tot y_cvode set_pReinit set_y_cvode].
  rewrite (assert_true _ Hpsize), bind_Ret.
  rewrite (assert_true _ (proj2 (N.ltb_lt _ _) Hsidx)), bind_Ret.
  rewrite Hpdef, bind_Ret. cbv zeta.
  rewrite Hsl', Hns. rewrite (proj2 (N.eqb_neq _ _) Hdef).
  rewrite Hcbase, bind_Ret.
  rewrite (assert_true _ Hcfirst), bind_Ret.
  rewrite Hpbase, bind_Ret. rewrite (at_lookup _ _ _ Hp), bind_Ret.
  rewrite (assert_true _ Hassert_get), bind_Ret.
  unfold sum_slots. rewrite range_unfold, Hsize, Nat2N.id.
  rewrite (sum_slots_loop base nspecs slidx ltac:(lia)
             (fun i => from_option
                         (fun tri => n * (Tri.area tri / Patch.area p))%Qc
                         0%Qc (tris !! i))).
  - f_equal. rewrite fmap_seq_lookup, (Qc_sum_fraction _ _ _ _ Harea0).
    rewrite <- Harea. field. exact Harea0.
  - intros i Hi. destruct (lookup_lt_is_Some_2 tris i) as [tri Ht]; [lia |].
    rewrite Ht. apply Hset; [lia | exact Ht].
  - intros i Hi. specialize (Hfit i ltac:(lia)). lia.
Qed.

(** For a patch [p] at index [pidx] whose block lies in the state vector,
    whose area is the sum of the areas of its triangles and is not 0, and
    a species defined in it: [_setPatchCount] returns, gives every
    triangle the share [n * area(tri) / area(p)] in the slot of the
    species, leaves every other slot as it was and raises the
    pending-reinit flag; [_getPatchCount] then returns [n] (in exact
    arithmetic). *)
Theorem patch_count_set_then_get (pidx sidx : N) (n : real) (s : TetODE)
    (p : Patch.t) :
  let nspecs := Patchdef.countSpecs (Patch.def p) in
  let slidx := Patchdef.specG2L (Patch.def p) sidx in
  let base := patch_base (pComps s) (pPatches s) (N.to_nat pidx) in
  let slot := slot_of base nspecs slidx in
  pPatches s !! N.to_nat pidx = Some p ->
  N.of_nat (length (pComps s)) < UInt.modulus ->
  N.of_nat (length (pPatches s)) < UInt.modulus ->
  sidx < Statedef.countSpecs (statedef s) ->
  slidx <> LIDX_UNDEFINED -> slidx < nspecs ->
  N.of_nat (length (y_cvode s)) = pSpecs_tot s ->
  pSpecs_tot s < UInt.modulus ->
  base + nspecs * N.of_nat (length (Patch.pTris p)) <= pSpecs_tot s ->
  Patch.area p = Qc_sum (Tri.area <$> Patch.pTris p) ->
  Patch.area p <> 0%Qc ->
  exists s',
    _setPatchCount pidx sidx n s = Done tt s' /\
    pReinit s' = true /\
    (forall i tri,
       Patch.pTris p !! i = Some tri ->
       y_cvode s' !! slot i = Some (n * (Tri.area tri / Patch.area p))%Qc) /\
    (forall x,
       (forall i, (i < length (Patch.pTris p))%nat -> x <> slot i) ->
       y_cvode s' !! x = y_cvode s !! x) /\
    _getPatchCount pidx sidx s' = Ret n.
Proof. exact (setPatchCount_shares pidx sidx n s p). Qed.

Lemma patch_count_set_then_get_witness :
  exists s',
    _setPatchCount 0 2 (Q2Qc 8) Example.ran = Done tt s' /\
    _getPatchCount 0 2 s' = Ret (Q2Qc 8).
Proof.
  destruct (patch_count_set_then_get 0 2 (Q2Qc 8) Example.ran Example.patch0)
    as (s' & Hset & _ & _ & _ & Hget).
  - vm_compute. reflexivity.
  - vm_compute. reflexivity.
  - vm_compute. reflexivity.
  - vm_compute. reflexivity.
  - vm_compute. discriminate.
  - vm_compute. reflexivity.
  - vm_compute. reflexivity.
  - vm_compute. reflexivity.
  - vm_compute. discriminate.
  - apply Qc_is_canon. vm_compute. reflexivity.
  - vm_compute. discriminate.
  - exists s'. now split.
Defined.

(** ** The interface for triangles on this solver *)

Ltac api_cases e name :=
  repeat match goal with
  | |- context [API.mesh_countTris e] => destruct (API.mesh_countTris e)
  | |- context [(?a <=? ?b)] => destruct (a <=? b)
  | |- context [API.getSpecIdx e name] => destruct (API.getSpecIdx e name)
  | |- context [API.getSReacIdx e name] => destruct (API.getSReacIdx e name)
  | |- context [API.getOhmicCurrIdx e name] =>
      destruct (API.getOhmicCurrIdx e name)
  | |- context [API.getGHKcurrIdx e name] =>
      destruct (API.getGHKcurrIdx e name)
  | |- context [API.getVDepSReacIdx e name] =>
      destruct (API.getVDepSReacIdx e name)
  end.

(** Of the operations of the interface on triangles, this solver
    supports the area, the count and the amount of a species and the
    setting of a surface reaction constant. Every other one, whatever its
    arguments and the state of the solver, does not return normally: it
    raises an exception (or fails in the name lookup), and the solver is
    left as it was. *)
Theorem api_tri_unsupported (e : API.env) (tidx : N) (name : string)
    (x : real) (b : bool) (s : TetODE) :
  let V := TetODE_virtuals in
  (returns (fun _ => False) (API.getTriSpecDefined e tidx name s) /\
   returns (fun _ => False) (API.getTriClamped e tidx name s) /\
   returns (fun _ => False) (API.getTriSReacK e tidx name s) /\
   returns (fun _ => False) (API.getTriSReacActive e tidx name s) /\
   returns (fun _ => False) (API.getTriSReacH e tidx name s) /\
   returns (fun _ => False) (API.getTriSReacC e tidx name s) /\
   returns (fun _ => False) (API.getTriSReacA e tidx name s) /\
   returns (fun _ => False) (API.getTriV e tidx s) /\
   returns (fun _ => False) (API.getTriVClamped e tidx s) /\
   returns (fun _ => False) (API.getTriOhmicI e tidx s) /\
   returns (fun _ => False) (API.getTriOhmicI_oc e tidx name s) /\
   returns (fun _ => False) (API.getTriGHKI e tidx s) /\
   returns (fun _ => False) (API.getTriGHKI_ghk e tidx name s) /\
   returns (fun _ => False) (API.getTriI e tidx s) /\
   returns (fun _ => False) (API.getTriVDepSReacActive e tidx name s)) /\
  (refuses (API.setTriArea e tidx x) s /\
   refuses (API.setTriClamped e tidx name b) s /\
   refuses (API.setTriSReacActive e tidx name b) s /\
   refuses (API.setTriV e tidx x) s /\
   refuses (API.setTriVClamped e tidx b) s /\
   refuses (API.setTriIClamp e tidx x) s /\
   refuses (API.setTriVDepSReacActive e tidx name b) s).
Proof.
  intros V. split.
  - repeat apply conj; intros v;
      [ unfold API.getTriSpecDefined | unfold API.getTriClamped
      | unfold API.getTriSReacK | unfold API.getTriSReacActive
      | unfold API.getTriSReacH | unfold API.getTriSReacC
      | unfold API.getTriSReacA | unfold API.getTriV
      | unfold API.getTriVClamped | unfold API.getTriOhmicI
      | unfold API.getTriOhmicI_oc | unfold API.getTriGHKI
      | unfold API.getTriGHKI_ghk | unfold API.getTriI
      | unfold API.getTriVDepSReacActive ];
      api_cases e name; discriminate.
  - repeat apply conj;
      [ unfold refuses, API.setTriArea | unfold refuses, API.setTriClamped
      | unfold refuses, API.setTriSReacActive | unfold refuses, API.setTriV
      | unfold refuses, API.setTriVClamped | unfold refuses, API.setTriIClamp
      | unfold refuses, API.setTriVDepSReacActive ];
      api_cases e name; cbn; exact eq_refl || exact I.
Qed.



(** When the mesh has as many triangles as the solver has triangle
    slots, [getTriArea] of the interface is decided by the index alone:
    outside the mesh it raises [ArgErr], for a triangle that belongs to
    no patch it raises [ArgErr], otherwise it returns the area of the
    triangle. It never fails an assertion. *)
Theorem api_getTriArea_total (e : API.env) (tidx : N) (s : TetODE) :
  let V := TetODE_virtuals in
  API.mesh_countTris e = Some (N.of_nat (length (pTris s))) ->
  match pTris s !! N.to_nat tidx with
  | None =>
      API.getTriArea e tidx s = Throw (ArgErr "Triangle index out of range.")
  | Some None =>
      exists msg, API.getTriArea e tidx s = Throw (ArgErr msg)
  | Some (Some tri) => API.getTriArea e tidx s = Ret (Tri.area tri)
  end.
Proof.
  intros V Hmesh. unfold API.getTriArea. rewrite Hmesh.
  destruct (element_measure_lookup tidx 0 0%Qc s) as (_ & Harea & _ & Hnull).
  destruct (pTris s !! N.to_nat tidx) as [[tri |] |] eqn:Ht.
  - assert (Hlt : tidx < N.of_nat (length (pTris s)))
      by (apply lookup_lt_Some in Ht; lia).
    rewrite (proj2 (N.leb_gt _ _) Hlt).
    cbn [API._getTriArea V TetODE_virtuals].
    exact (Harea tri eq_refl).
  - assert (Hlt : tidx < N.of_nat (length (pTris s)))
      by (apply lookup_lt_Some in Ht; lia).
    rewrite (proj2 (N.leb_gt _ _) Hlt).
    cbn [API._getTriArea V TetODE_virtuals].
    exact (Hnull eq_refl).
  - apply lookup_ge_None in Ht.
    assert (Hge : N.of_nat (length (pTris s)) <= tidx) by lia.
    now rewrite (proj2 (N.leb_le _ _) Hge).
Qed.

Lemma api_getTriArea_total_witness :
  let e := {| API.mesh_countTris := Some 1;
              API.getSpecIdx := fun _ => Ret 3;
              API.getSReacIdx := fun _ => Ret 0;
              API.getOhmicCurrIdx := fun _ => Throw (ArgErr "unknown");
              API.getGHKcurrIdx := fun _ => Throw (ArgErr "unknown");
              API.getVDepSReacIdx := fun _ => Throw (ArgErr "unknown") |} in
  API.getTriArea (V := TetODE_virtuals) e 0 Example.ran = Ret (Q2Qc 2) /\
  API.getTriArea (V := TetODE_virtuals) e 1 Example.ran =
    Throw (ArgErr "Triangle index out of range.").
Proof.
  intros e. split.
  - apply (api_getTriArea_total e 0 Example.ran). reflexivity.
  - apply (api_getTriArea_total e 1 Example.ran). reflexivity.
Defined.

(** ** The rate table of a voltage-dependent transition *)

Lemma Qfloor_Q2Qc (q : Q) : Qfloor (Q2Qc q) = Qfloor q.
Proof. cbn [this Q2Qc]. now rewrite Qred_correct. Qed.

Lemma Qceiling_Q2Qc (q : Q) : Qceiling (Q2Qc q) = Qceiling q.
Proof. cbn [this Q2Qc]. now rewrite Qred_correct. Qed.

Lemma Qc_floor_bounds (x : real) :
  (Q2Qc (inject_Z (Qfloor x)) <= x)%Qc /\
  (x < Q2Qc (inject_Z (Qfloor x)) + 1)%Qc.
Proof.
  split.
  - unfold Qcle. cbn [this Q2Qc]. rewrite Qred_correct. apply Qfloor_le.
  - unfold Qclt. cbn [this Q2Qc Qcplus]. rewrite !Qred_correct.
    apply Qlt_le_trans with (inject_Z (Qfloor x + 1)); [apply Qlt_floor |].
    rewrite inject_Z_plus. apply Qle_refl.
Qed.

Lemma Qc_floor_nonneg (x : real) : (0 <= x)%Qc -> (0 <= Qfloor x)%Z.
Proof.
  intros H. change 0%Z with (Qfloor 0). now apply Qfloor_resp_le.
Qed.

Lemma Qc_div_nonneg (a b : real) : (0 <= a)%Qc -> (0 < b)%Qc -> (0 <= a / b)%Qc.
Proof.
  intros Ha Hb. unfold Qcle, Qclt in *.
  cbn [this Qcdiv Qcmult Qcinv Q2Qc]. rewrite !Qred_correct.
  apply Qmult_le_0_compat; [exact Ha |].
  now apply Qinv_le_0_compat, Qlt_le_weak.
Qed.

Lemma to_uint_small (z : Z) :
  (0 <= z)%Z -> (z < 2 ^ 32)%Z -> N.to_nat (VDepTransdef.to_uint z) = Z.to_nat z.
Proof.
  intros H0 H1. unfold VDepTransdef.to_uint.
  rewrite UIntFacts.wrap_small by (unfold UInt.modulus; lia). lia.
Qed.

Lemma Qc_div_le (a b c : real) :
  (a <= b)%Qc -> (0 < c)%Qc -> (a / c <= b / c)%Qc.
Proof.
  intros Hab Hc. unfold Qcle, Qclt in *.
  cbn [this Qcdiv Qcmult Qcinv Q2Qc]. rewrite !Qred_correct.
  apply Qmult_le_compat_r; [exact Hab |].
  now apply Qinv_le_0_compat, Qlt_le_weak.
Qed.

Lemma Qc_sub_le (a b c : real) : (a <= b)%Qc -> (a - c <= b - c)%Qc.
Proof.
  intros H. unfold Qcminus. apply Qcplus_le_compat; [exact H |].
  apply Qcle_refl.
Qed.

Lemma Qc_sub_nonneg (a b : real) : (a <= b)%Qc -> (0 <= b - a)%Qc.
Proof. intros H. apply -> Qcle_minus_iff. exact H. Qed.

(** Inside the voltage range and below 2^32, [getVDepRate] reads the
    entries [floor v2] and [ceil v2] of the table. *)
Lemma getVDepRate_reads (d : VDepTransdef.t) (v : real) :
  let v2 := ((v - VDepTransdef.pVMin d) / VDepTransdef.pDV d)%Qc in
  let tab := VDepTransdef.pVRateTab d in
  VDepTransdef.pSetupdone d = true ->
  (VDepTransdef.pVMin d <= v)%Qc -> (v <= VDepTransdef.pVMax d)%Qc ->
  (0 < VDepTransdef.pDV d)%Qc ->
  (Qceiling v2 < 2 ^ 32)%Z ->
  (0 <= Qfloor v2 <= Qceiling v2)%Z /\
  VDepTransdef.getVDepRate d v =
    match tab !! Z.to_nat (Qfloor v2), tab !! Z.to_nat (Qceiling v2) with
    | Some lo, Some hi =>
        let r := (v2 - Q2Qc (inject_Z (Qfloor v2)))%Qc in
        VDepTransdef.Value ((1 - r) * lo + r * hi)%Qc
    | _, _ => VDepTransdef.Failed
    end.
Proof.
  intros v2 tab Hs Hlo Hhi Hdv Hsmall.
  unfold VDepTransdef.getVDepRate. rewrite Hs. cbn [negb].
  rewrite (proj2 (ltb_real_nlt _ _) (Qcle_not_lt _ _ Hhi)).
  rewrite (proj2 (ltb_real_nlt _ _) (Qcle_not_lt _ _ Hlo)).
  assert (Hv2 : (0 <= v2)%Qc).
  { apply Qc_div_nonneg; [| exact Hdv]. now apply Qc_sub_nonneg. }
  cbv zeta. fold v2 tab. clearbody v2 tab.
  pose proof (Qc_floor_nonneg v2 Hv2) as Hf0.
  pose proof (Qle_floor_ceiling v2) as Hfc. rewrite <- Zle_Qle in Hfc.
  rewrite !to_uint_small by lia.
  split; [lia | reflexivity].
Qed.

(** [getVDepRate] fails its assertion before [setup]; after it, a voltage
    above [pVMax] or below [pVMin] raises [ProgErr]. For a voltage inside
    the range, a positive grid step and a table that reaches the entry
    above the voltage, it returns the linear interpolation
    [(1 - r) * lo + r * hi] of the two table entries around the voltage,
    where [r], the position of the voltage between them, is at least 0
    and below 1; on a grid point the result is the table entry itself. *)
Theorem getVDepRate_contract (d : VDepTransdef.t) (v : real) :
  let v2 := ((v - VDepTransdef.pVMin d) / VDepTransdef.pDV d)%Qc in
  let tab := VDepTransdef.pVRateTab d in
  (VDepTransdef.pSetupdone d = false ->
   VDepTransdef.getVDepRate d v = VDepTransdef.Failed) /\
  (VDepTransdef.pSetupdone d = true ->
   ((VDepTransdef.pVMax d < v)%Qc ->
    exists msg, VDepTransdef.getVDepRate d v = VDepTransdef.ProgErr msg) /\
   ((v < VDepTransdef.pVMin d)%Qc ->
    exists msg, VDepTransdef.getVDepRate d v = VDepTransdef.ProgErr msg) /\
   ((VDepTransdef.pVMin d <= v)%Qc -> (v <= VDepTransdef.pVMax d)%Qc ->
    (0 < VDepTransdef.pDV d)%Qc ->
    (Z.to_nat (Qceiling v2) < length tab)%nat ->
    (Qceiling v2 < 2 ^ 32)%Z ->
    exists lo hi r,
      tab !! Z.to_nat (Qfloor v2) = Some lo /\
      tab !! Z.to_nat (Qceiling v2) = Some hi /\
      r = (v2 - Q2Qc (inject_Z (Qfloor v2)))%Qc /\
      (0 <= r)%Qc /\ (r < 1)%Qc /\
      VDepTransdef.getVDepRate d v =
        VDepTransdef.Value ((1 - r) * lo + r * hi)%Qc /\
      (v2 = Q2Qc (inject_Z (Qfloor v2)) ->
       VDepTransdef.getVDepRate d v = VDepTransdef.Value lo))).
Proof.
  intros v2 tab. split.
  { intros Hs. unfold VDepTransdef.getVDepRate. now rewrite Hs. }
  intros Hs. split; [| split].
  - intros Hhi. unfold VDepTransdef.getVDepRate. rewrite Hs. cbn [negb].
    apply ltb_real_lt in Hhi. rewrite Hhi. eexists. reflexivity.
  - intros Hlo. unfold VDepTransdef.getVDepRate. rewrite Hs. cbn [negb].
    apply ltb_real_lt in Hlo. rewrite Hlo.
    destruct (ltb_real (VDepTransdef.pVMax d) v); eexists; reflexivity.
  - intros Hlo Hhi Hdv Hlen Hsmall.
    pose proof (getVDepRate_reads d v Hs Hlo Hhi Hdv Hsmall) as Hr.
    cbv zeta in Hr. fold v2 tab in Hr. destruct Hr as [Hfc Hget].
    rewrite Hget. clearbody v2 tab.
    destruct (lookup_lt_is_Some_2 tab (Z.to_nat (Qceiling v2)) Hlen)
      as [hi Hhi'].
    destruct (lookup_lt_is_Some_2 tab (Z.to_nat (Qfloor v2))) as [lo Hlo'];
      [lia |].
    rewrite Hlo', Hhi'. cbv zeta.
    destruct (Qc_floor_bounds v2) as [Hb1 Hb2].
    exists lo, hi, (v2 - Q2Qc (inject_Z (Qfloor v2)))%Qc.
    repeat apply conj; try reflexivity.
    + now apply Qc_sub_nonneg.
    + apply Qclt_minus_iff.
      apply Qclt_minus_iff in Hb2.
      replace (1 + - (v2 - Q2Qc (inject_Z (Qfloor v2))))%Qc
        with (Q2Qc (inject_Z (Qfloor v2)) + 1 + - v2)%Qc by ring.
      exact Hb2.
    + intros Hgrid. f_equal. rewrite <- Hgrid. ring.
Qed.

Lemma getVDepRate_contract_witness :
  VDepTransdef.getVDepRate (VDepExample.ready (Q2Qc 2)) (Q2Qc (1 # 2)) =
    VDepTransdef.Value (Q2Qc 2) /\
  VDepTransdef.getVDepRate (VDepExample.ready (Q2Qc 2)) (Q2Qc 1) =
    VDepTransdef.Value (Q2Qc 3).
Proof.
  split.
  - destruct (getVDepRate_contract (VDepExample.ready (Q2Qc 2))
                (Q2Qc (1 # 2))) as [_ H].
    destruct (H eq_refl) as (_ & _ & H3).
    destruct H3 as (lo & hi & r & Hlo & Hhi & Hr & _ & _ & Hget & _);
      [vm_compute; discriminate | vm_compute; discriminate
      | vm_compute; reflexivity | vm_compute; lia | vm_compute; reflexivity |].
    rewrite Hget. f_equal.
    vm_compute in Hlo, Hhi. injection Hlo as <-. injection Hhi as <-.
    subst r. apply Qc_is_canon. vm_compute. reflexivity.
  - destruct (getVDepRate_contract (VDepExample.ready (Q2Qc 2))
                (Q2Qc 1)) as [_ H].
    destruct (H eq_refl) as (_ & _ & H3).
    destruct H3 as (lo & hi & r & Hlo & _ & _ & _ & _ & _ & Hgrid);
      [vm_compute; discriminate | vm_compute; discriminate
      | vm_compute; reflexivity | vm_compute; lia | vm_compute; reflexivity |].
    rewrite Hgrid; [| apply Qc_is_canon; vm_compute; reflexivity].
    f_equal. vm_compute in Hlo. now injection Hlo as <-.
Defined.

(** ** A transition built from its model object *)

Lemma new_inv (NONE : Z) (UNDEF n : N) (vdt : VDepTransdef.VDepTrans)
    (d0 : VDepTransdef.t) :
  VDepTransdef.new NONE UNDEF n vdt = VDepTransdef.Value d0 ->
  VDepTransdef._getTablesize vdt =
    VDepTransdef.to_uint
      (VDepTransdef.intervals (VDepTransdef._getVMin vdt)
         (VDepTransdef._getVMax vdt) (VDepTransdef._getDV vdt)) +u 1 /\
  (N.to_nat (VDepTransdef._getTablesize vdt)
     <= length (VDepTransdef._getRate vdt))%nat /\
  VDepTransdef.pSetupdone d0 = false /\
  VDepTransdef.pVMin d0 = VDepTransdef._getVMin vdt /\
  VDepTransdef.pVMax d0 = VDepTransdef._getVMax vdt /\
  VDepTransdef.pDV d0 = VDepTransdef._getDV vdt /\
  VDepTransdef.pSrc d0 = VDepTransdef.getSrc_getID vdt /\
  VDepTransdef.pDst d0 = VDepTransdef.getDst_getID vdt /\
  VDepTransdef.pVRateTab d0 =
    take (N.to_nat (VDepTransdef._getTablesize vdt))
      (VDepTransdef._getRate vdt) /\
  VDepTransdef.pSpec_DEP d0 = replicate (N.to_nat n) NONE.
Proof.
  unfold VDepTransdef.new.
  destruct (N.eqb_spec (VDepTransdef._getTablesize vdt)
              (VDepTransdef.to_uint
                 (VDepTransdef.intervals (VDepTransdef._getVMin vdt)
                    (VDepTransdef._getVMax vdt) (VDepTransdef._getDV vdt))
               +u 1)) as [Hsz | Hsz]; cbn [negb]; [| discriminate].
  destruct (Nat.leb_spec (N.to_nat (VDepTransdef._getTablesize vdt))
              (length (VDepTransdef._getRate vdt))) as [Hlen | Hlen];
    cbn [negb]; [| discriminate].
  intros [= <-]. cbn. repeat split; [exact Hsz | exact Hlen].
Qed.

Lemma setup_inv (STOICH : Z) (gs : string -> outcome N)
    (d0 d : VDepTransdef.t) :
  VDepTransdef.setup STOICH gs d0 = VDepTransdef.Value d ->
  VDepTransdef.pSetupdone d0 = false /\
  exists sidx didx dep1,
    gs (VDepTransdef.pSrc d0) = Ret sidx /\
    gs (VDepTransdef.pDst d0) = Ret didx /\
    VDepTransdef.mark STOICH (VDepTransdef.pSpec_DEP d0) sidx =
      VDepTransdef.Value dep1 /\
    VDepTransdef.mark STOICH dep1 didx =
      VDepTransdef.Value (VDepTransdef.pSpec_DEP d) /\
    VDepTransdef.pSetupdone d = true /\
    VDepTransdef.pVMin d = VDepTransdef.pVMin d0 /\
    VDepTransdef.pVMax d = VDepTransdef.pVMax d0 /\
    VDepTransdef.pDV d = VDepTransdef.pDV d0 /\
    VDepTransdef.pVRateTab d = VDepTransdef.pVRateTab d0 /\
    VDepTransdef.pSpec_SRCCHAN d = sidx /\
    VDepTransdef.pSpec_DSTCHAN d = didx.
Proof.
  unfold VDepTransdef.setup.
  destruct (VDepTransdef.pSetupdone d0); [discriminate |].
  destruct (gs (VDepTransdef.pSrc d0)) as [sidx | |]; try discriminate.
  destruct (gs (VDepTransdef.pDst d0)) as [didx | |]; try discriminate.
  destruct (VDepTransdef.mark STOICH (VDepTransdef.pSpec_DEP d0) sidx)
    as [dep1 | | |] eqn:H1; try discriminate.
  destruct (VDepTransdef.mark STOICH dep1 didx) as [dep2 | | |] eqn:H2;
    try discriminate.
  intros [= <-]. split; [reflexivity |].
  exists sidx, didx, dep1. cbn. repeat split; assumption.
Qed.

Lemma mark_inv (STOICH : Z) (dep dep' : list Z) (i : N) :
  VDepTransdef.mark STOICH dep i = VDepTransdef.Value dep' ->
  exists x, dep !! N.to_nat i = Some x /\
            dep' = <[N.to_nat i := Z.lor x STOICH]> dep.
Proof.
  unfold VDepTransdef.mark. destruct (dep !! N.to_nat i) as [x |];
    [| discriminate].
  intros [= <-]. now exists x.
Qed.

Lemma Qc_le_inject (x : real) (z : Z) :
  (x <= Q2Qc (inject_Z z))%Qc <-> (x <= inject_Z z)%Q.
Proof. unfold Qcle. cbn [this Q2Qc]. now rewrite Qred_correct. Qed.

Lemma Qc_lt_inject (x : real) (z : Z) :
  (Q2Qc (inject_Z z) < x)%Qc <-> (inject_Z z < x)%Q.
Proof. unfold Qclt. cbn [this Q2Qc]. now rewrite Qred_correct. Qed.

(** The table that the constructor copies has [floor((pVMax - pVMin) / pDV)
    + 1] entries. After [setup], for a voltage [v] of the range whose grid
    position [v2 = (v - pVMin) / pDV] is at most that floor, [getVDepRate]
    returns the interpolation of the entries [floor v2] and [ceil v2] of
    the model's rate table. For a voltage of the range beyond the last
    grid point (there is one when the range is no multiple of the step),
    the upper index is the size of the table, one past its last entry,
    and the model's answer is [Failed]. *)
Theorem table_covers_grid (NONE STOICH : Z) (UNDEF n : N)
    (gs : string -> outcome N) (vdt : VDepTransdef.VDepTrans)
    (d0 d : VDepTransdef.t) (v : real) :
  let vmin := VDepTransdef._getVMin vdt in
  let vmax := VDepTransdef._getVMax vdt in
  let dv := VDepTransdef._getDV vdt in
  let top := VDepTransdef.intervals vmin vmax dv in
  let v2 := ((v - vmin) / dv)%Qc in
  VDepTransdef.new NONE UNDEF n vdt = VDepTransdef.Value d0 ->
  VDepTransdef.setup STOICH gs d0 = VDepTransdef.Value d ->
  (0 < dv)%Qc -> (top + 1 < 2 ^ 32)%Z ->
  (vmin <= v)%Qc -> (v <= vmax)%Qc ->
  length (VDepTransdef.pVRateTab d) = Z.to_nat (top + 1) /\
  ((v2 <= Q2Qc (inject_Z top))%Qc ->
   exists lo hi,
     VDepTransdef._getRate vdt !! Z.to_nat (Qfloor v2) = Some lo /\
     VDepTransdef._getRate vdt !! Z.to_nat (Qceiling v2) = Some hi /\
     VDepTransdef.getVDepRate d v =
       VDepTransdef.Value
         ((1 - (v2 - Q2Qc (inject_Z (Qfloor v2)))) * lo +
          (v2 - Q2Qc (inject_Z (Qfloor v2))) * hi)%Qc) /\
  ((Q2Qc (inject_Z top) < v2)%Qc ->
   Z.to_nat (Qceiling v2) = length (VDepTransdef.pVRateTab d) /\
   VDepTransdef.getVDepRate d v = VDepTransdef.Failed).
Proof.
  intros vmin vmax dv top v2 Hnew Hsetup Hdv Htop Hlo Hhi.
  destruct (new_inv _ _ _ _ _ Hnew)
    as (Hsz & Hlen & _ & Hmin0 & Hmax0 & Hdv0 & _ & _ & Htab0 & _).
  destruct (setup_inv _ _ _ _ Hsetup)
    as (_ & sidx & didx & dep1 & _ & _ & _ & _ & Hs & Hmin & Hmax & Hdv'
        & Htab & _ & _).
  rewrite Hmin0 in Hmin. rewrite Hmax0 in Hmax. rewrite Hdv0 in Hdv'.
  rewrite Htab0 in Htab. fold vmin in Hmin. fold vmax in Hmax.
  fold dv in Hdv'. fold vmin vmax dv top in Hsz.
  assert (Hv2 : (0 <= v2)%Qc).
  { apply Qc_div_nonneg; [| exact Hdv]. now apply Qc_sub_nonneg. }
  assert (Hv2top : (v2 <= (vmax - vmin) / dv)%Qc).
  { apply Qc_div_le; [| exact Hdv]. now apply Qc_sub_le. }
  assert (Htop0 : (0 <= top)%Z).
  { apply Qc_floor_nonneg. eapply Qcle_trans; eassumption. }
  assert (Hftop : (Qfloor v2 <= top)%Z).
  { apply Qfloor_resp_le. exact Hv2top. }
  assert (Hctop : (Qceiling v2 <= top + 1)%Z).
  { pose proof (Qceiling_lt v2) as H1.
    pose proof (Qlt_floor ((vmax - vmin) / dv)%Qc) as H2. fold top in H2.
    assert (H3 : (inject_Z (Qceiling v2 - 1) < inject_Z (top + 1))%Q).
    { eapply Qlt_le_trans; [exact H1 |].
      eapply Qle_trans; [exact Hv2top |]. now apply Qlt_le_weak. }
    rewrite <- Zlt_Qlt in H3. lia. }
  assert (Hsize : N.to_nat (VDepTransdef._getTablesize vdt)
                  = Z.to_nat (top + 1)).
  { rewrite Hsz. unfold VDepTransdef.to_uint.
    rewrite UIntFacts.wrap_small by (unfold UInt.modulus; lia).
    rewrite UIntFacts.add_small by (unfold UInt.modulus; lia). lia. }
  assert (Hlentab : length (VDepTransdef.pVRateTab d) = Z.to_nat (top + 1)).
  { rewrite Htab, length_take. lia. }
  assert (Hreads := getVDepRate_reads d v Hs).
  cbv zeta in Hreads. rewrite Hmin, Hmax, Hdv' in Hreads. fold v2 in Hreads.
  destruct (Hreads Hlo Hhi Hdv ltac:(lia)) as [Hfc Hget]. clear Hreads.
  split; [exact Hlentab | split].
  - intros Hgrid. apply Qc_le_inject in Hgrid.
    assert (Hc : (Qceiling v2 <= top)%Z).
    { rewrite <- (Qceiling_Z top). now apply Qceiling_resp_le. }
    destruct (lookup_lt_is_Some_2 (VDepTransdef.pVRateTab d)
                (Z.to_nat (Qfloor v2))) as [lo Hl]; [lia |].
    destruct (lookup_lt_is_Some_2 (VDepTransdef.pVRateTab d)
                (Z.to_nat (Qceiling v2))) as [hi Hh]; [lia |].
    rewrite Hl, Hh in Hget. exists lo, hi.
    rewrite Htab in Hl, Hh.
    rewrite lookup_take_lt in Hl by lia.
    rewrite lookup_take_lt in Hh by lia.
    repeat split; assumption.
  - intros Hpast. apply Qc_lt_inject in Hpast.
    assert (Hc : (top < Qceiling v2)%Z).
    { rewrite Zlt_Qlt. eapply Qlt_le_trans; [exact Hpast |].
      apply Qle_ceiling. }
    assert (Hidx : Z.to_nat (Qceiling v2)
                   = length (VDepTransdef.pVRateTab d)) by lia.
    split; [exact Hidx |].
    rewrite Hget, Hidx.
    rewrite (lookup_ge_None_2 (VDepTransdef.pVRateTab d) _ (le_n _)).
    now destruct (VDepTransdef.pVRateTab d !! Z.to_nat (Qfloor v2)).
Qed.

Lemma table_covers_grid_witness :
  VDepTransdef.getVDepRate (VDepExample.ready (Q2Qc 2)) (Q2Qc 2) =
    VDepTransdef.Value (Q2Qc 5) /\
  VDepTransdef.getVDepRate (VDepExample.ready (Q2Qc (5 # 2)))
    (Q2Qc (5 # 2)) = VDepTransdef.Failed.
Proof.
  split.
  - destruct (table_covers_grid VDepExample.DEP_NONE VDepExample.DEP_STOICH
                VDepExample.GIDX_UNDEFINED 2 VDepExample.getSpecIdx
                (VDepExample.vdt (Q2Qc 2)) (VDepExample.made (Q2Qc 2))
                (VDepExample.ready (Q2Qc 2)) (Q2Qc 2))
      as (_ & H & _);
      [reflexivity | reflexivity | vm_compute; reflexivity
      | vm_compute; reflexivity | vm_compute; discriminate
      | vm_compute; discriminate |].
    destruct H as (lo & hi & Hlo & Hhi & Hget); [vm_compute; discriminate |].
    rewrite Hget. f_equal.
    vm_compute in Hlo, Hhi. injection Hlo as <-. injection Hhi as <-.
    apply Qc_is_canon. vm_compute. reflexivity.
  - destruct (table_covers_grid VDepExample.DEP_NONE VDepExample.DEP_STOICH
                VDepExample.GIDX_UNDEFINED 2 VDepExample.getSpecIdx
                (VDepExample.vdt (Q2Qc (5 # 2)))
                (VDepExample.made (Q2Qc (5 # 2)))
                (VDepExample.ready (Q2Qc (5 # 2))) (Q2Qc (5 # 2)))
      as (_ & _ & H);
      [reflexivity | reflexivity | vm_compute; reflexivity
      | vm_compute; reflexivity | vm_compute; discriminate
      | vm_compute; discriminate |].
    apply H. vm_compute. reflexivity.
Defined.

Lemma req_lookup (NONE : Z) (n : N) (d : VDepTransdef.t) (g : N) (x : Z) :
  VDepTransdef.pSetupdone d = true -> g < n ->
  VDepTransdef.pSpec_DEP d !! N.to_nat g = Some x ->
  VDepTransdef.req NONE n d g = VDepTransdef.Value (negb (x =? NONE)%Z) /\
  VDepTransdef.dep n d g = VDepTransdef.Value x.
Proof.
  intros Hs Hg Hx. unfold VDepTransdef.req, VDepTransdef.dep.
  rewrite Hs, (proj2 (N.ltb_lt _ _) Hg), Hx. now cbn [negb].
Qed.

(** A transition made by the constructor and set up once: [setup] has
    resolved the two channel states to indices below the number of
    species, [srcchanstate] and [dstchanstate] return them, and, [DEP_STOICH]
    having a bit that [DEP_NONE] lacks, [req] is true for exactly these two
    species; [dep] is [DEP_NONE | DEP_STOICH] for them and [DEP_NONE] for
    the others. An index that is no species fails the assertion, and so
    does a second [setup]. *)
Theorem setup_marks_channel_states (NONE STOICH : Z) (UNDEF n : N)
    (gs : string -> outcome N) (vdt : VDepTransdef.VDepTrans)
    (d0 d : VDepTransdef.t) :
  Z.lor NONE STOICH <> NONE ->
  VDepTransdef.new NONE UNDEF n vdt = VDepTransdef.Value d0 ->
  VDepTransdef.setup STOICH gs d0 = VDepTransdef.Value d ->
  exists sidx didx,
    gs (VDepTransdef.getSrc_getID vdt) = Ret sidx /\
    gs (VDepTransdef.getDst_getID vdt) = Ret didx /\
    sidx < n /\ didx < n /\
    VDepTransdef.srcchanstate d = VDepTransdef.Value sidx /\
    VDepTransdef.dstchanstate d = VDepTransdef.Value didx /\
    (forall g, g < n ->
       VDepTransdef.req NONE n d g =
         VDepTransdef.Value (bool_decide (g = sidx \/ g = didx)) /\
       VDepTransdef.dep n d g =
         VDepTransdef.Value
           (if bool_decide (g = sidx \/ g = didx) then Z.lor NONE STOICH
            else NONE)) /\
    (forall g, n <= g ->
       VDepTransdef.req NONE n d g = VDepTransdef.Failed /\
       VDepTransdef.dep n d g = VDepTransdef.Failed) /\
    VDepTransdef.setup STOICH gs d = VDepTransdef.Failed.
Proof.
  intros Hbit Hnew Hsetup.
  destruct (new_inv _ _ _ _ _ Hnew)
    as (_ & _ & _ & _ & _ & _ & Hsrc & Hdst & _ & Hdep0).
  destruct (setup_inv _ _ _ _ Hsetup)
    as (_ & sidx & didx & dep1 & Hgs & Hgd & Hm1 & Hm2 & Hs & _ & _ & _ & _
        & Hsc & Hdc).
  rewrite Hsrc in Hgs. rewrite Hdst in Hgd. rewrite Hdep0 in Hm1.
  destruct (mark_inv _ _ _ _ Hm1) as (x1 & Hx1 & ->).
  destruct (mark_inv _ _ _ _ Hm2) as (x2 & Hx2 & Hdep).
  apply lookup_replicate in Hx1 as [-> Hs_lt].
  assert (Hd_lt : (N.to_nat didx < N.to_nat n)%nat).
  { apply lookup_lt_Some in Hx2.
    now rewrite length_insert, length_replicate in Hx2. }
  exists sidx, didx. repeat apply conj; try assumption; try lia.
  - unfold VDepTransdef.srcchanstate. now rewrite Hs, Hsc.
  - unfold VDepTransdef.dstchanstate. now rewrite Hs, Hdc.
  - intros g Hg.
    assert (Hlook : VDepTransdef.pSpec_DEP d !! N.to_nat g =
                    Some (if bool_decide (g = sidx \/ g = didx)
                          then Z.lor NONE STOICH else NONE)).
    { rewrite Hdep.
      destruct (decide (g = didx)) as [-> | Hgd'].
      - rewrite list_lookup_insert_eq
          by now rewrite length_insert, length_replicate.
        rewrite bool_decide_eq_true_2 by now right.
        f_equal.
        destruct (decide (didx = sidx)) as [-> | Hne].
        + rewrite list_lookup_insert_eq in Hx2
            by now rewrite length_replicate.
          injection Hx2 as <-.
          rewrite <- Z.lor_assoc. now rewrite Z.lor_diag.
        + rewrite list_lookup_insert_ne in Hx2 by lia.
          apply lookup_replicate in Hx2 as [-> _]. reflexivity.
      - rewrite list_lookup_insert_ne by lia.
        destruct (decide (g = sidx)) as [-> | Hgs'].
        + rewrite list_lookup_insert_eq by now rewrite length_replicate.
          now rewrite bool_decide_eq_true_2 by now left.
        + rewrite list_lookup_insert_ne by lia.
          rewrite bool_decide_eq_false_2 by tauto.
          apply lookup_replicate. split; [reflexivity | lia]. }
    destruct (req_lookup NONE n d g _ Hs Hg Hlook) as [Hreq Hdepg].
    split; [| exact Hdepg].
    rewrite Hreq. f_equal.
    destruct (bool_decide (g = sidx \/ g = didx)).
    + now rewrite (proj2 (Z.eqb_neq _ _) Hbit).
    + now rewrite Z.eqb_refl.
  - intros g Hg. unfold VDepTransdef.req, VDepTransdef.dep.
    rewrite Hs, (proj2 (N.ltb_ge _ _) Hg). now cbn [negb].
  - unfold VDepTransdef.setup. now rewrite Hs.
Qed.

Lemma setup_marks_channel_states_witness :
  VDepTransdef.req VDepExample.DEP_NONE 2 (VDepExample.ready (Q2Qc 2)) 1
    = VDepTransdef.Value true.
Proof.
  destruct (setup_marks_channel_states VDepExample.DEP_NONE
              VDepExample.DEP_STOICH VDepExample.GIDX_UNDEFINED 2
              VDepExample.getSpecIdx (VDepExample.vdt (Q2Qc 2))
              (VDepExample.made (Q2Qc 2)) (VDepExample.ready (Q2Qc 2)))
    as (sidx & didx & Hgs & Hgd & _ & _ & _ & _ & Hreq & _);
    [vm_compute; discriminate | reflexivity | reflexivity |].
  vm_compute in Hgd. injection Hgd as <-.
  destruct (Hreq 1 ltac:(lia)) as [H _]. rewrite H. f_equal.
  apply bool_decide_eq_true_2. now right.
Defined.

(** ** The count of a compartment and the counts of its tetrahedra *)

Lemma Forall2_fmap_seq {A B : Type} (R : A -> B -> Prop) (l : list A)
    (v : nat -> B) :
  (forall i a, l !! i = Some a -> R a (v i)) ->
  Forall2 R l (v <$> seq 0 (length l)).
Proof.
  intros H. apply Forall2_same_length_lookup_2.
  - now rewrite length_fmap, length_seq.
  - intros i a b Ha Hb. rewrite list_lookup_fmap in Hb.
    rewrite lookup_seq_lt in Hb by (now apply lookup_lt_Some in Ha).
    injection Hb as <-. now apply H.
Qed.

(** [_getCompCount] and [_getTetCount] address the state vector in two
    ways, the first by the local index of a tetrahedron in its
    compartment, the second by the mesh index through [getTet_GtoL]. For
    a compartment with at least one tetrahedron whose block lies in the
    state vector, a species defined in it, and the list [gs] of the mesh
    indices of its tetrahedra in local order, every [_getTetCount]
    returns, and [_getCompCount] returns the sum of what they return. *)
Theorem comp_count_sums_tet_counts (cidx sidx : N) (s : TetODE) (c : Comp.t)
    (gs : list N) :
  let cdef := Comp.def c in
  let nspecs := Compdef.countSpecs cdef in
  let slidx := Compdef.specG2L cdef sidx in
  let base := comp_base (pComps s) (N.to_nat cidx) in
  pComps s !! N.to_nat cidx = Some c ->
  Compdef.gidx cdef = cidx ->
  N.of_nat (length (pComps s)) < UInt.modulus ->
  sidx < Statedef.countSpecs (statedef s) ->
  slidx <> LIDX_UNDEFINED -> slidx < nspecs ->
  N.of_nat (length (y_cvode s)) = pSpecs_tot s ->
  pSpecs_tot s < UInt.modulus ->
  base + nspecs * N.of_nat (length (Comp.pTets c)) <= pSpecs_tot s ->
  (0 < length (Comp.pTets c))%nat ->
  length gs = length (Comp.pTets c) ->
  (forall i g, gs !! i = Some g ->
     exists tet, pTets s !! N.to_nat g = Some (Some tet) /\
                 Tet.compdef tet = cdef /\
                 Comp.getTet_GtoL c g = N.of_nat i) ->
  exists xs,
    Forall2 (fun g x => _getTetCount g sidx s = Ret x) gs xs /\
    _getCompCount cidx sidx s = Ret (Qc_sum xs).
Proof.
  intros cdef nspecs slidx base Hc Hgidx Hcomps Hsidx Hdef Hslidx Hy Htot
         Hblock Hntets Hgs Hmesh.
  set (tets := Comp.pTets c) in *.
  assert (Hcidx : (N.to_nat cidx < length (pComps s))%nat)
    by (now apply lookup_lt_Some in Hc).
  assert (Hle : N.of_nat (length tets) <= nspecs * N.of_nat (length tets))
    by nia.
  assert (Hsize : Comp.countTets c = N.of_nat (length tets)).
  { apply size_small. fold tets. lia. }
  assert (Hbase : step_up_comp_specs (pComps s) 0 cidx = Ret base).
  { rewrite <- (N2Nat.id cidx). subst base.
    apply step_up_comp_specs_ok; [lia |].
    fold (comp_base (pComps s) (N.to_nat cidx)). lia. }
  assert (Hfit : forall i, (i < length tets)%nat ->
            base + N.of_nat i * nspecs + slidx < pSpecs_tot s)
    by (intros i Hi; nia).
  assert (Hassert :
    (base +u (((Comp.countTets c -u 1) *u nspecs) +u slidx) <? pSpecs_tot s)
    = true).
  { rewrite Hsize, sub_1_small by lia.
    replace (N.of_nat (length tets) - 1) with (N.of_nat (length tets - 1))
      by lia.
    rewrite slot_small; [apply N.ltb_lt |];
      specialize (Hfit (length tets - 1)%nat); lia. }
  assert (Hcsize : (cidx <? size (pComps s)) = true).
  { rewrite size_small by exact Hcomps. apply N.ltb_lt. lia. }
  assert (Hcdef : compdef (pComps s) cidx = Ret cdef).
  { unfold compdef. now rewrite (at_lookup _ _ _ Hc), bind_Ret. }
  set (v := fun i => default 0%Qc (y_cvode s !! slot_of base nspecs slidx i)).
  assert (Hv : forall i, (i < length tets)%nat ->
            y_cvode s !! slot_of base nspecs slidx i = Some (v i)).
  { intros i Hi. unfold v.
    destruct (lookup_lt_is_Some_2 (y_cvode s) (slot_of base nspecs slidx i))
      as [x Hx]; [| now rewrite Hx].
    specialize (Hfit i Hi). unfold slot_of. lia. }
  exists (v <$> seq 0 (length gs)). split.
  - apply Forall2_fmap_seq. intros i g Hg.
    destruct (Hmesh i g Hg) as (tet & Htet & Hcd & Hloc).
    assert (Hi : (i < length tets)%nat)
      by (rewrite <- Hgs; now apply lookup_lt_Some in Hg).
    assert (Hslot : tet_slot (pComps s) tet c g sidx
                    = base + N.of_nat i * nspecs + slidx).
    { unfold tet_slot. rewrite Hcd, Hloc. fold cdef nspecs slidx.
      rewrite Hgidx. fold base. lia. }
    rewrite (getTetCount_slot g sidx s tet c Htet) with (f := fun s => s);
      try reflexivity; rewrite ?Hcd, ?Hslot; fold cdef;
      try assumption.
    + apply at_lookup. apply (Hv i Hi).
    + now rewrite Hgidx.
    + now apply Hfit.
  - unfold _getCompCount.
    rewrite (assert_true _ Hcsize), bind_Ret.
    rewrite assert_true, bind_Ret by (now apply N.ltb_lt).
    rewrite Hcdef, bind_Ret. cbv zeta. fold nspecs slidx.
    rewrite (proj2 (N.eqb_neq _ _) Hdef).
    rewrite Hbase, bind_Ret. rewrite (at_lookup _ _ _ Hc), bind_Ret.
    rewrite (assert_true _ Hassert), bind_Ret.
    unfold sum_slots. rewrite range_unfold, Hsize, Nat2N.id.
    rewrite (sum_slots_loop base nspecs slidx ltac:(lia) v).
    + f_equal. rewrite Hgs. ring.
    + intros i Hi. apply Hv. lia.
    + intros i Hi. specialize (Hfit i ltac:(lia)). lia.
Qed.

Lemma comp_count_sums_tet_counts_witness :
  exists x0 x1,
    _getTetCount 0 0 Example.ran = Ret x0 /\
    _getTetCount 1 0 Example.ran = Ret x1 /\
    _getCompCount 0 0 Example.ran = Ret (x0 + x1)%Qc.
Proof.
  destruct (comp_count_sums_tet_counts 0 0 Example.ran Example.comp0 [0; 1])
    as (xs & Hall & Hsum).
  - vm_compute. reflexivity.
  - vm_compute. reflexivity.
  - vm_compute. reflexivity.
  - vm_compute. reflexivity.
  - vm_compute. discriminate.
  - vm_compute. reflexivity.
  - vm_compute. reflexivity.
  - vm_compute. reflexivity.
  - vm_compute. discriminate.
  - vm_compute. lia.
  - reflexivity.
  - intros [| [| i]] g Hg; try discriminate; injection Hg as <-.
    + exists Example.tet0. repeat split; vm_compute; reflexivity.
    + exists Example.tet1. repeat split; vm_compute; reflexivity.
  - inversion Hall as [| g0 x0 gs0 xs0 H0 Hall0]; subst.
    inversion Hall0 as [| g1 x1 gs1 xs1 H1 Hall1]; subst.
    inversion Hall1; subst.
    exists x0, x1. split; [exact H0 |]. split; [exact H1 |].
    rewrite Hsum. f_equal. cbn [Qc_sum foldr]. ring.
Defined.

(** The same for a patch and its triangles: for a patch with at least one
    triangle whose block lies in the state vector, a species defined in
    it, and the list [gs] of the mesh indices of its triangles in local
    order, every [_getTriCount] returns, and [_getPatchCount] returns the
    sum of what they return. *)
Theorem patch_count_sums_tri_counts (pidx sidx : N) (s : TetODE)
    (p : Patch.t) (gs : list N) :
  let pdef := Patch.def p in
  let nspecs := Patchdef.countSpecs pdef in
  let slidx := Patchdef.specG2L pdef sidx in
  let base := patch_base (pComps s) (pPatches s) (N.to_nat pidx) in
  pPatches s !! N.to_nat pidx = Some p ->
  Patchdef.gidx pdef = pidx ->
  N.of_nat (length (pComps s)) < UInt.modulus ->
  N.of_nat (length (pPatches s)) < UInt.modulus ->
  sidx < Statedef.countSpecs (statedef s) ->
  slidx <> LIDX_UNDEFINED -> slidx < nspecs ->
  N.of_nat (length (y_cvode s)) = pSpecs_tot s ->
  pSpecs_tot s < UInt.modulus ->
  base + nspecs * N.of_nat (length (Patch.pTris p)) <= pSpecs_tot s ->
  (0 < length (Patch.pTris p))%nat ->
  length gs = length (Patch.pTris p) ->
  (forall i g, gs !! i = Some g ->
     exists tri, pTris s !! N.to_nat g = Some (Some tri) /\
                 Tri.patchdef tri = pdef /\
                 Patch.getTri_GtoL p g = N.of_nat i) ->
  exists xs,
    Forall2 (fun g x => _getTriCount g sidx s = Ret x) gs xs /\
    _getPatchCount pidx sidx s = Ret (Qc_sum xs).
Proof.
  intros pdef nspecs slidx base Hp Hgidx Hcomps Hpatches Hsidx Hdef Hsl Hlen
         Htot Hblock Hntris Hgs Hmesh.
  set (tris := Patch.pTris p) in *.
  assert (Hpidx : (N.to_nat pidx < length (pPatches s))%nat)
    by (now apply lookup_lt_Some in Hp).
  assert (Hsmall : N.of_nat (length tris) < UInt.modulus) by nia.
  assert (Hsize : Patch.countTris p = N.of_nat (length tris)).
  { apply size_small. fold tris. exact Hsmall. }
  destruct (step_up_patch_base (pComps s) (pPatches s) (N.to_nat pidx))
    as [Hcbase Hpbase]; [exact Hcomps | lia | fold base; lia |].
  rewrite N2Nat.id in Hpbase. fold base in Hpbase.
  assert (Hcle : N_sum (comp_block <$> pComps s) <= base)
    by (unfold base, patch_base; lia).
  assert (Hfit : forall i, (i < length tris)%nat ->
            base + N.of_nat i * nspecs + slidx < pSpecs_tot s)
    by (intros i Hi; nia).
  assert (Hlast : base + (N.of_nat (length tris) - 1) * nspecs + slidx
                  < pSpecs_tot s).
  { specialize (Hfit (length tris - 1)%nat ltac:(lia)).
    replace (N.of_nat (length tris) - 1)
      with (N.of_nat (length tris - 1)) by lia. exact Hfit. }
  assert (Hassert_get :
    (base +u ((Patch.countTris p -u 1) *u nspecs) +u slidx
       <? pSpecs_tot s) = true).
  { rewrite Hsize, sub_1_small by lia.
    rewrite (UIntFacts.mul_small (N.of_nat (length tris) - 1)) by lia.
    rewrite (UIntFacts.add_small base) by lia.
    rewrite UIntFacts.add_small by lia. apply N.ltb_lt. lia. }
  assert (Hpsize : (pidx <? size (pPatches s)) = true).
  { rewrite size_small by exact Hpatches. apply N.ltb_lt. lia. }
  assert (Hcfirst : (N_sum (comp_block <$> pComps s) <? pSpecs_tot s) = true).
  { apply N.ltb_lt. specialize (Hfit 0%nat Hntris). lia. }
  assert (Hpdef : patchdef (pPatches s) pidx = Ret pdef).
  { unfold patchdef. now rewrite (at_lookup _ _ _ Hp), bind_Ret. }
  set (v := fun i => default 0%Qc (y_cvode s !! slot_of base nspecs slidx i)).
  assert (Hv : forall i, (i < length tris)%nat ->
            y_cvode s !! slot_of base nspecs slidx i = Some (v i)).
  { intros i Hi. unfold v.
    destruct (lookup_lt_is_Some_2 (y_cvode s) (slot_of base nspecs slidx i))
      as [x Hx]; [| now rewrite Hx].
    specialize (Hfit i Hi). unfold slot_of. lia. }
  exists (v <$> seq 0 (length gs)). split.
  - apply Forall2_fmap_seq. intros i g Hg.
    destruct (Hmesh i g Hg) as (tri & Htri & Hpd & Hloc).
    assert (Hi : (i < length tris)%nat)
      by (rewrite <- Hgs; now apply lookup_lt_Some in Hg).
    assert (Hslot : tri_slot (pComps s) (pPatches s) tri p g sidx
                    = base + N.of_nat i * nspecs + slidx).
    { unfold tri_slot. rewrite Hpd, Hloc. fold pdef nspecs slidx.
      rewrite Hgidx. fold base. lia. }
    rewrite (getTriCount_slot g sidx s tri p Htri) with (f := fun s => s);
      try reflexivity; rewrite ?Hpd, ?Hslot; fold pdef;
      try assumption.
    + apply at_lookup. apply (Hv i Hi).
    + now rewrite Hgidx.
    + now apply Hfit.
  - unfold _getPatchCount.
    rewrite (assert_true _ Hpsize), bind_Ret.
    rewrite (assert_true _ (proj2 (N.ltb_lt _ _) Hsidx)), bind_Ret.
    rewrite Hpdef, bind_Ret. cbv zeta. fold nspecs slidx.
    rewrite (proj2 (N.eqb_neq _ _) Hdef).
    rewrite Hcbase, bind_Ret.
    rewrite (assert_true _ Hcfirst), bind_Ret.
    rewrite Hpbase, bind_Ret. rewrite (at_lookup _ _ _ Hp), bind_Ret.
    rewrite (assert_true _ Hassert_get), bind_Ret.
    unfold sum_slots. rewrite range_unfold, Hsize, Nat2N.id.
    rewrite (sum_slots_loop base nspecs slidx ltac:(lia) v).
    + f_equal. rewrite Hgs. ring.
    + intros i Hi. apply Hv. lia.
    + intros i Hi. specialize (Hfit i ltac:(lia)). lia.
Qed.

Lemma patch_count_sums_tri_counts_witness :
  exists x0,
    _getTriCount 0 2 Example.ran = Ret x0 /\
    _getPatchCount 0 2 Example.ran = Ret x0.
Proof.
  destruct (patch_count_sums_tri_counts 0 2 Example.ran Example.patch0 [0])
    as (xs & Hall & Hsum).
  - vm_compute. reflexivity.
  - vm_compute. reflexivity.
  - vm_compute. reflexivity.
  - vm_compute. reflexivity.
  - vm_compute. reflexivity.
  - vm_compute. discriminate.
  - vm_compute. reflexivity.
  - vm_compute. reflexivity.
  - vm_compute. reflexivity.
  - vm_compute. discriminate.
  - vm_compute. lia.
  - reflexivity.
  - intros [| i] g Hg; try discriminate; injection Hg as <-.
    exists Example.tri0. repeat split; vm_compute; reflexivity.
  - inversion Hall as [| g0 x0 gs0 xs0 H0 Hall0]; subst.
    inversion Hall0; subst.
    exists x0. split; [exact H0 |].
    rewrite Hsum. f_equal. cbn [Qc_sum foldr]. ring.
Defined.

(** ** Amounts and concentrations of a compartment and of a patch *)

Section CompCount.

Variables (cidx sidx : N) (s : TetODE) (c : Comp.t).

Let nspecs := Compdef.countSpecs (Comp.def c).
Let slidx := Compdef.specG2L (Comp.def c) sidx.
Let base := comp_base (pComps s) (N.to_nat cidx).
Let tets := Comp.pTets c.

Hypothesis comp_found : pComps s !! N.to_nat cidx = Some c.
Hypothesis comps_small : N.of_nat (length (pComps s)) < UInt.modulus.
Hypothesis spec_known : sidx < Statedef.countSpecs (statedef s).
Hypothesis spec_defined : slidx <> LIDX_UNDEFINED.
Hypothesis spec_local : slidx < nspecs.
Hypothesis y_length : N.of_nat (length (y_cvode s)) = pSpecs_tot s.
Hypothesis tot_small : pSpecs_tot s < UInt.modulus.
Hypothesis block_fits : base + nspecs * N.of_nat (length tets) <= pSpecs_tot s.
Hypothesis vol_sum : Comp.vol c = Qc_sum (Tet.vol <$> tets).
Hypothesis vol_nonzero : Comp.vol c <> 0%Qc.

Lemma comp_count_steps :
  Comp.countTets c = N.of_nat (length tets) /\
  (0 < length tets)%nat /\
  step_up_comp_specs (pComps s) 0 cidx = Ret base /\
  (forall i, (i < length tets)%nat ->
     base + N.of_nat i * nspecs + slidx < pSpecs_tot s) /\
  (base +u (((Comp.countTets c -u 1) *u nspecs) +u slidx) <? pSpecs_tot s)
    = true /\
  (cidx <? size (pComps s)) = true /\
  compdef (pComps s) cidx = Ret (Comp.def c).
Proof.
  assert (Hcidx : (N.to_nat cidx < length (pComps s))%nat)
    by (now apply lookup_lt_Some in comp_found).
  assert (Hntets : (0 < length tets)%nat).
  { destruct tets; [| cbn; lia]. now rewrite vol_sum in vol_nonzero. }
  assert (Hle : N.of_nat (length tets) <= nspecs * N.of_nat (length tets))
    by nia.
  assert (Hsize : Comp.countTets c = N.of_nat (length tets)).
  { apply size_small. fold tets. lia. }
  assert (Hfit : forall i, (i < length tets)%nat ->
            base + N.of_nat i * nspecs + slidx < pSpecs_tot s)
    by (intros i Hi; nia).
  repeat apply conj; try assumption.
  - rewrite <- (N2Nat.id cidx). unfold base.
    apply step_up_comp_specs_ok; [lia |].
    fold (comp_base (pComps s) (N.to_nat cidx)). fold base. lia.
  - rewrite Hsize, sub_1_small by lia.
    replace (N.of_nat (length tets) - 1) with (N.of_nat (length tets - 1))
      by lia.
    rewrite slot_small; [apply N.ltb_lt |];
      specialize (Hfit (length tets - 1)%nat); lia.
  - rewrite size_small by exact comps_small. apply N.ltb_lt. lia.
  - unfold compdef. now rewrite (at_lookup _ _ _ comp_found), bind_Ret.
Qed.

(** [_setCompCount] followed by [_getCompCount]. *)
Lemma comp_count_round_trip (n : real) :
  exists y',
    _setCompCount cidx sidx n s =
      Done tt (set_pReinit true (set_y_cvode y' s)) /\
    _getCompCount cidx sidx (set_pReinit true (set_y_cvode y' s)) = Ret n.
Proof.
  destruct comp_count_steps
    as (Hsize & Hntets & Hbase & Hfit & Hassert & Hcsize & Hcdef).
  destruct (set_slots_loop base nspecs slidx ltac:(lia) tets
              (fun tet => n * (Tet.vol tet / Comp.vol c))%Qc
              (length tets) 0 (y_cvode s))
    as (y' & Hloop & Hlen' & Hset & Hrest).
  { lia. }
  { intros i Hi. specialize (Hfit i Hi). unfold slot_of. lia. }
  { intros i Hi. specialize (Hfit i Hi). lia. }
  exists y'. split.
  - unfold _setCompCount. rewrite run_bind_get.
    rewrite (run_bind_lift _ tt) by (now apply assert_true).
    rewrite (run_bind_lift _ tt) by (apply assert_true; now apply N.ltb_lt).
    rewrite (run_bind_lift _ _ _ _ Hcdef). cbv zeta. fold nspecs slidx.
    rewrite (proj2 (N.eqb_neq _ _) spec_defined).
    rewrite (run_bind_lift _ _ _ _ Hbase).
    rewrite (run_bind_lift _ c) by (now apply at_lookup).
    rewrite (run_bind_lift _ tt) by (now apply assert_true).
    unfold Comp.getTet. fold tets.
    rewrite range_unfold, Hsize, Nat2N.id.
    rewrite (run_bind_lift _ y') by exact Hloop.
    reflexivity.
  - unfold _getCompCount.
    cbn [pComps statedef pSpecs_tot y_cvode set_pReinit set_y_cvode].
    rewrite (assert_true _ Hcsize), bind_Ret.
    rewrite assert_true, bind_Ret by (now apply N.ltb_lt).
    rewrite Hcdef, bind_Ret. cbv zeta. fold nspecs slidx.
    rewrite (proj2 (N.eqb_neq _ _) spec_defined).
    rewrite Hbase, bind_Ret.
    rewrite (at_lookup _ _ _ comp_found), bind_Ret.
    rewrite (assert_true _ Hassert), bind_Ret.
    unfold sum_slots. rewrite range_unfold, Hsize, Nat2N.id.
    rewrite (sum_slots_loop base nspecs slidx ltac:(lia)
               (fun i => from_option
                           (fun tet => n * (Tet.vol tet / Comp.vol c))%Qc
                           0%Qc (tets !! i))).
    + f_equal. rewrite fmap_seq_lookup, (Qc_sum_fraction _ _ _ _ vol_nonzero).
      rewrite <- vol_sum. field. exact vol_nonzero.
    + intros i Hi. destruct (lookup_lt_is_Some_2 tets i) as [tet Ht]; [lia |].
      rewrite Ht. apply Hset; [lia | exact Ht].
    + intros i Hi. specialize (Hfit i ltac:(lia)). lia.
Qed.

End CompCount.

Lemma getCompVol_found (cidx : N) (s : TetODE) (c : Comp.t) :
  pComps s !! N.to_nat cidx = Some c ->
  N.of_nat (length (pComps s)) < UInt.modulus ->
  _getCompVol cidx s = Ret (Comp.vol c).
Proof.
  intros Hc Hsmall. unfold _getCompVol.
  rewrite assert_true, bind_Ret.
  - now rewrite (at_lookup _ _ _ Hc), bind_Ret.
  - rewrite size_small by exact Hsmall. apply N.ltb_lt.
    apply lookup_lt_Some in Hc. lia.
Qed.

(** In exact arithmetic, for a compartment whose block lies in the state
    vector, whose volume is the sum of the volumes of its tetrahedra and
    is not 0, and a species defined in it: [_setCompConc] sets the count
    [x * (1000 * vol * AVOGADRO)] and [_getCompConc] then returns [x];
    [_setCompAmount] sets the count [x * AVOGADRO] and [_getCompAmount]
    then returns [x]. Both setters raise the pending-reinit flag and
    change nothing but the state vector. *)
Theorem comp_conc_amount_round_trip (cidx sidx : N) (x : real) (s : TetODE)
    (c : Comp.t) :
  let nspecs := Compdef.countSpecs (Comp.def c) in
  let slidx := Compdef.specG2L (Comp.def c) sidx in
  let base := comp_base (pComps s) (N.to_nat cidx) in
  let scale := (Q2Qc 1000 * Comp.vol c * AVOGADRO)%Qc in
  pComps s !! N.to_nat cidx = Some c ->
  N.of_nat (length (pComps s)) < UInt.modulus ->
  sidx < Statedef.countSpecs (statedef s) ->
  slidx <> LIDX_UNDEFINED -> slidx < nspecs ->
  N.of_nat (length (y_cvode s)) = pSpecs_tot s ->
  pSpecs_tot s < UInt.modulus ->
  base + nspecs * N.of_nat (length (Comp.pTets c)) <= pSpecs_tot s ->
  Comp.vol c = Qc_sum (Tet.vol <$> Comp.pTets c) ->
  Comp.vol c <> 0%Qc ->
  (exists y',
     let s' := set_pReinit true (set_y_cvode y' s) in
     _setCompConc cidx sidx x s = Done tt s' /\
     _getCompCount cidx sidx s' = Ret (x * scale)%Qc /\
     _getCompConc cidx sidx s' = Ret x) /\
  (exists y',
     let s' := set_pReinit true (set_y_cvode y' s) in
     _setCompAmount cidx sidx x s = Done tt s' /\
     _getCompCount cidx sidx s' = Ret (x * AVOGADRO)%Qc /\
     _getCompAmount cidx sidx s' = Ret x).
Proof.
  intros nspecs slidx base scale Hc Hcomps Hsidx Hdef Hslidx Hy Htot Hblock
         Hvol Hvol0.
  split.
  - destruct (comp_count_round_trip cidx sidx s c Hc Hcomps Hsidx Hdef
                Hslidx Hy Htot Hblock Hvol Hvol0 (x * scale)%Qc)
      as (y' & Hset & Hget).
    exists y'. cbv zeta. split; [| split; [exact Hget |]].
    + unfold _setCompConc, const_call.
      change ((fun s0 => lift (_getCompVol cidx s0) s0) ≫= ?k)
        with (fun s0 : TetODE =>
                (lift (_getCompVol cidx s0) ≫= k) s0).
      cbv beta.
      rewrite (run_bind_lift _ _ _ _ (getCompVol_found cidx s c Hc Hcomps)).
      exact Hset.
    + unfold _getCompConc. rewrite Hget, bind_Ret.
      rewrite (getCompVol_found cidx
                 (set_pReinit true (set_y_cvode y' s)) c Hc Hcomps).
      rewrite bind_Ret. f_equal.
      apply Qc_mul_div. now apply volume_scale_nonzero.
  - destruct (comp_count_round_trip cidx sidx s c Hc Hcomps Hsidx Hdef
                Hslidx Hy Htot Hblock Hvol Hvol0 (x * AVOGADRO)%Qc)
      as (y' & Hset & Hget).
    exists y'. cbv zeta. split; [exact Hset |]. split; [exact Hget |].
    unfold _getCompAmount. rewrite Hget, bind_Ret. f_equal.
    apply Qc_mul_div, AVOGADRO_nonzero.
Qed.

Lemma comp_conc_amount_round_trip_witness :
  exists s',
    _setCompConc 0 0 (Q2Qc 7) Example.ran = Done tt s' /\
    _getCompConc 0 0 s' = Ret (Q2Qc 7).
Proof.
  destruct (comp_conc_amount_round_trip 0 0 (Q2Qc 7) Example.ran
              Example.comp0)
    as [(y' & Hset & _ & Hget) _].
  - vm_compute. reflexivity.
  - vm_compute. reflexivity.
  - vm_compute. reflexivity.
  - vm_compute. discriminate.
  - vm_compute. reflexivity.
  - vm_compute. reflexivity.
  - vm_compute. reflexivity.
  - vm_compute. discriminate.
  - apply Qc_is_canon. vm_compute. reflexivity.
  - intros H. apply (f_equal this) in H. vm_compute in H. discriminate.
  - eexists. split; [exact Hset | exact Hget].
Defined.

(** In exact arithmetic, for a patch whose block lies in the state vector,
    whose area is the sum of the areas of its triangles and is not 0, and
    a species defined in it: [_setPatchAmount] with an amount that is not
    negative sets the count [a * AVOGADRO] and raises the pending-reinit
    flag, and [_getPatchAmount] then returns [a]. A negative amount fails
    the assertion of [_setPatchAmount], whatever the patch. *)
Theorem patch_amount_round_trip (pidx sidx : N) (a : real) (s : TetODE)
    (p : Patch.t) :
  let nspecs := Patchdef.countSpecs (Patch.def p) in
  let slidx := Patchdef.specG2L (Patch.def p) sidx in
  let base := patch_base (pComps s) (pPatches s) (N.to_nat pidx) in
  pPatches s !! N.to_nat pidx = Some p ->
  N.of_nat (length (pComps s)) < UInt.modulus ->
  N.of_nat (length (pPatches s)) < UInt.modulus ->
  sidx < Statedef.countSpecs (statedef s) ->
  slidx <> LIDX_UNDEFINED -> slidx < nspecs ->
  N.of_nat (length (y_cvode s)) = pSpecs_tot s ->
  pSpecs_tot s < UInt.modulus ->
  base + nspecs * N.of_nat (length (Patch.pTris p)) <= pSpecs_tot s ->
  Patch.area p = Qc_sum (Tri.area <$> Patch.pTris p) ->
  Patch.area p <> 0%Qc ->
  ((0 <= a)%Qc ->
   exists s',
     _setPatchAmount pidx sidx a s = Done tt s' /\
     pReinit s' = true /\
     _getPatchCount pidx sidx s' = Ret (a * AVOGADRO)%Qc /\
     _getPatchAmount pidx sidx s' = Ret a) /\
  ((a < 0)%Qc -> forall q j s0, _setPatchAmount q j a s0 = Crash).
Proof.
  intros nspecs slidx base Hp Hcomps Hpatches Hsidx Hdef Hsl Hlen Htot
         Hblock Harea Harea0.
  split.
  - intros Ha.
    destruct (setPatchCount_shares pidx sidx (a * AVOGADRO)%Qc s p Hp Hcomps
                Hpatches Hsidx Hdef Hsl Hlen Htot Hblock Harea Harea0)
      as (s' & Hset & Hre & _ & _ & Hget).
    exists s'. repeat apply conj; try assumption.
    + unfold _setPatchAmount.
      rewrite (run_bind_lift _ tt); [exact Hset |].
      apply assert_true.
      now rewrite (proj2 (ltb_real_nlt _ _) (Qcle_not_lt _ _ Ha)).
    + unfold _getPatchAmount. rewrite Hget, bind_Ret. f_equal.
      apply Qc_mul_div, AVOGADRO_nonzero.
  - intros Ha q j s0. unfold _setPatchAmount.
    apply ltb_real_lt in Ha. now rewrite Ha.
Qed.

Lemma patch_amount_round_trip_witness :
  (exists s',
     _setPatchAmount 0 2 (Q2Qc 8) Example.ran = Done tt s' /\
     _getPatchAmount 0 2 s' = Ret (Q2Qc 8)) /\
  _setPatchAmount 0 2 (Q2Qc (-1)) Example.ran = Crash.
Proof.
  split.
  - destruct (patch_amount_round_trip 0 2 (Q2Qc 8) Example.ran
                Example.patch0) as [H _].
    + vm_compute. reflexivity.
    + vm_compute. reflexivity.
    + vm_compute. reflexivity.
    + vm_compute. reflexivity.
    + vm_compute. discriminate.
    + vm_compute. reflexivity.
    + vm_compute. reflexivity.
    + vm_compute. reflexivity.
    + vm_compute. discriminate.
    + apply Qc_is_canon. vm_compute. reflexivity.
    + intros H. apply (f_equal this) in H. vm_compute in H. discriminate.
    + destruct H as (s' & Hset & _ & _ & Hget); [vm_compute; discriminate |].
      exists s'. now split.
  - destruct (patch_amount_round_trip 0 2 (Q2Qc (-1)) Example.ran
                Example.patch0) as [_ H].
    + vm_compute. reflexivity.
    + vm_compute. reflexivity.
    + vm_compute. reflexivity.
    + vm_compute. reflexivity.
    + vm_compute. discriminate.
    + vm_compute. reflexivity.
    + vm_compute. reflexivity.
    + vm_compute. reflexivity.
    + vm_compute. discriminate.
    + apply Qc_is_canon. vm_compute. reflexivity.
    + intros H0. apply (f_equal this) in H0. vm_compute in H0. discriminate.
    + apply H. vm_compute. reflexivity.
Defined.

(** ** Activation flags of a kinetic process *)

Lemma setActive_bit (mask : Z) (a : bool) (k : KProc.t) (i : Z) :
  (0 <= i)%Z ->
  Z.testbit (KProc.pFlags (KProc.setActive mask a k)) i =
    if Z.testbit mask i then negb a else Z.testbit (KProc.pFlags k) i.
Proof.
  intros Hi. unfold KProc.setActive. cbn [KProc.pFlags].
  destruct a.
  - rewrite Z.land_spec, Z.lnot_spec by exact Hi.
    destruct (Z.testbit mask i); cbn; [apply andb_false_r | apply andb_true_r].
  - rewrite Z.lor_spec.
    destruct (Z.testbit mask i); cbn; [apply orb_true_r | apply orb_false_r].
Qed.

(** [setActive] sets the bits of [INACTIVATED] in the flags to the
    complement of [active] and leaves every other bit, the extent and the
    schedule index as they are. So of two calls in a row the last one wins,
    the flags stay an unsigned word without a sign, and activating a
    process that was deactivated gives back the flags it had when its
    [INACTIVATED] bits were clear. *)
Theorem setActive_touches_own_bits (mask : Z) (a b : bool) (k : KProc.t) :
  (0 <= mask)%Z -> (0 <= KProc.pFlags k)%Z ->
  (forall i, (0 <= i)%Z ->
     Z.testbit (KProc.pFlags (KProc.setActive mask a k)) i =
       if Z.testbit mask i then negb a else Z.testbit (KProc.pFlags k) i) /\
  KProc.getExtent (KProc.setActive mask a k) = KProc.getExtent k /\
  KProc.pSchedIDX (KProc.setActive mask a k) = KProc.pSchedIDX k /\
  (0 <= KProc.pFlags (KProc.setActive mask a k))%Z /\
  KProc.setActive mask b (KProc.setActive mask a k) =
    KProc.setActive mask b k /\
  (Z.land (KProc.pFlags k) mask = 0%Z ->
   KProc.setActive mask true (KProc.setActive mask false k) = k).
Proof.
  intros Hmask Hflags.
  assert (Heq : forall k1 k2 : KProc.t,
            KProc.rExtent k1 = KProc.rExtent k2 ->
            KProc.pSchedIDX k1 = KProc.pSchedIDX k2 ->
            (forall i, (0 <= i)%Z ->
               Z.testbit (KProc.pFlags k1) i = Z.testbit (KProc.pFlags k2) i) ->
            k1 = k2).
  { intros [e1 f1 s1] [e2 f2 s2]. cbn. intros -> -> Hbits.
    f_equal. now apply Z.bits_inj'. }
  repeat apply conj.
  - intros i Hi. now apply setActive_bit.
  - reflexivity.
  - reflexivity.
  - unfold KProc.setActive. cbn [KProc.pFlags]. destruct a.
    + apply Z.land_nonneg. now left.
    + now apply Z.lor_nonneg.
  - apply Heq; try reflexivity. intros i Hi.
    rewrite !setActive_bit by exact Hi.
    now destruct (Z.testbit mask i).
  - intros Hclear. apply Heq; try reflexivity. intros i Hi.
    rewrite !setActive_bit by exact Hi.
    destruct (Z.testbit mask i) eqn:Hm; [| reflexivity].
    apply (f_equal (fun z => Z.testbit z i)) in Hclear.
    rewrite Z.land_spec, Hm, Z.bits_0, andb_true_r in Hclear.
    now rewrite Hclear.
Qed.

Lemma setActive_touches_own_bits_witness :
  KProc.setActive 1 true (KProc.setActive 1 false KProc.new) = KProc.new.
Proof.
  destruct (setActive_touches_own_bits 1 false true KProc.new)
    as (_ & _ & _ & _ & _ & H); [vm_compute; discriminate
                                | vm_compute; discriminate |].
  apply H. reflexivity.
Defined.

(** ** Volume reactions and the number of molecules *)

Lemma Q2Qc_inject_add (a b : Z) :
  Q2Qc (inject_Z (a + b)) = (Q2Qc (inject_Z a) + Q2Qc (inject_Z b))%Qc.
Proof.
  apply Qc_is_canon. cbn [this Qcplus Q2Qc]. rewrite !Qred_correct.
  rewrite inject_Z_plus. apply Qeq_refl.
Qed.

Lemma Qc_sum_flat_map {A : Type} (g : A -> list real) (l : list A) :
  Qc_sum (flat_map g l) = Qc_sum ((fun a => Qc_sum (g a)) <$> l).
Proof.
  induction l as [| a l IH]; [reflexivity |].
  cbn [flat_map fmap list_fmap]. now rewrite Qc_sum_app, Qc_sum_cons, IH.
Qed.

Lemma Qc_sum_zeros {A : Type} (g : A -> real) (l : list A) :
  (forall a, a ∈ l -> g a = 0%Qc) -> Qc_sum (g <$> l) = 0%Qc.
Proof.
  induction l as [| a l IH]; intros H; [reflexivity |].
  cbn [fmap list_fmap]. rewrite Qc_sum_cons, H by constructor.
  rewrite IH by (intros b Hb; apply H; now constructor).
  apply Qcplus_0_l.
Qed.

Lemma lhs_descriptors_in_range (lhs : N -> N) (s nspecs : N) (n : nat) :
  s + nspecs <= N.of_nat n ->
  Forall (fun q => (N.to_nat (spec_idx q) < n)%nat)
         (lhs_descriptors lhs s nspecs).
Proof.
  intros Hs. unfold lhs_descriptors.
  apply Forall_flat_map, Forall_forall. intros l Hl.
  apply elem_of_range in Hl.
  destruct (lhs l =? 0); repeat constructor. cbn. lia.
Qed.

Section ReactionTotals.

Variables (comp : Comp.t) (n : nat) (y : list real).

Let cdef := Comp.def comp.
Let nspecs := Compdef.countSpecs cdef.
Let nreacs := Compdef.countReacs cdef.
Let ntets := N.of_nat (length (Comp.pTets comp)).

(** The processes of one reaction in one tetrahedron run at one speed and
    differ by their update only. *)
Lemma reac_entries_j_rates (vol : real) (r s j : N) :
  Qc_sum ((fun e => process_rate y e.2) <$> reac_entries_j cdef vol r s j) =
    (Q2Qc (inject_Z (net_update cdef j)) *
     reaction_speed y cdef vol s j)%Qc.
Proof.
  unfold reac_entries_j, net_update, reaction_speed. fold nspecs.
  induction (range nspecs) as [| k l IH].
  - cbn. apply Qc_is_canon. reflexivity.
  - cbn [flat_map fmap list_fmap foldr].
    rewrite fmap_app, Qc_sum_app, IH, Q2Qc_inject_add.
    destruct (Z.eqb_spec (Compdef.reac_upd_bgn cdef j k) 0) as [-> | _].
    + cbn [fmap list_fmap]. change (Qc_sum []) with 0%Qc.
      assert (H0 : Q2Qc (inject_Z 0) = 0%Qc)
        by (apply Qc_is_canon; reflexivity).
      rewrite H0. ring.
    + cbn [fmap list_fmap snd]. rewrite Qc_sum_cons.
      change (Qc_sum []) with 0%Qc.
      unfold process_rate, descriptors.
      cbn [upd ccst players info fmap list_fmap concat].
      rewrite app_nil_r. ring.
Qed.

Lemma reac_entries_t_rates (r0 s0 : N) (t : nat) :
  Qc_sum ((fun e => process_rate y e.2) <$> reac_entries_t comp r0 s0 t) =
    Qc_sum
      match Comp.pTets comp !! t with
      | Some tet =>
          (fun j =>
             Q2Qc (inject_Z (net_update cdef j)) *
             reaction_speed y cdef (Tet.vol tet)
               (s0 + nspecs * N.of_nat t) j)%Qc
          <$> range nreacs
      | None => []
      end.
Proof.
  unfold reac_entries_t. fold cdef nspecs nreacs.
  destruct (Comp.pTets comp !! t) as [tet |]; [| reflexivity].
  induction (range nreacs) as [| j js IHj]; [reflexivity |].
  cbn [flat_map fmap list_fmap].
  rewrite fmap_app, Qc_sum_app, Qc_sum_cons, IHj.
  now rewrite reac_entries_j_rates.
Qed.

Lemma reac_entries_rates (r0 s0 : N) :
  Qc_sum ((fun e => process_rate y e.2) <$> reac_entries comp r0 s0) =
    Qc_sum (net_rates y comp s0).
Proof.
  unfold reac_entries, reac_entries_from, net_rates. fold cdef nspecs nreacs.
  induction (seq 0 (length (Comp.pTets comp))) as [| t l IH];
    [reflexivity |].
  cbn [flat_map]. rewrite fmap_app, !Qc_sum_app, IH.
  now rewrite reac_entries_t_rates.
Qed.

Lemma reac_entries_in_range (r0 s0 : N) :
  s0 + nspecs * ntets <= N.of_nat n ->
  Forall (entry_in_range n) (reac_entries comp r0 s0).
Proof.
  intros Hfit. unfold reac_entries, reac_entries_from.
  apply Forall_flat_map, Forall_forall. intros t Ht.
  apply elem_of_seq in Ht.
  unfold reac_entries_t. fold cdef nspecs nreacs.
  destruct (Comp.pTets comp !! t) as [tet |]; [| constructor].
  apply Forall_flat_map, Forall_forall. intros j _.
  unfold reac_entries_j. fold nspecs.
  apply Forall_flat_map, Forall_forall. intros k Hk.
  apply elem_of_range in Hk.
  destruct (_ =? 0)%Z; constructor; [| constructor].
  assert (Hblock : s0 + nspecs * N.of_nat t + nspecs <= N.of_nat n)
    by (unfold ntets in Hfit; nia).
  split.
  - cbn. lia.
  - unfold descriptors. cbn [snd players info fmap list_fmap concat].
    rewrite app_nil_r. now apply lhs_descriptors_in_range.
Qed.

End ReactionTotals.

(** On a process graph that holds only the volume reactions of a
    compartment, as the builder lays them out, the derivatives that
    [f_cvode] writes add up to the sum, over the tetrahedra and the
    reactions, of the reaction's net update times its mass-action speed
    in the tetrahedron. So reactions that each keep the number of
    molecules keep the total, whatever the state vector is. *)
Theorem reactions_change_total (comp : Comp.t) (r0 s0 : N) (t : real)
    (y ydot : list real) :
  let cdef := Comp.def comp in
  let nspecs := Compdef.countSpecs cdef in
  let nreacs := Compdef.countReacs cdef in
  let ntets := N.of_nat (length (Comp.pTets comp)) in
  let n := length y in
  s0 + nspecs * ntets <= N.of_nat n ->
  N.of_nat n < UInt.modulus ->
  ntets < UInt.modulus ->
  r0 + nreacs * ntets < UInt.modulus ->
  length ydot = n ->
  exists (G' : matrix) (m' : rhs_memory),
    foldM (setup_reac_t comp) (replicate n [], r0, s0)
          (range (Comp.countTets comp)) =
      Ret (G', r0 + nreacs * ntets, s0 + nspecs * ntets) /\
    f_cvode t {| mem_matrixsub := G'; mem_y := y; mem_ydot := ydot |} =
      Ret (0%Z, m') /\
    length (mem_ydot m') = n /\
    Qc_sum (mem_ydot m') = Qc_sum (net_rates y comp s0) /\
    ((forall j, j < nreacs -> net_update cdef j = 0%Z) ->
     Qc_sum (mem_ydot m') = 0%Qc).
Proof.
  intros cdef nspecs nreacs ntets n Hfit Hn Hntets Hr Hydot.
  set (es := reac_entries comp r0 s0).
  set (G' := push_all es (replicate n [])).
  assert (Hrange : Forall (entry_in_range n) es)
    by (now apply reac_entries_in_range).
  assert (HlenG : length G' = n).
  { unfold G'. now rewrite length_push_all, length_replicate. }
  assert (Hdesc : descriptors_in_range G' y).
  { apply descriptors_push_all; [exact Hrange |].
    apply Forall_replicate. constructor. }
  destruct (foldM_sp_ok y G' Hdesc ydot 0) as [i' Hfold];
    [lia | cbn; lia |].
  assert (Hsum : Qc_sum (slot_derivative y <$> G') =
                 Qc_sum (net_rates y comp s0)).
  { unfold G'. rewrite derivative_sum_push_all.
    - unfold es. rewrite (reac_entries_rates comp y).
      assert (H0 : Qc_sum (slot_derivative y <$> replicate n []) = 0%Qc).
      { clear. induction n as [| k IH]; [reflexivity |].
        cbn [replicate fmap list_fmap]. rewrite Qc_sum_cons, IH.
        apply Qcplus_0_l. }
      rewrite H0. apply Qcplus_0_l.
    - rewrite length_replicate.
      eapply Forall_impl; [exact Hrange |]. now intros e [He _]. }
  exists G'. eexists. split; [| split; [| split; [| split]]].
  - unfold Comp.countTets. rewrite size_small by exact Hntets.
    rewrite range_unfold, Nat2N.id.
    pose proof (setup_reac_ts_ok comp n Hn r0 s0
                  (length (Comp.pTets comp)) 0%nat (replicate n [])) as H.
    rewrite !N.mul_0_r, !N.add_0_r in H.
    apply H; [lia | exact Hfit | exact Hr | apply length_replicate].
  - unfold f_cvode. cbn [mem_matrixsub mem_y mem_ydot].
    rewrite Hfold, bind_Ret. reflexivity.
  - cbn [mem_ydot fst]. change (N.to_nat 0) with 0%nat.
    rewrite take_0, drop_ge by lia.
    now rewrite app_nil_r, length_app, length_fmap.
  - cbn [mem_ydot fst]. change (N.to_nat 0) with 0%nat.
    rewrite take_0, drop_ge by lia.
    rewrite app_nil_r. cbn [app]. exact Hsum.
  - intros Hnet. unfold nreacs, cdef in Hnet.
    cbn [mem_ydot fst]. change (N.to_nat 0) with 0%nat.
    rewrite take_0, drop_ge by lia.
    rewrite app_nil_r. cbn [app]. rewrite Hsum.
    unfold net_rates. rewrite Qc_sum_flat_map.
    apply Qc_sum_zeros. intros tt _.
    destruct (Comp.pTets comp !! tt) as [tet |]; [| reflexivity].
    apply Qc_sum_zeros. intros j Hj. apply elem_of_range in Hj.
    rewrite (Hnet j Hj).
    assert (H0 : Q2Qc (inject_Z 0) = 0%Qc)
      by (apply Qc_is_canon; reflexivity).
    rewrite H0. ring.
Qed.

Lemma reactions_change_total_witness :
  exists (G' : matrix) (m' : rhs_memory),
    f_cvode 0%Qc {| mem_matrixsub := G';
                    mem_y := Q2Qc <$> [5; 0; 1; 7]%Q;
                    mem_ydot := replicate 4 0%Qc |} = Ret (0%Z, m') /\
    Qc_sum (mem_ydot m') = 0%Qc.
Proof.
  destruct (reactions_change_total Example.comp0 0 0 0%Qc
              (Q2Qc <$> [5; 0; 1; 7]%Q) (replicate 4 0%Qc))
    as (G' & m' & _ & Hf & _ & _ & Hzero).
  - vm_compute. discriminate.
  - vm_compute. reflexivity.
  - vm_compute. reflexivity.
  - vm_compute. reflexivity.
  - reflexivity.
  - exists G', m'. split; [exact Hf |]. apply Hzero.
    intros j Hj. change (j < 1) in Hj. assert (j = 0) as -> by lia.
    vm_compute. reflexivity.
Defined.

(** ** The step budget *)

(** [setMaxNumSteps] makes one call on the integrator. When the integrator
    accepts it the budget is stored and nothing else changes; when it
    answers with a negative flag [SysErr] is raised and the stored budget
    is as before. After an accepted [setMaxNumSteps maxn], the only step
    budget that a [run] hands to the integrator, however the run ends, is
    [maxn]. *)
Theorem setMaxNumSteps_contract (cv : Integrator) (maxn : N) (s : TetODE) :
  let mem := cvode_mem_cvode s ++ [CVodeSetMaxNumSteps maxn] in
  ((0 <= cv_flag (cv mem))%Z ->
   let s1 := set_pNmax_cvode maxn (set_cvode_mem_cvode mem s) in
   setMaxNumSteps cv maxn s = Done tt s1 /\
   forall endtime s2 calls k,
     final_state (run cv endtime s1) = Some s2 ->
     cvode_mem_cvode s2 = mem ++ calls ->
     CVodeSetMaxNumSteps k ∈ calls -> k = maxn) /\
  ((cv_flag (cv mem) < 0)%Z ->
   exists msg,
     setMaxNumSteps cv maxn s =
       Raise (SysErr msg) (set_cvode_mem_cvode mem s) /\
     pNmax_cvode (set_cvode_mem_cvode mem s) = pNmax_cvode s).
Proof.
  intros mem. split.
  - intros Hflag s1. split.
    + unfold setMaxNumSteps, cv_invoke, mbind, method_bind, check_flag.
      fold mem. cbn -[Z.ltb].
      now rewrite (proj2 (Z.ltb_ge _ _) Hflag).
    + intros endtime s2 calls k Hrun Hmem Hin.
      destruct (run_calls cv endtime s1 s2 Hrun) as (calls' & Hmem' & Hpre).
      change (cvode_mem_cvode s1) with mem in Hmem'.
      rewrite Hmem in Hmem'. apply app_inv_head in Hmem'. subst calls'.
      assert (Hin' : CVodeSetMaxNumSteps k ∈ calls_of_run endtime s1).
      { destruct Hpre as [rest ->]. apply elem_of_app. now left. }
      unfold calls_of_run, init_calls, reinit_calls, step_call in Hin'.
      change (pNmax_cvode s1) with maxn in Hin'.
      destruct (pInitialised s1), (pReinit s1); cbn in Hin';
        repeat match goal with
        | H : _ ∈ _ :: _ |- _ => apply elem_of_cons in H; destruct H as [H | H]
        | H : _ ∈ [] |- _ => now apply elem_of_nil in H
        end; try discriminate; now injection Hin'.
  - intros Hflag. eexists. split; [| reflexivity].
    unfold setMaxNumSteps, cv_invoke, mbind, method_bind, check_flag.
    fold mem. cbn -[Z.ltb].
    now rewrite (proj2 (Z.ltb_lt _ _) Hflag).
Qed.

Lemma setMaxNumSteps_contract_witness :
  exists s1,
    setMaxNumSteps Example.cv_ok 500 Example.fresh = Done tt s1 /\
    pNmax_cvode s1 = 500.
Proof.
  destruct (setMaxNumSteps_contract Example.cv_ok 500 Example.fresh)
    as [H _].
  destruct H as [Hset _]; [vm_compute; discriminate |].
  eexists. split; [exact Hset | reflexivity].
Defined.
